(** * ClawFeed digest pipeline: deduplication, push history, digest synthesis

    A shallow embedding of [scripts/fetch-and-digest.mjs] (the version with
    push history): title similarity, URL normalisation and hashing, the
    [pushed_items] history table, the JSON repair cascade of
    [generateDigest], [deduplicateItems], the pre-dedup loop of [main], the
    rescue of items from a raw text, the RSS and Atom parser, the feed
    fetchers with their retries and fall-backs, and the readers of the
    command line and of the [.env] file.

    JavaScript strings are sequences of UTF-16 code units, values are a
    small tagged union, thrown exceptions are an explicit [Throw] result, and
    the regular expressions of the source are written as syntax trees and
    run by a backtracking matcher. *)

From Stdlib Require Import List NArith ZArith Bool Lia String Ascii Permutation.
Import ListNotations.

Set Implicit Arguments.

(** ** JavaScript strings *)

(** A string is the list of its UTF-16 code units. *)
Definition jsstring := list N.

Fixpoint str_eqb (a b : jsstring) : bool :=
  match a, b with
  | [], [] => true
  | x :: a', y :: b' => N.eqb x y && str_eqb a' b'
  | _, _ => false
  end.

(** ASCII literals.  [jsq] additionally turns every apostrophe into a double
    quote, which lets JSON text be written inside a Rocq string. *)
Definition js (s : string) : jsstring :=
  List.map N_of_ascii (list_ascii_of_string s).

Definition jsq (s : string) : jsstring :=
  List.map (fun c => if N.eqb c 39 then 34%N else c) (js s).

(** [\s] of a regular expression, which is also what [trim] removes:
    WhiteSpace and LineTerminator of ECMA-262. *)
Definition is_space (c : N) : bool :=
  ((9 <=? c) && (c <=? 13) || (c =? 32) || (c =? 160) || (c =? 0x1680)
   || (0x2000 <=? c) && (c <=? 0x200A) || (c =? 0x2028) || (c =? 0x2029)
   || (c =? 0x202F) || (c =? 0x205F) || (c =? 0x3000) || (c =? 0xFEFF))%N.

Definition is_digit (c : N) : bool := ((48 <=? c) && (c <=? 57))%N.

(** Line terminators, which [.] does not match. *)
Definition is_line_terminator (c : N) : bool :=
  ((c =? 10) || (c =? 13) || (c =? 0x2028) || (c =? 0x2029))%N.

Fixpoint starts_with (p s : jsstring) : bool :=
  match p, s with
  | [], _ => true
  | x :: p', y :: s' => N.eqb x y && starts_with p' s'
  | _ :: _, [] => false
  end.

(** [s.includes(p)] *)
Fixpoint includes (s p : jsstring) : bool :=
  starts_with p s ||
  match s with
  | [] => false
  | _ :: s' => includes s' p
  end.

Fixpoint trimStart (s : jsstring) : jsstring :=
  match s with
  | c :: s' => if is_space c then trimStart s' else s
  | [] => []
  end.

Definition trimEnd (s : jsstring) : jsstring := rev (trimStart (rev s)).

(** [s.trim()] *)
Definition trim (s : jsstring) : jsstring := trimEnd (trimStart s).

(** [s.split('\n')] *)
Fixpoint split_lines_aux (cur : jsstring) (s : jsstring) : list jsstring :=
  match s with
  | [] => [rev cur]
  | c :: s' =>
      if N.eqb c 10 then rev cur :: split_lines_aux [] s'
      else split_lines_aux (c :: cur) s'
  end.

Definition split_lines (s : jsstring) : list jsstring := split_lines_aux [] s.

(** [lines.join('\n')] *)
Fixpoint join_lines (ls : list jsstring) : jsstring :=
  match ls with
  | [] => []
  | [l] => l
  | l :: ls' => l ++ 10%N :: join_lines ls'
  end.

(** ** Regular expressions

    The regular expressions of the source are kept as syntax and run by a
    backtracking matcher with the priorities of ECMA-262: alternatives left
    to right, greedy quantifiers longest first, lazy ones shortest first, an
    iteration of an unbounded quantifier that consumes nothing is
    rejected. *)

Inductive citem : Type :=
| CC (c : N)            (* a single character *)
| CR (lo hi : N)        (* a range lo-hi *)
| CSpace                (* \s *)
| CNonSpace             (* \S *)
| CDigit.               (* \d *)

Inductive regex : Type :=
| RChar (c : N)
| RSet (neg : bool) (items : list citem)              (* [...] and [^...] *)
| RDot                                                (* . *)
| RSeq (r1 r2 : regex)
| RAlt (r1 r2 : regex)
| RQuant (greedy : bool) (min : nat) (max : option nat) (r : regex)
| RGroup (n : nat) (r : regex)                        (* capturing group n *)
| RBol                                                (* ^ without the m flag *)
| REol                                                (* $ without the m flag *)
| RAhead (r : regex)                                  (* (?=r) *)
| RNotBehind (c : N)                                  (* (?<!c) for one character *)
| REmpty.

Definition RStar (r : regex) : regex := RQuant true 0 None r.
Definition RLazyStar (r : regex) : regex := RQuant false 0 None r.
Definition RPlus (r : regex) : regex := RQuant true 1 None r.
Definition ROpt (r : regex) : regex := RQuant true 0 (Some 1) r.

Fixpoint RLit (s : jsstring) : regex :=
  match s with
  | [] => REmpty
  | [c] => RChar c
  | c :: s' => RSeq (RChar c) (RLit s')
  end.

Fixpoint RSeqs (rs : list regex) : regex :=
  match rs with
  | [] => REmpty
  | [r] => r
  | r :: rs' => RSeq r (RSeqs rs')
  end.

Fixpoint RAlts (rs : list regex) : regex :=
  match rs with
  | [] => REmpty
  | [r] => r
  | r :: rs' => RAlt r (RAlts rs')
  end.

(** The other ASCII case of a letter.  With the [i] flag and without the [u]
    flag a pattern character [a] matches an input character [c] when their
    canonical forms (the upper-case mappings, kept only when they do not
    turn a non-ASCII character into an ASCII one) agree.  The patterns of
    this program contain ASCII characters, white space, four CJK ideographs
    and U+FF05 only, for which that means: [c] is [a] or its other ASCII
    case. *)
Definition swapcase (c : N) : N :=
  if ((65 <=? c) && (c <=? 90))%N then (c + 32)%N
  else if ((97 <=? c) && (c <=? 122))%N then (c - 32)%N
  else c.

Definition citem_has (it : citem) (c : N) : bool :=
  match it with
  | CC a => N.eqb a c
  | CR lo hi => ((lo <=? c) && (c <=? hi))%N
  | CSpace => is_space c
  | CNonSpace => negb (is_space c)
  | CDigit => is_digit c
  end.

Definition citem_match (ic : bool) (it : citem) (c : N) : bool :=
  citem_has it c || (ic && citem_has it (swapcase c)).

Definition set_match (ic neg : bool) (items : list citem) (c : N) : bool :=
  xorb neg (existsb (fun it => citem_match ic it c) items).

(** Matcher state: the consumed input (reversed), the remaining input, the
    number of consumed code units and the captures. *)
Record mstate : Type := MState {
  before : jsstring;
  after : jsstring;
  pos : nat;
  caps : list (nat * jsstring)
}.

Definition cont : Type := mstate -> option mstate.

Definition advance (s : mstate) : option (N * mstate) :=
  match after s with
  | [] => None
  | c :: rest => Some (c, MState (c :: before s) rest (S (pos s)) (caps s))
  end.

Definition eat (p : N -> bool) (s : mstate) (k : cont) : option mstate :=
  match advance s with
  | Some (c, s') => if p c then k s' else None
  | None => None
  end.

(** The optional iterations of a quantifier; [n] bounds their number. *)
Fixpoint iter_opt (step : mstate -> cont -> option mstate) (greedy : bool)
    (n : nat) (s : mstate) (k : cont) : option mstate :=
  match n with
  | O => k s
  | S n' =>
      if greedy then
        match step s (fun s' =>
                 if Nat.ltb (pos s) (pos s') then iter_opt step greedy n' s' k
                 else None) with
        | Some r => Some r
        | None => k s
        end
      else
        match k s with
        | Some r => Some r
        | None =>
            step s (fun s' =>
              if Nat.ltb (pos s) (pos s') then iter_opt step greedy n' s' k
              else None)
        end
  end.

(** The mandatory iterations first, then the optional ones. *)
Fixpoint iter_min (step : mstate -> cont -> option mstate) (greedy : bool)
    (min : nat) (max : option nat) (s : mstate) (k : cont) : option mstate :=
  match min with
  | S m => step s (fun s' => iter_min step greedy m max s' k)
  | O =>
      match max with
      | Some n => iter_opt step greedy n s k
      | None => iter_opt step greedy (S (List.length (after s))) s k
      end
  end.

Definition quant_rest (min : nat) (max : option nat) : option nat :=
  match max with
  | Some n => Some (n - min)
  | None => None
  end.

Fixpoint rmatch (ic : bool) (r : regex) (s : mstate) (k : cont) {struct r}
  : option mstate :=
  match r with
  | RChar a => eat (fun c => N.eqb a c || (ic && N.eqb a (swapcase c))) s k
  | RSet neg items => eat (set_match ic neg items) s k
  | RDot => eat (fun c => negb (is_line_terminator c)) s k
  | RSeq r1 r2 => rmatch ic r1 s (fun s' => rmatch ic r2 s' k)
  | RAlt r1 r2 =>
      match rmatch ic r1 s k with
      | Some x => Some x
      | None => rmatch ic r2 s k
      end
  | RQuant greedy min max r' =>
      iter_min (rmatch ic r') greedy min (quant_rest min max) s k
  | RGroup n r' =>
      rmatch ic r' s (fun s' =>
        k (MState (before s') (after s') (pos s')
             ((n, firstn (pos s' - pos s) (after s)) :: caps s')))
  | RBol => match before s with [] => k s | _ :: _ => None end
  | REol => match after s with [] => k s | _ :: _ => None end
  | RAhead r' =>
      match rmatch ic r' s (fun s' => Some s') with
      | Some s' => k (MState (before s) (after s) (pos s) (caps s'))
      | None => None
      end
  | RNotBehind c =>
      match before s with
      | b :: _ => if N.eqb b c then None else k s
      | [] => k s
      end
  | REmpty => k s
  end.

(** The capture of group [n]; the empty string when the group did not take
    part in the match. *)
Fixpoint cap (n : nat) (cs : list (nat * jsstring)) : jsstring :=
  match cs with
  | [] => []
  | (m, v) :: cs' => if Nat.eqb n m then v else cap n cs'
  end.

(** The leftmost match at or after the current position: the state where it
    starts and the state where it ends. *)
Fixpoint search (ic : bool) (r : regex) (bef aft : jsstring) (p : nat)
  : option (mstate * mstate) :=
  let s := MState bef aft p [] in
  match rmatch ic r s (fun e => Some e) with
  | Some e => Some (s, e)
  | None =>
      match aft with
      | [] => None
      | c :: aft' => search ic r (c :: bef) aft' (S p)
      end
  end.

Definition matched (s e : mstate) : jsstring := firstn (pos e - pos s) (after s).

(** A replacement string: a literal or [$1]-style group reference. *)
Inductive repl : Type :=
| RepLit (s : jsstring)
| RepGroup (n : nat).

Definition repl_text (rp : repl) (e : mstate) : jsstring :=
  match rp with
  | RepLit t => t
  | RepGroup n => cap n (caps e)
  end.

(** [str.match(re)] without the g flag: the state at the end of the first
    match and the matched text. *)
Definition match_first (ic : bool) (r : regex) (str : jsstring)
  : option (mstate * jsstring) :=
  match search ic r [] str 0 with
  | Some (s, e) => Some (e, matched s e)
  | None => None
  end.

(** [str.replace(re, rp)] without the g flag. *)
Definition replace_first (ic : bool) (r : regex) (rp : repl) (str : jsstring)
  : jsstring :=
  match search ic r [] str 0 with
  | Some (s, e) => rev (before s) ++ repl_text rp e ++ after e
  | None => str
  end.

(** The matches of a g-flag expression from a position on, each with the
    text skipped before it, and the unmatched tail.  Every g-flag expression
    of this program consumes at least one code unit per match; the scan
    stops at a match that consumes nothing. *)
Fixpoint scan (ic : bool) (r : regex) (fuel : nat) (bef aft : jsstring)
    (p : nat) : list (jsstring * mstate * jsstring) * jsstring :=
  match fuel with
  | O => ([], aft)
  | S fuel' =>
      match search ic r bef aft p with
      | None => ([], aft)
      | Some (s, e) =>
          if Nat.ltb (pos s) (pos e) then
            let (ms, tl) := scan ic r fuel' (before e) (after e) (pos e) in
            ((firstn (pos s - p) aft, e, matched s e) :: ms, tl)
          else ([], aft)
      end
  end.

Definition scan_all (ic : bool) (r : regex) (str : jsstring) :=
  scan ic r (S (List.length str)) [] str 0.

(** [str.replace(re, rp)] with the g flag. *)
Definition replace_all (ic : bool) (r : regex) (rp : repl) (str : jsstring)
  : jsstring :=
  let (ms, tl) := scan_all ic r str in
  List.concat (List.map (fun m =>
     match m with (sk, e, _) => sk ++ repl_text rp e end) ms) ++ tl.

(** [str.match(re) || []] with the g flag: the matched texts. *)
Definition match_all (ic : bool) (r : regex) (str : jsstring) : list jsstring :=
  List.map (fun m => match m with (_, _, t) => t end) (fst (scan_all ic r str)).


(** ** JavaScript values and exceptions *)

(** The values this program handles: what [JSON.parse] produces, plus
    [undefined].  A number is kept as the decimal [m * 10^e] it was written
    as; an object as the list of its members in source order (a later
    member with the same key wins). *)
#[local] Unset Elimination Schemes.
Inductive jsval : Type :=
| VUndef
| VNull
| VBool (b : bool)
| VNum (m e : Z)
| VStr (s : jsstring)
| VArr (l : list jsval)
| VObj (fields : list (jsstring * jsval)).
#[local] Set Elimination Schemes.

(** Everything the program can throw is caught, if at all, by a catch-all
    clause, so one constructor per kind is enough. *)
Inductive exn : Type :=
| TypeError
| SyntaxError
| SqliteError
| RangeError
| JsError.

Inductive result (A : Type) : Type :=
| Ok (a : A)
| Throw (e : exn).

Arguments Ok {A} a.
Arguments Throw {A} e.

Definition bind {A B : Type} (r : result A) (f : A -> result B) : result B :=
  match r with
  | Ok a => f a
  | Throw e => Throw e
  end.

(** [try { body } catch { handler }] *)
Definition try_catch {A : Type} (body : result A) (handler : result A)
  : result A :=
  match body with
  | Ok a => Ok a
  | Throw _ => handler
  end.

Declare Scope js_scope.
Delimit Scope js_scope with js.
Notation "x <- c ;; k" := (bind c (fun x => k))
  (at level 61, c at next level, right associativity) : js_scope.
Local Open Scope js_scope.

Fixpoint jsval_eqb (a b : jsval) {struct a} : bool :=
  match a, b with
  | VUndef, VUndef => true
  | VNull, VNull => true
  | VBool x, VBool y => Bool.eqb x y
  | VNum m e, VNum m' e' => Z.eqb m m' && Z.eqb e e'
  | VStr s, VStr t => str_eqb s t
  | VArr l, VArr l' =>
      (fix go (l l' : list jsval) {struct l} : bool :=
         match l, l' with
         | [], [] => true
         | x :: l1, y :: l1' => jsval_eqb x y && go l1 l1'
         | _, _ => false
         end) l l'
  | VObj f, VObj f' =>
      (fix go (f f' : list (jsstring * jsval)) {struct f} : bool :=
         match f, f' with
         | [], [] => true
         | (k, x) :: f1, (k', y) :: f1' =>
             str_eqb k k' && jsval_eqb x y && go f1 f1'
         | _, _ => false
         end) f f'
  | _, _ => false
  end.

(** A double is zero exactly when the decimal it was read from is at most
    [2^-1075] in magnitude (half the smallest subnormal, ties to even). *)
Definition num_nonzero (m e : Z) : bool :=
  if Z.eqb m 0 then false
  else if Z.leb 0 e then true
  else Z.ltb (10 ^ (- e)) (Z.abs m * 2 ^ 1075).

(** ToBoolean *)
Definition truthy (v : jsval) : bool :=
  match v with
  | VUndef | VNull => false
  | VBool b => b
  | VNum m e => num_nonzero m e
  | VStr s => match s with [] => false | _ :: _ => true end
  | VArr _ | VObj _ => true
  end.

Fixpoint lookup_last (k : jsstring) (fs : list (jsstring * jsval))
  : option jsval :=
  match fs with
  | [] => None
  | (k', v) :: fs' =>
      match lookup_last k fs' with
      | Some w => Some w
      | None => if str_eqb k k' then Some v else None
      end
  end.

(** [v.k] for the property names this program reads ([title], [url],
    [summary], [category], [pubDate], [description], [_sourceName]): none
    of them exists on a prototype,
    so only own members of objects are found; reading a property of
    [null] or [undefined] throws. *)
Definition get (v : jsval) (k : jsstring) : result jsval :=
  match v with
  | VUndef | VNull => Throw TypeError
  | VObj fs => match lookup_last k fs with Some w => Ok w | None => Ok VUndef end
  | _ => Ok VUndef
  end.

(** [v || ''] *)
Definition or_empty (v : jsval) : jsval := if truthy v then v else VStr [].

(** Calling a string method on a value: a [TypeError] unless the value is a
    string (a number, a boolean, an array or an object read from JSON has no
    callable member of that name). *)
Definition as_string (v : jsval) : result jsstring :=
  match v with
  | VStr s => Ok s
  | _ => Throw TypeError
  end.

(** Does the string conversion of a template literal throw?  An object read
    from JSON converts through [Object.prototype.toString] unless it has an
    own (hence not callable) [toString] member; an array joins the
    conversions of its elements, [null] and [undefined] counting as empty. *)
Fixpoint to_string_throws (v : jsval) : bool :=
  match v with
  | VObj fs => existsb (fun kv => str_eqb (fst kv) (js "toString")) fs
  | VArr l => existsb to_string_throws l
  | _ => false
  end.

(** ** The runtime

    Library functions of the JavaScript runtime that the program calls and
    that are not part of the repository.  The program is embedded over any
    runtime; a reference runtime for a documented fragment of inputs is
    given further down and used to evaluate the program. *)
Class Runtime : Type := {
  (** [s.toLowerCase()] *)
  toLowerCase : jsstring -> jsstring;
  (** [createHash('sha256').update(s).digest('hex')] *)
  sha256_hex : jsstring -> jsstring;
  (** [new URL(v)]: its [hostname] and [pathname], [None] when the
      constructor throws. *)
  URL_parse : jsval -> option (jsstring * jsstring);
  (** [new Date(v).getTime()] in milliseconds, [None] for [NaN]. *)
  Date_getTime : jsval -> option Z;
  toLowerCase_empty : toLowerCase [] = [];
  (** The empty string is not a date. *)
  Date_getTime_empty : Date_getTime (VStr []) = None;
  (** A falsy value converts to one of [undefined], [null], [false], [0] or
      the empty string, none of which is an absolute URL. *)
  URL_parse_falsy : forall v, truthy v = false -> URL_parse v = None
}.

(** JavaScript [Set] of strings: insertion-ordered, without duplicates. *)
Definition jsset := list jsstring.

Definition set_has (x : jsstring) (s : jsset) : bool := existsb (str_eqb x) s.

Definition set_add (x : jsstring) (s : jsset) : jsset :=
  if set_has x s then s else s ++ [x].

Definition set_of_list (l : list jsstring) : jsset :=
  fold_left (fun acc x => set_add x acc) l [].

Section Program.

Context {RT : Runtime}.

(** ** Title similarity (shared by dedup and history check) *)

(** The character class of [normalizeTitle], with the g flag: white space,
    U+3000, the full-width and ASCII colon, comma, full stop, exclamation
    and question marks, U+3001, U+00B7, em and en dash, hyphen, and the
    ASCII double and single quotes; members in the order of the source. *)
Definition normalizeTitle_re : regex :=
  RSet false
    [CSpace; CC 0x3000; CC 0xFF1A; CC 58; CC 0xFF0C; CC 44; CC 0x3002; CC 46;
     CC 0xFF01; CC 33; CC 0xFF1F; CC 63; CC 0x3001; CC 0xB7; CC 0x2014;
     CC 0x2013; CC 45; CC 34; CC 34; CC 39; CC 39; CC 34; CC 39].

Definition normalizeTitle (title : jsval) : result jsstring :=
  t <- as_string (or_empty title) ;;
  Ok (toLowerCase (replace_all false normalizeTitle_re (RepLit []) t)).

(** [/\d[\d,.]*[UNITS]+|\$[\d,.]+[kmbgt]*/gi], where UNITS is U+4EBF,
    U+4E07, U+5343, U+767E, [k], [m], [b], [g], [t], [%] and U+FF05. *)
Definition numbers_re : regex :=
  RAlt
    (RSeqs [RSet false [CDigit];
            RStar (RSet false [CDigit; CC 44; CC 46]);
            RPlus (RSet false [CC 0x4EBF; CC 0x4E07; CC 0x5343; CC 0x767E;
                               CC 107; CC 109; CC 98; CC 103; CC 116;
                               CC 37; CC 0xFF05])])
    (RSeqs [RChar 36;
            RPlus (RSet false [CDigit; CC 44; CC 46]);
            RStar (RSet false [CC 107; CC 109; CC 98; CC 103; CC 116])]).

(** [/[a-z][a-z0-9.]*[a-z0-9]/gi] *)
Definition names_re : regex :=
  RSeqs [RSet false [CR 97 122];
         RStar (RSet false [CR 97 122; CR 48 57; CC 46]);
         RSet false [CR 97 122; CR 48 57]].

(** [/[\u4e00-\u9fff]{2,6}/g] *)
Definition cnNames_re : regex :=
  RQuant true 2 (Some 6) (RSet false [CR 0x4E00 0x9FFF]).

Record entities : Type := Entities {
  numbers : list jsstring;
  names : list jsstring;
  cnNames : list jsstring
}.

Definition extractKeyEntities (title : jsval) : result entities :=
  norm <- normalizeTitle title ;;
  Ok (Entities (List.map toLowerCase (match_all true numbers_re norm))
               (List.map toLowerCase (match_all true names_re norm))
               (match_all false cnNames_re norm)).

Definition nonempty {A : Type} (l : list A) : bool := Nat.ltb 0 (List.length l).

(** [n === m || n.includes(m) || m.includes(n)] *)
Definition name_rel (n m : jsstring) : bool :=
  str_eqb n m || includes n m || includes m n.

(** The set of the two-character slices of [s], in order of first
    occurrence. *)
Fixpoint bigrams_from (s : jsstring) (acc : jsset) : jsset :=
  match s with
  | a :: ((b :: _) as s') => bigrams_from s' (set_add [a; b] acc)
  | _ => acc
  end.

Definition bigrams (s : jsstring) : jsset := bigrams_from s [].

(** [for (const g of ba) if (bb.has(g)) intersection++] *)
Definition count_common (ba bb : jsset) : nat :=
  fold_left (fun n g => if set_has g bb then S n else n) ba 0.

(** [union > 0 && (intersection / union) > 0.35].  Both operands are
    integers below [2^31]; the correctly rounded quotient exceeds the double
    nearest to 0.35 exactly when [intersection / union > 7 / 20] holds over
    the rationals. *)
Definition jaccard_above (intersection union : nat) : bool :=
  Nat.ltb 0 union && Nat.ltb (7 * union) (20 * intersection).

Definition titlesAreSimilar (a b : jsval) : result bool :=
  na <- normalizeTitle a ;;
  nb <- normalizeTitle b ;;
  if negb (nonempty na) || negb (nonempty nb) then Ok false
  else if str_eqb na nb then Ok true
  else if includes na nb || includes nb na then Ok true
  else
    ea <- extractKeyEntities a ;;
    eb <- extractKeyEntities b ;;
    if nonempty (names ea) && nonempty (names eb)
       && nonempty (numbers ea) && nonempty (numbers eb)
       && (let sharedNames :=
             filter (fun n => existsb (fun m => name_rel n m) (names eb))
                    (names ea) in
           let sharedNums :=
             filter (fun n => existsb (str_eqb n) (numbers eb)) (numbers ea) in
           nonempty sharedNames && nonempty sharedNums)
    then Ok true
    else if nonempty (names ea) && nonempty (names eb)
       && (let sharedNames :=
             filter (fun n =>
                       Nat.leb 4 (List.length n)
                       && existsb (fun m => Nat.leb 4 (List.length m)
                                            && name_rel n m) (names eb))
                    (names ea) in
           nonempty sharedNames
           && Nat.ltb (List.length na) 30 && Nat.ltb (List.length nb) 30)
    then Ok true
    else
      let ba := bigrams na in
      let bb := bigrams nb in
      if Nat.eqb (List.length ba) 0 || Nat.eqb (List.length bb) 0 then Ok false
      else
        let intersection := count_common ba bb in
        let union := List.length ba + List.length bb - intersection in
        Ok (jaccard_above intersection union).

(** ** Push history (dedup across digests) *)

(** [createHash('sha256').update(s || '').digest('hex').slice(0, 16)]; the
    argument is a string at every call. *)
Definition hashStr (s : jsstring) : jsstring := firstn 16 (sha256_hex s).

(** [/\/+$/] *)
Definition trailing_slashes_re : regex := RSeq (RPlus (RChar 47)) REol.

Definition normalizeUrlForHash (url : jsval) : result jsstring :=
  match URL_parse url with
  | Some (hostname, pathname) =>
      Ok (toLowerCase
            (replace_first false trailing_slashes_re (RepLit [])
               (hostname ++ pathname)))
  | None =>
      u <- as_string (or_empty url) ;;
      Ok (toLowerCase u)
  end.

(** [hashStr((title || '').replace(/\s+/g, '').toLowerCase())] *)
Definition titleHashOf (title : jsval) : result jsstring :=
  t <- as_string (or_empty title) ;;
  Ok (hashStr (toLowerCase
                 (replace_all false (RPlus (RSet false [CSpace])) (RepLit []) t))).

(** A row of the table [pushed_items].  [pushed_at] is the UTC time of the
    insertion in seconds: the column holds [datetime('now')], a text of
    fixed format whose order is the order of time. *)
Record row : Type := Row {
  url_hash : jsstring;
  title_hash : jsstring;
  row_title : jsstring;
  row_url : jsval;
  digest_type : jsstring;
  pushed_at : Z
}.

(** The database handle passed around: [null] (the file does not exist or
    could not be opened), a handle whose statements throw, or a handle on a
    readable and writable table. *)
Inductive pushdb : Type :=
| DbNull
| DbFaulty
| DbOpen (rows : list row).

(** What [getPushDbAsync] finds on disk. *)
Inductive dbfile : Type :=
| FileMissing
| FileUnusable            (* the driver does not load or opening it throws *)
| FileNoTable             (* opens, but creating the table throws *)
| FileFaulty              (* opens, but statements on the table throw *)
| FileOk (rows : list row).

(** [getPushDbAsync]: the cached handle [_pushDb] if there is one, otherwise
    the file is opened; returns the handle and the new value of the cache.
    The handle is put into the cache before the table is created: when
    creating the table throws, [null] is returned but the handle, whose
    statements on the table throw, stays in the cache. *)
Definition getPushDbAsync (_pushDb : pushdb) (file : dbfile) : pushdb * pushdb :=
  match _pushDb with
  | DbNull =>
      match file with
      | FileMissing => (DbNull, DbNull)
      | FileUnusable => (DbNull, DbNull)
      | FileNoTable => (DbNull, DbFaulty)
      | FileFaulty => (DbFaulty, DbFaulty)
      | FileOk rows => (DbOpen rows, DbOpen rows)
      end
  | h => (h, h)
  end.

(** [SELECT url_hash, title_hash, title FROM pushed_items WHERE pushed_at >=
    datetime('now', '-H hours')] at time [now] (in seconds, as [pushed_at]),
    for a window of [0 <= hours] as at every call of the program (72). *)
Definition select_since (db : pushdb) (hours now : Z) : result (list row) :=
  match db with
  | DbNull => Throw TypeError
  | DbFaulty => Throw SqliteError
  | DbOpen rows =>
      Ok (filter (fun r => Z.leb (now - hours * 3600) (pushed_at r)) rows)
  end.

Record history : Type := History {
  urlHashes : jsset;
  titleHashes : jsset;
  titles : list jsstring
}.

Definition empty_history : history := History [] [] [].

(** The object built from the selected rows: [new Set(rows.map(...))] twice
    and [rows.map(r => r.title).filter(Boolean)]. *)
Definition snapshot (rows : list row) : history :=
  History (set_of_list (List.map url_hash rows))
          (set_of_list (List.map title_hash rows))
          (filter nonempty (List.map row_title rows)).

Definition loadPushedHistory (db : pushdb) (hours now : Z) : result history :=
  try_catch
    (rows <- select_since db hours now ;;
     Ok (snapshot rows))
    (Ok empty_history).

(** What the driver binds as it is: strings, numbers and [null]. *)
Definition bindable (v : jsval) : bool :=
  match v with
  | VStr _ | VNum _ _ | VNull => true
  | _ => false
  end.

(** The value bound to the [url] column by [stmt.run(urlHash, titleHash,
    item.title || '', item.url || '', digestType)], where the four other
    arguments are strings.  The driver binds a string, a number or [null]
    as it is and throws a [TypeError] on a boolean or [undefined].  An
    array stands for its elements, each bound to the next parameter in
    turn: an array of one bindable element binds that element; in any
    other array an element cannot be bound ([TypeError]) or the values
    bound are not five ([RangeError]), whichever comes first.  An object
    stands for named parameters, of which the statement has none, so that
    one value is missing ([RangeError]). *)
Definition bind_param (v : jsval) : result jsval :=
  match v with
  | VStr _ | VNum _ _ | VNull => Ok v
  | VBool _ | VUndef => Throw TypeError
  | VObj _ => Throw RangeError
  | VArr [] => Throw RangeError
  | VArr [x] => if bindable x then Ok x else Throw TypeError
  | VArr (x :: y :: rest) =>
      if negb (bindable x && bindable y) then Throw TypeError
      else match rest with
           | z :: _ => if bindable z then Throw RangeError else Throw TypeError
           | [] => Throw RangeError
           end
  end.

(** [INSERT OR IGNORE]: a row whose [url_hash] is already in the table (the
    unique index) is not inserted. *)
Definition insert_or_ignore (r : row) (rows : list row) : list row :=
  if existsb (fun r' => str_eqb (url_hash r') (url_hash r)) rows then rows
  else rows ++ [r].

Definition record_one (digestType : jsstring) (now : Z) (rows : list row)
    (item : jsval) : result (list row) :=
  url <- get item (js "url") ;;
  nu <- normalizeUrlForHash url ;;
  let urlHash := hashStr nu in
  title <- get item (js "title") ;;
  titleHash <- titleHashOf title ;;
  t <- as_string (or_empty title) ;;
  u <- bind_param (or_empty url) ;;
  Ok (insert_or_ignore (Row urlHash titleHash t u digestType now) rows).

Fixpoint record_all (digestType : jsstring) (now : Z) (rows : list row)
    (items : list jsval) : result (list row) :=
  match items with
  | [] => Ok rows
  | item :: rest =>
      rows' <- record_one digestType now rows item ;;
      record_all digestType now rows' rest
  end.

(** [recordPushedItems] at time [now].  The inserts run in one transaction:
    when any of them throws nothing is written, so a [Throw] leaves the
    table as it was. *)
Definition recordPushedItems (db : pushdb) (items : list jsval)
    (digestType : jsstring) (now : Z) : result pushdb :=
  match db with
  | DbNull => Throw TypeError
  | DbFaulty => Throw SqliteError
  | DbOpen rows =>
      rows' <- record_all digestType now rows items ;;
      Ok (DbOpen rows')
  end.

(** [DELETE FROM pushed_items WHERE pushed_at < datetime('now', '-D days')],
    errors swallowed. *)
Definition cleanOldPushedItems (db : pushdb) (days now : Z) : pushdb :=
  match db with
  | DbOpen rows =>
      DbOpen (filter (fun r => negb (Z.ltb (pushed_at r) (now - days * 86400)))
                     rows)
  | h => h
  end.

Fixpoint any_similar (title : jsval) (pushed : list jsstring) : result bool :=
  match pushed with
  | [] => Ok false
  | pushedTitle :: rest =>
      sim <- titlesAreSimilar title (VStr pushedTitle) ;;
      if sim then Ok true else any_similar title rest
  end.

Definition isItemPushedBefore (h : history) (item : jsval) : result bool :=
  url <- get item (js "url") ;;
  nu <- normalizeUrlForHash url ;;
  let urlHash := hashStr nu in
  if set_has urlHash (urlHashes h) then Ok true
  else
    title <- get item (js "title") ;;
    titleHash <- titleHashOf title ;;
    if set_has titleHash (titleHashes h) then Ok true
    else if truthy title && Nat.ltb 0 (List.length (titles h))
    then any_similar title (titles h)
    else Ok false.

(** ** Deduplication of structured items by URL and title similarity *)

(** The category of the high-priority items, U+91CD U+8981 U+52A8 U+6001. *)
Definition HOT : jsstring := [0x91CD; 0x8981; 0x52A8; 0x6001]%N.

(** [item.category === HOT], for an [item] that is not [null] or
    [undefined] (its [url] has been read before). *)
Definition is_hot (item : jsval) : bool :=
  match get item (js "category") with
  | Ok (VStr c) => str_eqb c HOT
  | _ => false
  end.

(** The local [normalizeUrl] of [deduplicateItems]; its fallback is
    [url?.toLowerCase() || '']. *)
Definition normalizeUrl (url : jsval) : result jsstring :=
  match URL_parse url with
  | Some (hostname, pathname) =>
      Ok (toLowerCase
            (replace_first false trailing_slashes_re (RepLit [])
               (hostname ++ pathname)))
  | None =>
      match url with
      | VUndef | VNull => Ok []
      | VStr u => Ok (toLowerCase u)
      | _ => Throw TypeError
      end
  end.

(** The key under which the loop files an item: [normalizeUrl(item.url)]. *)
Definition item_key (item : jsval) : result jsstring :=
  url <- get item (js "url") ;;
  normalizeUrl url.

(** JavaScript [Map] from strings to values: entries in insertion order,
    [set] on an existing key keeps the entry in place. *)
Definition jsmap := list (jsstring * jsval).

Fixpoint map_get (k : jsstring) (m : jsmap) : option jsval :=
  match m with
  | [] => None
  | (k', v) :: m' => if str_eqb k k' then Some v else map_get k m'
  end.

Fixpoint map_set (k : jsstring) (v : jsval) (m : jsmap) : jsmap :=
  match m with
  | [] => [(k, v)]
  | (k', v') :: m' =>
      if str_eqb k k' then (k', v) :: m' else (k', v') :: map_set k v m'
  end.

Fixpoint map_delete (k : jsstring) (m : jsmap) : jsmap :=
  match m with
  | [] => []
  | (k', v') :: m' =>
      if str_eqb k k' then m' else (k', v') :: map_delete k m'
  end.

(** [arr.indexOf(x)], [None] for -1.  Items are compared by structure; the
    entries of [result] are pairwise different and [x] is one of them
    ([dedup_loop_inv] below), so this finds the very entry the source
    finds by identity. *)
Fixpoint index_of (x : jsval) (arr : list jsval) : option nat :=
  match arr with
  | [] => None
  | y :: arr' =>
      if jsval_eqb y x then Some 0
      else match index_of x arr' with Some i => Some (S i) | None => None end
  end.

(** [arr[i] = x] for [i] within the array *)
Fixpoint set_nth (i : nat) (x : jsval) (arr : list jsval) : list jsval :=
  match arr, i with
  | [], _ => []
  | _ :: arr', O => x :: arr'
  | y :: arr', S i' => y :: set_nth i' x arr'
  end.

(** [const idx = result.indexOf(old); if (idx !== -1) result[idx] = item] *)
Definition replace_item (old item : jsval) (res : list jsval) : list jsval :=
  match index_of old res with
  | Some idx => set_nth idx item res
  | None => res
  end.

(** The first entry of [seen], in iteration order, whose title is similar
    to the title of [item]. *)
Fixpoint find_similar (item : jsval) (entries : jsmap)
  : result (option (jsstring * jsval)) :=
  match entries with
  | [] => Ok None
  | (existUrl, existItem) :: rest =>
      t <- get item (js "title") ;;
      t' <- get existItem (js "title") ;;
      sim <- titlesAreSimilar t t' ;;
      if sim then Ok (Some (existUrl, existItem)) else find_similar item rest
  end.

(** One turn of the loop of [deduplicateItems] on the state
    [(seen, result)]. *)
Definition dedup_step (st : jsmap * list jsval) (item : jsval)
  : result (jsmap * list jsval) :=
  let (seen, res) := st in
  normUrl <- item_key item ;;
  match map_get normUrl seen with
  | Some existing =>
      if is_hot item && negb (is_hot existing)
      then Ok (map_set normUrl item seen, replace_item existing item res)
      else Ok (seen, res)
  | None =>
      hit <- find_similar item seen ;;
      match hit with
      | Some (existUrl, existItem) =>
          if is_hot item && negb (is_hot existItem)
          then Ok (map_set normUrl item (map_delete existUrl seen),
                   replace_item existItem item res)
          else Ok (seen, res)
      | None => Ok (map_set normUrl item seen, res ++ [item])
      end
  end.

Fixpoint dedup_loop (st : jsmap * list jsval) (items : list jsval)
  : result (jsmap * list jsval) :=
  match items with
  | [] => Ok st
  | item :: rest =>
      st' <- dedup_step st item ;;
      dedup_loop st' rest
  end.

Definition deduplicateItems (items : list jsval) : result (list jsval) :=
  st <- dedup_loop ([], []) items ;;
  Ok (snd st).

(** [items.filter(i => i.category === HOT)], the high-priority items. *)
Definition hotItems (items : list jsval) : list jsval := filter is_hot items.

(** The invariant of the loop: the keys of [seen] are pairwise different,
    every entry is filed under the key of its item, and the items of [seen]
    are the entries of [result], each once. *)
Definition dedup_inv (st : jsmap * list jsval) : Prop :=
  NoDup (List.map fst (fst st))
  /\ (forall k v, In (k, v) (fst st) -> item_key v = Ok k)
  /\ Permutation (List.map snd (fst st)) (snd st).

(** ** [JSON.parse] *)

Definition is_json_ws (c : N) : bool :=
  ((c =? 32) || (c =? 9) || (c =? 10) || (c =? 13))%N.

Fixpoint skip_ws (s : jsstring) : jsstring :=
  match s with
  | c :: s' => if is_json_ws c then skip_ws s' else s
  | [] => []
  end.

Definition hex_digit (c : N) : option N :=
  if is_digit c then Some (c - 48)%N
  else if ((97 <=? c) && (c <=? 102))%N then Some (c - 87)%N
  else if ((65 <=? c) && (c <=? 70))%N then Some (c - 55)%N
  else None.

Definition hex4 (a b c d : N) : option N :=
  match hex_digit a, hex_digit b, hex_digit c, hex_digit d with
  | Some x, Some y, Some z, Some w => Some (((x * 16 + y) * 16 + z) * 16 + w)%N
  | _, _, _, _ => None
  end.

Definition simple_escape (c : N) : option N :=
  if (c =? 34)%N then Some 34%N          (* quote *)
  else if (c =? 92)%N then Some 92%N     (* backslash *)
  else if (c =? 47)%N then Some 47%N     (* slash *)
  else if (c =? 98)%N then Some 8%N      (* b *)
  else if (c =? 102)%N then Some 12%N    (* f *)
  else if (c =? 110)%N then Some 10%N    (* n *)
  else if (c =? 114)%N then Some 13%N    (* r *)
  else if (c =? 116)%N then Some 9%N     (* t *)
  else None.

(** The characters of a string literal after its opening quote. *)
Fixpoint parse_chars (s acc : jsstring) {struct s} : option (jsstring * jsstring) :=
  match s with
  | [] => None
  | c :: rest =>
      if (c =? 34)%N then Some (rev acc, rest)
      else if (c =? 92)%N then
        match rest with
        | [] => None
        | e :: rest2 =>
            if (e =? 117)%N then
              match rest2 with
              | h1 :: h2 :: h3 :: h4 :: rest3 =>
                  match hex4 h1 h2 h3 h4 with
                  | Some u => parse_chars rest3 (u :: acc)
                  | None => None
                  end
              | _ => None
              end
            else
              match simple_escape e with
              | Some x => parse_chars rest2 (x :: acc)
              | None => None
              end
        end
      else if (c <? 32)%N then None
      else parse_chars rest (c :: acc)
  end.

Fixpoint take_digits (s acc : jsstring) : jsstring * jsstring :=
  match s with
  | c :: s' => if is_digit c then take_digits s' (c :: acc) else (rev acc, s)
  | [] => (rev acc, [])
  end.

Definition digits_value (ds : jsstring) : Z :=
  fold_left (fun v c => (v * 10 + Z.of_N (c - 48))%Z) ds 0%Z.

(** A number: an optional minus sign, an integer part without leading
    zeros, an optional fraction and an optional exponent. *)
Definition parse_number (s : jsstring) : option (jsval * jsstring) :=
  let (neg, s1) := match s with
                   | c :: r => if (c =? 45)%N then (true, r) else (false, s)
                   | [] => (false, s)
                   end in
  let (ip, s2) := take_digits s1 [] in
  match ip with
  | [] => None
  | d :: ip' =>
      if (d =? 48)%N && nonempty ip' then None
      else
        let frac :=
          match s2 with
          | c :: r =>
              if (c =? 46)%N then
                let (fp, s3) := take_digits r [] in
                match fp with [] => None | _ :: _ => Some (fp, s3) end
              else Some ([], s2)
          | [] => Some ([], s2)
          end in
        match frac with
        | None => None
        | Some (fp, s3) =>
            let ex :=
              match s3 with
              | c :: r =>
                  if (c =? 101)%N || (c =? 69)%N then
                    let (eneg, r1) :=
                      match r with
                      | g :: r' =>
                          if (g =? 45)%N then (true, r')
                          else if (g =? 43)%N then (false, r')
                          else (false, r)
                      | [] => (false, r)
                      end in
                    let (ep, s4) := take_digits r1 [] in
                    match ep with
                    | [] => None
                    | _ :: _ =>
                        Some ((if eneg then - digits_value ep
                               else digits_value ep)%Z, s4)
                    end
                  else Some (0%Z, s3)
              | [] => Some (0%Z, s3)
              end in
            match ex with
            | None => None
            | Some (e, s4) =>
                let m := digits_value (ip ++ fp) in
                Some (VNum (if neg then - m else m)%Z
                           (e - Z.of_nat (List.length fp))%Z, s4)
            end
        end
  end.

Definition expect (lit : jsstring) (v : jsval) (s : jsstring)
  : option (jsval * jsstring) :=
  if starts_with lit s then Some (v, skipn (List.length lit) s) else None.

(** A value, then the elements of an array after its first bracket, then
    the members of an object; [fuel] bounds the number of nested calls,
    which never exceeds twice the length of the text ([parse_fuel]
    below). *)
Fixpoint parse_value (fuel : nat) (s : jsstring) {struct fuel}
  : option (jsval * jsstring) :=
  match fuel with
  | O => None
  | S f =>
      match skip_ws s with
      | [] => None
      | c :: rest =>
          if (c =? 34)%N then
            match parse_chars rest [] with
            | Some (t, r) => Some (VStr t, r)
            | None => None
            end
          else if (c =? 91)%N then
            match skip_ws rest with
            | c' :: r =>
                if (c' =? 93)%N then Some (VArr [], r)
                else parse_elems f rest []
            | [] => None
            end
          else if (c =? 123)%N then
            match skip_ws rest with
            | c' :: r =>
                if (c' =? 125)%N then Some (VObj [], r)
                else parse_members f rest []
            | [] => None
            end
          else if (c =? 116)%N then expect (js "true") (VBool true) (c :: rest)
          else if (c =? 102)%N then expect (js "false") (VBool false) (c :: rest)
          else if (c =? 110)%N then expect (js "null") VNull (c :: rest)
          else parse_number (c :: rest)
      end
  end
with parse_elems (fuel : nat) (s : jsstring) (acc : list jsval) {struct fuel}
  : option (jsval * jsstring) :=
  match fuel with
  | O => None
  | S f =>
      match parse_value f s with
      | None => None
      | Some (v, r) =>
          match skip_ws r with
          | c :: r' =>
              if (c =? 44)%N then parse_elems f r' (v :: acc)
              else if (c =? 93)%N then Some (VArr (rev (v :: acc)), r')
              else None
          | [] => None
          end
      end
  end
with parse_members (fuel : nat) (s : jsstring) (acc : list (jsstring * jsval))
    {struct fuel} : option (jsval * jsstring) :=
  match fuel with
  | O => None
  | S f =>
      match skip_ws s with
      | q :: s1 =>
          if (q =? 34)%N then
            match parse_chars s1 [] with
            | None => None
            | Some (key, s2) =>
                match skip_ws s2 with
                | c :: s3 =>
                    if (c =? 58)%N then
                      match parse_value f s3 with
                      | None => None
                      | Some (v, r) =>
                          match skip_ws r with
                          | c' :: r' =>
                              if (c' =? 44)%N
                              then parse_members f r' ((key, v) :: acc)
                              else if (c' =? 125)%N
                              then Some (VObj (rev ((key, v) :: acc)), r')
                              else None
                          | [] => None
                          end
                      end
                    else None
                | [] => None
                end
            end
          else None
      | [] => None
      end
  end.

Definition JSON_parse (text : jsstring) : result jsval :=
  match parse_value (2 * List.length text + 2) text with
  | Some (v, rest) =>
      match skip_ws rest with
      | [] => Ok v
      | _ :: _ => Throw SyntaxError
      end
  | None => Throw SyntaxError
  end.

(** ** Repair of unescaped quotes and the digest generator *)

Definition RAny : regex := RSet false [CSpace; CNonSpace].    (* [\s\S] *)
Definition RSpaces : regex := RStar (RSet false [CSpace]).    (* \s* *)

(** Backslash and double quote, the replacement text of the source. *)
Definition escaped_quote : jsstring := [92; 34]%N.

(** [keyPattern]: at the start of the line optional white space, one of the
    five keys in double quotes, a colon and an opening quote (group 1); any
    characters (group 2); a closing quote, an optional comma and white
    space up to the end of the line (group 3). *)
Definition keyPattern : regex :=
  RSeqs [RBol;
         RGroup 1 (RSeqs [RSpaces; RChar 34;
                          RAlts [RLit (js "title"); RLit (js "url");
                                 RLit (js "summary"); RLit (js "category");
                                 RLit (js "source")];
                          RChar 34; RSpaces; RChar 58; RSpaces; RChar 34]);
         RGroup 2 (RStar RDot);
         RGroup 3 (RSeqs [RChar 34; ROpt (RChar 44); RSpaces]);
         REol].

(** A double quote that no backslash precedes. *)
Definition bare_quote_re : regex := RSeq (RNotBehind 92) (RChar 34).

Definition fix_line (line : jsstring) : jsstring :=
  match match_first false keyPattern line with
  | Some (e, _) =>
      let prefix := cap 1 (caps e) in
      let value := cap 2 (caps e) in
      let suffix := cap 3 (caps e) in
      let fixed := replace_all false bare_quote_re (RepLit escaped_quote) value in
      if negb (str_eqb fixed value) then prefix ++ fixed ++ suffix else line
  | None => line
  end.

Definition fixLlmJsonQuotes (text : jsstring) : jsstring :=
  let res :=
    fold_left (fun t c => replace_all false (RChar c) (RepLit escaped_quote) t)
              [0x201C; 0x201D; 0x201E; 0x2033; 0xFF02]%N text in
  join_lines (List.map fix_line (split_lines res)).

(** What [generateDigest] returns: the raw text with empty metadata, or the
    structured items of [metadata.items] (with a markdown text built from
    them, which is not modelled beyond whether building it throws). *)
Inductive digest : Type :=
| RawText (content : jsstring)
| Structured (items : list jsval).

(** The opening code fence, with the i flag, and the closing one. *)
Definition fence_open_re : regex :=
  RSeqs [RBol; RLit (js "```"); ROpt (RLit (js "json")); RSpaces].

Definition fence_close_re : regex :=
  RSeqs [RSpaces; RLit (js "```"); RSpaces; REol].

(** [/^[^[]*(\[[\s\S]*\])[^}\]]*$/] *)
Definition extracted_re : regex :=
  RSeqs [RBol; RStar (RSet true [CC 91]);
         RGroup 1 (RSeqs [RChar 91; RStar RAny; RChar 93]);
         RStar (RSet true [CC 125; CC 93]); REol].

(** [/^[\s\S]*?(?=\[)/] and [/\][^}\]]*$/] *)
Definition before_bracket_re : regex :=
  RSeqs [RBol; RLazyStar RAny; RAhead (RChar 91)].

Definition after_bracket_re : regex :=
  RSeqs [RChar 93; RStar (RSet true [CC 125; CC 93]); REol].

(** An opening brace, the quoted words title and url in that order, each
    after any text, and a closing brace. *)
Definition single_object_re : regex :=
  RSeqs [RChar 123; RStar RAny; RLit (jsq "'title'"); RStar RAny;
         RLit (jsq "'url'"); RStar RAny; RChar 125].

Definition baseCandidates (rawContent : jsstring) : list jsstring :=
  let stripped :=
    trim (replace_first false fence_close_re (RepLit [])
            (replace_first true fence_open_re (RepLit []) rawContent)) in
  let extracted := trim (replace_first false extracted_re (RepGroup 1) rawContent) in
  let aggressive :=
    trim (replace_first false after_bracket_re (RepLit [93%N])
            (replace_first false before_bracket_re (RepLit []) rawContent)) in
  let singleObj :=
    match match_first false single_object_re rawContent with
    | Some (_, m) => 91%N :: m ++ [93%N]
    | None => []
    end in
  filter nonempty [rawContent; stripped; extracted; aggressive; singleObj].

Fixpoint jsonCandidates (base : list jsstring) : list jsstring :=
  match base with
  | [] => []
  | c :: rest =>
      let fixed := fixLlmJsonQuotes c in
      if negb (str_eqb fixed c) then c :: fixed :: jsonCandidates rest
      else c :: jsonCandidates rest
  end.

(** [i.title && i.url && i.summary] *)
Definition is_valid (i : jsval) : result bool :=
  t <- get i (js "title") ;;
  u <- get i (js "url") ;;
  m <- get i (js "summary") ;;
  Ok (truthy t && truthy u && truthy m).

Fixpoint filter_valid (items : list jsval) : result (list jsval) :=
  match items with
  | [] => Ok []
  | i :: rest =>
      b <- is_valid i ;;
      l <- filter_valid rest ;;
      Ok (if b then i :: l else l)
  end.

(** The body of the [try] of the candidate loop. *)
Definition valid_items_of (candidate : jsstring) : result (list jsval) :=
  parsed <- JSON_parse candidate ;;
  filter_valid (match parsed with VArr l => l | v => [v] end).

Fixpoint first_valid (candidates : list jsstring) : option (list jsval) :=
  match candidates with
  | [] => None
  | c :: rest =>
      match valid_items_of c with
      | Ok (i :: l) => Some (i :: l)
      | _ => first_valid rest
      end
  end.

(** Building the markdown interpolates the title, the summary and the url of
    every item. *)
Definition markdown_throws (items : list jsval) : bool :=
  existsb (fun item =>
    existsb (fun k => match get item k with
                      | Ok v => to_string_throws v
                      | Throw _ => true
                      end)
            [js "title"; js "summary"; js "url"]) items.

(** Building the prompt interpolates, for every fetched item, its source
    name, its title if truthy, its url if truthy, and the first 200
    characters of its description if truthy ([slice] exists on strings and
    arrays only). *)
Definition prompt_item_throws (item : jsval) : bool :=
  match get item (js "_sourceName"), get item (js "title"),
        get item (js "url"), get item (js "description") with
  | Ok sourceName, Ok title, Ok url, Ok description =>
      to_string_throws sourceName
      || (truthy title && to_string_throws title)
      || (truthy url && to_string_throws url)
      || (truthy description
          && match description with
             | VStr _ => false
             | VArr l => to_string_throws (VArr (firstn 200 l))
             | _ => true
             end)
  | _, _, _, _ => true
  end.

Definition prompt_throws (allItems : list jsval) : bool :=
  existsb prompt_item_throws allItems.

(** The part of [generateDigest] after the call of the model, on the content
    of its answer, [result.choices?.[0]?.message?.content]. *)
Definition digest_of_answer (answer : jsval) : result digest :=
  match answer with
  | VUndef | VNull => Throw JsError
  | VStr text =>
      let rawContent := trim text in
      if negb (nonempty rawContent) then Throw JsError
      else
        match first_valid (jsonCandidates (baseCandidates rawContent)) with
        | None => Ok (RawText rawContent)
        | Some structuredItems =>
            items <- deduplicateItems structuredItems ;;
            if markdown_throws items then Throw TypeError
            else Ok (Structured items)
        end
  | _ => Throw TypeError
  end.

(** [generateDigest(allItems, digestType)], given the content of the answer
    that the model returns.  The prompt is built from [allItems] and sent
    to the model; after the call the function does not read [allItems]
    again. *)
Definition generateDigest (allItems : list jsval) (digestType : jsstring)
    (answer : jsval) : result digest :=
  if prompt_throws allItems then Throw TypeError
  else digest_of_answer answer.

(** ** The pre-dedup loop of [main] *)

(** [parseInt(s, 10)], [None] for [NaN].  The value is kept exact; above
    2^53 JavaScript rounds it to a double, which changes no comparison of
    the loop below (see [too_old]). *)
Definition parseInt10 (s : jsstring) : option Z :=
  let s1 := trimStart s in
  let (neg, s2) :=
    match s1 with
    | c :: r => if (c =? 45)%N then (true, r)
                else if (c =? 43)%N then (false, r) else (false, s1)
    | [] => (false, s1)
    end in
  match fst (take_digits s2 []) with
  | [] => None
  | ds => Some (if neg then - digits_value ds else digits_value ds)%Z
  end.

(** [parseInt(env.MAX_ARTICLE_AGE_HOURS || process.env.MAX_ARTICLE_AGE_HOURS
    || '72', 10)] *)
Definition MAX_ARTICLE_AGE_HOURS (env_file env_process : option jsstring)
  : option Z :=
  parseInt10
    match env_file with
    | Some (c :: s) => c :: s
    | _ => match env_process with
           | Some (c :: s) => c :: s
           | _ => js "72"
           end
    end.

(** [/^https?:\/\/(www\.)?/] *)
Definition scheme_www_re : regex :=
  RSeqs [RBol; RLit (js "http"); ROpt (RChar 115); RLit (js "://");
         ROpt (RGroup 1 (RLit (js "www.")))].

(** The batch-local normalisation of [main]. *)
Definition batchNormUrl (url : jsval) : result jsstring :=
  if truthy url then
    u <- as_string url ;;
    Ok (toLowerCase
          (replace_first false scheme_www_re (RepLit [])
             (replace_first false trailing_slashes_re (RepLit []) u)))
  else Ok [].

Record prededup : Type := PreDedup {
  seenUrls : jsset;
  dedupedItems : list jsval;
  historySkipped : nat;
  staleSkipped : nat
}.

(** [!isNaN(pubTime) && (now - pubTime) > maxAgeMs] with
    [maxAgeMs = MAX_ARTICLE_AGE_HOURS * 3600 * 1000], times in milliseconds.
    Time values are integers of magnitude at most 8.64e15, and [now] is
    [Date.now()], taken between 0 and 3.6e14 (the year 13000), so that the
    difference is below 2^53 in magnitude: the subtraction is exact, and the
    comparison agrees with the one on integers also where the product is
    rounded, since a rounded product is at least 2^53 in magnitude when the
    exact one is. *)
Definition too_old (now : Z) (maxAgeHours : option Z) (pubDate : jsval) : bool :=
  match Date_getTime pubDate, maxAgeHours with
  | Some pubTime, Some h => Z.ltb (h * 3600 * 1000) (now - pubTime)
  | _, _ => false
  end.

(** The stale test of the loop on an item: [item.pubDate] is truthy, parses
    to a time, and that time is more than the maximum age before [now]. *)
Definition isStale (now : Z) (maxAgeHours : option Z) (item : jsval) : bool :=
  match get item (js "pubDate") with
  | Ok pubDate => truthy pubDate && too_old now maxAgeHours pubDate
  | Throw _ => false
  end.

(** [pushDb && ...]: every handle but [null] is truthy. *)
Definition db_truthy (db : pushdb) : bool :=
  match db with
  | DbNull => false
  | _ => true
  end.

Definition prededup_step (now : Z) (maxAgeHours : option Z) (pushDb : pushdb)
    (pushHistory : history) (st : prededup) (item : jsval) : result prededup :=
  pubDate <- get item (js "pubDate") ;;
  if truthy pubDate && too_old now maxAgeHours pubDate then
    Ok (PreDedup (seenUrls st) (dedupedItems st) (historySkipped st)
                 (S (staleSkipped st)))
  else
    url <- get item (js "url") ;;
    normUrl <- batchNormUrl url ;;
    if nonempty normUrl && set_has normUrl (seenUrls st) then Ok st
    else
      let seen := if nonempty normUrl then set_add normUrl (seenUrls st)
                  else seenUrls st in
      pushed <- (if db_truthy pushDb then isItemPushedBefore pushHistory item
                 else Ok false) ;;
      if pushed then
        Ok (PreDedup seen (dedupedItems st) (S (historySkipped st))
                     (staleSkipped st))
      else
        Ok (PreDedup seen (dedupedItems st ++ [item]) (historySkipped st)
                     (staleSkipped st)).

Fixpoint prededup_loop (now : Z) (maxAgeHours : option Z) (pushDb : pushdb)
    (pushHistory : history) (st : prededup) (allItems : list jsval)
  : result prededup :=
  match allItems with
  | [] => Ok st
  | item :: rest =>
      st' <- prededup_step now maxAgeHours pushDb pushHistory st item ;;
      prededup_loop now maxAgeHours pushDb pushHistory st' rest
  end.

(** Step 2.6 of [main]: same-batch URL dedup, history dedup and stale
    filter over all fetched items. *)
Definition preDedup (now : Z) (maxAgeHours : option Z) (pushDb : pushdb)
    (pushHistory : history) (allItems : list jsval) : result prededup :=
  prededup_loop now maxAgeHours pushDb pushHistory (PreDedup [] [] 0 0) allItems.

(** The two other ways the loop skips an item: its normalized URL is not
    empty and was seen on an earlier item of the batch, or the push database
    is open and the item was pushed before. *)
Definition removed_by_dedup (pushDb : pushdb) (pushHistory : history)
    (st : prededup) (item : jsval) : Prop :=
  (exists url n, get item (js "url") = Ok url /\ batchNormUrl url = Ok n
                 /\ nonempty n = true /\ set_has n (seenUrls st) = true)
  \/ (db_truthy pushDb = true /\ isItemPushedBefore pushHistory item = Ok true).

(** Step 2.5 of [main]: the history used by the filter. *)
Definition mainHistory (pushDb : pushdb) (now : Z) : result history :=
  if db_truthy pushDb then loadPushedHistory pushDb 72 now
  else Ok empty_history.

(** ** Readings of two kinds of global replacement

    The text that [replace] with the g flag builds from the matches of a
    scan, and what it amounts to for a run of white space ([/\s+/g]): every
    maximal run becomes one copy of the replacement text. *)
Definition replaced (rp : repl)
    (res : list (jsstring * mstate * jsstring) * jsstring) : jsstring :=
  List.concat (List.map (fun m => match m with (sk, e, _) => sk ++ repl_text rp e end)
                        (fst res)) ++ snd res.

Fixpoint squeeze (t : jsstring) (in_run : bool) (s : jsstring) : jsstring :=
  match s with
  | [] => []
  | c :: s' =>
      if is_space c then
        if in_run then squeeze t true s' else t ++ squeeze t true s'
      else c :: squeeze t false s'
  end.

(** ** The rescue of structured items from a raw text

    [tryRescueJsonItems], the safety net of the push step of [main]: it is
    called on the content of a digest without structured items. *)

(** [i.title && i.summary] *)
Definition is_rescuable (i : jsval) : result bool :=
  t <- get i (js "title") ;;
  m <- get i (js "summary") ;;
  Ok (truthy t && truthy m).

Fixpoint filter_rescuable (items : list jsval) : result (list jsval) :=
  match items with
  | [] => Ok []
  | i :: rest =>
      b <- is_rescuable i ;;
      l <- filter_rescuable rest ;;
      Ok (if b then i :: l else l)
  end.

(** The body of the [try] of its candidate loop. *)
Definition rescue_items_of (candidate : jsstring) : result (list jsval) :=
  parsed <- JSON_parse candidate ;;
  filter_rescuable (match parsed with VArr l => l | v => [v] end).

Fixpoint first_rescue (candidates : list jsstring) : option (list jsval) :=
  match candidates with
  | [] => None
  | c :: rest =>
      match rescue_items_of c with
      | Ok (i :: l) => Some (i :: l)
      | _ => first_rescue rest
      end
  end.

(** [tryRescueJsonItems(text)]; [None] stands for [null]. *)
Definition tryRescueJsonItems (text : jsval) : option (list jsval) :=
  match text with
  | VStr (c :: s) =>
      let trimmed := trim (c :: s) in
      if negb (starts_with (js "[") trimmed) && negb (starts_with (js "{") trimmed)
      then None
      else
        first_rescue
          (jsonCandidates
             [trimmed;
              trim (replace_first false fence_close_re (RepLit [])
                      (replace_first true fence_open_re (RepLit []) trimmed));
              trim (replace_first false after_bracket_re (RepLit [93%N])
                      (replace_first false before_bracket_re (RepLit [])
                         trimmed))])
  | _ => None
  end.

(** [l] is [l'] with some elements left out, the order of the others
    kept. *)
Inductive subseq {A : Type} : list A -> list A -> Prop :=
| subseq_nil : subseq [] []
| subseq_skip (x : A) (l l' : list A) : subseq l l' -> subseq l (x :: l')
| subseq_keep (x : A) (l l' : list A) : subseq l l' -> subseq (x :: l) (x :: l').

(** The functional reading of [.replace(/\/+$/, '')]: the text without the
    slashes at its end. *)
Fixpoint strip_slashes (s : jsstring) : jsstring :=
  match s with
  | [] => []
  | c :: s' => if forallb (N.eqb 47) (c :: s') then [] else c :: strip_slashes s'
  end.

(** No white space but single spaces: every white-space character of [s]
    is a space and follows a character that is not white space
    ([after_space] tells whether the text stands behind white space). *)
Fixpoint single_spaced (after_space : bool) (s : jsstring) : bool :=
  match s with
  | [] => true
  | c :: s' =>
      if is_space c then N.eqb c 32 && negb after_space && single_spaced true s'
      else single_spaced false s'
  end.

(** The characters that [normalizeTitle] removes. *)
Definition title_separator (c : N) : bool :=
  match normalizeTitle_re with
  | RSet neg items => set_match false neg items c
  | _ => false
  end.

(** ** Command-line arguments and the [.env] file *)

(** [s.split(sep)] and [parts.join(sep)] for a separator of one
    character. *)
Fixpoint split_by (sep : N) (cur : jsstring) (s : jsstring) : list jsstring :=
  match s with
  | [] => [rev cur]
  | c :: s' =>
      if N.eqb c sep then rev cur :: split_by sep [] s'
      else split_by sep (c :: cur) s'
  end.

Fixpoint join_by (sep : N) (parts : list jsstring) : jsstring :=
  match parts with
  | [] => []
  | [p] => p
  | p :: rest => p ++ sep :: join_by sep rest
  end.

(** [args[args.indexOf(flag) + 1]], [null] when [flag] is no argument and
    [undefined] when it is the last one. *)
Fixpoint arg_after (flag : jsstring) (args : list jsstring) : jsval :=
  match args with
  | [] => VNull
  | a :: rest =>
      if str_eqb a flag then
        match rest with
        | b :: _ => VStr b
        | [] => VUndef
        end
      else arg_after flag rest
  end.

Definition getArg (args : list jsstring) (flag : jsstring) : jsval :=
  match find (starts_with (flag ++ [61%N])) args with
  | Some a => VStr (join_by 61 (tl (split_by 61 [] a)))
  | None => arg_after flag args
  end.

Definition VALID_TYPES : list jsstring :=
  [js "4h"; js "daily"; js "weekly"; js "monthly"].

(** [getArg('--type') || '4h'], checked against [VALID_TYPES]; [None] when
    the script exits with status 1. *)
Definition DIGEST_TYPE (args : list jsstring) : option jsstring :=
  let t := match getArg args (js "--type") with
           | VStr (c :: s) => c :: s
           | _ => js "4h"
           end in
  if existsb (str_eqb t) VALID_TYPES then Some t else None.

(** [s.indexOf(c)], [None] for -1, with the text before and after the
    first occurrence. *)
Fixpoint cut_at (c : N) (s : jsstring) : option (jsstring * jsstring) :=
  match s with
  | [] => None
  | x :: s' =>
      if N.eqb x c then Some ([], s')
      else match cut_at c s' with
           | Some (a, b) => Some (x :: a, b)
           | None => None
           end
  end.

(** The object [env]: the assignments made so far, the latest first.  An
    assignment of a string to [__proto__] does nothing; every other name
    becomes an own property.  The names the script reads from [env] are not
    properties of [Object.prototype]. *)
Definition envmap := list (jsstring * jsstring).

Definition env_set (k v : jsstring) (env : envmap) : envmap :=
  if str_eqb k (js "__proto__") then env else (k, v) :: env.

Fixpoint env_get (env : envmap) (k : jsstring) : option jsstring :=
  match env with
  | [] => None
  | (k', v) :: env' => if str_eqb k k' then Some v else env_get env' k
  end.

(** One turn of the loop over the lines of the [.env] file. *)
Definition env_line (env : envmap) (line : jsstring) : envmap :=
  let trimmed := trim line in
  if negb (nonempty trimmed) || starts_with (js "#") trimmed then env
  else
    match cut_at 61 trimmed with
    | Some (c :: k, v) => env_set (trim (c :: k)) (trim v) env
    | _ => env
    end.

Definition loadEnv (text : jsstring) : envmap :=
  fold_left env_line (split_by 10 [] text) [].

(** ** Article links worth fetching (deep mode) *)

Definition SKIP_ARTICLE_DOMAINS : jsset :=
  [js "reddit.com"; js "v.redd.it"; js "i.redd.it"; js "old.reddit.com";
   js "twitter.com"; js "x.com"; js "t.co";
   js "youtube.com"; js "youtu.be";
   js "github.com"; js "gist.github.com";
   js "news.ycombinator.com";
   js "instagram.com"; js "linkedin.com"; js "facebook.com";
   js "imgur.com"; js "giphy.com"].

(** [/^www\./] *)
Definition www_re : regex := RSeq RBol (RLit (js "www.")).

Definition shouldFetchArticle (url : jsval) : bool :=
  match URL_parse url with
  | Some (hostname, _) =>
      negb (set_has (replace_first false www_re (RepLit []) hostname)
                    SKIP_ARTICLE_DOMAINS)
  | None => false
  end.

(** ** The RSS and Atom parser *)

(** [/<[^>]+>/g] *)
Definition html_tag_re : regex :=
  RSeqs [RChar 60; RPlus (RSet true [CC 62]); RChar 62].

(** [stripHtml], on the strings it is called on: tags become a space, the
    five entities are decoded in the order of the source, runs of white
    space become one space, and the result is trimmed. *)
Definition stripHtml (s : jsstring) : jsstring :=
  trim
    (replace_all false (RPlus (RSet false [CSpace])) (RepLit [32%N])
       (replace_all false (RLit (js "&#39;")) (RepLit [39%N])
          (replace_all false (RLit (js "&quot;")) (RepLit [34%N])
             (replace_all false (RLit (js "&gt;")) (RepLit [62%N])
                (replace_all false (RLit (js "&lt;")) (RepLit [60%N])
                   (replace_all false (RLit (js "&amp;")) (RepLit [38%N])
                      (replace_all false html_tag_re (RepLit [32%N]) s))))))).

(** The expression of [xmlText] for a tag, with the i flag: the opening
    tag with any attributes, an optional CDATA opening, the content
    (group 1, as short as possible), an optional CDATA closing, the closing
    tag.  The tag is spliced into the expression as it is; the tags of
    the script consist of letters and colons. *)
Definition xmlText_re (tag : jsstring) : regex :=
  RSeqs [RChar 60; RLit tag; RStar (RSet true [CC 62]); RChar 62;
         ROpt (RLit (js "<![CDATA["));
         RGroup 1 (RLazyStar RAny);
         ROpt (RLit (js "]]>"));
         RLit (js "</"); RLit tag; RChar 62].

Definition xmlText (block tag : jsstring) : jsstring :=
  match match_first true (xmlText_re tag) block with
  | Some (e, _) => stripHtml (trim (cap 1 (caps e)))
  | None => []
  end.

(** The expression of [xmlAttr], with the i flag: the opening of the tag,
    any characters but the closing angle, a white space, the attribute
    name, an equals sign, a quote, the value (group 1) and a quote. *)
Definition xmlAttr_re (tag attr : jsstring) : regex :=
  RSeqs [RChar 60; RLit tag; RStar (RSet true [CC 62]); RSet false [CSpace];
         RLit attr; RChar 61; RSet false [CC 34; CC 39];
         RGroup 1 (RPlus (RSet true [CC 34; CC 39]));
         RSet false [CC 34; CC 39]].

Definition xmlAttr (block tag attr : jsstring) : jsstring :=
  match match_first true (xmlAttr_re tag attr) block with
  | Some (e, _) => trim (cap 1 (caps e))
  | None => []
  end.

(** The expression of the loop of [fetchRss], with the g and i flags: an
    [item] element (content in group 1) or an [entry] element (content in
    group 2). *)
Definition feed_item_re : regex :=
  RAlt (RSeqs [RLit (js "<item"); RStar (RSet true [CC 62]); RChar 62;
               RGroup 1 (RLazyStar RAny); RLit (js "</item>")])
       (RSeqs [RLit (js "<entry"); RStar (RSet true [CC 62]); RChar 62;
               RGroup 2 (RLazyStar RAny); RLit (js "</entry>")]).

(** A capture, [None] when the group took no part in the match
    ([undefined]). *)
Fixpoint cap_opt (n : nat) (cs : list (nat * jsstring)) : option jsstring :=
  match cs with
  | [] => None
  | (m, v) :: cs' => if Nat.eqb n m then Some v else cap_opt n cs'
  end.

(** [m[1] || m[2]], [None] for [undefined]. *)
Definition block_of (e : mstate) : option jsstring :=
  match cap_opt 1 (caps e) with
  | Some (c :: s) => Some (c :: s)
  | _ => cap_opt 2 (caps e)
  end.

(** [a || b || ...] on strings *)
Fixpoint first_truthy (l : list jsstring) : jsstring :=
  match l with
  | [] => []
  | [x] => x
  | x :: rest => if nonempty x then x else first_truthy rest
  end.

(** The fields read from one block; [None] when the block has neither a
    title nor a link and is skipped. *)
Definition feed_item (block : jsstring) : option jsval :=
  let title := xmlText block (js "title") in
  let link := first_truthy [xmlText block (js "link");
                            xmlAttr block (js "link") (js "href");
                            xmlText block (js "id")] in
  let description :=
    firstn 400 (first_truthy [xmlText block (js "content:encoded");
                              xmlText block (js "description");
                              xmlText block (js "summary");
                              xmlText block (js "content")]) in
  let pubDate := first_truthy [xmlText block (js "pubDate");
                               xmlText block (js "published");
                               xmlText block (js "updated")] in
  let author := first_truthy [xmlText block (js "author");
                              xmlText block (js "dc:creator");
                              xmlText block (js "name")] in
  if negb (nonempty title) && negb (nonempty link) then None
  else Some (VObj [(js "title", VStr title); (js "url", VStr link);
                   (js "description", VStr description);
                   (js "pubDate", VStr pubDate); (js "author", VStr author)]).

(** The loop of [fetchRss] over the successive matches; reading a tag from
    a block that is [undefined] throws. *)
Fixpoint feed_loop (limit : nat) (ms : list (jsstring * mstate * jsstring))
    (items : list jsval) : result (list jsval) :=
  match ms with
  | [] => Ok items
  | (_, e, _) :: rest =>
      if Nat.ltb (List.length items) limit then
        match block_of e with
        | None => Throw TypeError
        | Some block =>
            match feed_item block with
            | Some item => feed_loop limit rest (items ++ [item])
            | None => feed_loop limit rest items
            end
        end
      else Ok items
  end.

(** What [fetchRss] makes of the body of the response, for a limit that is
    a natural number (20 unless a Twitter source configures it). *)
Definition parse_feed (body : jsstring) (limit : nat) : result (list jsval) :=
  feed_loop limit (fst (scan_all true feed_item_re body)) [].

(** [{ ...item, _sourceName: source.name, _sourceType: source.type }], as
    far as reading properties goes. *)
Definition tag_item (name type : jsval) (item : jsval) : jsval :=
  match item with
  | VObj fields =>
      VObj (fields ++ [(js "_sourceName", name); (js "_sourceType", type)])
  | _ => VObj [(js "_sourceName", name); (js "_sourceType", type)]
  end.

(** ** Fetching with retries and fall-backs

    The network is a parameter: what the [n]-th call of [httpFetch] of the
    run returns for a URL, a body or a thrown error.  The calls made and
    the time slept are threaded through as a state. *)

Definition network : Type := nat -> jsstring -> result jsstring.

Record world : Type := World {
  requests : list jsstring;     (* the URLs fetched so far, the latest first *)
  slept : Z                     (* milliseconds spent in [sleep] *)
}.

Definition M (A : Type) : Type := world -> result A * world.

Definition mret {A : Type} (a : A) : M A := fun w => (Ok a, w).

Definition mbind {A B : Type} (c : M A) (f : A -> M B) : M B :=
  fun w => match c w with
           | (Ok a, w') => f a w'
           | (Throw e, w') => (Throw e, w')
           end.

(** [try { body } catch { handler }] *)
Definition mcatch {A : Type} (body handler : M A) : M A :=
  fun w => match body w with
           | (Ok a, w') => (Ok a, w')
           | (Throw _, w') => handler w'
           end.

Notation "x <~ c ;; k" := (mbind c (fun x => k))
  (at level 61, c at next level, right associativity) : js_scope.

Definition sleep (ms : Z) : M unit :=
  fun w => (Ok tt, World (requests w) (slept w + ms)).

Section Fetching.

Variable net : network.
Variable RSSHUB_URL : jsstring.

Definition httpFetch (url : jsstring) : M jsstring :=
  fun w => (net (List.length (requests w)) url,
            World (url :: requests w) (slept w)).

Definition fetchRss (url : jsstring) (limit : nat) : M (list jsval) :=
  body <~ httpFetch url ;;
  fun w => (parse_feed body limit, w).

Definition RSSHUB_RETRIES : nat := 3.
Definition RSSHUB_RETRY_DELAY : Z := 5000.

(** The turns of the loop of [fetchRssHubWithRetry] that are left; [left]
    counts them, so that [attempt < RSSHUB_RETRIES] reads [1 < left]. *)
Fixpoint rsshub_attempts (path : jsstring) (limit : nat) (left : nat)
  : M (list jsval) :=
  match left with
  | O => mret []
  | S n =>
      let pause := if Nat.ltb 0 n then sleep RSSHUB_RETRY_DELAY else mret tt in
      r <~ mcatch
             (items <~ fetchRss (RSSHUB_URL ++ path) limit ;;
              match items with
              | _ :: _ => mret (Some items)
              | [] => _ <~ pause ;; mret None
              end)
             (_ <~ pause ;; mret None) ;;
      match r with
      | Some items => mret items
      | None => rsshub_attempts path limit n
      end
  end.

Definition fetchRssHubWithRetry (path : jsstring) (limit : nat)
  : M (list jsval) :=
  rsshub_attempts path limit RSSHUB_RETRIES.

Definition NITTER_INSTANCES : list jsstring :=
  [js "https://nitter.privacydev.net"; js "https://nitter.poast.org";
   js "https://nitter.1d4.us"; js "https://nitter.moomoo.me";
   js "https://nitter.net"].

Fixpoint nitter_loop (instances : list jsstring) (path : jsstring)
    (limit : nat) : M (list jsval) :=
  match instances with
  | [] => mret []
  | instance :: rest =>
      r <~ mcatch
             (items <~ fetchRss (instance ++ path) limit ;;
              mret (match items with _ :: _ => Some items | [] => None end))
             (mret None) ;;
      match r with
      | Some items => mret items
      | None => nitter_loop rest path limit
      end
  end.

Definition fetchNitterRss (path : jsstring) (limit : nat) : M (list jsval) :=
  nitter_loop NITTER_INSTANCES path limit.

End Fetching.

(** What one attempt of the two fetchers gets from request number [n] of
    the run: the items, when the response parses to at least one item;
    nothing when the request throws, the parser throws, or no item is
    found. *)
Definition attempt_items (net : network) (n : nat) (url : jsstring)
    (limit : nat) : option (list jsval) :=
  match net n url with
  | Ok body =>
      match parse_feed body limit with
      | Ok (i :: l) => Some (i :: l)
      | _ => None
      end
  | Throw _ => None
  end.

(** ** A reading of the quote repair

    What the replacement of [bare_quote_re] by a backslash and a quote
    amounts to: every double quote that no backslash precedes gets one;
    [after_backslash] tells whether the character before the string is a
    backslash. *)
Fixpoint escape_bare (after_backslash : bool) (s : jsstring) : jsstring :=
  match s with
  | [] => []
  | c :: s' =>
      if N.eqb c 34 && negb after_backslash
      then 92%N :: 34%N :: escape_bare false s'
      else c :: escape_bare (N.eqb c 92) s'
  end.

(** Whether a string holds a double quote that no backslash precedes. *)
Fixpoint has_bare_quote (after_backslash : bool) (s : jsstring) : bool :=
  match s with
  | [] => false
  | c :: s' =>
      (N.eqb c 34 && negb after_backslash) || has_bare_quote (N.eqb c 92) s'
  end.

(** The five keys of [keyPattern]. *)
Definition repaired_keys : list jsstring :=
  [js "title"; js "url"; js "summary"; js "category"; js "source"].

(** A line with a key, a colon and a value in quotes, an optional comma
    behind it and white space [ws1] to [ws4] in between. *)
Definition key_value_line (ws1 key ws2 ws3 value : jsstring) (comma : bool)
    (ws4 : jsstring) : jsstring :=
  ws1 ++ 34%N :: key ++ 34%N :: ws2 ++ 58%N :: ws3 ++ 34%N :: value
      ++ 34%N :: (if comma then [44%N] else []) ++ ws4.

(** Neither a line feed nor one of the five typographic quotes that
    [fixLlmJsonQuotes] replaces. *)
Definition plain_char (c : N) : bool :=
  negb (N.eqb c 10)
  && negb (existsb (N.eqb c) [0x201C; 0x201D; 0x201E; 0x2033; 0xFF02]%N).

(** ** Readings of the feed expressions *)

(** Whether a string starts with a literal when the i flag is set: every
    character of the literal meets itself or its other case. *)
Fixpoint starts_with_ci (lit s : jsstring) : bool :=
  match lit, s with
  | [], _ => true
  | a :: lit', c :: s' =>
      (N.eqb a c || N.eqb a (swapcase c)) && starts_with_ci lit' s'
  | _ :: _, [] => false
  end.

(** The characters of the tags that the script reads: ASCII letters and
    the colon. *)
Definition tag_name_char (c : N) : bool :=
  ((65 <=? c) && (c <=? 90) || (97 <=? c) && (c <=? 122) || (c =? 58))%N.

(** An element in a text: the text before it, the opening tag with
    attributes, the content, with or without a CDATA section around it, the
    closing tag and the rest. *)
Definition element_in (pre tag attrs : jsstring) (cdata : bool)
    (t rest : jsstring) : jsstring :=
  pre ++ 60%N :: tag ++ attrs ++ 62%N
      :: (if cdata then js "<![CDATA[" else []) ++ t
      ++ (if cdata then js "]]>" else []) ++ js "</" ++ tag ++ 62%N :: rest.

(** Whether a literal occurs in a string, the case of letters apart. *)
Fixpoint occurs_ci (lit s : jsstring) : bool :=
  starts_with_ci lit s
  || match s with
     | [] => false
     | _ :: s' => occurs_ci lit s'
     end.

End Program.

(** ** A reference runtime

    The runtime functions on a fragment of inputs that is enough to run the
    program: SHA-256 in full, lower-casing for strings whose only cased
    letters are ASCII, URLs of the shape [http(s)://host/path], given as a
    string or as an array of one string (which converts to that string),
    and dates given as a number of milliseconds or as
    [YYYY-MM-DDTHH:mm:ssZ].  Outside its fragment a function answers as for
    a failure. *)

(** UTF-8 of a string, a lone surrogate becoming U+FFFD. *)
Definition utf8_of_cp (cp : N) : list N :=
  (if cp <? 0x80 then [cp]
   else if cp <? 0x800 then [0xC0 + cp / 64; 0x80 + cp mod 64]
   else if cp <? 0x10000 then
     [0xE0 + cp / 4096; 0x80 + (cp / 64) mod 64; 0x80 + cp mod 64]
   else [0xF0 + cp / 262144; 0x80 + (cp / 4096) mod 64;
         0x80 + (cp / 64) mod 64; 0x80 + cp mod 64])%N.

Fixpoint utf8 (s : jsstring) : list N :=
  match s with
  | [] => []
  | c :: s' =>
      if ((0xD800 <=? c) && (c <=? 0xDBFF))%N then
        match s' with
        | d :: s'' =>
            if ((0xDC00 <=? d) && (d <=? 0xDFFF))%N
            then utf8_of_cp (0x10000 + (c - 0xD800) * 1024 + (d - 0xDC00))%N
                 ++ utf8 s''
            else utf8_of_cp 0xFFFD ++ utf8 s'
        | [] => utf8_of_cp 0xFFFD
        end
      else if ((0xDC00 <=? c) && (c <=? 0xDFFF))%N
      then utf8_of_cp 0xFFFD ++ utf8 s'
      else utf8_of_cp c ++ utf8 s'
  end.

Definition word (x : N) : N := (x mod 4294967296)%N.

Definition rotr (n x : N) : N :=
  word (N.lor (N.shiftr x n) (N.shiftl x (32 - n))).

(** The largest [r] with [r^3 <= n], found bit by bit from bit [b] down. *)
Fixpoint cube_root_bits (b : nat) (n r : N) : N :=
  let r' := (r + 2 ^ N.of_nat b)%N in
  let r2 := if (r' * r' * r' <=? n)%N then r' else r in
  match b with
  | O => r2
  | S b' => cube_root_bits b' n r2
  end.

Definition first_primes : list N :=
  [2; 3; 5; 7; 11; 13; 17; 19; 23; 29; 31; 37; 41; 43; 47; 53; 59; 61; 67; 71;
   73; 79; 83; 89; 97; 101; 103; 107; 109; 113; 127; 131; 137; 139; 149; 151;
   157; 163; 167; 173; 179; 181; 191; 193; 197; 199; 211; 223; 227; 229; 233;
   239; 241; 251; 257; 263; 269; 271; 277; 281; 283; 293; 307; 311]%N.

(** Round constants: the first 32 bits of the fractional parts of the cube
    roots of the first 64 primes; initial state: the same of the square
    roots of the first 8. *)
Definition sha_K : list N :=
  Eval vm_compute in
    List.map (fun q => word (cube_root_bits 40 (q * 2 ^ 96) 0)) first_primes.

Definition sha_H0 : list N :=
  Eval vm_compute in
    List.map (fun q => word (N.sqrt (q * 2 ^ 64))) (firstn 8 first_primes).

Definition sha_pad (msg : list N) : list N :=
  let len := List.length msg in
  let zeros := (64 - (len + 9) mod 64) mod 64 in
  let bits := (N.of_nat len * 8)%N in
  msg ++ 128%N :: repeat 0%N zeros
      ++ List.map (fun i => (N.shiftr bits (8 * N.of_nat (7 - i)) mod 256)%N)
                  (seq 0 8).

Fixpoint words_of (fuel : nat) (bytes : list N) : list N :=
  match fuel, bytes with
  | S f, a :: b :: c :: d :: rest =>
      (((a * 256 + b) * 256 + c) * 256 + d)%N :: words_of f rest
  | _, _ => []
  end.

(** The message schedule, most recent word first. *)
Fixpoint schedule (n : nat) (w : list N) : list N :=
  match n with
  | O => w
  | S n' =>
      let w2 := nth 1 w 0%N in
      let w7 := nth 6 w 0%N in
      let w15 := nth 14 w 0%N in
      let w16 := nth 15 w 0%N in
      let s0 := N.lxor (N.lxor (rotr 7 w15) (rotr 18 w15)) (N.shiftr w15 3) in
      let s1 := N.lxor (N.lxor (rotr 17 w2) (rotr 19 w2)) (N.shiftr w2 10) in
      schedule n' (word (s1 + w7 + s0 + w16) :: w)
  end.

Definition sha_round (st : list N) (kw : N * N) : list N :=
  match st with
  | [a; b; c; d; e; f; g; h] =>
      let S1 := N.lxor (N.lxor (rotr 6 e) (rotr 11 e)) (rotr 25 e) in
      let ch := N.lxor (N.land e f) (N.land (N.lxor e 4294967295) g) in
      let t1 := word (h + S1 + ch + fst kw + snd kw) in
      let S0 := N.lxor (N.lxor (rotr 2 a) (rotr 13 a)) (rotr 22 a) in
      let maj := N.lxor (N.lxor (N.land a b) (N.land a c)) (N.land b c) in
      let t2 := word (S0 + maj) in
      [word (t1 + t2); a; b; c; word (d + t1); e; f; g]
  | _ => st
  end.

Definition sha_block (st : list N) (block : list N) : list N :=
  let w := rev (schedule 48 (rev (words_of 16 block))) in
  let st' := fold_left sha_round (combine sha_K w) st in
  List.map (fun xy => word (fst xy + snd xy)) (combine st st').

Fixpoint sha_blocks (fuel : nat) (st : list N) (bytes : list N) : list N :=
  match fuel, bytes with
  | S f, _ :: _ => sha_blocks f (sha_block st (firstn 64 bytes)) (skipn 64 bytes)
  | _, _ => st
  end.

Definition hex_char (d : N) : N := (if d <? 10 then 48 + d else 87 + d)%N.

Definition hex_of_word (x : N) : jsstring :=
  List.map (fun i => hex_char ((N.shiftr x (4 * N.of_nat (7 - i))) mod 16)%N)
           (seq 0 8).

Definition ref_sha256_hex (s : jsstring) : jsstring :=
  let bytes := sha_pad (utf8 s) in
  List.concat (List.map hex_of_word
                 (sha_blocks (List.length bytes) sha_H0 bytes)).

Definition ref_toLowerCase (s : jsstring) : jsstring :=
  List.map (fun c => if ((65 <=? c) && (c <=? 90))%N then (c + 32)%N else c) s.

Definition is_alpha (c : N) : bool :=
  ((65 <=? c) && (c <=? 90) || (97 <=? c) && (c <=? 122))%N.

Fixpoint split_on (sep : N) (cur : jsstring) (s : jsstring) : list jsstring :=
  match s with
  | [] => [rev cur]
  | c :: s' =>
      if N.eqb c sep then rev cur :: split_on sep [] s'
      else split_on sep (c :: cur) s'
  end.

Fixpoint span (p : N -> bool) (s : jsstring) : jsstring * jsstring :=
  match s with
  | c :: s' => if p c then let (a, b) := span p s' in (c :: a, b) else ([], s)
  | [] => ([], [])
  end.

(** A host made of letters, digits, hyphens and dots, with no empty label,
    no punycode label, and a last label that starts with a letter (so that
    it is not read as an IPv4 address). *)
Definition ref_host_ok (host : jsstring) : bool :=
  let labels := split_on 46 [] host in
  forallb (fun c => is_alpha c || is_digit c || N.eqb c 45 || N.eqb c 46) host
  && forallb (fun l => nonempty l
                       && negb (starts_with (js "xn--") (ref_toLowerCase l)))
             labels
  && match last labels [] with c :: _ => is_alpha c | [] => false end.

(** A path made of letters, digits and [/ _ ~ . -], without a segment [.]
    or [..]. *)
Definition ref_path_ok (path : jsstring) : bool :=
  forallb (fun c => is_alpha c || is_digit c || N.eqb c 47 || N.eqb c 95
                    || N.eqb c 126 || N.eqb c 46 || N.eqb c 45) path
  && forallb (fun seg => negb (str_eqb seg (js ".") || str_eqb seg (js "..")))
             (split_on 47 [] path).

Definition ref_URL_parse_string (s : jsstring)
  : option (jsstring * jsstring) :=
  let low := ref_toLowerCase s in
  let after_scheme :=
    if starts_with (js "http://") low then Some (skipn 7 s)
    else if starts_with (js "https://") low then Some (skipn 8 s)
    else None in
  match after_scheme with
  | None => None
  | Some r =>
      let (host, r1) :=
        span (fun c => negb (N.eqb c 47 || N.eqb c 63 || N.eqb c 35)) r in
      let (path, r2) :=
        span (fun c => negb (N.eqb c 63 || N.eqb c 35)) r1 in
      if ref_host_ok host && ref_path_ok path
         && forallb (fun c => (33 <=? c) && (c <=? 126))%N r2
      then Some (ref_toLowerCase host,
                 match path with [] => [47%N] | _ :: _ => path end)
      else None
  end.

Definition ref_URL_parse (v : jsval) : option (jsstring * jsstring) :=
  match v with
  | VStr s => ref_URL_parse_string s
  | VArr [VStr s] => ref_URL_parse_string s
  | _ => None
  end.

(** Days from 1970-01-01 to a date of the proleptic Gregorian calendar. *)
Definition days_from_civil (y m d : Z) : Z :=
  (let y' := if m <=? 2 then y - 1 else y in
   let era := y' / 400 in
   let yoe := y' - era * 400 in
   let mp := (m + 9) mod 12 in
   let doy := (153 * mp + 2) / 5 + d - 1 in
   let doe := yoe * 365 + yoe / 4 - yoe / 100 + doy in
   era * 146097 + doe - 719468)%Z.

Definition two_digits (a b : N) : option Z :=
  if is_digit a && is_digit b then Some (Z.of_N ((a - 48) * 10 + (b - 48)))
  else None.

(** [YYYY-MM-DDTHH:mm:ssZ] with a day of the month up to 28. *)
Definition ref_parse_iso (s : jsstring) : option Z :=
  match s with
  | [y1; y2; y3; y4; h1; m1; m2; h2; d1; d2; t; o1; o2; c1; i1; i2; c2; s1; s2; z] =>
      if N.eqb h1 45 && N.eqb h2 45 && N.eqb t 84 && N.eqb c1 58
         && N.eqb c2 58 && N.eqb z 90
      then
        match two_digits y1 y2, two_digits y3 y4, two_digits m1 m2,
              two_digits d1 d2, two_digits o1 o2, two_digits i1 i2,
              two_digits s1 s2 with
        | Some ya, Some yb, Some mo, Some d, Some h, Some mi, Some sec =>
            (if (1 <=? mo) && (mo <=? 12) && (1 <=? d) && (d <=? 28)
                && (h <=? 23) && (mi <=? 59) && (sec <=? 59)
             then Some ((((days_from_civil (ya * 100 + yb) mo d * 24 + h) * 60
                          + mi) * 60 + sec) * 1000)
             else None)%Z
        | _, _, _, _, _, _, _ => None
        end
      else None
  | _ => None
  end.

Definition ref_Date_getTime (v : jsval) : option Z :=
  match v with
  | VNum m 0 => if (Z.abs m <=? 8640000000000000)%Z then Some m else None
  | VStr s => ref_parse_iso s
  | _ => None
  end.

Definition ref_toLowerCase_empty : ref_toLowerCase [] = [] := eq_refl.

Definition ref_URL_parse_falsy (v : jsval)
  : truthy v = false -> ref_URL_parse v = None :=
  match v with
  | VStr (_ :: _) => fun H => False_ind _ (diff_true_false H)
  | VArr _ => fun H => False_ind _ (diff_true_false H)
  | _ => fun _ => eq_refl
  end.

#[export] Instance reference_runtime : Runtime := {|
  toLowerCase := ref_toLowerCase;
  sha256_hex := ref_sha256_hex;
  URL_parse := ref_URL_parse;
  Date_getTime := ref_Date_getTime;
  toLowerCase_empty := ref_toLowerCase_empty;
  Date_getTime_empty := eq_refl;
  URL_parse_falsy := ref_URL_parse_falsy
|}.

(** ** Sample data *)

(** An object whose members are strings. *)
Definition obj (members : list (string * jsstring)) : jsval :=
  VObj (List.map (fun kv => (js (fst kv), VStr (snd kv))) members).

(** A story pushed once and fetched again 80 hours later. *)
Definition story : jsval :=
  obj [("title", js "Story one"); ("url", js "https://example.com/story-1")]%string.

Definition hours80 : Z := 288000.

(** The story with its URL in an array of one string, as a model may
    write it. *)
Definition story_array_url : jsval :=
  VObj [(js "title", VStr (js "Story one"));
        (js "url", VArr [VStr (js "https://example.com/story-1")])].

(** The one fetched item of a run, and an answer of the model with a URL
    that was not fetched. *)
Definition fetched_real : list jsval :=
  [obj [("title", js "Real story"); ("url", js "https://example.com/real")]%string].

Definition answer_fabricated : jsstring :=
  jsq "[{'title':'Made up','url':'https://fabricated.example/x','summary':'Not fetched'}]".

(** An answer of the model with five high-priority items. *)
Definition hot_entry (title url : string) : jsstring :=
  jsq "{'title':'" ++ js title ++ jsq "','url':'" ++ js url
      ++ jsq "','summary':'s','category':'" ++ HOT ++ jsq "'}".

Definition answer_five_hot : jsstring :=
  js "[" ++ hot_entry "alpha" "https://example.com/1"
  ++ js "," ++ hot_entry "bravo" "https://example.com/2"
  ++ js "," ++ hot_entry "charlie" "https://example.com/3"
  ++ js "," ++ hot_entry "delta" "https://example.com/4"
  ++ js "," ++ hot_entry "echo" "https://example.com/5" ++ js "]".

Definition hot_item (title url : string) : jsval :=
  VObj [(js "title", VStr (js title)); (js "url", VStr (js url));
        (js "summary", VStr (js "s")); (js "category", VStr HOT)].

Definition general_item (title url : string) : jsval :=
  VObj [(js "title", VStr (js title)); (js "url", VStr (js url));
        (js "summary", VStr (js "s")); (js "category", VStr (js "general"))].

(** The raw model output of the quote-repair scenario, on one line as the
    scenario gives it, and laid out with one member per line. *)
Definition scenario_one_line : jsstring :=
  jsq "[{'title':'A','url':'http://x','summary':'He said 'hello'','category':'general','source':'s'}]".

Definition scenario_lines : jsstring :=
  join_lines
    [jsq "["; jsq "{"; jsq "'title':'A',"; jsq "'url':'http://x',";
     jsq "'summary':'He said 'hello'',"; jsq "'category':'general',";
     jsq "'source':'s'"; jsq "}"; jsq "]"].

Definition scenario_lines_repaired : jsstring :=
  join_lines
    [jsq "["; jsq "{"; jsq "'title':'A',"; jsq "'url':'http://x',";
     jsq "'summary':'He said \'hello\'',"; jsq "'category':'general',";
     jsq "'source':'s'"; jsq "}"; jsq "]"].

Definition scenario_item : jsval :=
  obj [("title", js "A"); ("url", js "http://x");
       ("summary", jsq "He said 'hello'"); ("category", js "general");
       ("source", js "s")]%string.

(** Three items for [deduplicateItems]: two general ones that are not
    similar, then a high-priority one whose title contains both titles. *)
Definition dedup_x : jsval := general_item "OpenAI raises funding" "https://a.example/1".
Definition dedup_y : jsval := general_item "Google ships model" "https://b.example/2".
Definition dedup_z : jsval :=
  hot_item "OpenAI raises funding, Google ships model" "https://c.example/3".

(** Three fetched items: one published long ago, one without a date, one
    with a date that does not parse; and the time of the run. *)
Definition old_item : jsval :=
  obj [("title", js "Old news"); ("url", js "https://example.com/old");
       ("pubDate", js "2026-01-01T00:00:00Z")]%string.

Definition undated_item : jsval :=
  obj [("title", js "No date"); ("url", js "https://example.com/undated")]%string.

Definition odd_date_item : jsval :=
  obj [("title", js "Odd date"); ("url", js "https://example.com/odd");
       ("pubDate", js "yesterday")]%string.

Definition run_time_ms : Z := 1793593320000.   (* 2026-11-02T04:22:00Z *)

(** The table after [story] has been recorded at time 0. *)
Definition story_db : pushdb :=
  DbOpen [Row (js "514fa6e019d348c3") (js "cb29803c0f61f6ad") (js "Story one")
              (VStr (js "https://example.com/story-1")) (js "4h") 0].

Definition made_up_item : jsval :=
  obj [("title", js "Made up"); ("url", js "https://fabricated.example/x");
       ("summary", js "Not fetched")]%string.

Definition five_hot_items : list jsval :=
  [hot_item "alpha" "https://example.com/1";
   hot_item "bravo" "https://example.com/2";
   hot_item "charlie" "https://example.com/3";
   hot_item "delta" "https://example.com/4";
   hot_item "echo" "https://example.com/5"].

(** Two items without a URL, as the rescue path of [main] can push them. *)
Definition rescued_one : jsval :=
  obj [("title", js "Rescued one"); ("summary", js "s")]%string.

Definition rescued_two : jsval :=
  obj [("title", js "Entirely different"); ("summary", js "s"); ("url", [])]%string.

Definition rescued_db : pushdb :=
  DbOpen [Row (js "e3b0c44298fc1c14") (js "542ac2463282e783") (js "Rescued one")
              (VStr []) (js "daily") 0].

(** The state of the pre-dedup loop after the three dated and undated
    items. *)
Definition sample_prededup : prededup :=
  PreDedup [js "example.com/undated"; js "example.com/odd"]
           [undated_item; odd_date_item] 0 1.

(** An answer of the model whose two items have a title and a summary but
    no URL. *)
Definition answer_without_urls : jsstring :=
  jsq "[{'title':'Rescued one','summary':'s'},{'title':'Entirely different','summary':'s','url':''}]".

(** Two items with the same URL, the second of high priority. *)
Definition tie_first : jsval := general_item "Alpha launch" "https://a.example/1".
Definition tie_second : jsval := hot_item "Beta report" "https://a.example/1/".

(** A feed with one item, and that item as [fetchRss] returns it and as
    [main] tags it. *)
Definition sample_feed : jsstring :=
  js "<rss><item><title>A  <b>bold</b> title</title><link>http://x.example/a</link><pubDate>2026-01-01T00:00:00Z</pubDate></item></rss>".

Definition sample_feed_item : jsval :=
  obj [("title", js "A bold title"); ("url", js "http://x.example/a");
       ("description", []); ("pubDate", js "2026-01-01T00:00:00Z");
       ("author", [])]%string.

(** * Properties *)

Unset Implicit Arguments.

(** ** Strings, sets and values *)

Lemma str_eqb_eq (a b : jsstring) : str_eqb a b = true <-> a = b.
Proof.
  revert b; induction a as [|x a IH]; intros [|y b]; simpl;
    try (split; (discriminate || reflexivity)).
  rewrite andb_true_iff, N.eqb_eq, IH.
  split; [intros [-> ->]; reflexivity | intros H; inversion H; auto].
Qed.

Lemma str_eqb_refl (a : jsstring) : str_eqb a a = true.
Proof. apply str_eqb_eq; reflexivity. Qed.

Lemma str_eqb_sym (a b : jsstring) : str_eqb a b = str_eqb b a.
Proof.
  destruct (str_eqb a b) eqn:E.
  - apply str_eqb_eq in E; subst; symmetry; apply str_eqb_refl.
  - destruct (str_eqb b a) eqn:E'; [|reflexivity].
    apply str_eqb_eq in E'; subst; rewrite str_eqb_refl in E; discriminate.
Qed.

Lemma set_has_In (x : jsstring) (s : jsset) : set_has x s = true <-> In x s.
Proof.
  unfold set_has; rewrite existsb_exists; split.
  - intros (y & Hy & E); apply str_eqb_eq in E; subst; exact Hy.
  - intros H; exists x; split; [exact H | apply str_eqb_refl].
Qed.

Lemma set_add_In (x y : jsstring) (s : jsset) :
  In y (set_add x s) <-> y = x \/ In y s.
Proof.
  unfold set_add; destruct (set_has x s) eqn:E.
  - apply set_has_In in E; split; [auto | intros [->|H]; auto].
  - rewrite in_app_iff; simpl; intuition.
Qed.

Lemma set_add_NoDup (x : jsstring) (s : jsset) : NoDup s -> NoDup (set_add x s).
Proof.
  intros H; unfold set_add; destruct (set_has x s) eqn:E; [exact H|].
  apply NoDup_app; [exact H | repeat constructor; simpl; tauto |].
  intros a Ha [<-|[]].
  apply set_has_In in Ha; congruence.
Qed.

Lemma set_of_list_spec (l : list jsstring) (x : jsstring) :
  In x (set_of_list l) <-> In x l.
Proof.
  unfold set_of_list.
  assert (G : forall acc, In x (fold_left (fun a y => set_add y a) l acc)
                          <-> In x acc \/ In x l).
  { induction l as [|y l IH]; intros acc; simpl; [tauto|].
    rewrite IH, set_add_In; intuition. }
  rewrite G; simpl; tauto.
Qed.

Lemma nonempty_filter {A : Type} (f : A -> bool) (l : list A) :
  nonempty (filter f l) = existsb f l.
Proof.
  induction l as [|x l IH]; simpl; [reflexivity|].
  destruct (f x); simpl; [reflexivity | exact IH].
Qed.

(** Swapping the two lists of a doubly existential test over a symmetric
    relation guarded by a predicate on both sides. *)
Lemma existsb_swap {A : Type} (p : A -> bool) (R : A -> A -> bool)
    (la lb : list A) :
  (forall x y, R x y = R y x) ->
  existsb (fun n => p n && existsb (fun m => p m && R n m) lb) la
  = existsb (fun m => p m && existsb (fun n => p n && R m n) la) lb.
Proof.
  intros Hsym.
  apply eq_true_iff_eq; rewrite !existsb_exists; split.
  - intros (n & Hn & H); apply andb_true_iff in H; destruct H as [Pn H].
    apply existsb_exists in H; destruct H as (m & Hm & H).
    apply andb_true_iff in H; destruct H as [Pm H].
    exists m; split; [exact Hm|]; rewrite Pm; simpl.
    apply existsb_exists; exists n; split; [exact Hn|].
    rewrite Pn, Hsym; exact H.
  - intros (m & Hm & H); apply andb_true_iff in H; destruct H as [Pm H].
    apply existsb_exists in H; destruct H as (n & Hn & H).
    apply andb_true_iff in H; destruct H as [Pn H].
    exists n; split; [exact Hn|]; rewrite Pn; simpl.
    apply existsb_exists; exists m; split; [exact Hm|].
    rewrite Pm, Hsym; exact H.
Qed.

Lemma existsb_swap_plain {A : Type} (R : A -> A -> bool) (la lb : list A) :
  (forall x y, R x y = R y x) ->
  existsb (fun n => existsb (fun m => R n m) lb) la
  = existsb (fun m => existsb (fun n => R m n) la) lb.
Proof.
  intros Hsym.
  pose proof (existsb_swap (fun _ => true) R la lb Hsym) as H.
  simpl in H; exact H.
Qed.

Lemma count_common_length (ba bb : jsset) :
  count_common ba bb = List.length (filter (fun g => set_has g bb) ba).
Proof.
  unfold count_common.
  assert (G : forall n,
    fold_left (fun n g => if set_has g bb then S n else n) ba n
    = n + List.length (filter (fun g => set_has g bb) ba)).
  { induction ba as [|g ba IH]; intros n; simpl; [lia|].
    rewrite IH; destruct (set_has g bb); simpl; lia. }
  apply (G 0).
Qed.

Lemma count_common_sym (ba bb : jsset) :
  NoDup ba -> NoDup bb -> count_common ba bb = count_common bb ba.
Proof.
  intros Ha Hb; rewrite !count_common_length.
  apply Permutation_length, NoDup_Permutation.
  - apply NoDup_filter; exact Ha.
  - apply NoDup_filter; exact Hb.
  - intros x; rewrite !filter_In, !set_has_In; tauto.
Qed.

Lemma bigrams_NoDup (s : jsstring) : NoDup (bigrams s).
Proof.
  unfold bigrams.
  assert (G : forall acc, NoDup acc -> NoDup (bigrams_from s acc)).
  { induction s as [|a s IH]; intros acc Hacc; simpl; [exact Hacc|].
    destruct s as [|b s]; [exact Hacc|].
    apply IH, set_add_NoDup, Hacc. }
  apply G; constructor.
Qed.

(** ** The fuel of the JSON parser *)

Lemma skip_ws_le (s : jsstring) : List.length (skip_ws s) <= List.length s.
Proof.
  induction s as [|c s IH]; simpl; [lia|].
  destruct (is_json_ws c); simpl; lia.
Qed.

Lemma parse_chars_lt :
  forall n s acc t r, List.length s <= n ->
  parse_chars s acc = Some (t, r) -> List.length r < List.length s.
Proof.
  induction n as [|n IH]; intros s acc t r Hn H.
  - destruct s; [discriminate | simpl in Hn; lia].
  - destruct s as [|c rest]; [discriminate|]; simpl in Hn.
    cbn [parse_chars] in H.
    destruct (c =? 34)%N; [injection H as _ <-; simpl; lia|].
    destruct (c =? 92)%N.
    + destruct rest as [|e rest2]; [discriminate|]; simpl in Hn.
      destruct (e =? 117)%N.
      * destruct rest2 as [|h1 [|h2 [|h3 [|h4 rest3]]]]; try discriminate.
        destruct (hex4 h1 h2 h3 h4); [|discriminate].
        apply IH in H; simpl in *; lia.
      * destruct (simple_escape e); [|discriminate].
        apply IH in H; simpl in *; lia.
    + destruct (c <? 32)%N; [discriminate|].
      apply IH in H; simpl in *; lia.
Qed.

Lemma take_digits_le (s : jsstring) :
  forall acc, List.length (snd (take_digits s acc)) <= List.length s.
Proof.
  induction s as [|c s IH]; intros acc; simpl; [lia|].
  destruct (is_digit c); simpl; [specialize (IH (c :: acc)); lia | lia].
Qed.

Lemma take_digits_lt (s : jsstring) :
  fst (take_digits s []) <> [] ->
  List.length (snd (take_digits s [])) < List.length s.
Proof.
  destruct s as [|c s]; simpl; [congruence|].
  destruct (is_digit c); simpl; [|congruence].
  intros _; pose proof (take_digits_le s [c]); lia.
Qed.

Lemma parse_number_lt (s : jsstring) (v : jsval) (r : jsstring) :
  parse_number s = Some (v, r) -> List.length r < List.length s.
Proof.
  unfold parse_number.
  set (p1 := match s with
             | c :: r0 => if (c =? 45)%N then (true, r0) else (false, s)
             | [] => (false, s)
             end).
  assert (H1 : List.length (snd p1) <= List.length s).
  { subst p1; destruct s as [|c r0]; simpl; [lia|].
    destruct (c =? 45)%N; simpl; lia. }
  destruct p1 as [neg s1]; simpl in H1.
  pose proof (take_digits_lt s1) as H2.
  destruct (take_digits s1 []) as [ip s2]; simpl in H2.
  destruct ip as [|d ip']; [discriminate|].
  assert (H2' : List.length s2 < List.length s1) by (apply H2; discriminate).
  clear H2.
  destruct ((d =? 48)%N && nonempty ip'); [discriminate|].
  set (frac := match s2 with
               | c :: r0 =>
                   if (c =? 46)%N then
                     let (fp, s3) := take_digits r0 [] in
                     match fp with [] => None | _ :: _ => Some (fp, s3) end
                   else Some ([], s2)
               | [] => Some ([], s2)
               end).
  assert (H3 : forall fp s3, frac = Some (fp, s3) ->
                             List.length s3 <= List.length s2).
  { subst frac; intros fp s3; destruct s2 as [|c r0]; simpl.
    - intros E; injection E as _ <-; simpl; lia.
    - destruct (c =? 46)%N.
      + pose proof (take_digits_le r0 []) as G.
        destruct (take_digits r0 []) as [fp0 s30]; simpl in G.
        destruct fp0; [discriminate|].
        intros E; injection E as _ <-; lia.
      + intros E; injection E as _ <-; simpl; lia. }
  destruct frac as [[fp s3]|]; [|discriminate].
  specialize (H3 fp s3 eq_refl).
  match goal with
  | |- match ?ex with _ => _ end = _ -> _ =>
      assert (H4 : forall e s4, ex = Some (e, s4) ->
                                List.length s4 <= List.length s3);
      [|destruct ex as [[e s4]|]; [|discriminate]]
  end.
  { intros e s4; destruct s3 as [|c r0]; simpl.
    - intros E; injection E as _ <-; simpl; lia.
    - destruct ((c =? 101)%N || (c =? 69)%N).
      + set (p := match r0 with
                  | g :: r' => if (g =? 45)%N then (true, r')
                               else if (g =? 43)%N then (false, r')
                               else (false, r0)
                  | [] => (false, r0)
                  end).
        assert (G1 : List.length (snd p) <= List.length r0).
        { subst p; destruct r0 as [|g r']; simpl; [lia|].
          destruct (g =? 45)%N; simpl; [lia|].
          destruct (g =? 43)%N; simpl; lia. }
        destruct p as [eneg r1]; simpl in G1.
        pose proof (take_digits_le r1 []) as G2.
        destruct (take_digits r1 []) as [ep s40]; simpl in G2.
        destruct ep; [discriminate|].
        intros E; injection E as _ <-; lia.
      + intros E; injection E as _ <-; simpl; lia. }
  specialize (H4 e s4 eq_refl).
  intros E; injection E as _ <-; lia.
Qed.

Lemma expect_lt (lit : jsstring) (v w : jsval) (s r : jsstring) :
  lit <> [] -> expect lit v s = Some (w, r) -> List.length r < List.length s.
Proof.
  unfold expect; intros Hl.
  destruct (starts_with lit s) eqn:E; [|discriminate].
  intros H; injection H as _ <-.
  destruct lit as [|a lit]; [congruence|].
  destruct s as [|b s]; [discriminate|].
  rewrite length_skipn; simpl; lia.
Qed.

(** Every successful parse consumes input. *)
Lemma parse_consumes (fuel : nat) :
  (forall s v r, parse_value fuel s = Some (v, r) ->
                 List.length r < List.length s)
  /\ (forall s acc v r, parse_elems fuel s acc = Some (v, r) ->
                        List.length r < List.length s)
  /\ (forall s acc v r, parse_members fuel s acc = Some (v, r) ->
                        List.length r < List.length s).
Proof.
  induction fuel as [|f (IHv & IHe & IHm)];
    [repeat split; intros; discriminate|].
  assert (Hv : forall s v r, parse_value (S f) s = Some (v, r) ->
                             List.length r < List.length s).
  { intros s v r; cbn [parse_value].
    pose proof (skip_ws_le s) as Hs.
    destruct (skip_ws s) as [|c rest]; [discriminate|]; simpl in Hs.
    destruct (c =? 34)%N.
    { destruct (parse_chars rest []) as [[t r0]|] eqn:E; [|discriminate].
      intros H; injection H as _ <-.
      apply (parse_chars_lt (List.length rest)) in E; lia. }
    destruct (c =? 91)%N.
    { pose proof (skip_ws_le rest) as Hr.
      destruct (skip_ws rest) as [|c' r0]; [discriminate|]; simpl in Hr.
      destruct (c' =? 93)%N; [intros H; injection H as _ <-; lia|].
      intros H; apply IHe in H; lia. }
    destruct (c =? 123)%N.
    { pose proof (skip_ws_le rest) as Hr.
      destruct (skip_ws rest) as [|c' r0]; [discriminate|]; simpl in Hr.
      destruct (c' =? 125)%N; [intros H; injection H as _ <-; lia|].
      intros H; apply IHm in H; lia. }
    destruct (c =? 116)%N;
      [intros H; apply expect_lt in H; [simpl in H; lia | discriminate]|].
    destruct (c =? 102)%N;
      [intros H; apply expect_lt in H; [simpl in H; lia | discriminate]|].
    destruct (c =? 110)%N;
      [intros H; apply expect_lt in H; [simpl in H; lia | discriminate]|].
    intros H; apply parse_number_lt in H; simpl in H; lia. }
  split; [exact Hv|]; split.
  - intros s acc v r; cbn [parse_elems].
    destruct (parse_value f s) as [[v0 r0]|] eqn:E; [|discriminate].
    apply IHv in E.
    pose proof (skip_ws_le r0) as Hr.
    destruct (skip_ws r0) as [|c r']; [discriminate|]; simpl in Hr.
    destruct (c =? 44)%N; [intros H; apply IHe in H; lia|].
    destruct (c =? 93)%N; [intros H; injection H as _ <-; lia | discriminate].
  - intros s acc v r; cbn [parse_members].
    pose proof (skip_ws_le s) as Hs.
    destruct (skip_ws s) as [|q s1]; [discriminate|]; simpl in Hs.
    destruct (q =? 34)%N; [|discriminate].
    destruct (parse_chars s1 []) as [[key s2]|] eqn:E; [|discriminate].
    apply (parse_chars_lt (List.length s1)) in E; [|lia].
    pose proof (skip_ws_le s2) as Hs2.
    destruct (skip_ws s2) as [|c s3]; [discriminate|]; simpl in Hs2.
    destruct (c =? 58)%N; [|discriminate].
    destruct (parse_value f s3) as [[v0 r0]|] eqn:Ev; [|discriminate].
    apply IHv in Ev.
    pose proof (skip_ws_le r0) as Hr.
    destruct (skip_ws r0) as [|c' r']; [discriminate|]; simpl in Hr.
    destruct (c' =? 44)%N; [intros H; apply IHm in H; lia|].
    destruct (c' =? 125)%N; [intros H; injection H as _ <-; lia | discriminate].
Qed.

(** Fuel beyond twice the length of the text does not change the result. *)
Lemma parse_fuel (fuel : nat) :
  (forall s fuel', 2 * List.length s + 1 <= fuel -> fuel <= fuel' ->
                   parse_value fuel' s = parse_value fuel s)
  /\ (forall s acc fuel', 2 * List.length s + 2 <= fuel -> fuel <= fuel' ->
                          parse_elems fuel' s acc = parse_elems fuel s acc)
  /\ (forall s acc fuel', 2 * List.length s + 2 <= fuel -> fuel <= fuel' ->
                          parse_members fuel' s acc = parse_members fuel s acc).
Proof.
  induction fuel as [|f (IHv & IHe & IHm)];
    [repeat split; intros; lia|].
  split; [|split].
  - intros s [|f'] Hs Hf; [lia|]; cbn [parse_value].
    pose proof (skip_ws_le s) as Hw.
    destruct (skip_ws s) as [|c rest]; [reflexivity|]; simpl in Hw.
    destruct (c =? 34)%N; [reflexivity|].
    destruct (c =? 91)%N.
    { destruct (skip_ws rest) as [|c' r0]; [reflexivity|].
      destruct (c' =? 93)%N; [reflexivity | apply IHe; lia]. }
    destruct (c =? 123)%N; [|reflexivity].
    destruct (skip_ws rest) as [|c' r0]; [reflexivity|].
    destruct (c' =? 125)%N; [reflexivity | apply IHm; lia].
  - intros s acc [|f'] Hs Hf; [lia|]; cbn [parse_elems].
    rewrite (IHv s f') by lia.
    destruct (parse_value f s) as [[v0 r0]|] eqn:E; [|reflexivity].
    apply (proj1 (parse_consumes f)) in E.
    pose proof (skip_ws_le r0) as Hr.
    destruct (skip_ws r0) as [|c r']; [reflexivity|]; simpl in Hr.
    destruct (c =? 44)%N; [apply IHe; lia | reflexivity].
  - intros s acc [|f'] Hs Hf; [lia|]; cbn [parse_members].
    pose proof (skip_ws_le s) as Hw.
    destruct (skip_ws s) as [|q s1]; [reflexivity|]; simpl in Hw.
    destruct (q =? 34)%N; [|reflexivity].
    destruct (parse_chars s1 []) as [[key s2]|] eqn:E; [|reflexivity].
    apply (parse_chars_lt (List.length s1)) in E; [|lia].
    pose proof (skip_ws_le s2) as Hs2.
    destruct (skip_ws s2) as [|c s3]; [reflexivity|]; simpl in Hs2.
    destruct (c =? 58)%N; [|reflexivity].
    rewrite (IHv s3 f') by lia.
    destruct (parse_value f s3) as [[v0 r0]|] eqn:Ev; [|reflexivity].
    apply (proj1 (parse_consumes f)) in Ev.
    pose proof (skip_ws_le r0) as Hr.
    destruct (skip_ws r0) as [|c' r']; [reflexivity|]; simpl in Hr.
    destruct (c' =? 44)%N; [apply IHm; lia | reflexivity].
Qed.

(** [JSON_parse] gives the parser enough fuel. *)
Lemma JSON_parse_fuel (text : jsstring) (fuel : nat) :
  2 * List.length text + 2 <= fuel ->
  parse_value fuel text = parse_value (2 * List.length text + 2) text.
Proof.
  intros H; apply (proj1 (parse_fuel (2 * List.length text + 2))); lia.
Qed.

(** ** Trimming *)

Lemma trimStart_idem (s : jsstring) : trimStart (trimStart s) = trimStart s.
Proof.
  induction s as [|c s IH]; simpl; [reflexivity|].
  destruct (is_space c) eqn:E; [exact IH | simpl; rewrite E; reflexivity].
Qed.

Lemma trimStart_keeps_last (l : jsstring) (c : N) :
  is_space c = false -> exists u, trimStart (l ++ [c]) = u ++ [c].
Proof.
  intros Hc; induction l as [|x l IH]; simpl.
  - rewrite Hc; exists []; reflexivity.
  - destruct (is_space x); [exact IH | exists (x :: l); reflexivity].
Qed.

Lemma trimStart_head (s : jsstring) :
  trimStart s = [] \/ exists c t, trimStart s = c :: t /\ is_space c = false.
Proof.
  induction s as [|c s IH]; simpl; [left; reflexivity|].
  destruct (is_space c) eqn:E; [exact IH | right; exists c, s; auto].
Qed.

Lemma trimEnd_idem (s : jsstring) : trimEnd (trimEnd s) = trimEnd s.
Proof.
  unfold trimEnd; rewrite rev_involutive, trimStart_idem; reflexivity.
Qed.

Lemma trim_idem (s : jsstring) : trim (trim s) = trim s.
Proof.
  unfold trim.
  assert (H : trimStart (trimEnd (trimStart s)) = trimEnd (trimStart s)).
  { destruct (trimStart_head s) as [E|(c & t & E & Hc)]; rewrite E.
    - reflexivity.
    - unfold trimEnd; simpl rev.
      destruct (trimStart_keeps_last (rev t) c Hc) as (u & Hu).
      rewrite Hu, rev_app_distr; simpl; rewrite Hc; reflexivity. }
  rewrite H; apply trimEnd_idem.
Qed.

(** ** The matcher on character classes and on runs of white space *)

Lemma replace_all_replaced (ic : bool) (r : regex) (rp : repl) (str : jsstring) :
  replace_all ic r rp str = replaced rp (scan_all ic r str).
Proof.
  unfold replace_all, replaced; destruct (scan_all ic r str); reflexivity.
Qed.

(** A search starts its match at or after the position it is given. *)
Lemma search_pos (ic : bool) (r : regex) (aft : jsstring) :
  forall bef p s e, search ic r bef aft p = Some (s, e) -> p <= pos s.
Proof.
  induction aft as [|c aft IH]; intros bef p s e; cbn [search].
  - destruct (rmatch ic r (MState bef [] p []) (fun e0 => Some e0));
      [|discriminate].
    intros H; injection H as <- _; simpl; lia.
  - destruct (rmatch ic r (MState bef (c :: aft) p []) (fun e0 => Some e0)).
    + intros H; injection H as <- _; simpl; lia.
    + intros H; apply IH in H; lia.
Qed.

(** A scan over a character at which no match starts copies it. *)
Lemma scan_skip (ic : bool) (r : regex) (rp : repl) (f : nat)
    (bef : jsstring) (c : N) (rest : jsstring) (p : nat) :
  rmatch ic r (MState bef (c :: rest) p []) (fun e => Some e) = None ->
  replaced rp (scan ic r (S f) bef (c :: rest) p)
  = c :: replaced rp (scan ic r (S f) (c :: bef) rest (S p)).
Proof.
  intros H; cbn [scan search]; rewrite H.
  assert (E : search ic r (c :: bef) rest (S p)
              = match rest with
                | [] => search ic r (c :: bef) [] (S p)
                | _ :: _ => search ic r (c :: bef) rest (S p)
                end) by (destruct rest; reflexivity).
  destruct (search ic r (c :: bef) rest (S p)) as [[s e]|] eqn:Hs.
  - pose proof (search_pos _ _ _ _ _ _ _ Hs) as Hp.
    destruct (Nat.ltb (pos s) (pos e)); [|reflexivity].
    destruct (scan ic r f (before e) (after e) (pos e)) as [ms tl].
    unfold replaced; cbn [fst snd List.map List.concat].
    replace (pos s - p) with (S (pos s - S p)) by lia.
    reflexivity.
  - reflexivity.
Qed.

(** A scan at a position where a match starts takes it and goes on behind
    it. *)
Lemma scan_hit (ic : bool) (r : regex) (rp : repl) (f : nat)
    (bef aft : jsstring) (p : nat) (e : mstate) :
  rmatch ic r (MState bef aft p []) (fun e0 => Some e0) = Some e ->
  p < pos e ->
  replaced rp (scan ic r (S f) bef aft p)
  = repl_text rp e ++ replaced rp (scan ic r f (before e) (after e) (pos e)).
Proof.
  intros H Hlt; cbn [scan].
  assert (E : search ic r bef aft p = Some (MState bef aft p [], e)).
  { destruct aft; cbn [search]; rewrite H; reflexivity. }
  rewrite E; cbn [pos].
  apply Nat.ltb_lt in Hlt; rewrite Hlt.
  destruct (scan ic r f (before e) (after e) (pos e)) as [ms tl].
  unfold replaced; cbn [fst snd List.map List.concat].
  rewrite Nat.sub_diag; cbn [firstn app]; rewrite <- app_assoc; reflexivity.
Qed.

(** Global replacement of the characters of a class: character by
    character. *)
Lemma replace_all_class (ic : bool) (r : regex) (q : N -> bool) (t : jsstring) :
  (forall s k, rmatch ic r s k = eat q s k) ->
  forall str,
  replace_all ic r (RepLit t) str
  = flat_map (fun c => if q c then t else [c]) str.
Proof.
  intros Hr str; rewrite replace_all_replaced; unfold scan_all.
  generalize (@nil N) at 1; generalize 0.
  assert (G : forall aft f p bef, List.length aft <= f ->
            replaced (RepLit t) (scan ic r (S f) bef aft p)
            = flat_map (fun c => if q c then t else [c]) aft).
  { induction aft as [|c rest IH]; intros f p bef Hf.
    - cbn [scan search]; rewrite Hr; reflexivity.
    - cbn [flat_map]; destruct (q c) eqn:Hq.
      + rewrite (scan_hit ic r (RepLit t) f bef (c :: rest) p
                   (MState (c :: bef) rest (S p) [])).
        * cbn [repl_text before after pos].
          destruct f as [|f]; [simpl in Hf; lia|].
          rewrite IH; [reflexivity | simpl in Hf; lia].
        * rewrite Hr; unfold eat, advance; cbn; rewrite Hq; reflexivity.
        * simpl; lia.
      + rewrite scan_skip.
        * rewrite IH; [reflexivity | simpl in Hf; lia].
        * rewrite Hr; unfold eat, advance; cbn; rewrite Hq; reflexivity. }
  intros p bef; apply G; lia.
Qed.

Lemma trimStart_length (s : jsstring) : List.length (trimStart s) <= List.length s.
Proof.
  induction s as [|c s IH]; simpl; [lia|].
  destruct (is_space c); simpl; lia.
Qed.

Lemma squeeze_in_run (t s : jsstring) :
  squeeze t true s = squeeze t false (trimStart s).
Proof.
  induction s as [|c s IH]; simpl; [reflexivity|].
  destruct (is_space c) eqn:E; [exact IH | simpl; rewrite E; reflexivity].
Qed.

Lemma space_class (c : N) : set_match false false [CSpace] c = is_space c.
Proof.
  unfold set_match, citem_match; cbn.
  destruct (is_space c); reflexivity.
Qed.

Lemma space_step (bef : jsstring) (c : N) (rest : jsstring) (p : nat)
    (cs : list (nat * jsstring)) (k : cont) :
  rmatch false (RSet false [CSpace]) (MState bef (c :: rest) p cs) k
  = if is_space c then k (MState (c :: bef) rest (S p) cs) else None.
Proof.
  cbn [rmatch]; unfold eat, advance; cbn [after before pos caps].
  rewrite space_class; reflexivity.
Qed.

Lemma space_step_end (bef : jsstring) (p : nat) (cs : list (nat * jsstring))
    (k : cont) :
  rmatch false (RSet false [CSpace]) (MState bef [] p cs) k = None.
Proof. reflexivity. Qed.

(** The optional iterations of [\s+] take all the white space ahead. *)
Lemma iter_opt_spaces (n : nat) :
  forall aft bef p cs, List.length aft < n ->
  exists bef',
    iter_opt (rmatch false (RSet false [CSpace])) true n
             (MState bef aft p cs) (fun e => Some e)
    = Some (MState bef' (trimStart aft)
                   (p + (List.length aft - List.length (trimStart aft))) cs).
Proof.
  induction n as [|n IH]; intros aft bef p cs Hn; [lia|].
  cbn [iter_opt].
  destruct aft as [|c rest].
  - rewrite space_step_end; exists bef; cbn; rewrite Nat.add_0_r; reflexivity.
  - rewrite space_step; cbn [trimStart pos].
    destruct (is_space c) eqn:E.
    + assert (Hlt : Nat.ltb p (S p) = true) by (apply Nat.ltb_lt; lia).
      rewrite Hlt.
      destruct (IH rest (c :: bef) (S p) cs) as (bef' & ->);
        [simpl in Hn; lia|].
      exists bef'; do 2 f_equal.
      pose proof (trimStart_length rest); cbn [List.length]; lia.
    + exists bef; rewrite Nat.sub_diag, Nat.add_0_r; reflexivity.
Qed.

(** Global replacement of the runs of white space. *)
Lemma replace_all_spaces (t str : jsstring) :
  replace_all false (RPlus (RSet false [CSpace])) (RepLit t) str
  = squeeze t false str.
Proof.
  rewrite replace_all_replaced; unfold scan_all.
  generalize (@nil N) at 1; generalize 0.
  assert (G : forall n aft f p bef, List.length aft <= n -> List.length aft <= f ->
            replaced (RepLit t)
              (scan false (RPlus (RSet false [CSpace])) (S f) bef aft p)
            = squeeze t false aft).
  { induction n as [|n IH]; intros aft f p bef Hn Hf.
    - destruct aft; [|simpl in Hn; lia]; reflexivity.
    - destruct aft as [|c rest]; [reflexivity|].
      cbn [squeeze]; destruct (is_space c) eqn:E.
      + destruct (iter_opt_spaces (S (List.length rest)) rest (c :: bef) (S p) [])
          as (bef' & Hi); [lia|].
        rewrite (scan_hit false _ (RepLit t) f bef (c :: rest) p
                   (MState bef' (trimStart rest)
                      (S p + (List.length rest - List.length (trimStart rest)))
                      [])).
        * cbn [repl_text before after pos].
          destruct f as [|f]; [simpl in Hf; lia|].
          pose proof (trimStart_length rest).
          rewrite IH; [rewrite squeeze_in_run; reflexivity | | ];
            simpl in Hn, Hf; lia.
        * unfold RPlus; cbn [rmatch iter_min quant_rest]; fold rmatch.
          change (rmatch false (RSet false [CSpace])
                    (MState bef (c :: rest) p [])
                    (fun s' => iter_opt (rmatch false (RSet false [CSpace])) true
                                 (S (List.length (after s'))) s'
                                 (fun e0 => Some e0))
                  = Some (MState bef' (trimStart rest)
                            (S p + (List.length rest
                                    - List.length (trimStart rest))) [])).
          rewrite space_step, E; cbn [after]; exact Hi.
        * simpl; lia.
      + rewrite scan_skip.
        * rewrite IH; [reflexivity | |]; simpl in Hn, Hf; lia.
        * unfold RPlus; cbn [rmatch iter_min quant_rest].
          unfold eat at 1, advance; cbn [after before pos caps].
          rewrite space_class, E; reflexivity. }
  intros p bef; apply (G (List.length str)); lia.
Qed.

Lemma squeeze_nothing (s : jsstring) (b : bool) :
  squeeze [] b s = filter (fun c => negb (is_space c)) s.
Proof.
  revert b; induction s as [|c s IH]; intros b; simpl; [reflexivity|].
  destruct (is_space c); simpl; [destruct b; apply IH | f_equal; apply IH].
Qed.

(** ** Splitting, joining and cutting *)

Lemma split_by_nonempty (sep : N) (s : jsstring) :
  forall cur, split_by sep cur s <> [].
Proof.
  induction s as [|c s IH]; intros cur; simpl; [discriminate|].
  destruct (N.eqb c sep); [discriminate | apply IH].
Qed.

Lemma join_split (sep : N) (s : jsstring) :
  forall cur, join_by sep (split_by sep cur s) = rev cur ++ s.
Proof.
  induction s as [|c s IH]; intros cur; simpl.
  - rewrite app_nil_r; reflexivity.
  - destruct (N.eqb c sep) eqn:E.
    + apply N.eqb_eq in E; subst c.
      pose proof (IH []) as H; simpl in H.
      destruct (split_by sep [] s) eqn:Es;
        [destruct (split_by_nonempty sep s [] Es)|].
      change (join_by sep (rev cur :: j :: l))
        with (rev cur ++ sep :: join_by sep (j :: l)).
      rewrite H; reflexivity.
    + rewrite IH; simpl; rewrite <- app_assoc; reflexivity.
Qed.

Lemma split_by_app_sep (sep : N) (a v : jsstring) :
  (forall c, In c a -> c <> sep) ->
  forall cur, split_by sep cur (a ++ sep :: v)
              = (rev cur ++ a) :: split_by sep [] v.
Proof.
  induction a as [|x a IH]; intros Ha cur; simpl.
  - rewrite N.eqb_refl, app_nil_r; reflexivity.
  - destruct (N.eqb x sep) eqn:E.
    + apply N.eqb_eq in E; destruct (Ha x (or_introl eq_refl) E).
    + rewrite IH; [|intros c Hc; apply Ha; right; exact Hc].
      simpl; rewrite <- app_assoc; reflexivity.
Qed.

Lemma find_first {A : Type} (q : A -> bool) (pre : list A) (x : A)
    (post : list A) :
  (forall a, In a pre -> q a = false) -> q x = true ->
  find q (pre ++ x :: post) = Some x.
Proof.
  intros Hpre Hx; induction pre as [|a pre IH]; simpl; [rewrite Hx; reflexivity|].
  rewrite (Hpre a (or_introl eq_refl)).
  apply IH; intros b Hb; apply Hpre; right; exact Hb.
Qed.

Lemma starts_with_app (p s : jsstring) : starts_with p (p ++ s) = true.
Proof.
  induction p as [|c p IH]; simpl; [reflexivity|].
  rewrite N.eqb_refl; exact IH.
Qed.

Lemma cut_at_app (x : N) (a b : jsstring) :
  (forall c, In c a -> c <> x) -> cut_at x (a ++ x :: b) = Some (a, b).
Proof.
  induction a as [|c a IH]; intros Ha; simpl.
  - rewrite N.eqb_refl; reflexivity.
  - destruct (N.eqb c x) eqn:E.
    + apply N.eqb_eq in E; destruct (Ha c (or_introl eq_refl) E).
    + rewrite IH; [reflexivity | intros d Hd; apply Ha; right; exact Hd].
Qed.

(** ** More on trimming *)

Lemma trimStart_spaces_app (ws s : jsstring) :
  forallb is_space ws = true -> trimStart (ws ++ s) = trimStart s.
Proof.
  induction ws as [|c ws IH]; simpl; [reflexivity|].
  intros H; apply andb_true_iff in H; destruct H as [Hc Hws].
  rewrite Hc; apply IH, Hws.
Qed.

Lemma trimStart_fixed_app (s t : jsstring) :
  trimStart s = s -> s <> [] -> trimStart (s ++ t) = s ++ t.
Proof.
  destruct s as [|c s]; [congruence|]; simpl.
  destruct (is_space c) eqn:E; [|reflexivity].
  intros H _; pose proof (trimStart_length s) as Hl.
  rewrite H in Hl; simpl in Hl; lia.
Qed.

Lemma trimEnd_app_spaces (s ws : jsstring) :
  forallb is_space ws = true -> trimEnd (s ++ ws) = trimEnd s.
Proof.
  intros H; unfold trimEnd; rewrite rev_app_distr.
  rewrite trimStart_spaces_app; [reflexivity|].
  rewrite forallb_forall in H |- *; intros c Hc; apply H, in_rev, Hc.
Qed.

Lemma trimEnd_fixed_app (s t : jsstring) :
  trimEnd t = t -> t <> [] -> trimEnd (s ++ t) = s ++ t.
Proof.
  intros Ht Hne; unfold trimEnd in *; rewrite rev_app_distr.
  assert (Hr : trimStart (rev t) = rev t).
  { rewrite <- (rev_involutive (trimStart (rev t))), Ht; reflexivity. }
  rewrite trimStart_fixed_app; [rewrite <- rev_app_distr; apply rev_involutive
                               | exact Hr |].
  intros E; apply Hne; rewrite <- (rev_involutive t), E; reflexivity.
Qed.

Lemma trimEnd_length (s : jsstring) : List.length (trimEnd s) <= List.length s.
Proof.
  unfold trimEnd; rewrite length_rev.
  pose proof (trimStart_length (rev s)) as H; rewrite length_rev in H; exact H.
Qed.

Lemma trimStart_same_length (s : jsstring) :
  List.length (trimStart s) = List.length s -> trimStart s = s.
Proof.
  destruct s as [|c s]; simpl; [reflexivity|].
  destruct (is_space c); [|reflexivity].
  intros H; pose proof (trimStart_length s); lia.
Qed.

(** A trimmed string starts and ends with no white space. *)
Lemma trim_fixed (s : jsstring) :
  trim s = s -> trimStart s = s /\ trimEnd s = s.
Proof.
  unfold trim; intros H.
  assert (E : trimStart s = s).
  { apply trimStart_same_length.
    pose proof (trimEnd_length (trimStart s)) as H1.
    pose proof (trimStart_length s) as H2.
    rewrite H in H1; lia. }
  split; [exact E | rewrite E in H; exact H].
Qed.

Lemma trim_of_fixed (s : jsstring) :
  trimStart s = s -> trimEnd s = s -> trim s = s.
Proof. intros H1 H2; unfold trim; rewrite H1; exact H2. Qed.

(** ** The matcher on literals, anchored expressions and trailing slashes *)

Lemma rmatch_lit (lit : jsstring) :
  forall bef aft p cs (k : cont),
  rmatch false (RLit lit) (MState bef aft p cs) k
  = if starts_with lit aft
    then k (MState (rev lit ++ bef) (skipn (List.length lit) aft)
                   (p + List.length lit) cs)
    else None.
Proof.
  induction lit as [|c lit IH]; intros bef aft p cs k.
  - cbn; rewrite Nat.add_0_r; reflexivity.
  - destruct lit as [|c2 lit].
    + cbn [RLit rmatch]; unfold eat, advance; cbn [after before pos caps].
      destruct aft as [|x r]; [reflexivity|].
      cbn [starts_with andb orb List.length skipn rev app].
      rewrite orb_false_r, andb_true_r.
      destruct (N.eqb c x) eqn:E; [|reflexivity].
      apply N.eqb_eq in E; subst x; rewrite Nat.add_1_r; reflexivity.
    + change (RLit (c :: c2 :: lit)) with (RSeq (RChar c) (RLit (c2 :: lit))).
      cbn [rmatch]; unfold eat, advance; cbn [after before pos caps].
      destruct aft as [|x r]; [reflexivity|].
      rewrite orb_false_r.
      change (starts_with (c :: c2 :: lit) (x :: r))
        with (N.eqb c x && starts_with (c2 :: lit) r).
      destruct (N.eqb c x) eqn:E; [|reflexivity].
      apply N.eqb_eq in E; subst x.
      rewrite IH; cbn [andb].
      destruct (starts_with (c2 :: lit) r); [|reflexivity].
      f_equal; f_equal.
      * change (rev (c :: c2 :: lit)) with (rev (c2 :: lit) ++ [c]).
        rewrite <- app_assoc; reflexivity.
      * cbn [List.length]; lia.
Qed.

(** An expression anchored at the start matches at the start or
    nowhere. *)
Lemma search_bol (ic : bool) (r : regex) (aft : jsstring) :
  forall bef p, bef <> [] -> search ic (RSeq RBol r) bef aft p = None.
Proof.
  induction aft as [|c aft IH]; intros bef p Hb; cbn [search rmatch before].
  - destruct bef; [congruence | reflexivity].
  - destruct bef as [|b bef]; [congruence|].
    apply IH; discriminate.
Qed.

Lemma replace_first_bol (ic : bool) (r : regex) (rp : repl) (str : jsstring) :
  replace_first ic (RSeq RBol r) rp str
  = match rmatch ic r (MState [] str 0 []) (fun e => Some e) with
    | Some e => repl_text rp e ++ after e
    | None => str
    end.
Proof.
  unfold replace_first.
  assert (E : search ic (RSeq RBol r) [] str 0
              = match rmatch ic r (MState [] str 0 []) (fun e => Some e) with
                | Some e => Some (MState [] str 0 [], e)
                | None => None
                end).
  { destruct str as [|c str]; cbn [search rmatch before].
    - destruct (rmatch ic r _ _); reflexivity.
    - destruct (rmatch ic r _ _); [reflexivity|].
      apply search_bol; discriminate. }
  rewrite E; destruct (rmatch ic r _ _); reflexivity.
Qed.

Lemma slash_step (bef : jsstring) (c : N) (rest : jsstring) (p : nat)
    (cs : list (nat * jsstring)) (k : cont) :
  rmatch false (RChar 47) (MState bef (c :: rest) p cs) k
  = if N.eqb 47 c then k (MState (c :: bef) rest (S p) cs) else None.
Proof.
  cbn [rmatch]; unfold eat, advance; cbn [after before pos caps].
  rewrite orb_false_r; reflexivity.
Qed.

Lemma iter_opt_slashes (n : nat) :
  forall aft bef p cs, List.length aft < n ->
  iter_opt (rmatch false (RChar 47)) true n (MState bef aft p cs)
           (fun s' => rmatch false REol s' (fun e => Some e))
  = if forallb (N.eqb 47) aft
    then Some (MState (rev aft ++ bef) [] (p + List.length aft) cs)
    else None.
Proof.
  induction n as [|n IH]; intros aft bef p cs Hn; [lia|].
  cbn [iter_opt].
  destruct aft as [|c rest].
  - cbn; rewrite Nat.add_0_r; reflexivity.
  - rewrite slash_step; cbn [forallb pos].
    destruct (N.eqb 47 c) eqn:E; cbn [andb]; [|reflexivity].
    assert (Hlt : Nat.ltb p (S p) = true) by (apply Nat.ltb_lt; lia).
    rewrite Hlt, IH by (simpl in Hn; lia).
    destruct (forallb (N.eqb 47) rest); [|reflexivity].
    f_equal; f_equal.
    + cbn [rev]; rewrite <- app_assoc; reflexivity.
    + cbn [List.length]; lia.
Qed.

Lemma rmatch_slashes (bef aft : jsstring) (p : nat) :
  rmatch false trailing_slashes_re (MState bef aft p []) (fun e => Some e)
  = if nonempty aft && forallb (N.eqb 47) aft
    then Some (MState (rev aft ++ bef) [] (p + List.length aft) [])
    else None.
Proof.
  unfold trailing_slashes_re, RPlus; cbn [rmatch iter_min quant_rest].
  destruct aft as [|c rest]; [reflexivity|].
  change (rmatch false (RChar 47) (MState bef (c :: rest) p [])
            (fun s' => iter_opt (rmatch false (RChar 47)) true
                         (S (List.length (after s'))) s'
                         (fun s'0 => rmatch false REol s'0 (fun e => Some e)))
          = if nonempty (c :: rest) && forallb (N.eqb 47) (c :: rest)
            then Some (MState (rev (c :: rest) ++ bef) []
                              (p + List.length (c :: rest)) [])
            else None).
  rewrite slash_step; cbn [forallb nonempty List.length Nat.ltb Nat.leb andb].
  destruct (N.eqb 47 c); cbn [andb]; [|reflexivity].
  cbn [after]; rewrite iter_opt_slashes by lia.
  destruct (forallb (N.eqb 47) rest); [|reflexivity].
  f_equal; f_equal.
  - cbn [rev]; rewrite <- app_assoc; reflexivity.
  - lia.
Qed.

(** Removing the slashes at the end. *)
Lemma replace_trailing_slashes (str : jsstring) :
  replace_first false trailing_slashes_re (RepLit []) str = strip_slashes str.
Proof.
  unfold replace_first.
  assert (G : forall aft bef p,
            match search false trailing_slashes_re bef aft p with
            | Some (s, e) => rev (before s) ++ repl_text (RepLit []) e ++ after e
            | None => rev bef ++ aft
            end = rev bef ++ strip_slashes aft).
  { induction aft as [|c rest IH]; intros bef p.
    - cbn [search]; rewrite rmatch_slashes; reflexivity.
    - cbn [search]; rewrite rmatch_slashes.
      cbn [nonempty List.length Nat.ltb Nat.leb andb strip_slashes].
      destruct (forallb (N.eqb 47) (c :: rest)); cbv beta iota;
        [reflexivity|].
      replace (rev bef ++ c :: rest) with (rev (c :: bef) ++ rest)
        by (cbn [rev]; rewrite <- app_assoc; reflexivity).
      rewrite IH; cbn [rev]; rewrite <- app_assoc; reflexivity. }
  specialize (G str [] 0); cbn [rev app] in G.
  destruct (search false trailing_slashes_re [] str 0) as [[s e]|]; exact G.
Qed.

Lemma strip_slashes_app_slashes (s t : jsstring) :
  forallb (N.eqb 47) t = true -> strip_slashes (s ++ t) = strip_slashes s.
Proof.
  intros Ht; induction s as [|c s IH].
  - destruct t as [|x t]; [reflexivity|].
    cbn [app strip_slashes]; rewrite Ht; reflexivity.
  - cbn [app strip_slashes forallb]; rewrite forallb_app, Ht, andb_true_r, IH.
    reflexivity.
Qed.

Lemma strip_slashes_keeps (a body : jsstring) (c : N) :
  c <> 47%N -> strip_slashes (a ++ body ++ [c]) = a ++ body ++ [c].
Proof.
  intros Hc.
  assert (G : forall s, strip_slashes (s ++ [c]) = s ++ [c]).
  { induction s as [|x s IH]; cbn [app strip_slashes forallb].
    - destruct (N.eqb 47 c) eqn:E; [apply N.eqb_eq in E; congruence|].
      reflexivity.
    - rewrite forallb_app; cbn [forallb].
      destruct (N.eqb 47 c) eqn:E; [apply N.eqb_eq in E; congruence|].
      rewrite !andb_false_r, IH; reflexivity. }
  rewrite app_assoc; apply G.
Qed.

(** ** Single spacing *)

Lemma single_spaced_weaken (s : jsstring) :
  single_spaced true s = true -> single_spaced false s = true.
Proof.
  destruct s as [|c s]; [reflexivity|]; cbn [single_spaced].
  destruct (is_space c); [|auto].
  rewrite andb_false_r; discriminate.
Qed.

Lemma squeeze_single_spaced (s : jsstring) :
  single_spaced true (squeeze [32%N] true s) = true
  /\ single_spaced false (squeeze [32%N] false s) = true.
Proof.
  induction s as [|c s [IH1 IH2]]; [split; reflexivity|].
  cbn [squeeze]; destruct (is_space c) eqn:E.
  - split; [exact IH1|].
    cbn [app single_spaced]; rewrite IH1; reflexivity.
  - cbn [single_spaced]; rewrite E; auto.
Qed.

Lemma single_spaced_trimStart (s : jsstring) :
  forall b, single_spaced b s = true -> single_spaced false (trimStart s) = true.
Proof.
  induction s as [|c s IH]; intros b H; [reflexivity|].
  cbn [single_spaced trimStart] in *.
  destruct (is_space c) eqn:E.
  - apply andb_true_iff in H; destruct H as [_ H]; apply (IH true H).
  - cbn [single_spaced]; rewrite E; exact H.
Qed.

Lemma single_spaced_prefix (s t : jsstring) :
  forall b, single_spaced b (s ++ t) = true -> single_spaced b s = true.
Proof.
  induction s as [|c s IH]; intros b H; [reflexivity|].
  cbn [app single_spaced] in *.
  destruct (is_space c).
  - apply andb_true_iff in H; destruct H as [H1 H2].
    rewrite H1; apply (IH true H2).
  - apply (IH false H).
Qed.

Lemma trimStart_suffix (s : jsstring) : exists pre, s = pre ++ trimStart s.
Proof.
  induction s as [|c s (pre & IH)]; [exists []; reflexivity|].
  cbn [trimStart]; destruct (is_space c); [|exists []; reflexivity].
  exists (c :: pre); cbn [app]; f_equal; exact IH.
Qed.

Lemma trimEnd_prefix (s : jsstring) : exists post, s = trimEnd s ++ post.
Proof.
  unfold trimEnd; destruct (trimStart_suffix (rev s)) as (pre & H).
  exists (rev pre).
  rewrite <- rev_app_distr, <- H, rev_involutive; reflexivity.
Qed.

Lemma single_spaced_trim (s : jsstring) (b : bool) :
  single_spaced b s = true -> single_spaced false (trim s) = true.
Proof.
  intros H; unfold trim.
  pose proof (single_spaced_trimStart s b H) as H1.
  destruct (trimEnd_prefix (trimStart s)) as (post & E).
  rewrite E in H1; apply (single_spaced_prefix _ _ _ H1).
Qed.

Lemma flat_map_filter (q : N -> bool) (s : jsstring) :
  flat_map (fun c => if q c then [] else [c]) s
  = filter (fun c => negb (q c)) s.
Proof.
  induction s as [|c s IH]; simpl; [reflexivity|].
  destruct (q c); simpl; [exact IH | f_equal; exact IH].
Qed.

(** ** Runs of a quantified one-character expression *)

Lemma eat_cons (q : N -> bool) (bef : jsstring) (c : N) (rest : jsstring)
    (p : nat) (cs : list (nat * jsstring)) (k : cont) :
  eat q (MState bef (c :: rest) p cs) k
  = if q c then k (MState (c :: bef) rest (S p) cs) else None.
Proof. reflexivity. Qed.

Lemma ltb_succ (p : nat) : Nat.ltb p (S p) = true.
Proof. apply Nat.ltb_lt; lia. Qed.

(** A greedy run fails when the continuation fails wherever the run can
    stop. *)
Lemma iter_opt_greedy_none (step : mstate -> cont -> option mstate)
    (q : N -> bool) (k : cont) :
  (forall s k', step s k' = eat q s k') ->
  forall n aft bef p cs,
  (forall b r2, aft = b ++ r2 -> forallb q b = true ->
     k (MState (rev b ++ bef) r2 (p + List.length b) cs) = None) ->
  iter_opt step true n (MState bef aft p cs) k = None.
Proof.
  intros Hstep; induction n as [|n IH]; intros aft bef p cs H.
  - cbn [iter_opt].
    specialize (H [] aft eq_refl eq_refl); cbn in H.
    rewrite Nat.add_0_r in H; exact H.
  - assert (Hk : k (MState bef aft p cs) = None).
    { specialize (H [] aft eq_refl eq_refl); cbn in H.
      rewrite Nat.add_0_r in H; exact H. }
    cbn [iter_opt]; rewrite Hstep.
    destruct aft as [|c rest]; [exact Hk|].
    rewrite eat_cons; destruct (q c) eqn:Hq; [|exact Hk].
    cbn [pos]; rewrite ltb_succ, IH; [exact Hk|].
    intros b r2 -> Hb.
    specialize (H (c :: b) r2 eq_refl); cbn [forallb] in H.
    rewrite Hq in H; specialize (H Hb).
    cbn [rev List.length] in H; rewrite <- app_assoc in H; cbn [app] in H.
    replace (S p + List.length b) with (p + S (List.length b)) by lia.
    exact H.
Qed.

(** A greedy run takes the longest stretch after which the continuation
    succeeds. *)
Lemma iter_opt_greedy_run (step : mstate -> cont -> option mstate)
    (q : N -> bool) (k : cont) (x : mstate) :
  (forall s k', step s k' = eat q s k') ->
  forall a n bef rest p cs,
  List.length a <= n ->
  forallb q a = true ->
  (forall b r2, rest = b ++ r2 -> b <> [] -> forallb q b = true ->
     k (MState (rev b ++ rev a ++ bef) r2
               (p + List.length a + List.length b) cs) = None) ->
  k (MState (rev a ++ bef) rest (p + List.length a) cs) = Some x ->
  iter_opt step true n (MState bef (a ++ rest) p cs) k = Some x.
Proof.
  intros Hstep; induction a as [|c a IH]; intros n bef rest p cs Hn Ha Hb Hk.
  - cbn [rev app List.length] in *; rewrite Nat.add_0_r in Hk.
    destruct n as [|n]; [exact Hk|].
    cbn [iter_opt]; rewrite Hstep.
    destruct rest as [|c rest]; [exact Hk|].
    rewrite eat_cons; destruct (q c) eqn:Hq; [|exact Hk].
    cbn [pos]; rewrite ltb_succ.
    rewrite (iter_opt_greedy_none step q k Hstep); [exact Hk|].
    intros b r2 E Hqb.
    specialize (Hb (c :: b) r2 ltac:(rewrite E; reflexivity));
      cbn [forallb] in Hb.
    rewrite Hq in Hb; specialize (Hb ltac:(discriminate) Hqb).
    cbn [rev List.length] in Hb; rewrite <- app_assoc in Hb; cbn [app] in Hb.
    replace (S p + List.length b) with (p + 0 + S (List.length b)) by lia.
    exact Hb.
  - destruct n as [|n]; [simpl in Hn; lia|].
    cbn [forallb] in Ha; apply andb_true_iff in Ha as [Hc Ha].
    cbn [iter_opt app]; rewrite Hstep, eat_cons, Hc.
    cbn [pos]; rewrite ltb_succ.
    rewrite (IH n (c :: bef) rest (S p) cs); [reflexivity | | exact Ha | | ].
    + simpl in Hn; lia.
    + intros b r2 E Hne Hqb.
      specialize (Hb b r2 E Hne Hqb).
      cbn [rev List.length] in Hb; rewrite <- !app_assoc in Hb;
        cbn [app] in Hb.
      replace (S p + List.length a + List.length b)
        with (p + S (List.length a) + List.length b) by lia.
      exact Hb.
    + cbn [rev List.length] in Hk; rewrite <- app_assoc in Hk; cbn [app] in Hk.
      replace (S p + List.length a) with (p + S (List.length a)) by lia.
      exact Hk.
Qed.

(** A lazy run takes the shortest stretch after which the continuation
    succeeds. *)
Lemma iter_opt_lazy_run (step : mstate -> cont -> option mstate)
    (q : N -> bool) (k : cont) (x : mstate) :
  (forall s k', step s k' = eat q s k') ->
  forall a n bef rest p cs,
  List.length a <= n ->
  forallb q a = true ->
  (forall b r2, a = b ++ r2 -> r2 <> [] ->
     k (MState (rev b ++ bef) (r2 ++ rest) (p + List.length b) cs) = None) ->
  k (MState (rev a ++ bef) rest (p + List.length a) cs) = Some x ->
  iter_opt step false n (MState bef (a ++ rest) p cs) k = Some x.
Proof.
  intros Hstep; induction a as [|c a IH]; intros n bef rest p cs Hn Ha Hb Hk.
  - cbn [rev app List.length] in *; rewrite Nat.add_0_r in Hk.
    destruct n as [|n]; cbn [iter_opt]; [exact Hk|].
    rewrite Hk; reflexivity.
  - destruct n as [|n]; [simpl in Hn; lia|].
    cbn [forallb] in Ha; apply andb_true_iff in Ha as [Hc Ha].
    cbn [iter_opt app].
    pose proof (Hb [] (c :: a) eq_refl ltac:(discriminate)) as H0.
    cbn [rev app List.length] in H0; rewrite Nat.add_0_r in H0.
    rewrite H0, Hstep, eat_cons, Hc.
    cbn [pos]; rewrite ltb_succ.
    rewrite (IH n (c :: bef) rest (S p) cs); [reflexivity | | exact Ha | | ].
    + simpl in Hn; lia.
    + intros b r2 E Hne.
      specialize (Hb (c :: b) r2 ltac:(rewrite E; reflexivity) Hne).
      cbn [rev List.length] in Hb; rewrite <- app_assoc in Hb; cbn [app] in Hb.
      replace (S p + List.length b) with (p + S (List.length b)) by lia.
      exact Hb.
    + cbn [rev List.length] in Hk; rewrite <- app_assoc in Hk; cbn [app] in Hk.
      replace (S p + List.length a) with (p + S (List.length a)) by lia.
      exact Hk.
Qed.

Lemma rmatch_seq (ic : bool) (r1 r2 : regex) (s : mstate) (k : cont) :
  rmatch ic (RSeq r1 r2) s k = rmatch ic r1 s (fun s' => rmatch ic r2 s' k).
Proof. reflexivity. Qed.

Lemma rmatch_group (ic : bool) (n : nat) (r : regex) (s : mstate) (k : cont) :
  rmatch ic (RGroup n r) s k
  = rmatch ic r s (fun s' =>
      k (MState (before s') (after s') (pos s')
                ((n, firstn (pos s' - pos s) (after s)) :: caps s'))).
Proof. reflexivity. Qed.

Lemma rmatch_char_hit (c : N) (bef rest : jsstring) (p : nat)
    (cs : list (nat * jsstring)) (k : cont) :
  rmatch false (RChar c) (MState bef (c :: rest) p cs) k
  = k (MState (c :: bef) rest (S p) cs).
Proof.
  cbn [rmatch]; rewrite eat_cons, N.eqb_refl; reflexivity.
Qed.

Lemma rmatch_star_greedy (ic : bool) (r : regex) (q : N -> bool) (k : cont)
    (x : mstate) (a bef rest : jsstring) (p : nat) (cs : list (nat * jsstring)) :
  (forall s k', rmatch ic r s k' = eat q s k') ->
  forallb q a = true ->
  (forall b r2, rest = b ++ r2 -> b <> [] -> forallb q b = true ->
     k (MState (rev b ++ rev a ++ bef) r2
               (p + List.length a + List.length b) cs) = None) ->
  k (MState (rev a ++ bef) rest (p + List.length a) cs) = Some x ->
  rmatch ic (RStar r) (MState bef (a ++ rest) p cs) k = Some x.
Proof.
  intros Hr Ha Hb Hk; unfold RStar; cbn [rmatch iter_min quant_rest after].
  apply (iter_opt_greedy_run (rmatch ic r) q k x Hr); auto.
  rewrite length_app; lia.
Qed.

(** The run stops before a character that the expression does not match
    and at the end of the input. *)
Lemma rmatch_star_stop (ic : bool) (r : regex) (q : N -> bool) (k : cont)
    (x : mstate) (a bef rest : jsstring) (p : nat) (cs : list (nat * jsstring)) :
  (forall s k', rmatch ic r s k' = eat q s k') ->
  forallb q a = true ->
  match rest with [] => True | c :: _ => q c = false end ->
  k (MState (rev a ++ bef) rest (p + List.length a) cs) = Some x ->
  rmatch ic (RStar r) (MState bef (a ++ rest) p cs) k = Some x.
Proof.
  intros Hr Ha Hstop Hk; apply (rmatch_star_greedy ic r q); auto.
  intros b r2 -> Hne Hqb.
  destruct b as [|c b]; [congruence|].
  cbn [app forallb] in *; rewrite Hstop in Hqb; discriminate.
Qed.

Lemma rmatch_lazy_star (ic : bool) (r : regex) (q : N -> bool) (k : cont)
    (x : mstate) (a bef rest : jsstring) (p : nat) (cs : list (nat * jsstring)) :
  (forall s k', rmatch ic r s k' = eat q s k') ->
  forallb q a = true ->
  (forall b r2, a = b ++ r2 -> r2 <> [] ->
     k (MState (rev b ++ bef) (r2 ++ rest) (p + List.length b) cs) = None) ->
  k (MState (rev a ++ bef) rest (p + List.length a) cs) = Some x ->
  rmatch ic (RLazyStar r) (MState bef (a ++ rest) p cs) k = Some x.
Proof.
  intros Hr Ha Hb Hk; unfold RLazyStar; cbn [rmatch iter_min quant_rest after].
  apply (iter_opt_lazy_run (rmatch ic r) q k x Hr); auto.
  rewrite length_app; lia.
Qed.

(** An optional character. *)
Lemma rmatch_opt_char (c : N) (present : bool) (k : cont) (x : mstate)
    (bef rest : jsstring) (p : nat) (cs : list (nat * jsstring)) :
  match rest with [] => True | d :: _ => N.eqb c d = false end ->
  k (MState ((if present then [c] else []) ++ bef) rest
            (p + (if present then 1 else 0)) cs) = Some x ->
  rmatch false (ROpt (RChar c))
         (MState bef ((if present then [c] else []) ++ rest) p cs) k = Some x.
Proof.
  intros Hstop Hk; unfold ROpt; cbn [rmatch iter_min quant_rest Nat.sub].
  apply (iter_opt_greedy_run _ (N.eqb c) k x).
  - intros s k'; unfold eat; destruct (advance s) as [[d s']|]; [|reflexivity].
    rewrite orb_false_r; reflexivity.
  - destruct present; simpl; lia.
  - destruct present; cbn [forallb]; [rewrite N.eqb_refl|]; reflexivity.
  - intros b r2 -> Hne Hqb.
    destruct b as [|d b]; [congruence|].
    cbn [app forallb] in *; rewrite Hstop in Hqb; discriminate.
  - destruct present; exact Hk.
Qed.

Lemma firstn_prefix (a b : jsstring) (n : nat) :
  n = List.length a -> firstn n (a ++ b) = a.
Proof.
  intros ->; rewrite firstn_app, Nat.sub_diag, firstn_all; cbn [firstn].
  apply app_nil_r.
Qed.

Lemma is_space_not_line_char (c : N) :
  is_space c = true -> N.eqb 34 c = false /\ N.eqb 44 c = false /\ N.eqb 58 c = false.
Proof.
  intros H; repeat split; apply N.eqb_neq; intros <-; discriminate.
Qed.

(** The five keys of [keyPattern] as alternatives. *)
Lemma rmatch_repaired_keys (key : jsstring) (bef rest : jsstring) (p : nat)
    (cs : list (nat * jsstring)) (k : cont) :
  In key repaired_keys ->
  rmatch false
    (RAlts [RLit (js "title"); RLit (js "url"); RLit (js "summary");
            RLit (js "category"); RLit (js "source")])
    (MState bef (key ++ rest) p cs) k
  = k (MState (rev key ++ bef) rest (p + List.length key) cs).
Proof.
  intros Hk; cbn [RAlts rmatch]; rewrite !rmatch_lit.
  unfold repaired_keys in Hk; cbn [In] in Hk.
  destruct Hk as [<-|[<-|[<-|[<-|[<-|[]]]]]]; cbn;
    match goal with |- context [k ?s] => destruct (k s) end; reflexivity.
Qed.

(** ** The quote repair *)

Lemma rmatch_bare_quote (bef : jsstring) (c : N) (rest : jsstring) (p : nat) :
  rmatch false bare_quote_re (MState bef (c :: rest) p []) (fun e => Some e)
  = if N.eqb c 34
       && negb (match bef with b :: _ => N.eqb b 92 | [] => false end)
    then Some (MState (c :: bef) rest (S p) [])
    else None.
Proof.
  unfold bare_quote_re; cbn [rmatch before].
  rewrite (N.eqb_sym c 34).
  destruct bef as [|b bef]; [|destruct (N.eqb b 92)];
    cbn [negb]; rewrite ?andb_true_r, ?andb_false_r;
    try rewrite eat_cons, orb_false_r; reflexivity.
Qed.

Lemma replace_all_bare_quotes (v : jsstring) :
  replace_all false bare_quote_re (RepLit escaped_quote) v
  = escape_bare false v.
Proof.
  rewrite replace_all_replaced; unfold scan_all.
  assert (G : forall aft f p bef, List.length aft <= f ->
            replaced (RepLit escaped_quote)
                     (scan false bare_quote_re (S f) bef aft p)
            = escape_bare (match bef with b :: _ => N.eqb b 92 | [] => false end)
                          aft).
  { induction aft as [|c rest IH]; intros f p bef Hf.
    - cbn [scan search escape_bare].
      assert (E : rmatch false bare_quote_re (MState bef [] p [])
                         (fun e => Some e) = None).
      { unfold bare_quote_re; cbn [rmatch before].
        destruct bef as [|b bef]; [|destruct (N.eqb b 92)]; reflexivity. }
      rewrite E; reflexivity.
    - cbn [escape_bare].
      pose proof (rmatch_bare_quote bef c rest p) as Hm.
      destruct (N.eqb c 34
                && negb (match bef with b :: _ => N.eqb b 92 | [] => false end))
        eqn:Hq.
      + rewrite (scan_hit false bare_quote_re (RepLit escaped_quote) f bef
                   (c :: rest) p _ Hm) by (simpl; lia).
        cbn [repl_text before after pos].
        destruct f as [|f]; [simpl in Hf; lia|].
        rewrite IH by (simpl in Hf; lia).
        apply andb_true_iff in Hq as [Hc _]; apply N.eqb_eq in Hc; subst c.
        reflexivity.
      + rewrite (scan_skip false bare_quote_re (RepLit escaped_quote) f bef c
                   rest p Hm).
        rewrite IH by (simpl in Hf; lia); reflexivity. }
  apply (G v (List.length v) 0 []); lia.
Qed.

Lemma escape_bare_clean (s : jsstring) :
  forall b, has_bare_quote b (escape_bare b s) = false.
Proof.
  induction s as [|c s IH]; intros b; [reflexivity|].
  cbn [escape_bare].
  destruct (N.eqb c 34 && negb b) eqn:E.
  - cbn [has_bare_quote]; change (N.eqb 92 34) with false;
      change (N.eqb 92 92) with true; change (N.eqb 34 34) with true.
    cbn [andb negb orb]; change (N.eqb 34 92) with false; apply IH.
  - cbn [has_bare_quote]; rewrite E; cbn [orb]; apply IH.
Qed.

Lemma escape_bare_fixed (s : jsstring) :
  forall b, has_bare_quote b s = false -> escape_bare b s = s.
Proof.
  induction s as [|c s IH]; intros b H; [reflexivity|].
  cbn [has_bare_quote] in H; apply orb_false_iff in H as [H1 H2].
  cbn [escape_bare]; rewrite H1, IH by exact H2; reflexivity.
Qed.

Lemma escape_bare_keeps_lines (s : jsstring) :
  forall b, forallb (fun c => negb (is_line_terminator c)) s = true ->
  forallb (fun c => negb (is_line_terminator c)) (escape_bare b s) = true.
Proof.
  induction s as [|c s IH]; intros b H; [reflexivity|].
  cbn [forallb] in H; apply andb_true_iff in H as [Hc Hs].
  cbn [escape_bare]; destruct (N.eqb c 34 && negb b);
    cbn [forallb]; rewrite ?Hc, IH by exact Hs; reflexivity.
Qed.

Lemma rmatch_bol_start (ic : bool) (aft : jsstring) (p : nat)
    (cs : list (nat * jsstring)) (k : cont) :
  rmatch ic RBol (MState [] aft p cs) k = k (MState [] aft p cs).
Proof. reflexivity. Qed.

Lemma rmatch_space_eat (s : mstate) (k : cont) :
  rmatch false (RSet false [CSpace]) s k = eat is_space s k.
Proof.
  cbn [rmatch]; unfold eat; destruct (advance s) as [[c s']|]; [|reflexivity].
  rewrite space_class; reflexivity.
Qed.

Lemma rmatch_star_end (ic : bool) (r : regex) (q : N -> bool) (k : cont)
    (x : mstate) (a bef : jsstring) (p : nat) (cs : list (nat * jsstring)) :
  (forall s k', rmatch ic r s k' = eat q s k') ->
  forallb q a = true ->
  k (MState (rev a ++ bef) [] (p + List.length a) cs) = Some x ->
  rmatch ic (RStar r) (MState bef a p cs) k = Some x.
Proof.
  intros Hr Ha Hk.
  pose proof (rmatch_star_stop ic r q k x a bef [] p cs Hr Ha I Hk) as H.
  rewrite app_nil_r in H; exact H.
Qed.

Ltac list_assoc :=
  repeat first [rewrite <- app_assoc | rewrite <- app_comm_cons];
  cbn [app]; reflexivity.

(** [keyPattern] on a line that holds one of the five keys and a value in
    quotes: the groups are the line up to the opening quote of the value,
    the value, and the rest from the last quote on. *)
Lemma keyPattern_match (key value ws1 ws2 ws3 ws4 : jsstring) (comma : bool) :
  In key repaired_keys ->
  forallb is_space ws1 = true -> forallb is_space ws2 = true ->
  forallb is_space ws3 = true -> forallb is_space ws4 = true ->
  forallb (fun c => negb (is_line_terminator c)) value = true ->
  exists e,
    rmatch false keyPattern
      (MState []
         (ws1 ++ 34%N :: key ++ 34%N :: ws2 ++ 58%N :: ws3 ++ 34%N :: value
              ++ 34%N :: (if comma then [44%N] else []) ++ ws4) 0 [])
      (fun e => Some e) = Some e
    /\ cap 1 (caps e) = ws1 ++ 34%N :: key ++ 34%N :: ws2 ++ 58%N :: ws3 ++ [34%N]
    /\ cap 2 (caps e) = value
    /\ cap 3 (caps e) = 34%N :: (if comma then [44%N] else []) ++ ws4.
Proof.
  intros Hkey H1 H2 H3 H4 Hv.
  eexists; split.
  - unfold keyPattern, RSpaces; cbn [RSeqs].
    rewrite rmatch_seq, rmatch_bol_start; cbv beta.
    rewrite rmatch_seq, rmatch_group, rmatch_seq.
    apply (rmatch_star_stop false _ is_space);
      [exact rmatch_space_eat | exact H1 | reflexivity | cbv beta].
    rewrite rmatch_seq, rmatch_char_hit; cbv beta.
    rewrite rmatch_seq, rmatch_repaired_keys by exact Hkey; cbv beta.
    rewrite rmatch_seq, rmatch_char_hit; cbv beta.
    rewrite rmatch_seq.
    apply (rmatch_star_stop false _ is_space);
      [exact rmatch_space_eat | exact H2 | reflexivity | cbv beta].
    rewrite rmatch_seq, rmatch_char_hit; cbv beta.
    rewrite rmatch_seq.
    apply (rmatch_star_stop false _ is_space);
      [exact rmatch_space_eat | exact H3 | reflexivity | cbv beta].
    rewrite rmatch_char_hit; cbv beta; cbn [before after pos caps].
    rewrite rmatch_seq, rmatch_group.
    apply (rmatch_star_greedy false _ (fun c => negb (is_line_terminator c)));
      [reflexivity | exact Hv | | cbv beta].
    + intros b r2 E Hne _; cbv beta.
      rewrite rmatch_seq, rmatch_group, rmatch_seq.
      destruct b as [|d b]; [congruence|].
      injection E as _ E.
      cbn [before after pos caps].
      destruct r2 as [|c r2]; [reflexivity|].
      cbn [rmatch]; rewrite eat_cons, orb_false_r.
      assert (Hc : In c ((if comma then [44%N] else []) ++ ws4))
        by (rewrite E; apply in_elt).
      apply in_app_or in Hc as [Hc|Hc].
      * destruct comma; [|destruct Hc].
        destruct Hc as [<-|[]]; reflexivity.
      * rewrite forallb_forall in H4; apply H4 in Hc.
        destruct (is_space_not_line_char c Hc) as (-> & _); reflexivity.
    + cbn [before after pos caps].
      rewrite rmatch_seq, rmatch_group, rmatch_seq, rmatch_char_hit; cbv beta.
      rewrite rmatch_seq.
      apply rmatch_opt_char; [|cbv beta].
      { destruct ws4 as [|d ws4]; [exact I|].
        cbn [forallb] in H4; apply andb_true_iff in H4 as [Hd _].
        apply (is_space_not_line_char d Hd). }
      apply (rmatch_star_end false _ is_space);
        [exact rmatch_space_eat | exact H4 | cbv beta].
      reflexivity.
  - cbn [cap caps pos after before Nat.eqb].
    split; [|split].
    + replace (ws1 ++ 34%N :: key ++ 34%N :: ws2 ++ 58%N :: ws3 ++ 34%N :: value
                   ++ 34%N :: (if comma then [44%N] else []) ++ ws4)
        with ((ws1 ++ 34%N :: key ++ 34%N :: ws2 ++ 58%N :: ws3 ++ [34%N])
              ++ value ++ 34%N :: (if comma then [44%N] else []) ++ ws4)
        by list_assoc.
      apply firstn_prefix.
      repeat (rewrite length_app; cbn [List.length]); lia.
    + apply firstn_prefix; lia.
    + rewrite <- (app_nil_r (34%N :: (if comma then [44%N] else []) ++ ws4))
        at 1.
      apply firstn_prefix.
      cbn [List.length]; rewrite length_app; destruct comma; cbn [List.length]; lia.
Qed.


(** ** Lines *)

Lemma split_lines_aux_line (l : jsstring) :
  forall cur rest,
  forallb (fun c => negb (N.eqb c 10)) l = true ->
  split_lines_aux cur (l ++ 10%N :: rest)
  = (rev cur ++ l) :: split_lines_aux [] rest.
Proof.
  induction l as [|c l IH]; intros cur rest H.
  - cbn; rewrite app_nil_r; reflexivity.
  - cbn [forallb] in H; apply andb_true_iff in H as [Hc Hl].
    apply negb_true_iff in Hc.
    cbn [app split_lines_aux]; rewrite Hc, IH by exact Hl.
    cbn [rev]; rewrite <- app_assoc; reflexivity.
Qed.

Lemma split_lines_aux_last (l : jsstring) :
  forall cur,
  forallb (fun c => negb (N.eqb c 10)) l = true ->
  split_lines_aux cur l = [rev cur ++ l].
Proof.
  induction l as [|c l IH]; intros cur H.
  - cbn; rewrite app_nil_r; reflexivity.
  - cbn [forallb] in H; apply andb_true_iff in H as [Hc Hl].
    apply negb_true_iff in Hc.
    cbn [split_lines_aux]; rewrite Hc, IH by exact Hl.
    cbn [rev]; rewrite <- app_assoc; reflexivity.
Qed.

Lemma split_join_lines (ls : list jsstring) :
  ls <> [] ->
  Forall (fun l => forallb (fun c => negb (N.eqb c 10)) l = true) ls ->
  split_lines (join_lines ls) = ls.
Proof.
  unfold split_lines; induction ls as [|l ls IH]; intros Hne H; [congruence|].
  inversion H as [|? ? Hl Hls]; subst.
  destruct ls as [|l2 ls].
  - cbn [join_lines]; apply (split_lines_aux_last l []); exact Hl.
  - change (join_lines (l :: l2 :: ls)) with (l ++ 10%N :: join_lines (l2 :: ls)).
    rewrite split_lines_aux_line by exact Hl.
    rewrite IH by (auto; discriminate); reflexivity.
Qed.

Lemma replace_char_absent (a : N) (t s : jsstring) :
  forallb (fun c => negb (N.eqb a c)) s = true ->
  replace_all false (RChar a) (RepLit t) s = s.
Proof.
  intros H.
  rewrite (replace_all_class false (RChar a) (N.eqb a)).
  - induction s as [|c s IH]; [reflexivity|].
    cbn [forallb] in H; apply andb_true_iff in H as [Hc Hs].
    apply negb_true_iff in Hc; cbn [flat_map]; rewrite Hc, IH by exact Hs.
    reflexivity.
  - intros s0 k; cbn [rmatch]; unfold eat.
    destruct (advance s0) as [[d s']|]; [|reflexivity].
    rewrite orb_false_r; reflexivity.
Qed.

Lemma plain_join_lines (q : N -> bool) (ls : list jsstring) :
  q 10%N = true ->
  Forall (fun l => forallb q l = true) ls ->
  forallb q (join_lines ls) = true.
Proof.
  intros Hq; induction ls as [|l ls IH]; intros H; [reflexivity|].
  inversion H as [|? ? Hl Hls]; subst.
  destruct ls as [|l2 ls]; [exact Hl|].
  change (join_lines (l :: l2 :: ls)) with (l ++ 10%N :: join_lines (l2 :: ls)).
  rewrite forallb_app; cbn [forallb]; rewrite Hl, Hq, IH by exact Hls.
  reflexivity.
Qed.

Lemma forallb_weaken (q q' : N -> bool) (s : jsstring) :
  (forall c, q c = true -> q' c = true) ->
  forallb q s = true -> forallb q' s = true.
Proof.
  intros Hqq; rewrite !forallb_forall; auto.
Qed.

(** ** Matching with the i flag *)

Lemma swapcase_non_letter (a c : N) :
  (((65 <=? a) && (a <=? 90)) || ((97 <=? a) && (a <=? 122)))%N = false ->
  N.eqb a (swapcase c) = N.eqb a c.
Proof.
  intros Ha; unfold swapcase.
  destruct (N.leb_spec 65 c), (N.leb_spec c 90), (N.leb_spec 97 c),
    (N.leb_spec c 122); cbn [andb]; try reflexivity;
    destruct (N.leb_spec 65 a), (N.leb_spec a 90), (N.leb_spec 97 a),
      (N.leb_spec a 122); cbn [andb orb] in Ha; try discriminate;
    destruct (N.eqb_spec a c); try (apply N.eqb_neq); try (apply N.eqb_eq); lia.
Qed.

Lemma rmatch_lit_ci (lit : jsstring) :
  forall bef aft p cs (k : cont),
  rmatch true (RLit lit) (MState bef aft p cs) k
  = if starts_with_ci lit aft
    then k (MState (rev (firstn (List.length lit) aft) ++ bef)
                   (skipn (List.length lit) aft) (p + List.length lit) cs)
    else None.
Proof.
  induction lit as [|c lit IH]; intros bef aft p cs k.
  - cbn; rewrite Nat.add_0_r; reflexivity.
  - destruct lit as [|c2 lit].
    + cbn [RLit rmatch]; unfold eat, advance; cbn [after before pos caps].
      destruct aft as [|x r]; [reflexivity|].
      cbn [starts_with_ci andb List.length skipn firstn rev app].
      rewrite andb_true_r.
      destruct (N.eqb c x || N.eqb c (swapcase x)); [|reflexivity].
      rewrite Nat.add_1_r; reflexivity.
    + change (RLit (c :: c2 :: lit)) with (RSeq (RChar c) (RLit (c2 :: lit))).
      cbn [rmatch]; unfold eat, advance; cbn [after before pos caps].
      destruct aft as [|x r]; [reflexivity|].
      change (starts_with_ci (c :: c2 :: lit) (x :: r))
        with ((N.eqb c x || N.eqb c (swapcase x))
              && starts_with_ci (c2 :: lit) r).
      cbn [andb].
      destruct (N.eqb c x || N.eqb c (swapcase x)); [|reflexivity].
      rewrite IH; cbn [andb].
      destruct (starts_with_ci (c2 :: lit) r); [|reflexivity].
      f_equal; f_equal.
      * change (firstn (List.length (c :: c2 :: lit)) (x :: r))
          with (x :: firstn (List.length (c2 :: lit)) r).
        cbn [rev]; rewrite <- app_assoc; reflexivity.
      * cbn [List.length]; lia.
Qed.

Lemma starts_with_ci_self (lit rest : jsstring) :
  starts_with_ci lit (lit ++ rest) = true.
Proof.
  induction lit as [|c lit IH]; [reflexivity|].
  cbn [app starts_with_ci]; rewrite N.eqb_refl, IH; reflexivity.
Qed.

Lemma rmatch_lit_ci_self (lit bef rest : jsstring) (p : nat)
    (cs : list (nat * jsstring)) (k : cont) :
  rmatch true (RLit lit) (MState bef (lit ++ rest) p cs) k
  = k (MState (rev lit ++ bef) rest (p + List.length lit) cs).
Proof.
  rewrite rmatch_lit_ci, starts_with_ci_self.
  rewrite firstn_app, Nat.sub_diag, firstn_all, skipn_app, Nat.sub_diag,
    skipn_all; cbn [firstn skipn app]; rewrite app_nil_r; reflexivity.
Qed.

Lemma rmatch_char_ci_hit (c : N) (bef rest : jsstring) (p : nat)
    (cs : list (nat * jsstring)) (k : cont) :
  rmatch true (RChar c) (MState bef (c :: rest) p cs) k
  = k (MState (c :: bef) rest (S p) cs).
Proof.
  cbn [rmatch]; rewrite eat_cons, N.eqb_refl; reflexivity.
Qed.

(** [[^>]] with the i flag. *)
Lemma rmatch_not_gt_eat (s : mstate) (k : cont) :
  rmatch true (RSet true [CC 62]) s k = eat (fun c => negb (N.eqb c 62)) s k.
Proof.
  cbn [rmatch]; unfold eat; destruct (advance s) as [[c s']|]; [|reflexivity].
  unfold set_match, citem_match; cbn [existsb citem_has andb].
  rewrite (swapcase_non_letter 62 c) by reflexivity.
  rewrite orb_diag, orb_false_r, (N.eqb_sym 62 c).
  destruct (N.eqb c 62); reflexivity.
Qed.

(** [[\s\S]] *)
Lemma rmatch_any_eat (ic : bool) (s : mstate) (k : cont) :
  rmatch ic RAny s k = eat (fun _ => true) s k.
Proof.
  unfold RAny; cbn [rmatch]; unfold eat.
  destruct (advance s) as [[c s']|]; [|reflexivity].
  unfold set_match, citem_match; cbn [existsb citem_has xorb].
  destruct (is_space c); cbn [negb orb]; [reflexivity|].
  rewrite orb_true_r; reflexivity.
Qed.

Lemma search_none (ic : bool) (r : regex) (s : jsstring) :
  forall bef p,
  (forall c, In c s -> forall bef' rest p',
     rmatch ic r (MState bef' (c :: rest) p' []) (fun e => Some e) = None) ->
  (forall bef' p', rmatch ic r (MState bef' [] p' []) (fun e => Some e) = None) ->
  search ic r bef s p = None.
Proof.
  induction s as [|c s IH]; intros bef p H H0.
  - cbn [search]; rewrite H0; reflexivity.
  - cbn [search]; rewrite (H c (or_introl eq_refl)).
    apply IH; [intros; apply H; right; assumption | exact H0].
Qed.

Lemma search_here (ic : bool) (r : regex) (bef aft : jsstring) (p : nat)
    (e : mstate) :
  rmatch ic r (MState bef aft p []) (fun e0 => Some e0) = Some e ->
  search ic r bef aft p = Some (MState bef aft p [], e).
Proof.
  intros H; destruct aft; cbn [search]; rewrite H; reflexivity.
Qed.

Lemma lt_ci_false (c : N) :
  N.eqb c 60 = false -> N.eqb 60 c || N.eqb 60 (swapcase c) = false.
Proof.
  intros H; rewrite (swapcase_non_letter 60 c) by reflexivity.
  rewrite (N.eqb_sym 60 c), H; reflexivity.
Qed.

Lemma rmatch_char_ci_miss (a c : N) (bef rest : jsstring) (p : nat)
    (cs : list (nat * jsstring)) (k : cont) :
  N.eqb a c || N.eqb a (swapcase c) = false ->
  rmatch true (RChar a) (MState bef (c :: rest) p cs) k = None.
Proof.
  intros H; cbn [rmatch]; rewrite eat_cons; cbn [andb]; rewrite H; reflexivity.
Qed.

Lemma rmatch_opt (ic : bool) (r : regex) (s : mstate) (k : cont) :
  rmatch ic (ROpt r) s k
  = match rmatch ic r s (fun s' => if Nat.ltb (pos s) (pos s') then k s'
                                   else None) with
    | Some x => Some x
    | None => k s
    end.
Proof. reflexivity. Qed.

(** An optional literal that is there, and one that is not. *)
Lemma rmatch_opt_lit_present (lit bef rest : jsstring) (p : nat)
    (cs : list (nat * jsstring)) (k : cont) (x : mstate) :
  lit <> [] ->
  k (MState (rev lit ++ bef) rest (p + List.length lit) cs) = Some x ->
  rmatch true (ROpt (RLit lit)) (MState bef (lit ++ rest) p cs) k = Some x.
Proof.
  intros Hne Hk; rewrite rmatch_opt, rmatch_lit_ci_self; cbn [pos].
  assert (Hlt : Nat.ltb p (p + List.length lit) = true).
  { apply Nat.ltb_lt; destruct lit; [congruence | simpl; lia]. }
  rewrite Hlt, Hk; reflexivity.
Qed.

Lemma rmatch_opt_lit_absent (lit bef aft : jsstring) (p : nat)
    (cs : list (nat * jsstring)) (k : cont) :
  starts_with_ci lit aft = false ->
  rmatch true (ROpt (RLit lit)) (MState bef aft p cs) k
  = k (MState bef aft p cs).
Proof.
  intros H; rewrite rmatch_opt, rmatch_lit_ci, H; reflexivity.
Qed.

Lemma forallb_all (s : jsstring) : forallb (fun _ : N => true) s = true.
Proof. induction s; auto. Qed.

(** The expression of [xmlText] on an element of its tag whose text holds
    neither an opening angle nor a closing square bracket, with or without a
    CDATA section around the text: group 1 is the text. *)
Lemma xmlText_re_match (tag attrs t rest bef : jsstring) (p : nat)
    (cdata : bool) :
  forallb (fun c => negb (N.eqb c 62)) attrs = true ->
  forallb (fun c => negb (N.eqb c 60) && negb (N.eqb c 93)) t = true ->
  exists e,
    rmatch true (xmlText_re tag)
      (MState bef
         (60%N :: tag ++ attrs ++ 62%N
              :: (if cdata then js "<![CDATA[" else []) ++ t
              ++ (if cdata then js "]]>" else []) ++ js "</" ++ tag
              ++ 62%N :: rest) p [])
      (fun e => Some e) = Some e
    /\ cap 1 (caps e) = t.
Proof.
  intros Ha Ht.
  assert (Hin : forall b c r2, t = b ++ c :: r2 ->
            N.eqb c 60 = false /\ N.eqb c 93 = false).
  { intros b c r2 E; rewrite forallb_forall in Ht.
    specialize (Ht c ltac:(rewrite E; apply in_elt)).
    apply andb_true_iff in Ht as [A B].
    apply negb_true_iff in A; apply negb_true_iff in B; auto. }
  assert (Hclose : forall c r, N.eqb c 93 = false ->
            starts_with_ci (js "]]>") (c :: r) = false).
  { intros c r Hc; cbn [js List.map list_ascii_of_string starts_with_ci].
    change (N_of_ascii "]"%char) with 93%N.
    rewrite (swapcase_non_letter 93 c) by reflexivity.
    rewrite orb_diag, (N.eqb_sym 93 c), Hc; reflexivity. }
  assert (Hlt : forall lit c r, N.eqb c 60 = false ->
            starts_with_ci (60%N :: lit) (c :: r) = false).
  { intros lit c r Hc; cbn [starts_with_ci].
    rewrite (lt_ci_false c Hc); reflexivity. }
  assert (Hmiss : forall b c r2 bef' p' cs' (k : cont),
            t = b ++ c :: r2 ->
            rmatch true
              (RSeq (ROpt (RLit (js "]]>")))
                 (RSeq (RLit (js "</")) (RSeq (RLit tag) (RChar 62))))
              (MState bef'
                 (c :: r2 ++ (if cdata then js "]]>" else []) ++ js "</" ++ tag
                    ++ 62%N :: rest) p' cs') k = None).
  { intros b c r2 bef' p' cs' k E.
    destruct (Hin b c r2 E) as [Hc1 Hc2].
    rewrite rmatch_seq, rmatch_opt_lit_absent by (apply Hclose; exact Hc2).
    rewrite rmatch_seq, rmatch_lit_ci.
    change (js "</") with [60%N; 47%N].
    rewrite Hlt by exact Hc1; reflexivity. }
  destruct cdata; eexists; (split; [unfold xmlText_re; cbn [RSeqs]|]).
  - rewrite rmatch_seq, rmatch_char_ci_hit; cbv beta.
    rewrite rmatch_seq, rmatch_lit_ci_self; cbv beta.
    rewrite rmatch_seq.
    apply (rmatch_star_stop true _ (fun c => negb (N.eqb c 62)));
      [exact rmatch_not_gt_eat | exact Ha | reflexivity | cbv beta].
    rewrite rmatch_seq, rmatch_char_ci_hit; cbv beta.
    rewrite rmatch_seq.
    apply rmatch_opt_lit_present; [discriminate | cbv beta].
    rewrite rmatch_seq, rmatch_group.
    apply (rmatch_lazy_star true _ (fun _ => true));
      [apply rmatch_any_eat | apply forallb_all | | cbv beta].
    + intros b r2 E Hne; cbv beta; cbn [before after pos caps].
      destruct r2 as [|c r2]; [congruence|].
      cbn [app]; apply (Hmiss b c r2); exact E.
    + cbn [before after pos caps].
      rewrite rmatch_seq.
      apply rmatch_opt_lit_present; [discriminate | cbv beta].
      rewrite rmatch_seq, rmatch_lit_ci_self; cbv beta.
      rewrite rmatch_seq, rmatch_lit_ci_self; cbv beta.
      rewrite rmatch_char_ci_hit; reflexivity.
  - cbn [cap caps pos after before Nat.eqb]; apply firstn_prefix; lia.
  - rewrite rmatch_seq, rmatch_char_ci_hit; cbv beta.
    rewrite rmatch_seq, rmatch_lit_ci_self; cbv beta.
    rewrite rmatch_seq.
    apply (rmatch_star_stop true _ (fun c => negb (N.eqb c 62)));
      [exact rmatch_not_gt_eat | exact Ha | reflexivity | cbv beta].
    rewrite rmatch_seq, rmatch_char_ci_hit; cbv beta.
    rewrite rmatch_seq.
    cbn [app].
    rewrite rmatch_opt_lit_absent.
    2:{ destruct t as [|c t'].
        - reflexivity.
        - destruct (Hin [] c t' eq_refl) as [Hc1 _].
          change (js "<![CDATA[") with (60%N :: js "![CDATA[").
          apply Hlt; exact Hc1. }
    rewrite rmatch_seq, rmatch_group.
    apply (rmatch_lazy_star true _ (fun _ => true));
      [apply rmatch_any_eat | apply forallb_all | | cbv beta].
    + intros b r2 E Hne; cbv beta; cbn [before after pos caps].
      destruct r2 as [|c r2]; [congruence|].
      cbn [app]; apply (Hmiss b c r2); exact E.
    + cbn [before after pos caps].
      rewrite rmatch_seq, rmatch_opt_lit_absent by reflexivity.
      rewrite rmatch_seq, rmatch_lit_ci_self; cbv beta.
      rewrite rmatch_seq, rmatch_lit_ci_self; cbv beta.
      rewrite rmatch_char_ci_hit; reflexivity.
  - cbn [cap caps pos after before Nat.eqb]; apply firstn_prefix; lia.
Qed.

Lemma rmatch_alt (ic : bool) (r1 r2 : regex) (s : mstate) (k : cont) :
  rmatch ic (RAlt r1 r2) s k
  = match rmatch ic r1 s k with
    | Some x => Some x
    | None => rmatch ic r2 s k
    end.
Proof. reflexivity. Qed.

Lemma rmatch_alt_left (ic : bool) (r1 r2 : regex) (s : mstate) (k : cont)
    (x : mstate) :
  rmatch ic r1 s k = Some x -> rmatch ic (RAlt r1 r2) s k = Some x.
Proof. intros H; rewrite rmatch_alt, H; reflexivity. Qed.

(** The expression of the loop of [fetchRss] starts a match only where an
    [item] or an [entry] element opens. *)
Lemma feed_item_re_miss (aft bef : jsstring) (p : nat) (k : cont) :
  starts_with_ci (js "<item") aft = false ->
  starts_with_ci (js "<entry") aft = false ->
  rmatch true feed_item_re (MState bef aft p []) k = None.
Proof.
  intros H1 H2; unfold feed_item_re; cbn [RSeqs].
  rewrite rmatch_alt, !rmatch_seq, !rmatch_lit_ci, H1, H2; reflexivity.
Qed.

Lemma feed_item_re_end (bef : jsstring) (p : nat) (k : cont) :
  rmatch true feed_item_re (MState bef [] p []) k = None.
Proof. reflexivity. Qed.

(** An [item] element without content: group 1 is the empty string and
    group 2 took no part. *)
Lemma feed_item_re_empty_item (attrs rest bef : jsstring) (p : nat) :
  forallb (fun c => negb (N.eqb c 62)) attrs = true ->
  exists e,
    rmatch true feed_item_re
      (MState bef (js "<item" ++ attrs ++ 62%N :: js "</item>" ++ rest) p [])
      (fun e => Some e) = Some e
    /\ caps e = [(1, [])] /\ p < pos e.
Proof.
  intros Ha; eexists; split; [|split].
  - unfold feed_item_re; cbn [RSeqs].
    apply rmatch_alt_left.
    rewrite rmatch_seq, rmatch_lit_ci_self; cbv beta.
    rewrite rmatch_seq.
    apply (rmatch_star_stop true _ (fun c => negb (N.eqb c 62)) _ _ attrs);
      [exact rmatch_not_gt_eat | exact Ha | reflexivity | cbv beta].
    rewrite rmatch_seq, rmatch_char_ci_hit; cbv beta.
    rewrite rmatch_seq, rmatch_group.
    apply (rmatch_lazy_star true _ (fun _ => true) _ _ [] _
             (js "</item>" ++ rest));
      [apply rmatch_any_eat | reflexivity | | cbv beta].
    + intros b r2 E Hne; destruct b; destruct r2; try discriminate; congruence.
    + cbn [before after pos caps rev app List.length].
      rewrite rmatch_lit_ci_self; reflexivity.
  - cbn [caps pos after before].
    rewrite Nat.add_0_r, Nat.sub_diag; reflexivity.
  - cbn [pos]; lia.
Qed.

(** An [entry] element without content: group 2 is the empty string and
    group 1 took no part. *)
Lemma feed_item_re_empty_entry (attrs rest bef : jsstring) (p : nat) :
  forallb (fun c => negb (N.eqb c 62)) attrs = true ->
  exists e,
    rmatch true feed_item_re
      (MState bef (js "<entry" ++ attrs ++ 62%N :: js "</entry>" ++ rest) p [])
      (fun e => Some e) = Some e
    /\ caps e = [(2, [])] /\ p < pos e /\ after e = rest.
Proof.
  intros Ha; eexists; split; [|split; [|split]].
  - unfold feed_item_re; cbn [RSeqs].
    rewrite rmatch_alt, rmatch_seq, rmatch_lit_ci.
    assert (E : starts_with_ci (js "<item")
                  (js "<entry" ++ attrs ++ 62%N :: js "</entry>" ++ rest)
                = false) by reflexivity.
    rewrite E.
    rewrite rmatch_seq, rmatch_lit_ci_self; cbv beta.
    rewrite rmatch_seq.
    apply (rmatch_star_stop true _ (fun c => negb (N.eqb c 62)) _ _ attrs);
      [exact rmatch_not_gt_eat | exact Ha | reflexivity | cbv beta].
    rewrite rmatch_seq, rmatch_char_ci_hit; cbv beta.
    rewrite rmatch_seq, rmatch_group.
    apply (rmatch_lazy_star true _ (fun _ => true) _ _ [] _
             (js "</entry>" ++ rest));
      [apply rmatch_any_eat | reflexivity | | cbv beta].
    + intros b r2 E' Hne; destruct b; destruct r2; try discriminate; congruence.
    + cbn [before after pos caps rev app List.length].
      rewrite rmatch_lit_ci_self; reflexivity.
  - cbn [caps pos after before].
    rewrite Nat.add_0_r, Nat.sub_diag; reflexivity.
  - cbn [pos]; lia.
  - reflexivity.
Qed.

(** A global replacement changes nothing where its expression finds no
    match. *)
Lemma replace_all_no_match (ic : bool) (r : regex) (rp : repl) (s : jsstring) :
  search ic r [] s 0 = None -> replace_all ic r rp s = s.
Proof.
  intros H; unfold replace_all, scan_all; cbn [scan]; rewrite H; reflexivity.
Qed.

Lemma forallb_trim (q : N -> bool) (s : jsstring) :
  forallb q s = true -> forallb q (trim s) = true.
Proof.
  intros H; unfold trim.
  destruct (trimStart_suffix s) as (a & Ea).
  destruct (trimEnd_prefix (trimStart s)) as (b & Eb).
  rewrite Ea, Eb, !forallb_app in H.
  apply andb_true_iff in H as [_ H]; apply andb_true_iff in H as [H _].
  exact H.
Qed.

Lemma xmlText_re_miss (tag aft bef : jsstring) (p : nat) (k : cont) :
  starts_with_ci (60%N :: tag) aft = false ->
  rmatch true (xmlText_re tag) (MState bef aft p []) k = None.
Proof.
  intros H; unfold xmlText_re; cbn [RSeqs].
  rewrite rmatch_seq.
  destruct aft as [|c r]; [reflexivity|].
  cbn [rmatch]; rewrite eat_cons; cbn [andb starts_with_ci] in *.
  destruct (N.eqb 60 c || N.eqb 60 (swapcase c)); [|reflexivity].
  cbn [andb] in H.
  change (rmatch true (RLit tag) ?s ?k') with (rmatch true (RLit tag) s k').
  rewrite rmatch_lit_ci, H; reflexivity.
Qed.

(** A search passes over the positions at which no match starts. *)
Lemma search_pass (ic : bool) (r : regex) (pre : jsstring) :
  forall bef aft p,
  (forall a c b, pre = a ++ c :: b -> forall bef' p',
     rmatch ic r (MState bef' (c :: b ++ aft) p' []) (fun e => Some e) = None) ->
  aft <> [] ->
  search ic r bef (pre ++ aft) p
  = search ic r (rev pre ++ bef) aft (p + List.length pre).
Proof.
  induction pre as [|c pre IH]; intros bef aft p H Hne.
  - cbn; rewrite Nat.add_0_r; reflexivity.
  - cbn [app search]; rewrite (H [] c pre eq_refl).
    rewrite IH; [| |exact Hne].
    + cbn [rev List.length]; rewrite <- app_assoc; cbn [app].
      replace (S p + List.length pre) with (p + S (List.length pre)) by lia.
      reflexivity.
    + intros a c' b E; apply (H (c :: a) c' b); rewrite E; reflexivity.
Qed.

Lemma search_pass_all (ic : bool) (r : regex) (s : jsstring) :
  forall bef p,
  (forall a c b, s = a ++ c :: b -> forall bef' p',
     rmatch ic r (MState bef' (c :: b) p' []) (fun e => Some e) = None) ->
  (forall bef' p', rmatch ic r (MState bef' [] p' []) (fun e => Some e) = None) ->
  search ic r bef s p = None.
Proof.
  induction s as [|c s IH]; intros bef p H H0.
  - cbn [search]; rewrite H0; reflexivity.
  - cbn [search]; rewrite (H [] c s eq_refl).
    apply IH; [|exact H0].
    intros a c' b E; apply (H (c :: a) c' b); rewrite E; reflexivity.
Qed.

Lemma occurs_ci_split (lit a b : jsstring) :
  occurs_ci lit (a ++ b) = false -> starts_with_ci lit b = false.
Proof.
  induction a as [|c a IH]; intros H.
  - destruct b; cbn [app occurs_ci] in H; apply orb_false_iff in H as [H _];
      exact H.
  - cbn [app occurs_ci] in H; apply orb_false_iff in H as [_ H]; auto.
Qed.

(** A literal without opening angle does not reach over an opening
    angle. *)
Lemma starts_with_ci_stops (lit : jsstring) :
  forallb (fun a => negb (N.eqb a 60)) lit = true ->
  forall b rest,
  starts_with_ci lit (b ++ 60%N :: rest) = starts_with_ci lit b.
Proof.
  induction lit as [|a lit IH]; intros H b rest; [reflexivity|].
  cbn [forallb] in H; apply andb_true_iff in H as [Ha Hl].
  apply negb_true_iff in Ha.
  destruct b as [|c b]; cbn [app starts_with_ci].
  - change (swapcase 60) with 60%N; rewrite Ha; reflexivity.
  - rewrite IH by exact Hl; reflexivity.
Qed.

Lemma starts_with_ci_before (a : N) (lit : jsstring) (c : N)
    (b rest : jsstring) :
  forallb (fun a => negb (N.eqb a 60)) lit = true ->
  starts_with_ci (a :: lit) (c :: b ++ 60%N :: rest)
  = starts_with_ci (a :: lit) (c :: b).
Proof.
  intros H; cbn [starts_with_ci]; rewrite starts_with_ci_stops by exact H.
  reflexivity.
Qed.

Lemma forallb_not_char (a : N) (s : jsstring) (c : N) :
  forallb (fun c => negb (N.eqb c a)) s = true -> In c s -> N.eqb c a = false.
Proof.
  intros H Hc; rewrite forallb_forall in H.
  apply negb_true_iff; apply H; exact Hc.
Qed.

Lemma replace_all_lit_absent (a : N) (lit t s : jsstring) :
  forallb (fun c => negb (N.eqb c a)) s = true ->
  replace_all false (RLit (a :: lit)) (RepLit t) s = s.
Proof.
  intros H; apply replace_all_no_match; apply search_none.
  - intros c Hc bef' rest p'.
    rewrite rmatch_lit; cbn [starts_with].
    rewrite (N.eqb_sym a c), (forallb_not_char a s c H Hc); reflexivity.
  - intros bef' p'; rewrite rmatch_lit; reflexivity.
Qed.

Lemma replace_all_tags_absent (t s : jsstring) :
  forallb (fun c => negb (N.eqb c 60)) s = true ->
  replace_all false html_tag_re (RepLit t) s = s.
Proof.
  intros H; apply replace_all_no_match; apply search_none.
  - intros c Hc bef' rest p'.
    unfold html_tag_re; cbn [RSeqs]; rewrite rmatch_seq.
    cbn [rmatch]; rewrite eat_cons, orb_false_r.
    rewrite (N.eqb_sym 60 c), (forallb_not_char 60 s c H Hc); reflexivity.
  - reflexivity.
Qed.

Lemma scan_none (ic : bool) (r : regex) (f : nat) (bef aft : jsstring)
    (p : nat) :
  search ic r bef aft p = None -> fst (scan ic r f bef aft p) = [].
Proof.
  intros H; destruct f; cbn [scan]; [|rewrite H]; reflexivity.
Qed.

(** ** Lines that the quote repair passes over *)

Lemma search_bol_none (ic : bool) (r : regex) (str : jsstring) :
  rmatch ic r (MState [] str 0 []) (fun e => Some e) = None ->
  search ic (RSeq RBol r) [] str 0 = None.
Proof.
  intros H; destruct str as [|c str]; cbn [search rmatch before]; rewrite H.
  - reflexivity.
  - apply search_bol; discriminate.
Qed.

Lemma rmatch_star_unfold (ic : bool) (r : regex) (s : mstate) (k : cont) :
  rmatch ic (RStar r) s k
  = iter_opt (rmatch ic r) true (S (List.length (after s))) s k.
Proof. reflexivity. Qed.

Lemma rmatch_char_miss (a c : N) (bef rest : jsstring) (p : nat)
    (cs : list (nat * jsstring)) (k : cont) :
  N.eqb a c = false ->
  rmatch false (RChar a) (MState bef (c :: rest) p cs) k = None.
Proof.
  intros H; cbn [rmatch]; rewrite eat_cons, H; reflexivity.
Qed.

(** What follows a run of white space at the start of a text that begins
    with white space and a character that is none. *)
Lemma after_leading_spaces (c : N) (rest : jsstring) (ws : jsstring) :
  forall b c' r2,
  forallb is_space ws = true -> is_space c = false ->
  forallb is_space b = true ->
  ws ++ c :: rest = b ++ c' :: r2 ->
  is_space c' = true \/ c' = c.
Proof.
  induction ws as [|w ws IH]; intros b c' r2 Hws Hc Hb E;
    destruct b as [|x b]; cbn [app forallb] in *.
  - injection E as -> _; right; reflexivity.
  - injection E as -> _; apply andb_true_iff in Hb as [Hx _]; congruence.
  - injection E as -> _; apply andb_true_iff in Hws as [Hw _]; left; exact Hw.
  - injection E as _ E.
    apply andb_true_iff in Hws as [_ Hws]; apply andb_true_iff in Hb as [_ Hb].
    exact (IH b c' r2 Hws Hc Hb E).
Qed.

(** [keyPattern] matches no line whose first character after the leading
    white space is not a double quote. *)
Lemma keyPattern_needs_quote (ws : jsstring) (c : N) (rest : jsstring) :
  forallb is_space ws = true -> is_space c = false -> c <> 34%N ->
  match_first false keyPattern (ws ++ c :: rest) = None.
Proof.
  intros Hws Hc Hq; unfold match_first.
  assert (E : search false keyPattern [] (ws ++ c :: rest) 0 = None);
    [|rewrite E; reflexivity].
  unfold keyPattern, RSpaces; cbn [RSeqs].
  apply search_bol_none.
  rewrite rmatch_seq, rmatch_group, rmatch_seq, rmatch_star_unfold.
  apply (iter_opt_greedy_none _ is_space _ rmatch_space_eat).
  intros b r2 E Hb; cbv beta; rewrite rmatch_seq.
  destruct r2 as [|c' r2]; [reflexivity|].
  apply rmatch_char_miss, N.eqb_neq; intros <-.
  destruct (after_leading_spaces c rest ws b _ r2 Hws Hc Hb E) as [H|H].
  - discriminate H.
  - congruence.
Qed.

Lemma plain_no_typographic (s : jsstring) (a : N) :
  forallb plain_char s = true ->
  In a [0x201C; 0x201D; 0x201E; 0x2033; 0xFF02]%N ->
  forallb (fun c => negb (N.eqb a c)) s = true.
Proof.
  intros H Ha; revert H; apply forallb_weaken.
  intros c Hc; unfold plain_char in Hc.
  apply andb_true_iff in Hc as [_ Hc]; apply negb_true_iff in Hc.
  apply negb_true_iff; apply N.eqb_neq; intros <-.
  assert (existsb (N.eqb a) [0x201C; 0x201D; 0x201E; 0x2033; 0xFF02]%N = true)
    by (apply existsb_exists; exists a; split; [exact Ha | apply N.eqb_refl]).
  congruence.
Qed.

(** The quote repair changes nothing in a text of one line that begins,
    after white space, with another character than a double quote, an
    opening bracket or brace for instance. *)
Lemma fixLlmJsonQuotes_one_line (ws : jsstring) (c : N) (rest : jsstring) :
  forallb is_space ws = true -> is_space c = false -> c <> 34%N ->
  forallb plain_char (ws ++ c :: rest) = true ->
  fixLlmJsonQuotes (ws ++ c :: rest) = ws ++ c :: rest.
Proof.
  intros Hws Hc Hq Hp; unfold fixLlmJsonQuotes; cbn [fold_left].
  rewrite (replace_char_absent 0x201C)
    by (apply plain_no_typographic; [exact Hp | cbn [In]; auto 10]).
  rewrite (replace_char_absent 0x201D)
    by (apply plain_no_typographic; [exact Hp | cbn [In]; auto 10]).
  rewrite (replace_char_absent 0x201E)
    by (apply plain_no_typographic; [exact Hp | cbn [In]; auto 10]).
  rewrite (replace_char_absent 0x2033)
    by (apply plain_no_typographic; [exact Hp | cbn [In]; auto 10]).
  rewrite (replace_char_absent 0xFF02)
    by (apply plain_no_typographic; [exact Hp | cbn [In]; auto 10]).
  unfold split_lines; rewrite split_lines_aux_last.
  - cbn [rev app List.map join_lines]; unfold fix_line.
    rewrite keyPattern_needs_quote by assumption; reflexivity.
  - revert Hp; apply forallb_weaken.
    intros x Hx; unfold plain_char in Hx.
    apply andb_true_iff in Hx as [Hx _]; exact Hx.
Qed.

Section Properties.

Context {RT : Runtime}.

(** ** Title similarity *)

Lemma name_rel_sym (n m : jsstring) : name_rel n m = name_rel m n.
Proof.
  unfold name_rel; rewrite (str_eqb_sym n m).
  destruct (str_eqb m n), (includes n m), (includes m n); reflexivity.
Qed.

Lemma normalizeTitle_throws (t : jsval) (e : exn) :
  normalizeTitle t = Throw e -> e = TypeError.
Proof.
  unfold normalizeTitle; destruct (or_empty t); simpl; congruence.
Qed.

Lemma extractKeyEntities_ok (t : jsval) (n : jsstring) :
  normalizeTitle t = Ok n ->
  extractKeyEntities t
  = Ok (Entities (List.map toLowerCase (match_all true numbers_re n))
                 (List.map toLowerCase (match_all true names_re n))
                 (match_all false cnNames_re n)).
Proof. intros H; unfold extractKeyEntities; rewrite H; reflexivity. Qed.

(** C7. Title-similarity symmetry: for all pairs of titles [a] and [b],
    [titlesAreSimilar a b] equals [titlesAreSimilar b a]; this holds for
    every pair of values, also those on which the comparison throws. *)
Theorem titlesAreSimilar_symmetric (a b : jsval) :
  titlesAreSimilar a b = titlesAreSimilar b a.
Proof.
  unfold titlesAreSimilar.
  destruct (normalizeTitle a) as [na|ea] eqn:Ha;
    destruct (normalizeTitle b) as [nb|eb] eqn:Hb; cbn [bind]; try reflexivity.
  2:{ apply normalizeTitle_throws in Ha, Hb; congruence. }
  rewrite (extractKeyEntities_ok a na Ha), (extractKeyEntities_ok b nb Hb).
  cbn [bind names numbers].
  set (A := List.map toLowerCase (match_all true names_re na)).
  set (B := List.map toLowerCase (match_all true names_re nb)).
  set (C := List.map toLowerCase (match_all true numbers_re na)).
  set (D := List.map toLowerCase (match_all true numbers_re nb)).
  rewrite !nonempty_filter.
  rewrite (existsb_swap_plain name_rel A B name_rel_sym).
  replace (existsb (fun n => existsb (str_eqb n) D) C)
    with (existsb (fun m => existsb (str_eqb m) C) D)
    by (symmetry; apply (existsb_swap_plain str_eqb C D str_eqb_sym)).
  replace (existsb (fun n => Nat.leb 4 (List.length n)
                     && existsb (fun m => Nat.leb 4 (List.length m)
                                          && name_rel n m) B) A)
    with (existsb (fun m => Nat.leb 4 (List.length m)
                     && existsb (fun n => Nat.leb 4 (List.length n)
                                          && name_rel m n) A) B)
    by (symmetry;
        apply (existsb_swap (fun n => Nat.leb 4 (List.length n)) name_rel A B
                 name_rel_sym)).
  rewrite (count_common_sym _ _ (bigrams_NoDup na) (bigrams_NoDup nb)).
  rewrite (str_eqb_sym na nb).
  rewrite (Nat.add_comm (List.length (bigrams na)) (List.length (bigrams nb))).
  repeat match goal with
         | |- context [existsb ?f ?l] =>
             let b := fresh "b" in set (b := existsb f l); clearbody b
         end.
  set (J := jaccard_above _ _); clearbody J.
  destruct (nonempty na), (nonempty nb); simpl; try reflexivity.
  destruct (str_eqb nb na); [reflexivity|].
  destruct (includes na nb), (includes nb na); simpl; try reflexivity.
  destruct (nonempty A), (nonempty B); simpl;
    try (destruct (Nat.eqb (List.length (bigrams na)) 0),
                  (Nat.eqb (List.length (bigrams nb)) 0); reflexivity).
  destruct (nonempty C), (nonempty D); simpl;
    repeat match goal with x : bool |- _ => destruct x; simpl end;
    try reflexivity;
    destruct (Nat.ltb (List.length na) 30), (Nat.ltb (List.length nb) 30);
    simpl; try reflexivity;
    destruct (Nat.eqb (List.length (bigrams na)) 0),
             (Nat.eqb (List.length (bigrams nb)) 0); reflexivity.
Qed.

(** ** Push history *)

(** C9. Reading the history never raises: for every state of the store and
    every window, [loadPushedHistory] returns a snapshot; it is the
    snapshot of the selected rows when the read succeeds and the empty one
    (empty sets, empty title list) when the read fails, as it does on a
    store that is not initialised ([null]) and on one whose statements
    throw.  So does the history step of [main] on whatever handle
    [getPushDbAsync] returns. *)
Theorem loadPushedHistory_never_raises (db : pushdb) (hours now : Z) :
  loadPushedHistory db hours now
  = Ok match select_since db hours now with
       | Ok rows => snapshot rows
       | Throw _ => empty_history
       end
  /\ loadPushedHistory DbNull hours now = Ok empty_history
  /\ loadPushedHistory DbFaulty hours now = Ok empty_history
  /\ (forall cache file,
        exists h, mainHistory (fst (getPushDbAsync cache file)) now = Ok h)
  /\ mainHistory (fst (getPushDbAsync DbNull FileMissing)) now = Ok empty_history
  /\ mainHistory (fst (getPushDbAsync DbNull FileUnusable)) now = Ok empty_history
  /\ mainHistory (fst (getPushDbAsync DbNull FileFaulty)) now = Ok empty_history.
Proof.
  split; [unfold loadPushedHistory; destruct (select_since db hours now);
          reflexivity|].
  repeat split; try reflexivity.
  intros cache file; unfold mainHistory.
  destruct (db_truthy (fst (getPushDbAsync cache file))); [|eexists; reflexivity].
  unfold loadPushedHistory.
  destruct (select_since _ 72 now); eexists; reflexivity.
Qed.

Lemma insert_or_ignore_incl (r : row) (rows : list row) :
  incl rows (insert_or_ignore r rows).
Proof.
  unfold insert_or_ignore; destruct (existsb _ rows); intros x Hx;
    [exact Hx | apply in_or_app; left; exact Hx].
Qed.

Lemma insert_or_ignore_origin (r : row) (rows : list row) (x : row) :
  In x (insert_or_ignore r rows) -> x = r \/ In x rows.
Proof.
  unfold insert_or_ignore; destruct (existsb _ rows); intros Hx; [auto|].
  apply in_app_or in Hx; destruct Hx as [Hx|[<-|[]]]; auto.
Qed.

Lemma insert_or_ignore_has (r : row) (rows : list row) :
  exists r', In r' (insert_or_ignore r rows) /\ url_hash r' = url_hash r
             /\ (r' = r \/ In r' rows).
Proof.
  unfold insert_or_ignore; destruct (existsb _ rows) eqn:E.
  - apply existsb_exists in E; destruct E as (r' & Hin & Heq).
    apply str_eqb_eq in Heq; exists r'; auto.
  - exists r; split; [apply in_or_app; right; left; reflexivity | auto].
Qed.

(** What one insert leaves in the table. *)
Lemma record_one_spec (dt : jsstring) (t : Z) (rows rows' : list row)
    (item : jsval) :
  record_one dt t rows item = Ok rows' ->
  incl rows rows'
  /\ (forall x, In x rows' -> pushed_at x = t \/ In x rows)
  /\ exists url nu,
       get item (js "url") = Ok url /\ normalizeUrlForHash url = Ok nu
       /\ exists r, In r rows' /\ url_hash r = hashStr nu
                    /\ (pushed_at r = t \/ In r rows).
Proof.
  unfold record_one.
  destruct (get item (js "url")) as [url|] eqn:Hu; cbn [bind]; [|discriminate].
  destruct (normalizeUrlForHash url) as [nu|] eqn:Hn; cbn [bind]; [|discriminate].
  destruct (get item (js "title")) as [title|]; cbn [bind]; [|discriminate].
  destruct (titleHashOf title) as [th|]; cbn [bind]; [|discriminate].
  destruct (as_string (or_empty title)) as [tt|]; cbn [bind]; [|discriminate].
  destruct (bind_param (or_empty url)) as [u|]; cbn [bind]; [|discriminate].
  intros H; injection H as <-.
  set (r := Row (hashStr nu) th tt u dt t).
  split; [apply insert_or_ignore_incl|].
  split.
  - intros x Hx; apply insert_or_ignore_origin in Hx.
    destruct Hx as [->|Hx]; [left; reflexivity | right; exact Hx].
  - exists url, nu; split; [reflexivity|]; split; [exact Hn|].
    destruct (insert_or_ignore_has r rows) as (r' & Hin & Hh & Ho).
    exists r'; split; [exact Hin|]; split; [exact Hh|].
    destruct Ho as [->|Ho]; [left; reflexivity | right; exact Ho].
Qed.

Lemma record_all_spec (dt : jsstring) (t : Z) (items : list jsval) :
  forall rows rows',
  record_all dt t rows items = Ok rows' ->
  incl rows rows'
  /\ (forall x, In x rows' -> pushed_at x = t \/ In x rows)
  /\ forall item, In item items ->
       exists url nu,
         get item (js "url") = Ok url /\ normalizeUrlForHash url = Ok nu
         /\ exists r, In r rows' /\ url_hash r = hashStr nu
                      /\ (pushed_at r = t \/ In r rows).
Proof.
  induction items as [|i items IH]; intros rows rows' H; simpl in H.
  - injection H as <-; split; [apply incl_refl|].
    split; [auto | intros item []].
  - destruct (record_one dt t rows i) as [rows1|] eqn:H1; cbn [bind] in H;
      [|discriminate].
    apply record_one_spec in H1; destruct H1 as (I1 & O1 & url & nu & Gu & Gn & r & Rin & Rh & Ro).
    apply IH in H; destruct H as (I2 & O2 & A2).
    split; [intros x Hx; apply I2, I1, Hx|].
    split.
    + intros x Hx; destruct (O2 x Hx) as [E|Hx1]; [left; exact E|].
      apply O1, Hx1.
    + intros item [<-|Hin].
      * exists url, nu; split; [assumption|]; split; [assumption|].
        exists r; split; [apply I2, Rin | split; assumption].
      * destruct (A2 item Hin) as (url' & nu' & Gu' & Gn' & r' & Rin' & Rh' & Ro').
        exists url', nu'; split; [assumption|]; split; [assumption|].
        exists r'; split; [exact Rin' | split; [exact Rh'|]].
        destruct Ro' as [E|Hx1]; [left; exact E | apply O1, Hx1].
Qed.

(** A row inside the window puts its URL hash into the loaded snapshot. *)
Lemma loaded_url_hash (rows : list row) (r : row) (hours now : Z) :
  In r rows -> (now - hours * 3600 <= pushed_at r)%Z ->
  exists h, loadPushedHistory (DbOpen rows) hours now = Ok h
            /\ set_has (url_hash r) (urlHashes h) = true.
Proof.
  intros Hin Hw; eexists; split; [reflexivity|].
  cbn [snapshot urlHashes]; apply set_has_In, set_of_list_spec, in_map.
  apply filter_In; split; [exact Hin | apply Z.leb_le, Hw].
Qed.

(** The URL check of [isItemPushedBefore] decides alone when it hits. *)
Lemma isItemPushedBefore_url_hit (h : history) (item url : jsval)
    (nu : jsstring) :
  get item (js "url") = Ok url -> normalizeUrlForHash url = Ok nu ->
  set_has (hashStr nu) (urlHashes h) = true ->
  isItemPushedBefore h item = Ok true.
Proof.
  intros Hu Hn Hs; unfold isItemPushedBefore.
  rewrite Hu; cbn [bind]; rewrite Hn; cbn [bind]; rewrite Hs; reflexivity.
Qed.

(** C1. Suppression after recording: once an item has been recorded by
    [recordPushedItems], whatever its URL, a non-empty one in particular,
    the table holds a row for the hash of that URL, namely the one inserted
    by the call or, when the table held one already, that one ([INSERT OR
    IGNORE] keeps it, with its time); and every item with the same URL,
    checked against a history loaded over a window that covers that row, is
    reported as pushed before.  When the table held no row for the hash,
    the row is the one of the call and its time is the time of the call. *)
Theorem suppression_after_record (rows : list row) (items : list jsval)
    (digestType : jsstring) (t : Z) (db' : pushdb) (item url : jsval) :
  recordPushedItems (DbOpen rows) items digestType t = Ok db' ->
  In item items ->
  get item (js "url") = Ok url ->
  exists rows' r nu,
    db' = DbOpen rows' /\ In r rows'
    /\ normalizeUrlForHash url = Ok nu /\ url_hash r = hashStr nu
    /\ (pushed_at r = t \/ In r rows)
    /\ ((forall r0, In r0 rows -> url_hash r0 <> hashStr nu) -> pushed_at r = t)
    /\ forall (item' : jsval) (hours now : Z),
         get item' (js "url") = Ok url ->
         (now - hours * 3600 <= pushed_at r)%Z ->
         exists h, loadPushedHistory db' hours now = Ok h
                   /\ isItemPushedBefore h item' = Ok true.
Proof.
  intros Hrec Hin Hu.
  unfold recordPushedItems in Hrec.
  destruct (record_all digestType t rows items) as [rows'|] eqn:Hall;
    cbn [bind] in Hrec; [|discriminate].
  injection Hrec as <-.
  destruct (record_all_spec _ _ _ _ _ Hall) as (_ & _ & A).
  destruct (A item Hin) as (url0 & nu & Gu & Gn & r & Rin & Rh & Ro).
  rewrite Hu in Gu; injection Gu as <-.
  exists rows', r, nu; split; [reflexivity|]; split; [exact Rin|].
  split; [exact Gn|]; split; [exact Rh|]; split; [exact Ro|]; split.
  - intros Hnew; destruct Ro as [Ro|Ro]; [exact Ro|].
    exfalso; exact (Hnew r Ro Rh).
  - intros item' hours now Hu' Hw.
    destruct (loaded_url_hash rows' r hours now Rin Hw) as (h & Hl & Hs).
    exists h; split; [exact Hl|].
    apply (isItemPushedBefore_url_hit h item' url nu Hu' Gn).
    rewrite <- Rh; exact Hs.
Qed.

Lemma normalizeUrlForHash_falsy (url : jsval) :
  truthy url = false -> normalizeUrlForHash url = Ok [].
Proof.
  intros H; unfold normalizeUrlForHash, or_empty.
  rewrite (URL_parse_falsy url H), H; cbn.
  rewrite toLowerCase_empty; reflexivity.
Qed.

(** C10. All items without a URL share one URL hash: a missing or empty
    (falsy) URL is normalised to the empty string, so the hash recorded for
    the item is [hashStr] of the empty string; and once such an item has
    been recorded, the table holds a row with that hash (the one inserted
    by this call, or the one the table held already), and every item
    without a URL checked against a history whose window covers that row is
    reported as pushed before, whatever its title. *)
Theorem url_less_items_share_hash :
  (forall url, truthy url = false -> normalizeUrlForHash url = Ok [])
  /\ forall (rows : list row) (items : list jsval) (digestType : jsstring)
       (t : Z) (db' : pushdb) (item url : jsval),
     recordPushedItems (DbOpen rows) items digestType t = Ok db' ->
     In item items ->
     get item (js "url") = Ok url -> truthy url = false ->
     exists rows' r,
       db' = DbOpen rows' /\ In r rows' /\ url_hash r = hashStr []
       /\ (pushed_at r = t \/ In r rows)
       /\ forall (item' url' : jsval) (hours now : Z),
            get item' (js "url") = Ok url' -> truthy url' = false ->
            (now - hours * 3600 <= pushed_at r)%Z ->
            exists h, loadPushedHistory db' hours now = Ok h
                      /\ isItemPushedBefore h item' = Ok true.
Proof.
  split; [exact normalizeUrlForHash_falsy|].
  intros rows items digestType t db' item url Hrec Hin Hu Hf.
  unfold recordPushedItems in Hrec.
  destruct (record_all digestType t rows items) as [rows'|] eqn:Hall;
    cbn [bind] in Hrec; [|discriminate].
  injection Hrec as <-.
  destruct (record_all_spec _ _ _ _ _ Hall) as (_ & _ & A).
  destruct (A item Hin) as (url0 & nu & Gu & Gn & r & Rin & Rh & Ro).
  rewrite Hu in Gu; injection Gu as <-.
  rewrite (normalizeUrlForHash_falsy url Hf) in Gn; injection Gn as <-.
  exists rows', r; split; [reflexivity|]; split; [exact Rin|].
  split; [exact Rh|]; split; [exact Ro|].
  intros item' url' hours now Hu' Hf' Hw.
  destruct (loaded_url_hash rows' r hours now Rin Hw) as (h & Hl & Hs).
  exists h; split; [exact Hl|].
  apply (isItemPushedBefore_url_hit h item' url' [] Hu'
           (normalizeUrlForHash_falsy url' Hf')).
  rewrite <- Rh; exact Hs.
Qed.

(** ** Deduplication of structured items *)

Lemma set_nth_In (z x : jsval) (l : list jsval) :
  forall i, In z (set_nth i x l) -> z = x \/ In z l.
Proof.
  induction l as [|y l IH]; intros i H; destruct i as [|i]; simpl in H;
    try tauto.
  - destruct H as [<-|H]; simpl; auto.
  - destruct H as [<-|H]; simpl; [auto|].
    destruct (IH i H); simpl; auto.
Qed.

Lemma set_nth_length (x : jsval) (l : list jsval) :
  forall i, List.length (set_nth i x l) = List.length l.
Proof. induction l as [|y l IH]; intros [|i]; simpl; auto. Qed.

Lemma set_nth_hot (x : jsval) (l : list jsval) :
  forall i, List.length (hotItems (set_nth i x l))
            <= List.length (hotItems l) + (if is_hot x then 1 else 0).
Proof.
  unfold hotItems.
  induction l as [|y l IH]; intros [|i]; simpl; try lia.
  - destruct (is_hot x), (is_hot y); simpl; lia.
  - specialize (IH i); destruct (is_hot y); simpl; lia.
Qed.

Lemma replace_item_In (old item z : jsval) (res : list jsval) :
  In z (replace_item old item res) -> z = item \/ In z res.
Proof.
  unfold replace_item; destruct (index_of old res); [apply set_nth_In | auto].
Qed.

Lemma replace_item_length (old item : jsval) (res : list jsval) :
  List.length (replace_item old item res) = List.length res.
Proof.
  unfold replace_item; destruct (index_of old res);
    [apply set_nth_length | reflexivity].
Qed.

Lemma replace_item_hot (old item : jsval) (res : list jsval) :
  List.length (hotItems (replace_item old item res))
  <= List.length (hotItems res) + (if is_hot item then 1 else 0).
Proof.
  unfold replace_item; destruct (index_of old res);
    [apply set_nth_hot | lia].
Qed.

Lemma hotItems_app (l l' : list jsval) :
  hotItems (l ++ l') = hotItems l ++ hotItems l'.
Proof. apply filter_app. Qed.

(** What one turn of the loop does to [result]: every entry is the new item
    or an old entry, the length grows by at most one, and the number of
    high-priority entries grows by at most one, and only for a
    high-priority item. *)
Lemma dedup_step_result (seen seen' : jsmap) (res res' : list jsval)
    (item : jsval) :
  dedup_step (seen, res) item = Ok (seen', res') ->
  (forall z, In z res' -> z = item \/ In z res)
  /\ List.length res' <= S (List.length res)
  /\ List.length (hotItems res')
     <= List.length (hotItems res) + (if is_hot item then 1 else 0).
Proof.
  unfold dedup_step.
  destruct (item_key item) as [normUrl|]; cbn [bind]; [|discriminate].
  assert (Same : forall s, Ok (s, res) = Ok (seen', res') ->
    (forall z, In z res' -> z = item \/ In z res)
    /\ List.length res' <= S (List.length res)
    /\ List.length (hotItems res')
       <= List.length (hotItems res) + (if is_hot item then 1 else 0)).
  { intros s H; injection H as _ <-.
    split; [auto|]; split; [lia|]. destruct (is_hot item); lia. }
  assert (Repl : forall s old, Ok (s, replace_item old item res) = Ok (seen', res') ->
    (forall z, In z res' -> z = item \/ In z res)
    /\ List.length res' <= S (List.length res)
    /\ List.length (hotItems res')
       <= List.length (hotItems res) + (if is_hot item then 1 else 0)).
  { intros s old H; injection H as _ <-.
    split; [intros z; apply replace_item_In|].
    split; [rewrite replace_item_length; lia | apply replace_item_hot]. }
  destruct (map_get normUrl seen) as [existing|].
  - destruct (is_hot item && negb (is_hot existing)); [apply Repl | apply Same].
  - destruct (find_similar item seen) as [[[existUrl existItem]|]|];
      cbn [bind]; [| |discriminate].
    + destruct (is_hot item && negb (is_hot existItem));
        [apply Repl | apply Same].
    + intros H; injection H as _ <-.
      split; [intros z Hz; apply in_app_or in Hz;
              destruct Hz as [Hz|[<-|[]]]; auto|].
      split; [rewrite length_app; simpl; lia|].
      rewrite hotItems_app, length_app; unfold hotItems at 2; simpl.
      destruct (is_hot item); simpl; lia.
Qed.

Lemma dedup_loop_result (items : list jsval) :
  forall seen seen' res res',
  dedup_loop (seen, res) items = Ok (seen', res') ->
  (forall z, In z res' -> In z res \/ In z items)
  /\ List.length res' <= List.length res + List.length items
  /\ List.length (hotItems res')
     <= List.length (hotItems res) + List.length (hotItems items).
Proof.
  induction items as [|item items IH]; intros seen seen' res res' H;
    cbn [dedup_loop] in H.
  - injection H as _ <-; split; [auto|]; simpl; lia.
  - destruct (dedup_step (seen, res) item) as [[seen1 res1]|] eqn:Hs;
      cbn [bind] in H; [|discriminate].
    apply dedup_step_result in Hs; destruct Hs as (S1 & S2 & S3).
    apply IH in H; destruct H as (L1 & L2 & L3).
    split; [|split].
    + intros z Hz; destruct (L1 z Hz) as [Hz1|Hz1]; [|right; right; exact Hz1].
      destruct (S1 z Hz1) as [->|Hz2]; [right; left; reflexivity | left; exact Hz2].
    + simpl; lia.
    + unfold hotItems at 3; simpl; fold (hotItems items).
      destruct (is_hot item); simpl; lia.
Qed.

(** [deduplicateItems] only selects: its result consists of items of its
    argument, is no longer, and has no more high-priority items. *)
Lemma deduplicateItems_selects (items res : list jsval) :
  deduplicateItems items = Ok res ->
  incl res items
  /\ List.length res <= List.length items
  /\ List.length (hotItems res) <= List.length (hotItems items).
Proof.
  unfold deduplicateItems.
  destruct (dedup_loop ([], []) items) as [[seen' res']|] eqn:H;
    cbn [bind]; [|discriminate].
  intros E; injection E as <-.
  apply dedup_loop_result in H; destruct H as (L1 & L2 & L3).
  split; [|split; [exact L2 | exact L3]].
  intros z Hz; destruct (L1 z Hz) as [[]|Hi]; exact Hi.
Qed.

Lemma map_get_split (k : jsstring) (m : jsmap) (v : jsval) :
  map_get k m = Some v ->
  exists m1 m2,
    m = m1 ++ (k, v) :: m2
    /\ (forall w, map_set k w m = m1 ++ (k, w) :: m2)
    /\ map_delete k m = m1 ++ m2.
Proof.
  induction m as [|[k' v'] m IH]; simpl; [discriminate|].
  destruct (str_eqb k k') eqn:E.
  - intros H; injection H as ->; apply str_eqb_eq in E; subst k'.
    exists [], m; simpl; auto.
  - intros H; destruct (IH H) as (m1 & m2 & -> & Hs & Hd).
    exists ((k', v') :: m1), m2; simpl.
    split; [reflexivity|]; split; [intros w; rewrite Hs; reflexivity|].
    rewrite Hd; reflexivity.
Qed.

Lemma map_get_none (k : jsstring) (m : jsmap) :
  map_get k m = None ->
  ~ In k (List.map fst m) /\ forall w, map_set k w m = m ++ [(k, w)].
Proof.
  induction m as [|[k' v'] m IH]; simpl; [auto|].
  destruct (str_eqb k k') eqn:E; [discriminate|].
  intros H; destruct (IH H) as (Hn & Hs); split.
  - intros [->|Hin]; [rewrite str_eqb_refl in E; discriminate | auto].
  - intros w; rewrite Hs; reflexivity.
Qed.

Lemma map_get_in (k : jsstring) (m : jsmap) (v : jsval) :
  NoDup (List.map fst m) -> In (k, v) m -> map_get k m = Some v.
Proof.
  induction m as [|[k' v'] m IH]; simpl; [tauto|].
  intros Hnd [H|H]; inversion Hnd as [|? ? Hni Hnd']; subst.
  - injection H as -> ->; rewrite str_eqb_refl; reflexivity.
  - destruct (str_eqb k k') eqn:E; [|auto].
    apply str_eqb_eq in E; subst k'.
    exfalso; apply Hni; apply (in_map fst) in H; exact H.
Qed.

Lemma jsval_eqb_eq : forall a b, jsval_eqb a b = true -> a = b.
Proof.
  fix IH 1; intros a b; destruct a, b; simpl; try discriminate; intros H.
  - reflexivity.
  - reflexivity.
  - apply eqb_prop in H; subst; reflexivity.
  - apply andb_true_iff in H; destruct H as [H1 H2].
    apply Z.eqb_eq in H1, H2; subst; reflexivity.
  - apply str_eqb_eq in H; subst; reflexivity.
  - f_equal; revert l0 H.
    induction l as [|x l IHl]; intros [|y l0] H; try discriminate;
      [reflexivity|].
    apply andb_true_iff in H; destruct H as [H1 H2].
    f_equal; [apply IH, H1 | apply IHl, H2].
  - f_equal; revert fields0 H.
    induction fields as [|[k x] f IHf]; intros [|[k' y] f0] H;
      try discriminate; [reflexivity|].
    apply andb_true_iff in H; destruct H as [H H3].
    apply andb_true_iff in H; destruct H as [H1 H2].
    apply str_eqb_eq in H1; subst k'.
    f_equal; [f_equal; apply IH, H2 | apply IHf, H3].
Qed.

Lemma jsval_eqb_refl : forall a, jsval_eqb a a = true.
Proof.
  fix IH 1; intros a; destruct a; simpl; try reflexivity.
  - apply eqb_reflx.
  - rewrite !Z.eqb_refl; reflexivity.
  - apply str_eqb_refl.
  - induction l as [|x l IHl]; [reflexivity|]; rewrite IH, IHl; reflexivity.
  - induction fields as [|[k x] f IHf]; [reflexivity|].
    rewrite str_eqb_refl, IH, IHf; reflexivity.
Qed.

(** On an array without repetition [indexOf] followed by the assignment
    replaces the one entry that is the item looked for. *)
Lemma replace_item_split (old item : jsval) (l1 l2 : list jsval) :
  ~ In old l1 ->
  replace_item old item (l1 ++ old :: l2) = l1 ++ item :: l2.
Proof.
  intros Hn; unfold replace_item.
  assert (G : index_of old (l1 ++ old :: l2) = Some (List.length l1)).
  { induction l1 as [|y l1 IHl]; simpl.
    - rewrite jsval_eqb_refl; reflexivity.
    - destruct (jsval_eqb y old) eqn:E.
      + apply jsval_eqb_eq in E; subst y; exfalso; apply Hn; left; reflexivity.
      + rewrite IHl; [reflexivity | intros Hin; apply Hn; right; exact Hin]. }
  rewrite G; clear G Hn.
  induction l1 as [|y l1 IHl]; simpl; [reflexivity | rewrite IHl; reflexivity].
Qed.

Lemma find_similar_in (item : jsval) (m : jsmap) (k : jsstring) (v : jsval) :
  find_similar item m = Ok (Some (k, v)) -> In (k, v) m.
Proof.
  induction m as [|[k' v'] m IH]; cbn [find_similar]; [discriminate|].
  destruct (get item (js "title")) as [t|]; cbn [bind]; [|discriminate].
  destruct (get v' (js "title")) as [t'|]; cbn [bind]; [|discriminate].
  destruct (titlesAreSimilar t t') as [[|]|]; cbn [bind]; [| |discriminate].
  - intros H; injection H as -> ->; left; reflexivity.
  - intros H; right; apply IH, H.
Qed.

(** The items of [seen] are pairwise different: each determines its key. *)
Lemma dedup_inv_values (seen : jsmap) (res : list jsval) :
  dedup_inv (seen, res) -> NoDup (List.map snd seen) /\ NoDup res.
Proof.
  intros (Hk & Hkey & Hp); cbn [fst snd] in *.
  assert (Hv : NoDup (List.map snd seen)).
  { clear Hp; induction seen as [|[k v] m IH]; simpl; [constructor|].
    inversion Hk as [|? ? Hni Hk']; subst.
    constructor.
    - intros Hin; apply in_map_iff in Hin; destruct Hin as ([k' v'] & E & Hin).
      simpl in E; subst v'.
      assert (E1 : item_key v = Ok k) by (apply Hkey; left; reflexivity).
      assert (E2 : item_key v = Ok k') by (apply Hkey; right; exact Hin).
      rewrite E1 in E2; injection E2 as <-.
      apply Hni; apply (in_map fst) in Hin; exact Hin.
    - apply IH; [exact Hk' | intros k' v' Hin; apply Hkey; right; exact Hin]. }
  split; [exact Hv | apply (Permutation_NoDup Hp Hv)].
Qed.

(** Replacing the entry of [old] in [seen] and in [result] at once. *)
Lemma dedup_replace (seen m1 m2 : jsmap) (res : list jsval) (k : jsstring)
    (old item : jsval) :
  dedup_inv (seen, res) -> seen = m1 ++ (k, old) :: m2 ->
  exists l1 l2,
    replace_item old item res = l1 ++ item :: l2
    /\ Permutation (List.map snd (m1 ++ m2)) (l1 ++ l2).
Proof.
  intros Hinv ->.
  destruct (dedup_inv_values _ _ Hinv) as (_ & Hnd).
  destruct Hinv as (_ & _ & Hp); cbn [fst snd] in Hp.
  rewrite map_app in Hp; simpl in Hp.
  assert (Hin : In old res).
  { apply (Permutation_in _ Hp), in_or_app; right; left; reflexivity. }
  apply in_split in Hin; destruct Hin as (l1 & l2 & ->).
  exists l1, l2; split.
  - apply replace_item_split.
    apply NoDup_remove_2 in Hnd; intros Hin; apply Hnd, in_or_app; left; exact Hin.
  - rewrite map_app; apply (Permutation_app_inv _ _ _ _ old), Hp.
Qed.

Lemma dedup_step_inv (st st' : jsmap * list jsval) (item : jsval) :
  dedup_inv st -> dedup_step st item = Ok st' -> dedup_inv st'.
Proof.
  destruct st as [seen res]; intros Hinv; unfold dedup_step.
  destruct (item_key item) as [normUrl|] eqn:Hkey; cbn [bind]; [|discriminate].
  pose proof Hinv as (Hk & Hkeys & Hp); cbn [fst snd] in Hk, Hkeys, Hp.
  destruct (map_get normUrl seen) as [existing|] eqn:Hg.
  - destruct (is_hot item && negb (is_hot existing));
      [|intros H; injection H as <-; exact Hinv].
    intros H; injection H as <-.
    destruct (map_get_split _ _ _ Hg) as (m1 & m2 & E & Hs & _).
    destruct (dedup_replace seen m1 m2 res normUrl existing item Hinv E)
      as (l1 & l2 & -> & Hp').
    rewrite Hs; unfold dedup_inv; cbn [fst snd].
    split; [|split].
    + rewrite E in Hk; rewrite map_app in Hk |- *; exact Hk.
    + intros k v Hin; apply in_app_or in Hin.
      destruct Hin as [Hin|[Hin|Hin]].
      * apply Hkeys; rewrite E; apply in_or_app; left; exact Hin.
      * injection Hin as <- <-; exact Hkey.
      * apply Hkeys; rewrite E; apply in_or_app; right; right; exact Hin.
    + rewrite map_app in Hp' |- *; simpl.
      apply Permutation_elt; rewrite <- map_app; rewrite map_app; exact Hp'.
  - destruct (map_get_none _ _ Hg) as (Hni & Hset).
    destruct (find_similar item seen) as [[[existUrl existItem]|]|] eqn:Hf;
      cbn [bind]; [| |discriminate].
    + destruct (is_hot item && negb (is_hot existItem));
        [|intros H; injection H as <-; exact Hinv].
      intros H; injection H as <-.
      apply find_similar_in in Hf.
      pose proof (map_get_in _ _ _ Hk Hf) as Hg'.
      destruct (map_get_split _ _ _ Hg') as (m1 & m2 & E & _ & Hd).
      destruct (dedup_replace seen m1 m2 res existUrl existItem item Hinv E)
        as (l1 & l2 & -> & Hp').
      rewrite Hd.
      assert (Hni' : ~ In normUrl (List.map fst (m1 ++ m2))).
      { intros Hin; apply Hni; rewrite E; rewrite map_app in Hin |- *.
        apply in_app_or in Hin; apply in_or_app.
        destruct Hin as [Hin|Hin]; [left; exact Hin | right; right; exact Hin]. }
      assert (Hg2 : map_get normUrl (m1 ++ m2) = None).
      { destruct (map_get normUrl (m1 ++ m2)) as [w|] eqn:G; [|reflexivity].
        destruct (map_get_split _ _ _ G) as (a & b & Eab & _).
        exfalso; apply Hni'; rewrite Eab, map_app; simpl.
        apply in_or_app; right; left; reflexivity. }
      destruct (map_get_none _ _ Hg2) as (_ & Hset2); rewrite Hset2.
      unfold dedup_inv; cbn [fst snd]; split; [|split].
      * rewrite map_app; simpl.
        apply NoDup_app; [|repeat constructor; simpl; tauto|].
        -- rewrite E, map_app in Hk; simpl in Hk.
           apply NoDup_remove_1 in Hk; rewrite map_app; exact Hk.
        -- intros a Ha [<-|[]]; exact (Hni' Ha).
      * intros k v Hin; apply in_app_or in Hin; destruct Hin as [Hin|[Hin|[]]].
        -- apply Hkeys; rewrite E; apply in_app_or in Hin; apply in_or_app.
           destruct Hin; [left | right; right]; assumption.
        -- injection Hin as <- <-; exact Hkey.
      * rewrite map_app; simpl.
        apply Permutation_trans with (item :: l1 ++ l2);
          [|apply Permutation_middle].
        apply Permutation_trans with (item :: List.map snd (m1 ++ m2));
          [apply Permutation_sym, Permutation_cons_append|].
        apply perm_skip, Hp'.
    + intros H; injection H as <-; rewrite Hset.
      unfold dedup_inv; cbn [fst snd]; split; [|split].
      * rewrite map_app; simpl.
        apply NoDup_app; [exact Hk | repeat constructor; simpl; tauto|].
        intros a Ha [<-|[]]; exact (Hni Ha).
      * intros k v Hin; apply in_app_or in Hin; destruct Hin as [Hin|[Hin|[]]];
          [apply Hkeys, Hin | injection Hin as <- <-; exact Hkey].
      * rewrite map_app; simpl; apply Permutation_app_tail, Hp.
Qed.

Lemma dedup_loop_inv (items : list jsval) :
  forall st st',
  dedup_inv st -> dedup_loop st items = Ok st' -> dedup_inv st'.
Proof.
  induction items as [|item items IH]; intros st st' Hinv H;
    cbn [dedup_loop] in H.
  - injection H as <-; exact Hinv.
  - destruct (dedup_step st item) as [st1|] eqn:Hs; cbn [bind] in H;
      [|discriminate].
    apply (IH st1 st' (dedup_step_inv _ _ _ Hinv Hs) H).
Qed.

(** The part of C8 on URLs: the result of [deduplicateItems] has no entry
    twice, every entry has a normalised URL, and no two different entries
    have the same one. *)
Lemma deduplicateItems_distinct_urls (items res : list jsval) :
  deduplicateItems items = Ok res ->
  NoDup res
  /\ (forall x, In x res -> exists k, item_key x = Ok k)
  /\ forall x y, In x res -> In y res -> item_key x = item_key y -> x = y.
Proof.
  unfold deduplicateItems.
  destruct (dedup_loop ([], []) items) as [[seen res']|] eqn:H; cbn [bind];
    [|discriminate].
  intros E; injection E as <-.
  assert (Hinv : dedup_inv (seen, res')).
  { apply (dedup_loop_inv items ([], []) (seen, res')); [|exact H].
    repeat split; simpl; try constructor; intros k v []. }
  destruct (dedup_inv_values _ _ Hinv) as (_ & Hnd).
  destruct Hinv as (Hk & Hkeys & Hp); cbn [fst snd] in Hk, Hkeys, Hp.
  assert (Hfind : forall x, In x res' -> exists k, In (k, x) seen).
  { intros x Hx; apply (Permutation_in _ (Permutation_sym Hp)) in Hx.
    apply in_map_iff in Hx; destruct Hx as ([k v] & E & Hin); simpl in E.
    subst v; exists k; exact Hin. }
  split; [exact Hnd|]; split.
  - intros x Hx; destruct (Hfind x Hx) as (k & Hin); exists k; apply Hkeys, Hin.
  - intros x y Hx Hy E.
    destruct (Hfind x Hx) as (k & Hin); destruct (Hfind y Hy) as (k' & Hin').
    pose proof (Hkeys _ _ Hin) as E1; pose proof (Hkeys _ _ Hin') as E2.
    rewrite E, E2 in E1; injection E1 as ->.
    pose proof (map_get_in _ _ _ Hk Hin) as G1.
    pose proof (map_get_in _ _ _ Hk Hin') as G2.
    congruence.
Qed.

(** ** The digest generator *)

Lemma filter_valid_spec (items : list jsval) :
  forall l, filter_valid items = Ok l ->
  forall i, In i l -> In i items /\ is_valid i = Ok true.
Proof.
  induction items as [|x items IH]; intros l H; simpl in H.
  - injection H as <-; intros i [].
  - destruct (is_valid x) as [b|] eqn:Hv; cbn [bind] in H; [|discriminate].
    destruct (filter_valid items) as [l0|]; cbn [bind] in H; [|discriminate].
    injection H as <-; intros i Hi.
    destruct b.
    + destruct Hi as [<-|Hi]; [split; [left; reflexivity | exact Hv]|].
      destruct (IH l0 eq_refl i Hi); split; [right|]; assumption.
    + destruct (IH l0 eq_refl i Hi); split; [right|]; assumption.
Qed.

Lemma first_valid_spec (candidates : list jsstring) (l : list jsval) :
  first_valid candidates = Some l ->
  exists c, In c candidates /\ valid_items_of c = Ok l /\ l <> [].
Proof.
  induction candidates as [|c rest IH]; simpl; [discriminate|].
  destruct (valid_items_of c) as [[|i l0]|] eqn:Hc.
  - intros H; destruct (IH H) as (c' & Hin & Hv); exists c'; auto.
  - intros H; injection H as <-; exists c; repeat split; auto; discriminate.
  - intros H; destruct (IH H) as (c' & Hin & Hv); exists c'; auto.
Qed.

(** The structured result of [generateDigest], unfolded. *)
Lemma generateDigest_structured (allItems : list jsval) (digestType : jsstring)
    (answer : jsval) (items : list jsval) :
  generateDigest allItems digestType answer = Ok (Structured items) ->
  digest_of_answer answer = Ok (Structured items)
  /\ exists text structuredItems,
       answer = VStr text
       /\ first_valid (jsonCandidates (baseCandidates (trim text)))
          = Some structuredItems
       /\ deduplicateItems structuredItems = Ok items.
Proof.
  unfold generateDigest; destruct (prompt_throws allItems); [discriminate|].
  intros H; split; [exact H|]; revert H.
  unfold digest_of_answer; destruct answer as [| | | |text| |];
    try discriminate.
  destruct (negb (nonempty (trim text))); [discriminate|].
  destruct (first_valid _) as [structuredItems|] eqn:Hf; [|discriminate].
  destruct (deduplicateItems structuredItems) as [items'|] eqn:Hd;
    cbn [bind]; [|discriminate].
  destruct (markdown_throws items'); [discriminate|].
  intros H; injection H as <-.
  exists text, structuredItems; split; [reflexivity|]; split;
    [exact Hf | exact Hd].
Qed.

(** C3, amended. The digest generator does not compare URLs with its input:
    every structured item it returns is one of the items of the parsed
    answer of the model, with truthy title, url and summary, and the same
    items are returned for any other fetched items a prompt can be built
    from; that URLs must come from the input is only said in the prompt. *)
Theorem generateDigest_items_from_answer (allItems : list jsval)
    (digestType : jsstring) (answer : jsval) (items : list jsval) :
  generateDigest allItems digestType answer = Ok (Structured items) ->
  (forall otherItems,
     prompt_throws otherItems = false ->
     generateDigest otherItems digestType answer = Ok (Structured items))
  /\ exists text candidate parsed,
       answer = VStr text
       /\ In candidate (jsonCandidates (baseCandidates (trim text)))
       /\ JSON_parse candidate = Ok parsed
       /\ forall i, In i items ->
            In i (match parsed with VArr l => l | v => [v] end)
            /\ is_valid i = Ok true.
Proof.
  intros H; apply generateDigest_structured in H.
  destruct H as (Ha & text & structuredItems & -> & Hf & Hd).
  split; [intros otherItems Hp; unfold generateDigest; rewrite Hp; exact Ha|].
  apply first_valid_spec in Hf; destruct Hf as (c & Hin & Hv & _).
  unfold valid_items_of in Hv.
  destruct (JSON_parse c) as [parsed|] eqn:Hp; cbn [bind] in Hv; [|discriminate].
  apply deduplicateItems_selects in Hd; destruct Hd as (Hincl & _).
  exists text, c, parsed; split; [reflexivity|]; split; [exact Hin|].
  split; [exact Hp|].
  intros i Hi; apply (filter_valid_spec _ _ Hv i (Hincl i Hi)).
Qed.

(** C4, amended. The digest generator applies no cap of its own: the
    high-priority items of its result are at most as many as the
    high-priority items among the valid items parsed from the answer of the
    model (deduplication only removes items), and the result is no longer
    than that list; the bound of 4 is only asked for in the prompt. *)
Theorem generateDigest_hot_not_capped (allItems : list jsval)
    (digestType : jsstring) (answer : jsval) (items : list jsval) :
  generateDigest allItems digestType answer = Ok (Structured items) ->
  exists text structuredItems,
    answer = VStr text
    /\ first_valid (jsonCandidates (baseCandidates (trim text)))
       = Some structuredItems
    /\ List.length (hotItems items) <= List.length (hotItems structuredItems)
    /\ List.length items <= List.length structuredItems.
Proof.
  intros H; apply generateDigest_structured in H.
  destruct H as (_ & text & structuredItems & -> & Hf & Hd).
  apply deduplicateItems_selects in Hd; destruct Hd as (_ & Hl & Hh).
  exists text, structuredItems; auto.
Qed.

(** ** The staleness filter of the pre-dedup loop *)

Lemma prededup_step_stale (now : Z) (mh : option Z) (db : pushdb)
    (hist : history) (st : prededup) (item : jsval) :
  isStale now mh item = true ->
  prededup_step now mh db hist st item
  = Ok (PreDedup (seenUrls st) (dedupedItems st) (historySkipped st)
                 (S (staleSkipped st))).
Proof.
  unfold isStale, prededup_step.
  destruct (get item (js "pubDate")) as [d|]; cbn [bind]; [|discriminate].
  intros ->; reflexivity.
Qed.

Lemma prededup_step_fresh (now : Z) (mh : option Z) (db : pushdb)
    (hist : history) (st st' : prededup) (item : jsval) :
  isStale now mh item = false ->
  prededup_step now mh db hist st item = Ok st' ->
  staleSkipped st' = staleSkipped st
  /\ (forall x, In x (dedupedItems st') -> In x (dedupedItems st) \/ x = item)
  /\ forall n,
       prededup_step now mh db hist
         (PreDedup (seenUrls st) (dedupedItems st) (historySkipped st) n) item
       = Ok (PreDedup (seenUrls st') (dedupedItems st') (historySkipped st') n).
Proof.
  unfold isStale, prededup_step.
  destruct (get item (js "pubDate")) as [d|]; cbn [bind]; [|discriminate].
  intros ->.
  destruct (get item (js "url")) as [url|]; cbn [bind]; [|discriminate].
  destruct (batchNormUrl url) as [normUrl|]; cbn [bind]; [|discriminate].
  cbn [seenUrls dedupedItems historySkipped staleSkipped].
  destruct (nonempty normUrl && set_has normUrl (seenUrls st)).
  - intros H; injection H as <-; destruct st; cbn; auto.
  - destruct (if db_truthy db then isItemPushedBefore hist item else Ok false)
      as [[|]|]; cbn [bind]; try discriminate;
      intros H; injection H as <-; cbn; (split; [reflexivity|]);
      (split; [|reflexivity]); intros x Hx; auto.
    apply in_app_or in Hx; destruct Hx as [Hx|[<-|[]]]; auto.
Qed.

Lemma prededup_loop_stale (now : Z) (mh : option Z) (db : pushdb)
    (hist : history) (items : list jsval) :
  forall st st',
  prededup_loop now mh db hist st items = Ok st' ->
  staleSkipped st'
  = staleSkipped st + List.length (filter (isStale now mh) items)
  /\ (forall x, In x (dedupedItems st') ->
        In x (dedupedItems st) \/ isStale now mh x = false)
  /\ forall n,
       prededup_loop now mh db hist
         (PreDedup (seenUrls st) (dedupedItems st) (historySkipped st) n)
         (filter (fun i => negb (isStale now mh i)) items)
       = Ok (PreDedup (seenUrls st') (dedupedItems st') (historySkipped st') n).
Proof.
  induction items as [|item items IH]; intros st st' H;
    cbn [prededup_loop] in H.
  - injection H as <-; cbn; split; [lia|]; split; [auto | reflexivity].
  - destruct (prededup_step now mh db hist st item) as [st1|] eqn:Hs;
      cbn [bind] in H; [|discriminate].
    apply IH in H; destruct H as (C & D & L).
    cbn [filter]; destruct (isStale now mh item) eqn:Hi; cbn [negb].
    + rewrite (prededup_step_stale now mh db hist st item Hi) in Hs.
      injection Hs as <-; cbn in C, D, L |- *.
      split; [lia|]; split; [exact D | exact L].
    + destruct (prededup_step_fresh now mh db hist st st1 item Hi Hs)
        as (C1 & D1 & L1).
      split; [cbn; lia|]; split.
      * intros x Hx; destruct (D x Hx) as [Hx1|Hx1]; [|auto].
        destruct (D1 x Hx1) as [Hx2| ->]; auto.
      * intros n; cbn [prededup_loop]; rewrite (L1 n); cbn [bind]; apply L.
Qed.

Lemma set_has_add (x y : jsstring) (s : jsset) :
  set_has x s = true -> set_has x (set_add y s) = true.
Proof.
  intros H; apply set_has_In, set_add_In; right; apply set_has_In, H.
Qed.

Lemma prededup_step_grows (now : Z) (mh : option Z) (db : pushdb)
    (hist : history) (st st' : prededup) (item : jsval) :
  prededup_step now mh db hist st item = Ok st' ->
  (forall x, In x (dedupedItems st) -> In x (dedupedItems st'))
  /\ (forall n, set_has n (seenUrls st) = true -> set_has n (seenUrls st') = true)
  /\ (isStale now mh item = false ->
      In item (dedupedItems st') \/ removed_by_dedup db hist st' item).
Proof.
  unfold prededup_step, isStale, removed_by_dedup.
  destruct (get item (js "pubDate")) as [d|]; cbn [bind]; [|discriminate].
  destruct (truthy d && too_old now mh d).
  { intros H; injection H as <-; cbn [dedupedItems seenUrls].
    split; [auto|]; split; [auto|]; intros Hf; discriminate Hf. }
  destruct (get item (js "url")) as [url|]; cbn [bind]; [|discriminate].
  destruct (batchNormUrl url) as [n|] eqn:Hn; cbn [bind]; [|discriminate].
  destruct (nonempty n && set_has n (seenUrls st)) eqn:Hd.
  { intros H; injection H as <-; split; [auto|]; split; [auto|].
    intros _; right; left; apply andb_true_iff in Hd; destruct Hd as [Hne Hin].
    exists url, n; split; [reflexivity|]; split; [exact Hn|].
    split; [exact Hne | exact Hin]. }
  assert (Hseen : forall m, set_has m (seenUrls st) = true ->
            set_has m (if nonempty n then set_add n (seenUrls st)
                       else seenUrls st) = true).
  { intros m Hm; destruct (nonempty n); [apply set_has_add, Hm | exact Hm]. }
  destruct (db_truthy db) eqn:Hdb.
  - destruct (isItemPushedBefore hist item) as [[|]|] eqn:Hp; cbn [bind];
      [| |discriminate]; intros H; injection H as <-; cbn.
    + split; [auto|]; split; [exact Hseen|]; intros _; right; right; auto.
    + split; [intros x Hx; apply in_or_app; left; exact Hx|].
      split; [exact Hseen|].
      intros _; left; apply in_or_app; right; left; reflexivity.
  - cbn [bind]; intros H; injection H as <-; cbn.
    split; [intros x Hx; apply in_or_app; left; exact Hx|].
    split; [exact Hseen|].
    intros _; left; apply in_or_app; right; left; reflexivity.
Qed.

Lemma prededup_loop_keeps (now : Z) (mh : option Z) (db : pushdb)
    (hist : history) (items : list jsval) :
  forall st st',
  prededup_loop now mh db hist st items = Ok st' ->
  (forall x, In x (dedupedItems st) -> In x (dedupedItems st'))
  /\ (forall n, set_has n (seenUrls st) = true -> set_has n (seenUrls st') = true)
  /\ forall item, In item items -> isStale now mh item = false ->
       In item (dedupedItems st') \/ removed_by_dedup db hist st' item.
Proof.
  induction items as [|i items IH]; intros st st' H; cbn [prededup_loop] in H.
  - injection H as <-; repeat split; auto; intros item [].
  - destruct (prededup_step now mh db hist st i) as [st1|] eqn:Hs;
      cbn [bind] in H; [|discriminate].
    apply prededup_step_grows in Hs; destruct Hs as (G1 & G2 & G3).
    apply IH in H; destruct H as (L1 & L2 & L3).
    split; [intros x Hx; apply L1, G1, Hx|].
    split; [intros n Hn; apply L2, G2, Hn|].
    intros item [<-|Hin] Hf; [|apply L3; assumption].
    destruct (G3 Hf) as [Hk|[(url & n & Hu & Hn & Hne & Hs)|Hp]].
    + left; apply L1, Hk.
    + right; left; exists url, n; repeat split; auto.
    + right; right; exact Hp.
Qed.
(** The loop on a list in two parts. *)
Lemma prededup_loop_app (now : Z) (mh : option Z) (db : pushdb)
    (hist : history) (a b : list jsval) :
  forall st st',
  prededup_loop now mh db hist st (a ++ b) = Ok st' ->
  exists st1, prededup_loop now mh db hist st a = Ok st1
              /\ prededup_loop now mh db hist st1 b = Ok st'.
Proof.
  induction a as [|x a IH]; intros st st' H; cbn [app prededup_loop] in H |- *.
  - exists st; auto.
  - destruct (prededup_step now mh db hist st x) as [st0|]; cbn [bind] in H |- *;
      [|discriminate].
    apply IH, H.
Qed.

(** The loop only appends to the survivors. *)
Lemma prededup_loop_extends (now : Z) (mh : option Z) (db : pushdb)
    (hist : history) (items : list jsval) :
  forall st st',
  prededup_loop now mh db hist st items = Ok st' ->
  exists later, dedupedItems st' = dedupedItems st ++ later.
Proof.
  induction items as [|x items IH]; intros st st' H; cbn [prededup_loop] in H.
  - injection H as <-; exists []; rewrite app_nil_r; reflexivity.
  - destruct (prededup_step now mh db hist st x) as [st1|] eqn:Hs;
      cbn [bind] in H; [|discriminate].
    destruct (IH _ _ H) as (later & E).
    assert (E1 : exists k, dedupedItems st1 = dedupedItems st ++ k).
    { revert Hs; unfold prededup_step.
      destruct (get x (js "pubDate")) as [d|]; cbn [bind]; [|discriminate].
      destruct (truthy d && too_old now mh d).
      { intros Hs; injection Hs as <-; exists []; cbn; rewrite app_nil_r;
          reflexivity. }
      destruct (get x (js "url")) as [url|]; cbn [bind]; [|discriminate].
      destruct (batchNormUrl url) as [n|]; cbn [bind]; [|discriminate].
      destruct (nonempty n && set_has n (seenUrls st)).
      { intros Hs; injection Hs as <-; exists []; rewrite app_nil_r;
          reflexivity. }
      destruct (if db_truthy db then isItemPushedBefore hist x else Ok false)
        as [[|]|]; cbn [bind]; [| |discriminate];
        intros Hs; injection Hs as <-; cbn.
      - exists []; rewrite app_nil_r; reflexivity.
      - exists [x]; reflexivity. }
    destruct E1 as (k & E1); exists (k ++ later).
    rewrite E, E1, <- app_assoc; reflexivity.
Qed.

(** One turn of the loop on an item that is not stale: the item is skipped
    when the batch or the history dedup removes it, on the state the loop
    is in when it reaches the item, and appended to the survivors
    otherwise. *)
Lemma prededup_step_keeps (now : Z) (mh : option Z) (db : pushdb)
    (hist : history) (st st' : prededup) (item : jsval) :
  prededup_step now mh db hist st item = Ok st' ->
  isStale now mh item = false ->
  (removed_by_dedup db hist st item /\ dedupedItems st' = dedupedItems st)
  \/ (~ removed_by_dedup db hist st item
      /\ dedupedItems st' = dedupedItems st ++ [item]).
Proof.
  unfold prededup_step, isStale, removed_by_dedup.
  destruct (get item (js "pubDate")) as [d|]; cbn [bind]; [|discriminate].
  intros H Hf; rewrite Hf in H; revert H.
  destruct (get item (js "url")) as [url|]; cbn [bind]; [|discriminate].
  destruct (batchNormUrl url) as [n|] eqn:Hn; cbn [bind]; [|discriminate].
  destruct (nonempty n && set_has n (seenUrls st)) eqn:Hd.
  { intros H; injection H as <-; left; split; [|reflexivity].
    apply andb_true_iff in Hd; destruct Hd as [Hne Hin].
    left; exists url, n; auto. }
  assert (Hbatch : ~ (exists url0 n0,
                        Ok url = Ok url0 /\ batchNormUrl url0 = Ok n0
                        /\ nonempty n0 = true
                        /\ set_has n0 (seenUrls st) = true)).
  { intros (url0 & n0 & Hu & Hn0 & Hne & Hin).
    injection Hu as <-; rewrite Hn in Hn0; injection Hn0 as <-.
    rewrite Hne, Hin in Hd; discriminate. }
  destruct (db_truthy db) eqn:Hdb.
  - destruct (isItemPushedBefore hist item) as [[|]|] eqn:Hp; cbn [bind];
      [| |discriminate]; intros H; injection H as <-; cbn.
    + left; split; [right; auto | reflexivity].
    + right; split; [|reflexivity].
      intros [Hb|[_ Hpush]]; [exact (Hbatch Hb) | discriminate].
  - cbn [bind]; intros H; injection H as <-; cbn.
    right; split; [|reflexivity].
    intros [Hb|[Hdb' _]]; [exact (Hbatch Hb) | discriminate].
Qed.

Lemma set_has_set_add (n x : jsstring) (s : jsset) :
  set_has n (set_add x s) = true <-> n = x \/ set_has n s = true.
Proof.
  rewrite !set_has_In; apply set_add_In.
Qed.

(** The URLs a turn of the loop has seen: those seen before, and the
    normalised URL of the item of the turn when the item is not stale and
    that URL is not empty. *)
Lemma prededup_step_seen (now : Z) (mh : option Z) (db : pushdb)
    (hist : history) (st st' : prededup) (item : jsval) :
  prededup_step now mh db hist st item = Ok st' ->
  forall n,
    set_has n (seenUrls st') = true
    <-> set_has n (seenUrls st) = true
        \/ (isStale now mh item = false
            /\ exists url, get item (js "url") = Ok url
                           /\ batchNormUrl url = Ok n /\ nonempty n = true).
Proof.
  unfold prededup_step, isStale.
  destruct (get item (js "pubDate")) as [d|]; cbn [bind]; [|discriminate].
  destruct (truthy d && too_old now mh d).
  { intros H; injection H as <-; cbn [seenUrls]; intros n; split; [auto|].
    intros [H|[H _]]; [exact H | discriminate]. }
  destruct (get item (js "url")) as [url|]; cbn [bind]; [|discriminate].
  destruct (batchNormUrl url) as [nu|] eqn:Hn; cbn [bind]; [|discriminate].
  assert (Hown : forall n, (exists url0, Ok url = Ok url0
                                         /\ batchNormUrl url0 = Ok n
                                         /\ nonempty n = true)
                           <-> n = nu /\ nonempty nu = true).
  { intros n; split.
    - intros (url0 & Hu & Hn0 & Hne); injection Hu as <-.
      rewrite Hn in Hn0; injection Hn0 as <-; auto.
    - intros [-> Hne]; exists url; auto. }
  destruct (nonempty nu && set_has nu (seenUrls st)) eqn:Hd.
  { intros H; injection H as <-; intros n; split; [auto|].
    intros [H|[_ H]]; [exact H|].
    apply Hown in H; destruct H as [-> _].
    apply andb_true_iff in Hd; apply Hd. }
  assert (Hseen : forall n,
            set_has n (if nonempty nu then set_add nu (seenUrls st)
                       else seenUrls st) = true
            <-> set_has n (seenUrls st) = true
                \/ (false = false
                    /\ exists url0, Ok url = Ok url0
                                    /\ batchNormUrl url0 = Ok n
                                    /\ nonempty n = true)).
  { intros n; destruct (nonempty nu) eqn:Hne.
    - rewrite set_has_set_add; split.
      + intros [->|H]; [right; split; [reflexivity|]; apply Hown; auto | auto].
      + intros [H|[_ H]]; [auto|]; apply Hown in H; left; apply H.
    - split; [auto|].
      intros [H|[_ H]]; [exact H|].
      apply Hown in H; destruct H as [_ H]; discriminate. }
  destruct (if db_truthy db then isItemPushedBefore hist item else Ok false)
    as [[|]|]; cbn [bind]; [| |discriminate];
    intros H; injection H as <-; cbn [seenUrls]; exact Hseen.
Qed.

Lemma prededup_loop_seen (now : Z) (mh : option Z) (db : pushdb)
    (hist : history) (items : list jsval) :
  forall st st',
  prededup_loop now mh db hist st items = Ok st' ->
  forall n,
    set_has n (seenUrls st') = true
    <-> set_has n (seenUrls st) = true
        \/ exists x url,
             In x items /\ isStale now mh x = false
             /\ get x (js "url") = Ok url /\ batchNormUrl url = Ok n
             /\ nonempty n = true.
Proof.
  induction items as [|x items IH]; intros st st' H n;
    cbn [prededup_loop] in H.
  - injection H as <-; split; [auto|].
    intros [H|(x & url & [] & _)]; exact H.
  - destruct (prededup_step now mh db hist st x) as [st1|] eqn:Hs;
      cbn [bind] in H; [|discriminate].
    rewrite (IH _ _ H n), (prededup_step_seen _ _ _ _ _ _ _ Hs n).
    split.
    + intros [[Hn|(Hf & url & Hu & Hb & Hne)]|(y & url & Hy & Hr)].
      * left; exact Hn.
      * right; exists x, url; split; [left; reflexivity | auto].
      * right; exists y, url; split; [right; exact Hy | exact Hr].
    + intros [Hn|(y & url & [<-|Hy] & Hf & Hu & Hb & Hne)].
      * left; left; exact Hn.
      * left; right; split; [exact Hf|]; exists url; auto.
      * right; exists y, url; auto.
Qed.

(** C6. Staleness filter of the pre-dedup loop.  An item whose date parses
    to a time more than the configured maximum age (72 hours by default)
    before the run is dropped: it is stale and not among the survivors; the
    date is any string, or any other truthy value (a date that is falsy
    counts as absent).  An item whose date is absent or does not parse is
    not stale, nor is one whose date is within the maximum age or any item
    when no maximum age is set; and an item that is not stale is kept: the
    loop, in the state it has reached on the items before it, appends it
    to the survivors, and there it stays, unless the batch or the history
    dedup of the same loop removes it, that is, unless its normalised URL is
    not empty and is the normalised URL of an earlier item that was not
    stale, or the item was pushed before.  The stale counter counts exactly
    the stale items, and the loop runs on the remaining items as if the
    stale ones had not been fetched. *)
Theorem staleness_filter (now : Z) (maxAgeHours : option Z) (pushDb : pushdb)
    (pushHistory : history) (allItems : list jsval) (st : prededup) :
  preDedup now maxAgeHours pushDb pushHistory allItems = Ok st ->
  (forall item pubDate pubTime h,
     In item allItems ->
     get item (js "pubDate") = Ok pubDate ->
     truthy pubDate = true \/ (exists s, pubDate = VStr s) ->
     Date_getTime pubDate = Some pubTime -> maxAgeHours = Some h ->
     (h * 3600 * 1000 < now - pubTime)%Z ->
     isStale now maxAgeHours item = true /\ ~ In item (dedupedItems st))
  /\ (forall item pubDate,
        get item (js "pubDate") = Ok pubDate ->
        truthy pubDate = false \/ Date_getTime pubDate = None
        \/ maxAgeHours = None
        \/ (exists pubTime h,
              Date_getTime pubDate = Some pubTime /\ maxAgeHours = Some h
              /\ (now - pubTime <= h * 3600 * 1000)%Z) ->
        isStale now maxAgeHours item = false)
  /\ (forall pre item post,
        allItems = pre ++ item :: post ->
        isStale now maxAgeHours item = false ->
        exists st0 kept later,
          preDedup now maxAgeHours pushDb pushHistory pre = Ok st0
          /\ dedupedItems st = dedupedItems st0 ++ kept ++ later
          /\ ((removed_by_dedup pushDb pushHistory st0 item /\ kept = [])
              \/ (~ removed_by_dedup pushDb pushHistory st0 item
                  /\ kept = [item]))
          /\ forall n,
               set_has n (seenUrls st0) = true
               <-> exists x url,
                     In x pre /\ isStale now maxAgeHours x = false
                     /\ get x (js "url") = Ok url /\ batchNormUrl url = Ok n
                     /\ nonempty n = true)
  /\ staleSkipped st = List.length (filter (isStale now maxAgeHours) allItems)
  /\ preDedup now maxAgeHours pushDb pushHistory
       (filter (fun i => negb (isStale now maxAgeHours i)) allItems)
     = Ok (PreDedup (seenUrls st) (dedupedItems st) (historySkipped st) 0)
  /\ MAX_ARTICLE_AGE_HOURS None None = Some 72%Z.
Proof.
  intros H; unfold preDedup in H |- *.
  pose proof H as H0.
  apply prededup_loop_stale in H; destruct H as (C & D & L).
  split; [|split; [|split; [|split; [exact C | split; [exact (L 0) |
    reflexivity]]]]].
  - intros item pubDate pubTime h Hin Hg Hty Hd -> Hlt.
    assert (Ht : truthy pubDate = true).
    { destruct Hty as [Ht|(s & ->)]; [exact Ht|].
      destruct s; [|reflexivity].
      rewrite Date_getTime_empty in Hd; discriminate. }
    assert (Hs : isStale now (Some h) item = true).
    { unfold isStale, too_old; rewrite Hg, Ht, Hd; cbn.
      apply Z.ltb_lt, Hlt. }
    split; [exact Hs|].
    intros Hx; destruct (D item Hx) as [[]|Hf]; congruence.
  - intros item pubDate Hg [Hf|[Hn|[Hm|(pubTime & h & Hd & Hm & Hle)]]];
      unfold isStale, too_old; rewrite Hg.
    + rewrite Hf; reflexivity.
    + rewrite Hn; apply andb_false_r.
    + rewrite Hm; destruct (Date_getTime pubDate); apply andb_false_r.
    + rewrite Hd, Hm.
      assert (E : Z.ltb (h * 3600 * 1000) (now - pubTime) = false)
        by (apply Z.ltb_ge; exact Hle).
      rewrite E; apply andb_false_r.
  - intros pre item post -> Hf.
    destruct (prededup_loop_app _ _ _ _ _ _ _ _ H0) as (st0 & Hpre & Hrest).
    cbn [prededup_loop] in Hrest.
    destruct (prededup_step now maxAgeHours pushDb pushHistory st0 item)
      as [st1|] eqn:Hs; cbn [bind] in Hrest; [|discriminate].
    destruct (prededup_loop_extends _ _ _ _ _ _ _ Hrest) as (later & El).
    exists st0.
    destruct (prededup_step_keeps _ _ _ _ _ _ _ Hs Hf) as [[Hr E1]|[Hr E1]].
    + exists [], later; split; [exact Hpre|]; split;
        [rewrite El, E1; reflexivity|]; split; [left; auto|].
      intros n; rewrite (prededup_loop_seen _ _ _ _ _ _ _ Hpre n); cbn.
      split; [intros [Hx|Hx]; [discriminate | exact Hx] | auto].
    + exists [item], later; split; [exact Hpre|]; split;
        [rewrite El, E1, <- app_assoc; reflexivity|]; split; [right; auto|].
      intros n; rewrite (prededup_loop_seen _ _ _ _ _ _ _ Hpre n); cbn.
      split; [intros [Hx|Hx]; [discriminate | exact Hx] | auto].
Qed.

(** ** The rescue path of the push step *)

(** A value one property of which can be read lets every property be
    read. *)
Lemma get_after_get (i : jsval) (k k' : jsstring) (v : jsval) :
  get i k = Ok v -> exists u, get i k' = Ok u.
Proof.
  destruct i; simpl; try discriminate; intros _; try (eexists; reflexivity).
  destruct (lookup_last k' fields); eexists; reflexivity.
Qed.

Lemma jsonCandidates_origin (l : list jsstring) (c : jsstring) :
  In c (jsonCandidates l) ->
  exists b, In b l /\ (c = b \/ c = fixLlmJsonQuotes b).
Proof.
  induction l as [|b l IH]; simpl; [intros []|].
  destruct (negb (str_eqb (fixLlmJsonQuotes b) b)); simpl.
  - intros [<-|[<-|H]]; [exists b; auto | exists b; auto |].
    destruct (IH H) as (b' & Hb & E); exists b'; auto.
  - intros [<-|H]; [exists b; auto|].
    destruct (IH H) as (b' & Hb & E); exists b'; auto.
Qed.

Lemma jsonCandidates_has (l : list jsstring) (b : jsstring) :
  In b l ->
  In b (jsonCandidates l) /\ In (fixLlmJsonQuotes b) (jsonCandidates l).
Proof.
  induction l as [|x l IH]; simpl; [intros []|].
  intros [->|H].
  - destruct (str_eqb (fixLlmJsonQuotes b) b) eqn:E; simpl.
    + apply str_eqb_eq in E; rewrite E; auto.
    + auto.
  - destruct (IH H) as [H1 H2].
    destruct (negb (str_eqb (fixLlmJsonQuotes x) x)); simpl; auto.
Qed.

Lemma first_valid_none (candidates : list jsstring) :
  first_valid candidates = None ->
  forall c l, In c candidates -> valid_items_of c = Ok l -> l = [].
Proof.
  induction candidates as [|x cs IH]; simpl; [intros _ c l []|].
  destruct (valid_items_of x) as [[|i l0]|e] eqn:E; try discriminate;
    intros H c l [<-|Hin] Hc; try (apply (IH H c l Hin Hc)); congruence.
Qed.

Lemma first_rescue_spec (candidates : list jsstring) (l : list jsval) :
  first_rescue candidates = Some l ->
  exists c, In c candidates /\ rescue_items_of c = Ok l /\ l <> [].
Proof.
  induction candidates as [|x cs IH]; simpl; [discriminate|].
  destruct (rescue_items_of x) as [[|i l0]|e] eqn:E; intros H;
    try (destruct (IH H) as (c & Hc & Hr & Hn); exists c; auto).
  injection H as <-; exists x; split; [auto|]; split; [exact E | discriminate].
Qed.

Lemma filter_rescuable_spec (items : list jsval) :
  forall l, filter_rescuable items = Ok l ->
  forall i, In i l -> In i items /\ is_rescuable i = Ok true.
Proof.
  induction items as [|x items IH]; intros l H; simpl in H.
  - injection H as <-; intros i [].
  - destruct (is_rescuable x) as [b|] eqn:Hb; cbn [bind] in H; [|discriminate].
    destruct (filter_rescuable items) as [l0|] eqn:Hl; cbn [bind] in H;
      [|discriminate].
    injection H as <-; intros i Hi.
    destruct b.
    + destruct Hi as [<-|Hi]; [split; [left; reflexivity | exact Hb]|].
      destruct (IH l0 eq_refl i Hi); split; [right|]; assumption.
    + destruct (IH l0 eq_refl i Hi); split; [right|]; assumption.
Qed.

(** An item that passes the test of the rescue reads its [url] without
    error; it passes the test of [generateDigest] exactly when that [url]
    is truthy. *)
Lemma is_rescuable_valid (i : jsval) :
  is_rescuable i = Ok true ->
  exists u, get i (js "url") = Ok u /\ is_valid i = Ok (truthy u).
Proof.
  unfold is_rescuable, is_valid.
  destruct (get i (js "title")) as [t|] eqn:Ht; cbn [bind]; [|discriminate].
  destruct (get i (js "summary")) as [m|] eqn:Hm; cbn [bind]; [|discriminate].
  intros H; injection H as H; apply andb_true_iff in H; destruct H as [H1 H2].
  destruct (get_after_get i _ (js "url") _ Ht) as (u & Hu).
  exists u; split; [exact Hu|].
  rewrite Hu; cbn [bind]; rewrite H1, H2, andb_true_r; reflexivity.
Qed.

Lemma is_rescuable_ok (i : jsval) (b : bool) :
  is_rescuable i = Ok b -> exists b', is_valid i = Ok b'.
Proof.
  unfold is_rescuable, is_valid.
  destruct (get i (js "title")) as [t|] eqn:Ht; cbn [bind]; [|discriminate].
  destruct (get i (js "summary")) as [m|] eqn:Hm; cbn [bind]; [|discriminate].
  intros _.
  destruct (get_after_get i _ (js "url") _ Ht) as (u & ->).
  cbn [bind]; eexists; reflexivity.
Qed.

Lemma filter_rescuable_valid (items : list jsval) :
  forall l, filter_rescuable items = Ok l ->
  exists l', filter_valid items = Ok l'
             /\ forall i, In i l' -> In i l.
Proof.
  induction items as [|x items IH]; intros l H; simpl in H |- *.
  - exists []; split; [reflexivity | intros i []].
  - destruct (is_rescuable x) as [b|] eqn:Hb; cbn [bind] in H; [|discriminate].
    destruct (filter_rescuable items) as [l0|] eqn:Hl; cbn [bind] in H;
      [|discriminate].
    injection H as <-.
    destruct (IH l0 eq_refl) as (l' & Hv & Hsub).
    destruct (is_rescuable_ok x b Hb) as (b' & Hb').
    rewrite Hb', Hv; cbn [bind]; eexists; split; [reflexivity|].
    destruct b'.
    + assert (b = true) as ->.
      { unfold is_rescuable, is_valid in Hb, Hb'.
        destruct (get x (js "title")) as [t|]; cbn [bind] in *; [|discriminate].
        destruct (get x (js "url")) as [u|]; cbn [bind] in *; [|discriminate].
        destruct (get x (js "summary")) as [m|]; cbn [bind] in *; [|discriminate].
        injection Hb as <-; injection Hb' as Hb'.
        destruct (truthy t), (truthy u), (truthy m); simpl in *; congruence. }
      intros i [<-|Hi]; [left; reflexivity | right; apply Hsub, Hi].
    + intros i Hi; destruct b; [right|]; apply Hsub, Hi.
Qed.

Lemma filter_valid_none (items : list jsval) :
  filter_valid items = Ok [] ->
  forall i, In i items -> is_valid i = Ok false.
Proof.
  induction items as [|x items IH]; simpl; [intros _ i []|].
  destruct (is_valid x) as [b|] eqn:Hb; cbn [bind]; [|discriminate].
  destruct (filter_valid items) as [l|] eqn:Hl; cbn [bind]; [|discriminate].
  destruct b; [discriminate|].
  intros H; injection H as ->; intros i [<-|Hi]; [exact Hb | exact (IH eq_refl i Hi)].
Qed.

(** The candidates of the rescue are candidates of [generateDigest] on the
    same trimmed text, apart from empty ones. *)
Lemma rescue_candidates_known (content c : jsstring) :
  In c (jsonCandidates
          [content;
           trim (replace_first false fence_close_re (RepLit [])
                   (replace_first true fence_open_re (RepLit []) content));
           trim (replace_first false after_bracket_re (RepLit [93%N])
                   (replace_first false before_bracket_re (RepLit [])
                      content))]) ->
  c = [] \/ In c (jsonCandidates (baseCandidates content)).
Proof.
  intros H; apply jsonCandidates_origin in H; destruct H as (b & Hb & E).
  destruct b as [|x b'].
  - left; destruct E as [->| ->]; reflexivity.
  - right.
    assert (Hin : In (x :: b') (baseCandidates content)).
    { unfold baseCandidates; apply filter_In; split; [|reflexivity].
      simpl in Hb |- *; intuition. }
    destruct (jsonCandidates_has _ _ Hin) as [H1 H2].
    destruct E as [->| ->]; assumption.
Qed.

(** After a fall-back to the raw text, whatever the rescue finds has no
    URL: a candidate with an item that has a title, a URL and a summary
    would have given a structured digest. *)
Lemma rescued_items_lack_url (allItems : list jsval) (digestType : jsstring)
    (answer : jsval) (content : jsstring) (items : list jsval) :
  generateDigest allItems digestType answer = Ok (RawText content) ->
  tryRescueJsonItems (VStr content) = Some items ->
  forall i, In i items ->
    is_rescuable i = Ok true
    /\ exists u, get i (js "url") = Ok u /\ truthy u = false.
Proof.
  unfold generateDigest, digest_of_answer.
  destruct (prompt_throws allItems); [discriminate|].
  destruct answer as [| | | |text| |]; try discriminate.
  destruct (negb (nonempty (trim text))) eqn:Hne; [discriminate|].
  destruct (first_valid (jsonCandidates (baseCandidates (trim text))))
    as [si|] eqn:Hfv.
  { destruct (deduplicateItems si); cbn [bind]; [|discriminate].
    destruct (markdown_throws a); discriminate. }
  intros H; injection H as <-.
  unfold tryRescueJsonItems.
  destruct (trim text) as [|c0 s0] eqn:Ht; [discriminate|].
  rewrite <- Ht, trim_idem.
  destruct (negb (starts_with (js "[") (trim text))
            && negb (starts_with (js "{") (trim text))); [discriminate|].
  intros Hr; apply first_rescue_spec in Hr.
  destruct Hr as (c & Hc & Hres & _).
  intros i Hi.
  unfold rescue_items_of in Hres.
  destruct (JSON_parse c) as [parsed|] eqn:Hp; cbn [bind] in Hres; [|discriminate].
  destruct (filter_rescuable_spec _ _ Hres i Hi) as [Hin Hok].
  split; [exact Hok|].
  destruct (rescue_candidates_known _ _ Hc) as [->|Hk]; [discriminate Hp|].
  rewrite Ht in Hk.
  destruct (filter_rescuable_valid _ _ Hres) as (l' & Hv & _).
  assert (Hnil : l' = []).
  { apply (first_valid_none _ Hfv c l' Hk).
    unfold valid_items_of; rewrite Hp; cbn [bind]; exact Hv. }
  subst l'.
  pose proof (filter_valid_none _ Hv i Hin) as Hinv.
  destruct (is_rescuable_valid i Hok) as (u & Hu & Hval).
  exists u; split; [exact Hu|].
  rewrite Hval in Hinv; injection Hinv as ->; reflexivity.
Qed.

(** X1. What [tryRescueJsonItems] returns is never empty and holds only
    items with a truthy title and a truthy summary (a URL is not asked
    for); it returns items only for a string that, trimmed, starts with an
    opening bracket or brace. *)
Theorem tryRescueJsonItems_sound (text : jsval) (items : list jsval) :
  tryRescueJsonItems text = Some items ->
  items <> []
  /\ (exists s, text = VStr s
                /\ (starts_with (js "[") (trim s) = true
                    \/ starts_with (js "{") (trim s) = true))
  /\ forall i, In i items ->
       exists t m, get i (js "title") = Ok t /\ get i (js "summary") = Ok m
                   /\ truthy t = true /\ truthy m = true.
Proof.
  unfold tryRescueJsonItems.
  destruct text as [| | | |[|c s]| |]; try discriminate.
  destruct (starts_with (js "[") (trim (c :: s))) eqn:H1;
    destruct (starts_with (js "{") (trim (c :: s))) eqn:H2;
    cbn [negb andb]; try discriminate;
    intros H; apply first_rescue_spec in H;
    destruct H as (cand & _ & Hres & Hne);
    (split; [exact Hne|]);
    (split; [exists (c :: s); split; [reflexivity | auto]|]);
    intros i Hi; unfold rescue_items_of in Hres;
    destruct (JSON_parse cand) as [parsed|]; cbn [bind] in Hres;
    try discriminate;
    destruct (filter_rescuable_spec _ _ Hres i Hi) as [_ Hok];
    unfold is_rescuable in Hok;
    destruct (get i (js "title")) as [t|]; cbn [bind] in Hok; try discriminate;
    destruct (get i (js "summary")) as [m|]; cbn [bind] in Hok; try discriminate;
    injection Hok as Hok; apply andb_true_iff in Hok; destruct Hok;
    exists t, m; auto.
Qed.

(** X2. The rescue finds only items without a URL: when [generateDigest]
    has fallen back to the raw text and [tryRescueJsonItems] then rescues
    items from that text, every rescued item has a falsy [url]. *)
Theorem rescue_after_fallback_has_no_url (allItems : list jsval)
    (digestType : jsstring) (answer : jsval) (content : jsstring)
    (items : list jsval) :
  generateDigest allItems digestType answer = Ok (RawText content) ->
  tryRescueJsonItems (VStr content) = Some items ->
  forall i, In i items ->
    exists u, get i (js "url") = Ok u /\ truthy u = false.
Proof.
  intros Hg Hr i Hi.
  destruct (rescued_items_lack_url _ _ _ _ _ Hg Hr i Hi) as [_ H]; exact H.
Qed.

(** Recording items without a URL into a table that holds a row for the
    hash of the empty string changes nothing. *)
Lemma record_all_urlless_present (dt : jsstring) (t : Z) (items : list jsval) :
  forall rows rows',
  (forall i, In i items -> exists u, get i (js "url") = Ok u /\ truthy u = false) ->
  existsb (fun r' => str_eqb (url_hash r') (hashStr [])) rows = true ->
  record_all dt t rows items = Ok rows' -> rows' = rows.
Proof.
  induction items as [|x items IH]; intros rows rows' Hall Hex H;
    cbn [record_all] in H.
  - injection H as <-; reflexivity.
  - destruct (record_one dt t rows x) as [rows1|] eqn:H1; cbn [bind] in H;
      [|discriminate].
    assert (rows1 = rows) as ->.
    { destruct (Hall x (or_introl eq_refl)) as (u & Hu & Hf).
      unfold record_one in H1; rewrite Hu in H1; cbn [bind] in H1.
      rewrite (normalizeUrlForHash_falsy u Hf) in H1; cbn [bind] in H1.
      destruct (get x (js "title")) as [title|]; cbn [bind] in H1; [|discriminate].
      destruct (titleHashOf title) as [th|]; cbn [bind] in H1; [|discriminate].
      destruct (as_string (or_empty title)) as [tt|]; cbn [bind] in H1; [|discriminate].
      destruct (bind_param (or_empty u)) as [bu|]; cbn [bind] in H1; [|discriminate].
      injection H1 as <-; unfold insert_or_ignore; cbn [url_hash].
      rewrite Hex; reflexivity. }
    apply (IH rows rows'); [intros i Hi; apply Hall; right; exact Hi | exact Hex | exact H].
Qed.

Lemma record_all_urlless (dt : jsstring) (t : Z) (items : list jsval) :
  forall rows rows',
  (forall i, In i items -> exists u, get i (js "url") = Ok u /\ truthy u = false) ->
  existsb (fun r' => str_eqb (url_hash r') (hashStr [])) rows = false ->
  record_all dt t rows items = Ok rows' ->
  items <> [] ->
  exists r, rows' = rows ++ [r] /\ url_hash r = hashStr [] /\ pushed_at r = t
            /\ digest_type r = dt.
Proof.
  intros rows rows' Hall Hex H Hne.
  destruct items as [|x items]; [congruence|].
  cbn [record_all] in H.
  destruct (record_one dt t rows x) as [rows1|] eqn:H1; cbn [bind] in H;
    [|discriminate].
  destruct (Hall x (or_introl eq_refl)) as (u & Hu & Hf).
  unfold record_one in H1; rewrite Hu in H1; cbn [bind] in H1.
  rewrite (normalizeUrlForHash_falsy u Hf) in H1; cbn [bind] in H1.
  destruct (get x (js "title")) as [title|]; cbn [bind] in H1; [|discriminate].
  destruct (titleHashOf title) as [th|]; cbn [bind] in H1; [|discriminate].
  destruct (as_string (or_empty title)) as [tt|]; cbn [bind] in H1; [|discriminate].
  destruct (bind_param (or_empty u)) as [bu|]; cbn [bind] in H1; [|discriminate].
  injection H1 as <-; unfold insert_or_ignore in H; cbn [url_hash] in H.
  rewrite Hex in H.
  set (r := Row (hashStr []) th tt bu dt t) in *.
  exists r; split; [|auto].
  apply (record_all_urlless_present dt t items (rows ++ [r]) rows');
    [intros i Hi; apply Hall; right; exact Hi | | exact H].
  rewrite existsb_app; cbn; rewrite str_eqb_refl, orb_true_r; reflexivity.
Qed.

(** X3. Pushing rescued items records at most one row: after a fall-back
    to the raw text, recording the rescued items adds one row, filed under
    the hash of the empty string, however many items were rescued and
    pushed; it adds none when the table holds such a row already. *)
Theorem rescued_push_records_one_row (allItems : list jsval)
    (digestType : jsstring) (answer : jsval) (content : jsstring)
    (items : list jsval) (rows : list row) (t : Z) (db' : pushdb) :
  generateDigest allItems digestType answer = Ok (RawText content) ->
  tryRescueJsonItems (VStr content) = Some items ->
  recordPushedItems (DbOpen rows) items digestType t = Ok db' ->
  if existsb (fun r' => str_eqb (url_hash r') (hashStr [])) rows
  then db' = DbOpen rows
  else exists r, db' = DbOpen (rows ++ [r]) /\ url_hash r = hashStr []
                 /\ pushed_at r = t /\ digest_type r = digestType.
Proof.
  intros Hg Hr Hrec.
  assert (Hall : forall i, In i items ->
            exists u, get i (js "url") = Ok u /\ truthy u = false).
  { intros i Hi; destruct (rescued_items_lack_url _ _ _ _ _ Hg Hr i Hi) as [_ H].
    exact H. }
  assert (Hne : items <> []).
  { unfold tryRescueJsonItems in Hr.
    destruct content as [|c s]; [discriminate|].
    destruct (_ && _); [discriminate|].
    apply first_rescue_spec in Hr; destruct Hr as (_ & _ & _ & Hne); exact Hne. }
  unfold recordPushedItems in Hrec.
  destruct (record_all digestType t rows items) as [rows'|] eqn:Hall';
    cbn [bind] in Hrec; [|discriminate].
  injection Hrec as <-.
  destruct (existsb _ rows) eqn:Hex.
  - f_equal; apply (record_all_urlless_present _ _ _ _ _ Hall Hex Hall').
  - destruct (record_all_urlless _ _ _ _ _ Hall Hex Hall' Hne)
      as (r & -> & H1 & H2 & H3).
    exists r; auto.
Qed.

(** ** More on the push history *)

(** The row an item is recorded as does not depend on the table. *)
Lemma record_one_row (dt : jsstring) (t : Z) (rows rows' : list row)
    (item : jsval) :
  record_one dt t rows item = Ok rows' ->
  exists uh th tt u,
    rows' = insert_or_ignore (Row uh th tt u dt t) rows
    /\ forall dt' t' rows2,
         record_one dt' t' rows2 item
         = Ok (insert_or_ignore (Row uh th tt u dt' t') rows2).
Proof.
  unfold record_one.
  destruct (get item (js "url")) as [url|]; cbn [bind]; [|discriminate].
  destruct (normalizeUrlForHash url) as [nu|]; cbn [bind]; [|discriminate].
  destruct (get item (js "title")) as [title|]; cbn [bind]; [|discriminate].
  destruct (titleHashOf title) as [th|]; cbn [bind]; [|discriminate].
  destruct (as_string (or_empty title)) as [tt|]; cbn [bind]; [|discriminate].
  destruct (bind_param (or_empty url)) as [u|]; cbn [bind]; [|discriminate].
  intros H; injection H as <-.
  exists (hashStr nu), th, tt, u; split; reflexivity.
Qed.

Lemma insert_or_ignore_present (r : row) (rows : list row) :
  existsb (fun r' => str_eqb (url_hash r') (url_hash r))
          (insert_or_ignore r rows) = true.
Proof.
  unfold insert_or_ignore.
  destruct (existsb _ rows) eqn:E; [exact E|].
  rewrite existsb_app; cbn; rewrite str_eqb_refl, orb_true_r; reflexivity.
Qed.

Lemma insert_or_ignore_app (r : row) (rows : list row) :
  exists added, insert_or_ignore r rows = rows ++ added
                /\ (added = [] \/ added = [r])
                /\ (added = [r] ->
                    existsb (fun r' => str_eqb (url_hash r') (url_hash r)) rows
                    = false).
Proof.
  unfold insert_or_ignore; destruct (existsb _ rows) eqn:E.
  - exists []; rewrite app_nil_r; split; [reflexivity|]; split; [auto|discriminate].
  - exists [r]; auto.
Qed.

Lemma existsb_hash_mono (h : jsstring) (rows added : list row) :
  existsb (fun r' => str_eqb (url_hash r') h) rows = true ->
  existsb (fun r' => str_eqb (url_hash r') h) (rows ++ added) = true.
Proof. intros H; rewrite existsb_app, H; reflexivity. Qed.

(** The table after a recording: the old rows, in place and unchanged,
    followed by the rows added. *)
Lemma record_all_appends (dt : jsstring) (t : Z) (items : list jsval) :
  forall rows rows',
  record_all dt t rows items = Ok rows' ->
  exists added,
    rows' = rows ++ added
    /\ List.length added <= List.length items
    /\ (forall r, In r added -> pushed_at r = t /\ digest_type r = dt)
    /\ (NoDup (List.map url_hash rows) -> NoDup (List.map url_hash rows'))
    /\ forall item, In item items ->
         exists uh th tt u,
           (forall dt' t' rows2,
              record_one dt' t' rows2 item
              = Ok (insert_or_ignore (Row uh th tt u dt' t') rows2))
           /\ existsb (fun r' => str_eqb (url_hash r') uh) rows' = true.
Proof.
  induction items as [|x items IH]; intros rows rows' H; cbn [record_all] in H.
  - injection H as <-; exists []; rewrite app_nil_r.
    split; [reflexivity|]; split; [simpl; lia|]; split; [intros r []|].
    split; [auto | intros item []].
  - destruct (record_one dt t rows x) as [rows1|] eqn:H1; cbn [bind] in H;
      [|discriminate].
    destruct (record_one_row _ _ _ _ _ H1) as (uh & th & tt & u & -> & Hgen).
    set (r := Row uh th tt u dt t) in *.
    destruct (insert_or_ignore_app r rows) as (a1 & Ea & Ha & Hfresh).
    destruct (IH _ _ H) as (a2 & -> & Hlen & Hnew & Hnd & Hitems).
    exists (a1 ++ a2); rewrite Ea, <- app_assoc.
    split; [reflexivity|]; split.
    { rewrite length_app; destruct Ha as [-> | ->]; simpl; lia. }
    split.
    { intros r0 Hr0; apply in_app_or in Hr0; destruct Hr0 as [Hr0|Hr0];
        [|apply Hnew, Hr0].
      destruct Ha as [-> | ->]; [destruct Hr0|].
      destruct Hr0 as [<-|[]]; split; reflexivity. }
    split.
    { intros Hn; rewrite app_assoc, <- Ea; apply Hnd.
      rewrite Ea; destruct Ha as [-> | ->]; [rewrite app_nil_r; exact Hn|].
      rewrite map_app; cbn [List.map].
      apply NoDup_app; [exact Hn | repeat constructor; simpl; tauto|].
      intros h Hh [<-|[]].
      pose proof (Hfresh eq_refl) as Hf.
      apply in_map_iff in Hh; destruct Hh as (r' & Hr' & Hin).
      assert (existsb (fun r' => str_eqb (url_hash r') (url_hash r)) rows = true)
        as Hc; [|congruence].
      apply existsb_exists; exists r'; split; [exact Hin|].
      apply str_eqb_eq; exact Hr'. }
    intros item [<-|Hin].
    + exists uh, th, tt, u; split; [exact Hgen|].
      rewrite app_assoc, <- Ea; apply existsb_hash_mono.
      apply (insert_or_ignore_present r rows).
    + destruct (Hitems item Hin) as (uh' & th' & tt' & u' & G & P).
      exists uh', th', tt', u'; split; [exact G|].
      rewrite app_assoc, <- Ea; exact P.
Qed.

Lemma record_all_again (dt : jsstring) (t : Z) (rows : list row)
    (items : list jsval) :
  (forall item, In item items ->
     exists uh th tt u,
       (forall dt' t' rows2,
          record_one dt' t' rows2 item
          = Ok (insert_or_ignore (Row uh th tt u dt' t') rows2))
       /\ existsb (fun r' => str_eqb (url_hash r') uh) rows = true) ->
  record_all dt t rows items = Ok rows.
Proof.
  induction items as [|x items IH]; intros H; cbn [record_all]; [reflexivity|].
  destruct (H x (or_introl eq_refl)) as (uh & th & tt & u & G & P).
  rewrite G; cbn [bind]; unfold insert_or_ignore; cbn [url_hash]; rewrite P.
  apply IH; intros item Hin; apply H; right; exact Hin.
Qed.

(** X4. Recording is idempotent: recording the same items a second time, at
    any later time and for any digest type, leaves the table exactly as the
    first recording left it. *)
Theorem recordPushedItems_idempotent (db db1 : pushdb) (items : list jsval)
    (digestType digestType' : jsstring) (t t' : Z) :
  recordPushedItems db items digestType t = Ok db1 ->
  recordPushedItems db1 items digestType' t' = Ok db1.
Proof.
  destruct db as [| |rows]; cbn [recordPushedItems]; try discriminate.
  destruct (record_all digestType t rows items) as [rows1|] eqn:H;
    cbn [bind]; [|discriminate].
  intros E; injection E as <-; cbn [recordPushedItems].
  destruct (record_all_appends _ _ _ _ _ H) as (added & _ & _ & _ & _ & Hitems).
  rewrite (record_all_again digestType' t' rows1 items Hitems); reflexivity.
Qed.

(** X5. Recording only appends: the rows the table held stay in place and
    unchanged, at most one row per item is added after them, every added
    row carries the time and the digest type of the call, and the URL
    hashes of the table stay pairwise different. *)
Theorem recordPushedItems_appends (rows : list row) (items : list jsval)
    (digestType : jsstring) (t : Z) (db' : pushdb) :
  recordPushedItems (DbOpen rows) items digestType t = Ok db' ->
  exists added,
    db' = DbOpen (rows ++ added)
    /\ List.length added <= List.length items
    /\ (forall r, In r added -> pushed_at r = t /\ digest_type r = digestType)
    /\ (NoDup (List.map url_hash rows) ->
        NoDup (List.map url_hash (rows ++ added))).
Proof.
  cbn [recordPushedItems].
  destruct (record_all digestType t rows items) as [rows1|] eqn:H;
    cbn [bind]; [|discriminate].
  intros E; injection E as <-.
  destruct (record_all_appends _ _ _ _ _ H) as (added & -> & Hl & Hn & Hd & _).
  exists added; auto.
Qed.

(** X6. Pruning never changes what the next load returns: after
    [cleanOldPushedItems] with a horizon of [days], a later load over a
    window of [hours] that is not longer than the horizon gives the same
    snapshot as without the pruning (the program prunes at 7 days and loads
    72 hours). *)
Theorem prune_keeps_window (db : pushdb) (days hours nowClean nowLoad : Z) :
  (hours * 3600 <= days * 86400)%Z -> (nowClean <= nowLoad)%Z ->
  loadPushedHistory (cleanOldPushedItems db days nowClean) hours nowLoad
  = loadPushedHistory db hours nowLoad.
Proof.
  intros Hw Ht; destruct db as [| |rows]; try reflexivity.
  unfold loadPushedHistory, cleanOldPushedItems, select_since; cbn [bind try_catch].
  do 2 f_equal.
  induction rows as [|r rows IH]; simpl; [reflexivity|].
  destruct (Z.ltb (pushed_at r) (nowClean - days * 86400)) eqn:E1; simpl.
  - apply Z.ltb_lt in E1.
    destruct (Z.leb (nowLoad - hours * 3600) (pushed_at r)) eqn:E2;
      [apply Z.leb_le in E2; lia | exact IH].
  - destruct (Z.leb (nowLoad - hours * 3600) (pushed_at r));
      [f_equal|]; exact IH.
Qed.

Lemma any_similar_nil (title : jsval) : any_similar title [] = Ok false.
Proof. reflexivity. Qed.

Lemma isItemPushedBefore_empty (item : jsval) (b : bool) :
  isItemPushedBefore empty_history item = Ok b -> b = false.
Proof.
  unfold isItemPushedBefore; cbn [urlHashes titleHashes titles empty_history].
  destruct (get item (js "url")) as [url|]; cbn [bind]; [|discriminate].
  destruct (normalizeUrlForHash url) as [nu|]; cbn [bind]; [|discriminate].
  cbn [set_has existsb].
  destruct (get item (js "title")) as [title|]; cbn [bind]; [|discriminate].
  destruct (titleHashOf title) as [th|]; cbn [bind]; [|discriminate].
  cbn [List.length Nat.ltb Nat.leb]; rewrite andb_false_r; congruence.
Qed.

Lemma prededup_loop_empty_history (now : Z) (mh : option Z) (db : pushdb)
    (items : list jsval) :
  forall st st',
  prededup_loop now mh db empty_history st items = Ok st' ->
  historySkipped st' = historySkipped st
  /\ prededup_loop now mh DbNull empty_history st items = Ok st'.
Proof.
  induction items as [|x items IH]; intros st st' H; cbn [prededup_loop] in H |- *.
  - injection H as <-; auto.
  - destruct (prededup_step now mh db empty_history st x) as [st1|] eqn:Hs;
      cbn [bind] in H; [|discriminate].
    assert (Hstep : historySkipped st1 = historySkipped st
                    /\ prededup_step now mh DbNull empty_history st x = Ok st1).
    { unfold prededup_step in Hs |- *.
      destruct (get x (js "pubDate")) as [d|]; cbn [bind] in *; [|discriminate].
      destruct (truthy d && too_old now mh d).
      { injection Hs as <-; auto. }
      destruct (get x (js "url")) as [url|]; cbn [bind] in *; [|discriminate].
      destruct (batchNormUrl url) as [n|]; cbn [bind] in *; [|discriminate].
      destruct (nonempty n && set_has n (seenUrls st)).
      { injection Hs as <-; auto. }
      cbn [db_truthy].
      destruct (db_truthy db).
      - destruct (isItemPushedBefore empty_history x) as [b|] eqn:Hb;
          cbn [bind] in *; [|discriminate].
        apply isItemPushedBefore_empty in Hb; subst b.
        injection Hs as <-; auto.
      - cbn [bind] in *; injection Hs as <-; auto. }
    destruct Hstep as [E1 E2]; rewrite E2; cbn [bind].
    destruct (IH _ _ H) as [E3 E4]; split; [congruence | exact E4].
Qed.

(** X7. Without a readable history nothing is held back as pushed before:
    on a handle whose reads fail, the history of [main] is empty, the
    pre-dedup loop counts no history skip, and it ends in the very state it
    reaches without a database. *)
Theorem unreadable_history_suppresses_nothing (now nowSec : Z)
    (maxAgeHours : option Z) (pushDb : pushdb) (allItems : list jsval)
    (pushHistory : history) (st : prededup) :
  (forall rows, select_since pushDb 72 nowSec <> Ok rows) ->
  mainHistory pushDb nowSec = Ok pushHistory ->
  preDedup now maxAgeHours pushDb pushHistory allItems = Ok st ->
  pushHistory = empty_history
  /\ historySkipped st = 0
  /\ preDedup now maxAgeHours DbNull empty_history allItems = Ok st.
Proof.
  intros Hsel Hh Hp.
  assert (E : pushHistory = empty_history).
  { unfold mainHistory, loadPushedHistory in Hh.
    destruct (db_truthy pushDb); [|congruence].
    destruct (select_since pushDb 72 nowSec) as [rows|] eqn:Hs;
      [destruct (Hsel rows eq_refl)|].
    cbn in Hh; congruence. }
  subst pushHistory; split; [reflexivity|].
  unfold preDedup in *; apply prededup_loop_empty_history in Hp.
  destruct Hp as [E1 E2]; split; [exact E1 | exact E2].
Qed.

(** ** More on the pre-dedup loop *)

Lemma subseq_refl {A : Type} (l : list A) : subseq l l.
Proof. induction l; constructor; assumption. Qed.

Lemma subseq_snoc_skip {A : Type} (x : A) (l l' : list A) :
  subseq l l' -> subseq l (l' ++ [x]).
Proof.
  induction 1; simpl; constructor; try assumption; constructor; constructor.
Qed.

Lemma subseq_snoc_keep {A : Type} (x : A) (l l' : list A) :
  subseq l l' -> subseq (l ++ [x]) (l' ++ [x]).
Proof.
  induction 1; simpl; constructor; try assumption; constructor.
Qed.

(** What one turn of the loop does to the state. *)
Lemma prededup_step_cases (now : Z) (mh : option Z) (db : pushdb)
    (hist : history) (st st' : prededup) (item : jsval) :
  prededup_step now mh db hist st item = Ok st' ->
  (dedupedItems st' = dedupedItems st
   /\ List.length (dedupedItems st') + historySkipped st' + staleSkipped st'
      <= S (List.length (dedupedItems st) + historySkipped st + staleSkipped st))
  \/ (dedupedItems st' = dedupedItems st ++ [item]
      /\ historySkipped st' = historySkipped st
      /\ staleSkipped st' = staleSkipped st).
Proof.
  unfold prededup_step.
  destruct (get item (js "pubDate")) as [d|]; cbn [bind]; [|discriminate].
  destruct (truthy d && too_old now mh d).
  { intros H; injection H as <-; left; cbn; split; [reflexivity | lia]. }
  destruct (get item (js "url")) as [url|]; cbn [bind]; [|discriminate].
  destruct (batchNormUrl url) as [n|]; cbn [bind]; [|discriminate].
  destruct (nonempty n && set_has n (seenUrls st)).
  { intros H; injection H as <-; left; split; [reflexivity | lia]. }
  destruct (if db_truthy db then isItemPushedBefore hist item else Ok false)
    as [[|]|]; cbn [bind]; [| |discriminate]; intros H; injection H as <-; cbn.
  - left; split; [reflexivity | lia].
  - right; auto.
Qed.

Lemma prededup_loop_shape (now : Z) (mh : option Z) (db : pushdb)
    (hist : history) (items : list jsval) :
  forall st st',
  prededup_loop now mh db hist st items = Ok st' ->
  (exists kept, dedupedItems st' = dedupedItems st ++ kept /\ subseq kept items)
  /\ List.length (dedupedItems st') + historySkipped st' + staleSkipped st'
     <= List.length (dedupedItems st) + historySkipped st + staleSkipped st
        + List.length items.
Proof.
  induction items as [|x items IH]; intros st st' H; cbn [prededup_loop] in H.
  - injection H as <-; split; [|simpl; lia].
    exists []; rewrite app_nil_r; split; [reflexivity | constructor].
  - destruct (prededup_step now mh db hist st x) as [st1|] eqn:Hs;
      cbn [bind] in H; [|discriminate].
    destruct (IH _ _ H) as ((kept & Ek & Hk) & Hc).
    destruct (prededup_step_cases _ _ _ _ _ _ _ Hs) as [[E1 C1]|(E1 & E2 & E3)].
    + split; [|simpl; lia].
      exists kept; split; [rewrite Ek, E1; reflexivity | constructor; exact Hk].
    + split.
      * exists (x :: kept); split; [|constructor; exact Hk].
        rewrite Ek, E1, <- app_assoc; reflexivity.
      * rewrite E1, length_app in Hc; simpl in Hc |- *; lia.
Qed.

(** X8. The survivors of the pre-dedup loop are fetched items in the order
    they were fetched, and the three counts never exceed the number of
    fetched items, so the number of batch duplicates that [main] derives by
    subtraction is never negative. *)
Theorem preDedup_keeps_order (now : Z) (maxAgeHours : option Z)
    (pushDb : pushdb) (pushHistory : history) (allItems : list jsval)
    (st : prededup) :
  preDedup now maxAgeHours pushDb pushHistory allItems = Ok st ->
  subseq (dedupedItems st) allItems
  /\ List.length (dedupedItems st) + historySkipped st + staleSkipped st
     <= List.length allItems.
Proof.
  unfold preDedup; intros H; apply prededup_loop_shape in H.
  destruct H as ((kept & Ek & Hk) & Hc); cbn in Ek, Hc.
  rewrite Ek in Hc |- *; split; [exact Hk | lia].
Qed.

(** The normalised URLs of the survivors, the empty ones left out, are the
    members of [seenUrls] that were not skipped for the history, each
    once. *)
Lemma prededup_loop_urls (now : Z) (mh : option Z) (db : pushdb)
    (hist : history) (items : list jsval) :
  forall st st' urls,
  prededup_loop now mh db hist st items = Ok st' ->
  NoDup (seenUrls st) ->
  Forall2 (fun item n => exists url, get item (js "url") = Ok url
                                     /\ batchNormUrl url = Ok n)
          (dedupedItems st) urls ->
  NoDup (filter nonempty urls) -> incl (filter nonempty urls) (seenUrls st) ->
  NoDup (seenUrls st')
  /\ exists urls',
       Forall2 (fun item n => exists url, get item (js "url") = Ok url
                                          /\ batchNormUrl url = Ok n)
               (dedupedItems st') urls'
       /\ NoDup (filter nonempty urls')
       /\ incl (filter nonempty urls') (seenUrls st').
Proof.
  induction items as [|x items IH]; intros st st' urls H Hnd Hf Hu Hi;
    cbn [prededup_loop] in H.
  - injection H as <-; split; [exact Hnd|]; exists urls; auto.
  - destruct (prededup_step now mh db hist st x) as [st1|] eqn:Hs;
      cbn [bind] in H; [|discriminate].
    unfold prededup_step in Hs.
    destruct (get x (js "pubDate")) as [d|]; cbn [bind] in Hs; [|discriminate].
    destruct (truthy d && too_old now mh d).
    { injection Hs as <-; apply (IH _ _ urls H); assumption. }
    destruct (get x (js "url")) as [url|] eqn:Gu; cbn [bind] in Hs; [|discriminate].
    destruct (batchNormUrl url) as [n|] eqn:Gn; cbn [bind] in Hs; [|discriminate].
    destruct (nonempty n && set_has n (seenUrls st)) eqn:Hdup.
    { injection Hs as <-; apply (IH _ _ urls H); assumption. }
    set (seen := if nonempty n then set_add n (seenUrls st) else seenUrls st) in *.
    assert (Hseen : NoDup seen).
    { unfold seen; destruct (nonempty n); [apply set_add_NoDup|]; exact Hnd. }
    assert (Hincl : incl (seenUrls st) seen).
    { unfold seen; destruct (nonempty n); [|apply incl_refl].
      intros y Hy; apply set_add_In; right; exact Hy. }
    destruct (if db_truthy db then isItemPushedBefore hist x else Ok false)
      as [[|]|]; cbn [bind] in Hs; [| |discriminate]; injection Hs as <-.
    + apply (IH _ _ urls H); cbn; try assumption.
      intros y Hy; apply Hincl, Hi, Hy.
    + apply (IH _ _ (urls ++ [n]) H); cbn.
      * exact Hseen.
      * apply Forall2_app; [exact Hf|].
        constructor; [exists url; auto | constructor].
      * rewrite filter_app; cbn [filter].
        destruct (nonempty n) eqn:Hne; [|rewrite app_nil_r; exact Hu].
        apply NoDup_app; [exact Hu | repeat constructor; simpl; tauto|].
        intros y Hy [<-|[]].
        apply Hi, set_has_In in Hy.
        rewrite Hy in Hdup; discriminate Hdup.
      * rewrite filter_app; cbn [filter].
        intros y Hy; apply in_app_or in Hy; destruct Hy as [Hy|Hy].
        -- apply Hincl, Hi, Hy.
        -- destruct (nonempty n) eqn:Hne; [|destruct Hy].
           destruct Hy as [<-|[]]; unfold seen.
           apply set_add_In; left; reflexivity.
Qed.

(** X9. Batch-local URL dedup: the survivors of the pre-dedup loop have
    pairwise different normalised URLs, the empty normalised URL apart;
    every such URL is in [seenUrls]; and an item whose normalised URL is
    empty is never a batch duplicate: when it is not stale, the loop
    appends it to the survivors it has reached, where it stays, unless the
    item was pushed before. *)
Theorem preDedup_distinct_urls (now : Z) (maxAgeHours : option Z)
    (pushDb : pushdb) (pushHistory : history) (allItems : list jsval)
    (st : prededup) :
  preDedup now maxAgeHours pushDb pushHistory allItems = Ok st ->
  (exists urls,
     Forall2 (fun item n => exists url, get item (js "url") = Ok url
                                        /\ batchNormUrl url = Ok n)
             (dedupedItems st) urls
     /\ NoDup (filter nonempty urls)
     /\ incl (filter nonempty urls) (seenUrls st)
     /\ NoDup (seenUrls st))
  /\ forall pre item post url,
       allItems = pre ++ item :: post ->
       get item (js "url") = Ok url -> batchNormUrl url = Ok [] ->
       isStale now maxAgeHours item = false ->
       exists st0,
         preDedup now maxAgeHours pushDb pushHistory pre = Ok st0
         /\ ((db_truthy pushDb = true
              /\ isItemPushedBefore pushHistory item = Ok true)
             \/ exists later,
                  dedupedItems st = dedupedItems st0 ++ item :: later).
Proof.
  unfold preDedup; intros H; split.
  - destruct (prededup_loop_urls now maxAgeHours pushDb pushHistory allItems
                _ _ [] H) as (Hnd & urls & Hf & Hu & Hi); cbn.
    + constructor.
    + constructor.
    + constructor.
    + intros y [].
    + exists urls; auto.
  - intros pre item post url -> Hu Hn Hf.
    destruct (prededup_loop_app _ _ _ _ _ _ _ _ H) as (st0 & Hpre & Hrest).
    cbn [prededup_loop] in Hrest.
    destruct (prededup_step now maxAgeHours pushDb pushHistory st0 item)
      as [st1|] eqn:Hs; cbn [bind] in Hrest; [|discriminate].
    destruct (prededup_loop_extends _ _ _ _ _ _ _ Hrest) as (later & El).
    exists st0; split; [exact Hpre|].
    destruct (prededup_step_keeps _ _ _ _ _ _ _ Hs Hf) as [[Hr _]|[_ E1]].
    + destruct Hr as [(url0 & n & Hu0 & Hn0 & Hne & _)|Hp]; [|left; exact Hp].
      rewrite Hu in Hu0; injection Hu0 as <-.
      rewrite Hn in Hn0; injection Hn0 as <-; discriminate Hne.
    + right; exists later; rewrite El, E1, <- app_assoc; reflexivity.
Qed.

Lemma isStale_no_max_age (now : Z) (item : jsval) : isStale now None item = false.
Proof.
  unfold isStale, too_old.
  destruct (get item (js "pubDate")) as [d|]; [|reflexivity].
  destruct (Date_getTime d); apply andb_false_r.
Qed.

(** X10. A maximum age that is not a number switches the staleness filter
    off: when the configured text does not start with an integer,
    [MAX_ARTICLE_AGE_HOURS] is [NaN], no item is stale whatever its date,
    and the loop drops none as stale. *)
Theorem nan_max_age_disables_filter (env_file env_process : option jsstring)
    (now : Z) (pushDb : pushdb) (pushHistory : history)
    (allItems : list jsval) (st : prededup) :
  MAX_ARTICLE_AGE_HOURS env_file env_process = None ->
  preDedup now (MAX_ARTICLE_AGE_HOURS env_file env_process) pushDb pushHistory
           allItems = Ok st ->
  staleSkipped st = 0
  /\ forall item,
       isStale now (MAX_ARTICLE_AGE_HOURS env_file env_process) item = false.
Proof.
  intros -> H; split; [|apply isStale_no_max_age].
  unfold preDedup in H; apply prededup_loop_stale in H.
  destruct H as (C & _ & _); rewrite C; cbn; clear C.
  induction allItems as [|x l IH]; [reflexivity|].
  cbn [filter]; rewrite isStale_no_max_age; exact IH.
Qed.

(** ** More on the deduplication of structured items *)

(** X11. The result of [deduplicateItems] is a selection of the input
    without repetition in which no two items have the same normalised URL:
    every entry is an input item, no entry occurs twice, there are at most
    as many entries as input items, and two entries with the same
    normalised URL are the same entry. *)
Theorem deduplicateItems_no_shared_url (items res : list jsval) :
  deduplicateItems items = Ok res ->
  incl res items
  /\ List.length res <= List.length items
  /\ NoDup res
  /\ (forall x, In x res -> exists k, item_key x = Ok k)
  /\ forall x y, In x res -> In y res -> item_key x = item_key y -> x = y.
Proof.
  intros H.
  destruct (deduplicateItems_selects _ _ H) as (H1 & H2 & _).
  destruct (deduplicateItems_distinct_urls _ _ H) as (H3 & H4 & H5).
  auto.
Qed.

Lemma set_nth_keeps_hot (item : jsval) (l : list jsval) :
  is_hot item = true ->
  forall i, existsb is_hot l = true -> existsb is_hot (set_nth i item l) = true.
Proof.
  intros Hh; induction l as [|y l IH]; intros [|i] H; simpl in *;
    try discriminate.
  - rewrite Hh; reflexivity.
  - destruct (is_hot y); [reflexivity | apply IH, H].
Qed.

Lemma replace_item_keeps_hot (old item : jsval) (res : list jsval) :
  is_hot item = true -> existsb is_hot res = true ->
  existsb is_hot (replace_item old item res) = true.
Proof.
  intros Hh H; unfold replace_item.
  destruct (index_of old res); [apply set_nth_keeps_hot; assumption | exact H].
Qed.

Lemma replace_item_puts (old item : jsval) (res : list jsval) :
  In old res -> In item (replace_item old item res).
Proof.
  unfold replace_item; induction res as [|y res IH]; intros Hin; [destruct Hin|].
  cbn [index_of].
  destruct (jsval_eqb y old) eqn:E; [left; reflexivity|].
  destruct Hin as [->|Hin]; [rewrite jsval_eqb_refl in E; discriminate|].
  specialize (IH Hin).
  destruct (index_of old res) as [i|]; cbn [set_nth]; [right; exact IH|].
  right; exact IH.
Qed.

Lemma is_hot_exists (x : jsval) (l : list jsval) :
  In x l -> is_hot x = true -> existsb is_hot l = true.
Proof. intros Hin Hh; apply existsb_exists; exists x; auto. Qed.

Lemma dedup_inv_in (seen : jsmap) (res : list jsval) (k : jsstring) (v : jsval) :
  dedup_inv (seen, res) -> In (k, v) seen -> In v res.
Proof.
  intros (_ & _ & Hp) Hin; cbn [fst snd] in Hp.
  apply (Permutation_in _ Hp), in_map_iff; exists (k, v); auto.
Qed.

Lemma map_get_some_in (k : jsstring) (m : jsmap) (v : jsval) :
  map_get k m = Some v -> exists k', In (k', v) m.
Proof.
  induction m as [|[k' v'] m IH]; simpl; [discriminate|].
  destruct (str_eqb k k').
  - intros H; injection H as ->; exists k'; left; reflexivity.
  - intros H; destruct (IH H) as (k2 & Hin); exists k2; right; exact Hin.
Qed.

(** One turn of the loop keeps a high-priority entry if there is one, and
    leaves one behind when the item it handles has high priority. *)
Lemma dedup_step_hot (st st' : jsmap * list jsval) (item : jsval) :
  dedup_inv st -> dedup_step st item = Ok st' ->
  existsb is_hot (snd st) || is_hot item = true ->
  existsb is_hot (snd st') = true.
Proof.
  destruct st as [seen res]; intros Hinv Hs Hh; cbn [snd] in Hh.
  unfold dedup_step in Hs.
  destruct (item_key item) as [normUrl|]; cbn [bind] in Hs; [|discriminate].
  assert (Hside : forall k old,
            In (k, old) seen ->
            existsb is_hot
              (if is_hot item && negb (is_hot old)
               then replace_item old item res else res) = true).
  { intros k old Hin.
    pose proof (dedup_inv_in _ _ _ _ Hinv Hin) as Hres.
    destruct (is_hot item) eqn:Hi; cbn [andb].
    - destruct (is_hot old) eqn:Ho; cbn [negb].
      + apply (is_hot_exists old); assumption.
      + apply (is_hot_exists item); [apply replace_item_puts, Hres | exact Hi].
    - rewrite orb_false_r in Hh; exact Hh. }
  destruct (map_get normUrl seen) as [existing|] eqn:Hg.
  - destruct (map_get_some_in _ _ _ Hg) as (k' & Hin).
    specialize (Hside k' existing Hin).
    destruct (is_hot item && negb (is_hot existing)); injection Hs as <-;
      exact Hside.
  - destruct (find_similar item seen) as [[[existUrl existItem]|]|] eqn:Hf;
      cbn [bind] in Hs; [| |discriminate].
    + specialize (Hside existUrl existItem (find_similar_in _ _ _ _ Hf)).
      destruct (is_hot item && negb (is_hot existItem)); injection Hs as <-;
        exact Hside.
    + injection Hs as <-; cbn [snd]; rewrite existsb_app; cbn [existsb].
      rewrite orb_false_r; exact Hh.
Qed.

Lemma dedup_loop_hot (items : list jsval) :
  forall st st',
  dedup_inv st -> dedup_loop st items = Ok st' ->
  existsb is_hot (snd st) || existsb is_hot items = true ->
  existsb is_hot (snd st') = true.
Proof.
  induction items as [|x items IH]; intros st st' Hinv H Hh;
    cbn [dedup_loop] in H.
  - injection H as <-; cbn [existsb] in Hh; rewrite orb_false_r in Hh; exact Hh.
  - destruct (dedup_step st x) as [st1|] eqn:Hs; cbn [bind] in H; [|discriminate].
    apply (IH st1 st' (dedup_step_inv _ _ _ Hinv Hs) H).
    cbn [existsb] in Hh; rewrite orb_assoc in Hh.
    destruct (existsb is_hot items); [apply orb_true_r|].
    rewrite orb_false_r in Hh |- *.
    apply (dedup_step_hot _ _ _ Hinv Hs Hh).
Qed.

(** X12. Priority is never lost in the deduplication: when the input holds
    a high-priority item, so does the result. *)
Theorem deduplicateItems_keeps_priority (items res : list jsval) :
  deduplicateItems items = Ok res ->
  existsb is_hot items = true -> existsb is_hot res = true.
Proof.
  unfold deduplicateItems.
  destruct (dedup_loop ([], []) items) as [[seen res']|] eqn:H; cbn [bind];
    [|discriminate].
  intros E Hh; injection E as <-.
  apply (dedup_loop_hot items ([], []) (seen, res')); [|exact H|exact Hh].
  repeat split; simpl; try constructor; intros k v [].
Qed.

(** X13. The tie-break on a collision of two items, by normalised URL or,
    with different normalised URLs, by similar titles: the second item
    takes the place of the first when it has high priority and the first
    has not; otherwise the first stays and the second is dropped. *)
Theorem deduplicateItems_tie_break (a b : jsval) (ka kb : jsstring)
    (ta tb : jsval) :
  item_key a = Ok ka -> item_key b = Ok kb ->
  get a (js "title") = Ok ta -> get b (js "title") = Ok tb ->
  ka = kb \/ titlesAreSimilar tb ta = Ok true ->
  deduplicateItems [a; b]
  = Ok [if is_hot b && negb (is_hot a) then b else a].
Proof.
  intros Ka Kb Ta Tb Hc.
  unfold deduplicateItems; cbn [dedup_loop]; unfold dedup_step at 1.
  rewrite Ka; cbn [bind map_get find_similar map_set app].
  unfold dedup_step.
  rewrite Kb; cbn [bind map_get].
  assert (Hrep : replace_item a b [a] = [b]).
  { unfold replace_item; cbn [index_of]; rewrite jsval_eqb_refl; reflexivity. }
  destruct (str_eqb kb ka) eqn:E.
  - destruct (is_hot b && negb (is_hot a)); cbn [bind snd];
      [rewrite Hrep|]; reflexivity.
  - destruct Hc as [->|Hsim]; [rewrite str_eqb_refl in E; discriminate|].
    cbn [find_similar]; rewrite Tb, Ta; cbn [bind]; rewrite Hsim; cbn [bind].
    destruct (is_hot b && negb (is_hot a)); cbn [bind snd];
      [rewrite Hrep|]; reflexivity.
Qed.

(** ** More on title similarity *)

(** X14. A title is similar to itself exactly when something is left of it
    after normalisation, and a title of which nothing is left is similar
    to no title at all. *)
Theorem titlesAreSimilar_self (a : jsval) (na : jsstring) :
  normalizeTitle a = Ok na ->
  titlesAreSimilar a a = Ok (nonempty na)
  /\ (na = [] -> forall b nb, normalizeTitle b = Ok nb ->
                 titlesAreSimilar a b = Ok false).
Proof.
  intros Ha; split.
  - unfold titlesAreSimilar; rewrite Ha; cbn [bind].
    destruct na as [|c s]; [reflexivity|].
    cbn [nonempty List.length Nat.ltb Nat.leb negb orb].
    rewrite str_eqb_refl; reflexivity.
  - intros -> b nb Hb; unfold titlesAreSimilar; rewrite Ha, Hb; reflexivity.
Qed.

(** ** Command-line arguments and the [.env] file *)

(** X15. The [flag=value] form of an argument: the value of the first
    argument of that form is returned whole, equals signs included, and
    wins over a [flag value] pair wherever that stands. *)
Theorem getArg_equals_form (flag v : jsstring) (pre post : list jsstring) :
  (forall c, In c flag -> c <> 61%N) ->
  (forall a, In a pre -> starts_with (flag ++ [61%N]) a = false) ->
  getArg (pre ++ (flag ++ 61%N :: v : jsstring) :: post) flag = VStr v.
Proof.
  intros Hf Hpre; unfold getArg.
  rewrite (find_first (starts_with (flag ++ [61%N])) pre (flag ++ 61%N :: v)
             post Hpre).
  - rewrite (split_by_app_sep 61 flag v Hf []); cbn [tl rev app].
    rewrite (join_split 61 v []); reflexivity.
  - change (flag ++ 61%N :: v) with (flag ++ [61%N] ++ v).
    rewrite app_assoc; apply starts_with_app.
Qed.


Lemma is_space_not_equals (c : N) : is_space c = true -> c <> 61%N.
Proof. intros H ->; discriminate H. Qed.

(** X16. An assignment of the [.env] file, with white space around the
    name and the value: the line [name = value] binds the trimmed value to
    the name, whatever was bound before; the value may hold equals signs
    and may be empty. *)
Theorem env_line_assigns (env : envmap) (k v ws1 ws2 ws3 ws4 : jsstring) :
  forallb is_space ws1 = true -> forallb is_space ws2 = true ->
  forallb is_space ws3 = true -> forallb is_space ws4 = true ->
  k <> [] -> trim k = k -> trim v = v ->
  (forall c, In c k -> c <> 61%N) ->
  starts_with (js "#") k = false ->
  str_eqb k (js "__proto__") = false ->
  env_get (env_line env (ws1 ++ k ++ ws2 ++ 61%N :: ws3 ++ v ++ ws4)) k
  = Some v.
Proof.
  intros W1 W2 W3 W4 Hk Tk Tv Heq Hhash Hproto.
  destruct (trim_fixed k Tk) as [Ks Ke].
  destruct (trim_fixed v Tv) as [Vs Ve].
  set (T := match v with [] => [] | _ :: _ => ws3 ++ v end).
  assert (Ht : trim (ws1 ++ k ++ ws2 ++ 61%N :: ws3 ++ v ++ ws4)
                = k ++ ws2 ++ 61%N :: T).
  { unfold trim; rewrite trimStart_spaces_app by exact W1.
    rewrite trimStart_fixed_app by assumption.
    unfold T; destruct v as [|x v'].
    - cbn [app].
      replace (k ++ ws2 ++ 61%N :: ws3 ++ ws4)
        with (((k ++ ws2) ++ [61%N]) ++ (ws3 ++ ws4)) by list_assoc.
      rewrite trimEnd_app_spaces
        by (rewrite forallb_app, W3, W4; reflexivity).
      rewrite trimEnd_fixed_app; [list_assoc | reflexivity | discriminate].
    - replace (k ++ ws2 ++ 61%N :: ws3 ++ (x :: v') ++ ws4)
        with (((k ++ ws2 ++ 61%N :: ws3) ++ x :: v') ++ ws4) by list_assoc.
      rewrite trimEnd_app_spaces by exact W4.
      rewrite trimEnd_fixed_app; [list_assoc | exact Ve | discriminate]. }
  unfold env_line; rewrite Ht.
  destruct k as [|c k']; [congruence|].
  cbn [app nonempty List.length Nat.ltb Nat.leb negb orb].
  assert (Hh : starts_with (js "#") (c :: k' ++ ws2 ++ 61%N :: T) = false).
  { change (N.eqb 35 c && true = false) in Hhash.
    change (N.eqb 35 c && true = false); exact Hhash. }
  rewrite Hh.
  replace (c :: k' ++ ws2 ++ 61%N :: T)
    with (((c :: k') ++ ws2) ++ 61%N :: T) by list_assoc.
  rewrite cut_at_app.
  2:{ intros d Hd; apply in_app_or in Hd; destruct Hd as [Hd|Hd];
        [apply Heq, Hd|].
      rewrite forallb_forall in W2; apply is_space_not_equals, W2, Hd. }
  cbn [app].
  assert (Hkey : trim (c :: k' ++ ws2) = c :: k').
  { change (c :: k' ++ ws2) with ((c :: k') ++ ws2).
    unfold trim; rewrite trimStart_fixed_app by assumption.
    rewrite trimEnd_app_spaces by exact W2; exact Ke. }
  assert (Hval : trim T = v).
  { unfold T; destruct v as [|x v']; [reflexivity|].
    unfold trim; rewrite trimStart_spaces_app by exact W3.
    rewrite Vs; exact Ve. }
  rewrite Hkey, Hval; unfold env_set; rewrite Hproto.
  cbn [env_get]; rewrite str_eqb_refl; reflexivity.
Qed.

(** ** Fetching with retries and fall-backs *)

Lemma repeat_snoc_cons {A : Type} (x : A) (k : nat) (l : list A) :
  repeat x k ++ x :: l = repeat x (S k) ++ l.
Proof. induction k as [|k IH]; simpl; [reflexivity | f_equal; exact IH]. Qed.

(** One turn of the retry loop. *)
Lemma rsshub_step (net : network) (base path : jsstring) (limit n : nat)
    (w : world) :
  rsshub_attempts net base path limit (S n) w
  = let w1 := World ((base ++ path) :: requests w) (slept w) in
    let w2 := if Nat.ltb 0 n
              then World (requests w1) (slept w1 + RSSHUB_RETRY_DELAY)
              else w1 in
    match net (List.length (requests w)) (base ++ path) with
    | Ok body =>
        match parse_feed body limit with
        | Ok (i :: l) => (Ok (i :: l), w1)
        | _ => rsshub_attempts net base path limit n w2
        end
    | Throw _ => rsshub_attempts net base path limit n w2
    end.
Proof.
  cbn [rsshub_attempts]; unfold mbind, mcatch, fetchRss, httpFetch, mbind, mret.
  destruct (net (List.length (requests w)) (base ++ path)) as [body|e].
  - destruct (parse_feed body limit) as [[|i l]|e]; destruct n; reflexivity.
  - destruct n; reflexivity.
Qed.

Lemma rsshub_attempts_spec (net : network) (base path : jsstring)
    (limit : nat) (left : nat) :
  forall w, exists items w' k,
    rsshub_attempts net base path limit left w = (Ok items, w')
    /\ k <= left
    /\ requests w' = repeat (base ++ path) k ++ requests w
    /\ (forall j, S j < k ->
          attempt_items net (List.length (requests w) + j) (base ++ path) limit
          = None)
    /\ ((items <> [] /\ 1 <= k
         /\ attempt_items net (List.length (requests w) + (k - 1))
                          (base ++ path) limit = Some items
         /\ slept w' = (slept w + RSSHUB_RETRY_DELAY * Z.of_nat (k - 1))%Z)
        \/ (items = [] /\ k = left
            /\ (forall j, j < k ->
                  attempt_items net (List.length (requests w) + j)
                                (base ++ path) limit = None)
            /\ slept w'
               = (slept w + RSSHUB_RETRY_DELAY * Z.of_nat (left - 1))%Z)).
Proof.
  induction left as [|n IH]; intros w.
  - exists [], w, 0; cbn; split; [reflexivity|]; split; [lia|].
    split; [reflexivity|]; split; [intros j Hj; lia|].
    right; split; [reflexivity|]; split; [reflexivity|].
    split; [intros j Hj; lia | lia].
  - rewrite rsshub_step; cbv zeta.
    set (url := base ++ path) in *.
    set (w1 := World (url :: requests w) (slept w)).
    set (w2 := if Nat.ltb 0 n
               then World (requests w1) (slept w1 + RSSHUB_RETRY_DELAY)
               else w1).
    assert (Hfail :
              attempt_items net (List.length (requests w)) url limit = None ->
              exists items w' k,
              rsshub_attempts net base path limit n w2 = (Ok items, w')
              /\ k <= S n
              /\ requests w' = repeat url k ++ requests w
              /\ (forall j, S j < k ->
                    attempt_items net (List.length (requests w) + j) url limit
                    = None)
              /\ ((items <> [] /\ 1 <= k
                   /\ attempt_items net (List.length (requests w) + (k - 1))
                                    url limit = Some items
                   /\ slept w'
                      = (slept w + RSSHUB_RETRY_DELAY * Z.of_nat (k - 1))%Z)
                  \/ (items = [] /\ k = S n
                      /\ (forall j, j < k ->
                            attempt_items net (List.length (requests w) + j)
                                          url limit = None)
                      /\ slept w'
                         = (slept w
                            + RSSHUB_RETRY_DELAY * Z.of_nat (S n - 1))%Z))).
    { intros H0.
      destruct (IH w2) as (items & w' & k & E & Hk & Hr & He & Hc).
      assert (R2 : requests w2 = url :: requests w)
        by (unfold w2; destruct (Nat.ltb 0 n); reflexivity).
      assert (S2 : slept w2
                   = (slept w + (if Nat.ltb 0 n then RSSHUB_RETRY_DELAY else 0))%Z).
      { unfold w2; destruct (Nat.ltb 0 n); cbn; lia. }
      assert (Hshift : forall j,
                List.length (requests w2) + j
                = List.length (requests w) + S j)
        by (intros j; rewrite R2; cbn [List.length]; lia).
      exists items, w', (S k); split; [exact E|]; split; [lia|]; split.
      { rewrite Hr, R2; apply repeat_snoc_cons. }
      split.
      { intros [|j] Hj; [rewrite Nat.add_0_r; exact H0|].
        rewrite <- Hshift; apply He; lia. }
      destruct Hc as [(Hne & Hk1 & Ha & Hs)|(-> & -> & Ha & Hs)].
      - left; split; [exact Hne|]; split; [lia|]; split.
        + replace (S k - 1) with (S (k - 1)) by lia.
          rewrite <- Hshift; exact Ha.
        + rewrite Hs, S2; unfold RSSHUB_RETRY_DELAY.
          destruct n as [|n']; [lia|]; cbn [Nat.ltb Nat.leb]; lia.
      - right; split; [reflexivity|]; split; [reflexivity|]; split.
        + intros [|j] Hj; [rewrite Nat.add_0_r; exact H0|].
          rewrite <- Hshift; apply Ha; lia.
        + rewrite Hs, S2; unfold RSSHUB_RETRY_DELAY.
          destruct n as [|n']; cbn [Nat.ltb Nat.leb]; lia. }
    unfold attempt_items in Hfail at 1.
    destruct (net (List.length (requests w)) url) as [body|e] eqn:Hn;
      [|exact (Hfail eq_refl)].
    destruct (parse_feed body limit) as [[|i l]|e] eqn:Hp;
      try exact (Hfail eq_refl).
    exists (i :: l), w1, 1; split; [reflexivity|]; split; [lia|].
    split; [reflexivity|]; split; [intros j Hj; lia|].
    left; split; [discriminate|]; split; [lia|]; split.
    + unfold attempt_items; cbn [Nat.sub]; rewrite Nat.add_0_r, Hn, Hp.
      reflexivity.
    + cbn; lia.
Qed.

(** X17. [fetchRssHubWithRetry] never raises and is bounded: it makes
    between one and three requests, all to the RSSHub route, and every
    attempt before the last one made got nothing (it threw or gave no
    item).  Either the last attempt got items: these are returned, and the
    function has slept five seconds after each earlier attempt; or the
    function returns the empty list, and then it has made all three
    attempts, none of which got anything, and has slept ten seconds. *)
Theorem fetchRssHubWithRetry_bounded (net : network)
    (RSSHUB_URL path : jsstring) (limit : nat) (w : world) :
  exists items w' k,
    fetchRssHubWithRetry net RSSHUB_URL path limit w = (Ok items, w')
    /\ 1 <= k <= 3
    /\ requests w' = repeat (RSSHUB_URL ++ path) k ++ requests w
    /\ (slept w <= slept w' <= slept w + 10000)%Z
    /\ (forall j, S j < k ->
          attempt_items net (List.length (requests w) + j)
                        (RSSHUB_URL ++ path) limit = None)
    /\ ((items <> []
         /\ attempt_items net (List.length (requests w) + (k - 1))
                          (RSSHUB_URL ++ path) limit = Some items
         /\ slept w' = (slept w + 5000 * Z.of_nat (k - 1))%Z)
        \/ (items = [] /\ k = 3
            /\ attempt_items net (List.length (requests w) + 2)
                             (RSSHUB_URL ++ path) limit = None
            /\ slept w' = (slept w + 10000)%Z)).
Proof.
  destruct (rsshub_attempts_spec net RSSHUB_URL path limit RSSHUB_RETRIES w)
    as (items & w' & k & E & Hk & Hr & He & Hc).
  unfold RSSHUB_RETRIES, RSSHUB_RETRY_DELAY in *.
  exists items, w', k; split; [exact E|].
  destruct Hc as [(Hne & Hk1 & Ha & Hs)|(-> & -> & Ha & Hs)].
  - split; [lia|]; split; [exact Hr|]; split; [lia|]; split; [exact He|].
    left; auto.
  - cbn in Hs.
    split; [lia|]; split; [exact Hr|]; split; [lia|]; split; [exact He|].
    right; split; [reflexivity|]; split; [reflexivity|]; split;
      [apply Ha; lia | exact Hs].
Qed.

Lemma nitter_step (net : network) (instance : jsstring)
    (rest : list jsstring) (path : jsstring) (limit : nat) (w : world) :
  nitter_loop net (instance :: rest) path limit w
  = let w1 := World ((instance ++ path) :: requests w) (slept w) in
    match net (List.length (requests w)) (instance ++ path) with
    | Ok body =>
        match parse_feed body limit with
        | Ok (i :: l) => (Ok (i :: l), w1)
        | _ => nitter_loop net rest path limit w1
        end
    | Throw _ => nitter_loop net rest path limit w1
    end.
Proof.
  cbn [nitter_loop]; unfold mbind, mcatch, fetchRss, httpFetch, mbind, mret.
  destruct (net (List.length (requests w)) (instance ++ path)) as [body|e];
    [|reflexivity].
  destruct (parse_feed body limit) as [[|i l]|e]; reflexivity.
Qed.

Lemma nitter_loop_spec (net : network) (path : jsstring) (limit : nat)
    (instances : list jsstring) :
  forall w, exists items w' tried rest,
    nitter_loop net instances path limit w = (Ok items, w')
    /\ instances = tried ++ rest
    /\ requests w'
       = rev (List.map (fun i => i ++ path) tried) ++ requests w
    /\ slept w' = slept w
    /\ (forall j inst,
          nth_error tried j = Some inst -> S j < List.length tried ->
          attempt_items net (List.length (requests w) + j) (inst ++ path) limit
          = None)
    /\ ((items <> []
         /\ exists last,
              nth_error tried (List.length tried - 1) = Some last
              /\ attempt_items net
                   (List.length (requests w) + (List.length tried - 1))
                   (last ++ path) limit = Some items)
        \/ (items = [] /\ rest = []
            /\ forall j inst,
                 nth_error tried j = Some inst ->
                 attempt_items net (List.length (requests w) + j)
                               (inst ++ path) limit = None)).
Proof.
  induction instances as [|inst rest0 IH]; intros w.
  - exists [], w, [], []; cbn; split; [reflexivity|]; split; [reflexivity|].
    split; [reflexivity|]; split; [reflexivity|].
    split; [intros [|j] i Hj; discriminate Hj|].
    right; split; [reflexivity|]; split; [reflexivity|].
    intros [|j] i Hj; discriminate Hj.
  - rewrite nitter_step; cbv zeta.
    set (w1 := World ((inst ++ path) :: requests w) (slept w)).
    assert (Hfail :
              attempt_items net (List.length (requests w)) (inst ++ path) limit
              = None ->
              exists items w' tried rest,
              nitter_loop net rest0 path limit w1 = (Ok items, w')
              /\ inst :: rest0 = tried ++ rest
              /\ requests w'
                 = rev (List.map (fun i => i ++ path) tried) ++ requests w
              /\ slept w' = slept w
              /\ (forall j i,
                    nth_error tried j = Some i -> S j < List.length tried ->
                    attempt_items net (List.length (requests w) + j)
                                  (i ++ path) limit = None)
              /\ ((items <> []
                   /\ exists last,
                        nth_error tried (List.length tried - 1) = Some last
                        /\ attempt_items net
                             (List.length (requests w)
                              + (List.length tried - 1))
                             (last ++ path) limit = Some items)
                  \/ (items = [] /\ rest = []
                      /\ forall j i,
                           nth_error tried j = Some i ->
                           attempt_items net (List.length (requests w) + j)
                                         (i ++ path) limit = None))).
    { intros H0.
      destruct (IH w1) as (items & w' & tried & rest & E & Hi & Hr & Hs & He & Hc).
      assert (Hshift : forall j,
                List.length (requests w1) + j
                = List.length (requests w) + S j)
        by (intros j; cbn [requests w1 List.length]; lia).
      exists items, w', (inst :: tried), rest.
      split; [exact E|]; split; [rewrite Hi; reflexivity|]; split.
      { rewrite Hr; cbn [List.map rev requests w1].
        rewrite <- app_assoc; reflexivity. }
      split; [exact Hs|]; split.
      { intros [|j] i Hj Hlt; cbn [nth_error List.length] in Hj, Hlt.
        - injection Hj as <-; rewrite Nat.add_0_r; exact H0.
        - rewrite <- Hshift; apply He; [exact Hj | lia]. }
      destruct Hc as [(Hne & last & Hl & Ha)|(-> & -> & Ha)].
      - left; split; [exact Hne|]; exists last.
        assert (Hpos : 1 <= List.length tried).
        { destruct tried; [discriminate Hl | simpl; lia]. }
        cbn [List.length].
        replace (S (List.length tried) - 1) with (S (List.length tried - 1))
          by lia.
        split; [exact Hl|]; rewrite <- Hshift; exact Ha.
      - right; split; [reflexivity|]; split; [reflexivity|].
        intros [|j] i Hj; cbn [nth_error] in Hj.
        + injection Hj as <-; rewrite Nat.add_0_r; exact H0.
        + rewrite <- Hshift; apply Ha; exact Hj. }
    unfold attempt_items in Hfail at 1.
    destruct (net (List.length (requests w)) (inst ++ path)) as [body|e] eqn:Hn;
      [|exact (Hfail eq_refl)].
    destruct (parse_feed body limit) as [[|i l]|e] eqn:Hp;
      try exact (Hfail eq_refl).
    exists (i :: l), w1, [inst], rest0.
    split; [reflexivity|]; split; [reflexivity|]; split; [reflexivity|].
    split; [reflexivity|]; split.
    { intros j i0 _ Hlt; cbn in Hlt; lia. }
    left; split; [discriminate|]; exists inst; split; [reflexivity|].
    unfold attempt_items; cbn [List.length Nat.sub].
    rewrite Nat.add_0_r, Hn, Hp; reflexivity.
Qed.

(** X18. [fetchNitterRss] never raises and never sleeps: it asks the
    Nitter instances in the order of the list, each at most once, and
    every instance asked before the last one asked got nothing (it threw
    or gave no item).  Either the last instance asked got items, which are
    returned; or the function returns the empty list, and then it has
    asked every instance of the list and none got anything. *)
Theorem fetchNitterRss_falls_through (net : network) (path : jsstring)
    (limit : nat) (w : world) :
  exists items w' tried rest,
    fetchNitterRss net path limit w = (Ok items, w')
    /\ NITTER_INSTANCES = tried ++ rest
    /\ requests w' = rev (List.map (fun i => i ++ path) tried) ++ requests w
    /\ slept w' = slept w
    /\ (forall j inst,
          nth_error tried j = Some inst -> S j < List.length tried ->
          attempt_items net (List.length (requests w) + j) (inst ++ path) limit
          = None)
    /\ ((items <> []
         /\ exists last,
              nth_error tried (List.length tried - 1) = Some last
              /\ attempt_items net
                   (List.length (requests w) + (List.length tried - 1))
                   (last ++ path) limit = Some items)
        \/ (items = [] /\ rest = []
            /\ forall j inst,
                 nth_error tried j = Some inst ->
                 attempt_items net (List.length (requests w) + j)
                               (inst ++ path) limit = None)).
Proof. apply nitter_loop_spec. Qed.

(** ** The RSS and Atom parser *)

Lemma feed_item_shape (block : jsstring) (item : jsval) :
  feed_item block = Some item ->
  exists title url description pubDate author,
    item = VObj [(js "title", VStr title); (js "url", VStr url);
                 (js "description", VStr description);
                 (js "pubDate", VStr pubDate); (js "author", VStr author)]
    /\ (title <> [] \/ url <> [])
    /\ List.length description <= 400.
Proof.
  unfold feed_item.
  set (title := xmlText block (js "title")).
  set (link := first_truthy _).
  set (d := first_truthy _).
  set (p := first_truthy _).
  set (a := first_truthy _).
  destruct (negb (nonempty title) && negb (nonempty link)) eqn:E; [discriminate|].
  intros H; injection H as <-.
  exists title, link, (firstn 400 d), p, a; split; [reflexivity|]; split.
  - destruct title; [|left; discriminate].
    destruct link; [discriminate E | right; discriminate].
  - apply firstn_le_length.
Qed.

Lemma feed_loop_spec (limit : nat) (P : jsval -> Prop)
    (ms : list (jsstring * mstate * jsstring)) :
  (forall block item, feed_item block = Some item -> P item) ->
  forall items res,
  feed_loop limit ms items = Ok res ->
  (forall i, In i items -> P i) -> List.length items <= limit ->
  (forall i, In i res -> P i) /\ List.length res <= limit.
Proof.
  intros HP; induction ms as [|[[sk e] t] ms IH]; intros items res H Hall Hlen;
    cbn [feed_loop] in H.
  - injection H as <-; auto.
  - destruct (Nat.ltb (List.length items) limit) eqn:Hlt;
      [|injection H as <-; auto].
    apply Nat.ltb_lt in Hlt.
    destruct (block_of e) as [block|]; [|discriminate].
    destruct (feed_item block) as [item|] eqn:Hi.
    + apply (IH _ _ H).
      * intros i Hin; apply in_app_or in Hin; destruct Hin as [Hin|[<-|[]]];
          [apply Hall, Hin | apply (HP block), Hi].
      * rewrite length_app; simpl; lia.
    + apply (IH _ _ H); assumption.
Qed.

Lemma parse_feed_shape_lemma (body : jsstring) (limit : nat)
    (items : list jsval) :
  parse_feed body limit = Ok items ->
  forall item, In item items ->
    exists title url description pubDate author,
      item = VObj [(js "title", VStr title); (js "url", VStr url);
                   (js "description", VStr description);
                   (js "pubDate", VStr pubDate); (js "author", VStr author)]
      /\ (title <> [] \/ url <> []).
Proof.
  unfold parse_feed; intros H.
  destruct (feed_loop_spec limit _ _ feed_item_shape _ _ H) as [H1 _].
  - intros i [].
  - simpl; lia.
  - intros item Hi; destruct (H1 item Hi) as (t & u & d & p & a & E & Hn & _).
    exists t, u, d, p, a; auto.
Qed.

(** X19. What [fetchRss] returns: at most [limit] items; each is an object
    with the five members [title], [url], [description], [pubDate] and
    [author], all strings; it has a title or a link; and its description
    has at most 400 code units. *)
Theorem parse_feed_items (body : jsstring) (limit : nat) (items : list jsval) :
  parse_feed body limit = Ok items ->
  List.length items <= limit
  /\ forall item, In item items ->
       exists title url description pubDate author,
         item = VObj [(js "title", VStr title); (js "url", VStr url);
                      (js "description", VStr description);
                      (js "pubDate", VStr pubDate); (js "author", VStr author)]
         /\ (title <> [] \/ url <> [])
         /\ List.length description <= 400.
Proof.
  unfold parse_feed; intros H.
  destruct (feed_loop_spec limit _ _ feed_item_shape _ _ H) as [H1 H2].
  - intros i [].
  - simpl; lia.
  - split; [exact H2 | exact H1].
Qed.

(** The comparisons of the history check never throw on strings. *)
Lemma normalizeTitle_string (t : jsstring) :
  exists n, normalizeTitle (VStr t) = Ok n.
Proof.
  unfold normalizeTitle, or_empty; destruct (truthy (VStr t)); eexists; reflexivity.
Qed.

Lemma titlesAreSimilar_strings (a b : jsstring) :
  exists r, titlesAreSimilar (VStr a) (VStr b) = Ok r.
Proof.
  unfold titlesAreSimilar.
  destruct (normalizeTitle_string a) as (na & Ha).
  destruct (normalizeTitle_string b) as (nb & Hb).
  rewrite Ha, Hb; cbn [bind].
  rewrite (extractKeyEntities_ok _ _ Ha), (extractKeyEntities_ok _ _ Hb).
  cbn [bind].
  repeat match goal with
         | |- context [if ?c then _ else _] => destruct c
         end; eexists; reflexivity.
Qed.

Lemma any_similar_strings (t : jsstring) (pushed : list jsstring) :
  exists r, any_similar (VStr t) pushed = Ok r.
Proof.
  induction pushed as [|x l IH]; cbn [any_similar]; [eexists; reflexivity|].
  destruct (titlesAreSimilar_strings t x) as ([|] & ->); cbn [bind];
    [eexists; reflexivity | exact IH].
Qed.

Lemma normalizeUrlForHash_string (u : jsstring) :
  exists n, normalizeUrlForHash (VStr u) = Ok n.
Proof.
  unfold normalizeUrlForHash, or_empty.
  destruct (URL_parse (VStr u)) as [[h p]|]; [eexists; reflexivity|].
  destruct (truthy (VStr u)); eexists; reflexivity.
Qed.

Lemma titleHashOf_string (t : jsstring) : exists h, titleHashOf (VStr t) = Ok h.
Proof.
  unfold titleHashOf, or_empty; destruct (truthy (VStr t)); eexists; reflexivity.
Qed.

Lemma isItemPushedBefore_strings (h : history) (item : jsval) (u t : jsstring) :
  get item (js "url") = Ok (VStr u) -> get item (js "title") = Ok (VStr t) ->
  exists r, isItemPushedBefore h item = Ok r.
Proof.
  intros Hu Ht; unfold isItemPushedBefore; rewrite Hu; cbn [bind].
  destruct (normalizeUrlForHash_string u) as (nu & ->); cbn [bind].
  destruct (set_has _ (urlHashes h)); [eexists; reflexivity|].
  rewrite Ht; cbn [bind].
  destruct (titleHashOf_string t) as (th & ->); cbn [bind].
  destruct (set_has _ (titleHashes h)); [eexists; reflexivity|].
  destruct (truthy (VStr t) && _); [apply any_similar_strings | eexists; reflexivity].
Qed.

Lemma batchNormUrl_string (u : jsstring) : exists n, batchNormUrl (VStr u) = Ok n.
Proof.
  unfold batchNormUrl; destruct (truthy (VStr u)); eexists; reflexivity.
Qed.

Lemma prededup_step_strings (now : Z) (mh : option Z) (db : pushdb)
    (hist : history) (st : prededup) (item : jsval) (u t p : jsstring) :
  get item (js "url") = Ok (VStr u) -> get item (js "title") = Ok (VStr t) ->
  get item (js "pubDate") = Ok (VStr p) ->
  exists st', prededup_step now mh db hist st item = Ok st'.
Proof.
  intros Hu Ht Hp; unfold prededup_step; rewrite Hp; cbn [bind].
  destruct (truthy (VStr p) && too_old now mh (VStr p)); [eexists; reflexivity|].
  rewrite Hu; cbn [bind].
  destruct (batchNormUrl_string u) as (n & ->); cbn [bind].
  destruct (nonempty n && set_has n (seenUrls st)); [eexists; reflexivity|].
  destruct (db_truthy db).
  - destruct (isItemPushedBefore_strings hist item u t Hu Ht) as ([|] & ->);
      cbn [bind]; eexists; reflexivity.
  - cbn [bind]; eexists; reflexivity.
Qed.

Lemma prededup_loop_strings (now : Z) (mh : option Z) (db : pushdb)
    (hist : history) (items : list jsval) :
  (forall i, In i items ->
     exists u t p, get i (js "url") = Ok (VStr u)
                   /\ get i (js "title") = Ok (VStr t)
                   /\ get i (js "pubDate") = Ok (VStr p)) ->
  forall st, exists st', prededup_loop now mh db hist st items = Ok st'.
Proof.
  induction items as [|x items IH]; intros H st; cbn [prededup_loop];
    [eexists; reflexivity|].
  destruct (H x (or_introl eq_refl)) as (u & t & p & Hu & Ht & Hp).
  destruct (prededup_step_strings now mh db hist st x u t p Hu Ht Hp)
    as (st1 & ->); cbn [bind].
  apply IH; intros i Hi; apply H; right; exact Hi.
Qed.

(** X20. Items from feeds go through the pre-dedup loop and the building
    of the prompt without raising: when every fetched item is an item of
    some parsed feed, tagged with the name and the type of its source, the
    loop of [main] ends in a state and [generateDigest] does not fail
    before the model is called. *)
Theorem feed_items_never_raise (now : Z) (maxAgeHours : option Z)
    (pushDb : pushdb) (pushHistory : history) (allItems : list jsval) :
  (forall i, In i allItems ->
     exists body limit items item name type,
       parse_feed body limit = Ok items /\ In item items
       /\ to_string_throws name = false /\ i = tag_item name type item) ->
  (exists st, preDedup now maxAgeHours pushDb pushHistory allItems = Ok st)
  /\ prompt_throws allItems = false.
Proof.
  intros H.
  assert (Hshape : forall i, In i allItems ->
            exists t u d p a name type,
              to_string_throws name = false
              /\ i = VObj [(js "title", VStr t); (js "url", VStr u);
                           (js "description", VStr d);
                           (js "pubDate", VStr p); (js "author", VStr a);
                           (js "_sourceName", name); (js "_sourceType", type)]).
  { intros i Hi.
    destruct (H i Hi) as (body & limit & items & item & name & type
                          & Hp & Hin & Hn & ->).
    destruct (parse_feed_shape_lemma _ _ _ Hp item Hin) as (t & u & d & p & a & -> & _).
    exists t, u, d, p, a, name, type; split; [exact Hn | reflexivity]. }
  split.
  - unfold preDedup; apply prededup_loop_strings.
    intros i Hi.
    destruct (Hshape i Hi) as (t & u & d & p & a & name & type & _ & ->).
    exists u, t, p; repeat split; reflexivity.
  - unfold prompt_throws.
    destruct (existsb prompt_item_throws allItems) eqn:E; [|reflexivity].
    apply existsb_exists in E; destruct E as (i & Hi & Ht).
    destruct (Hshape i Hi) as (t & u & d & p & a & name & type & Hn & ->).
    assert (prompt_item_throws
              (VObj [(js "title", VStr t); (js "url", VStr u);
                     (js "description", VStr d);
                     (js "pubDate", VStr p); (js "author", VStr a);
                     (js "_sourceName", name); (js "_sourceType", type)])
            = to_string_throws name
              || truthy (VStr t) && false || truthy (VStr u) && false
              || truthy (VStr d) && false) as E by reflexivity.
    rewrite E, Hn, !andb_false_r in Ht; discriminate Ht.
Qed.

(** X21. The text that [stripHtml] returns, and with it every field that
    [xmlText] reads for a tag of letters and colons, is trimmed and
    single-spaced: it neither starts nor ends with white space, and its
    only white-space characters are single spaces between other
    characters. *)
Theorem stripHtml_single_spaced (s : jsstring) :
  single_spaced false (stripHtml s) = true
  /\ trim (stripHtml s) = stripHtml s
  /\ forall block tag,
       forallb tag_name_char tag = true ->
       single_spaced false (xmlText block tag) = true
       /\ trim (xmlText block tag) = xmlText block tag.
Proof.
  assert (G : forall x, single_spaced false (stripHtml x) = true
                        /\ trim (stripHtml x) = stripHtml x).
  { intros x; unfold stripHtml; rewrite replace_all_spaces.
    split; [|apply trim_idem].
    apply (single_spaced_trim _ false), squeeze_single_spaced. }
  destruct (G s) as [G1 G2]; split; [exact G1|]; split; [exact G2|].
  intros block tag _; unfold xmlText.
  destruct (match_first true (xmlText_re tag) block) as [[e m]|];
    [apply G | split; reflexivity].
Qed.

(** ** Article links worth fetching *)

Lemma strip_www_hit (h : jsstring) :
  replace_first false www_re (RepLit []) (js "www." ++ h) = h.
Proof.
  unfold www_re; rewrite replace_first_bol, rmatch_lit.
  rewrite starts_with_app; reflexivity.
Qed.

Lemma strip_www_miss (h : jsstring) :
  starts_with (js "www.") h = false ->
  replace_first false www_re (RepLit []) h = h.
Proof.
  intros H; unfold www_re; rewrite replace_first_bol, rmatch_lit, H.
  reflexivity.
Qed.

(** X22. Whether an article is fetched does not depend on a leading
    [www.] of its host: a URL whose host is [www.] followed by [h] is
    fetched exactly when [h] is not one of the domains to skip, as is a URL
    whose host is [h] itself; a URL that does not parse is never
    fetched. *)
Theorem shouldFetchArticle_ignores_www :
  (forall u, URL_parse u = None -> shouldFetchArticle u = false)
  /\ forall (u u' : jsval) (h p p' : jsstring),
       URL_parse u = Some (js "www." ++ h, p) ->
       URL_parse u' = Some (h, p') ->
       starts_with (js "www.") h = false ->
       shouldFetchArticle u = negb (set_has h SKIP_ARTICLE_DOMAINS)
       /\ shouldFetchArticle u' = shouldFetchArticle u.
Proof.
  split; [intros u H; unfold shouldFetchArticle; rewrite H; reflexivity|].
  intros u u' h p p' Hu Hu' Hh; unfold shouldFetchArticle.
  rewrite Hu, Hu', strip_www_hit, (strip_www_miss h Hh); auto.
Qed.

(** ** URL normalisation *)

(** The scheme part of [scheme_www_re] on a URL that starts with
    [http://] or [https://]. *)
Lemma rmatch_scheme (secure : bool) (rest : jsstring) (r : regex) (k : cont) :
  rmatch false
    (RSeq (RLit (js "http"))
       (RSeq (ROpt (RChar 115)) (RSeq (RLit (js "://")) r)))
    (MState [] ((if secure then js "https://" else js "http://") ++ rest) 0 [])
    k
  = rmatch false r
      (MState (rev (if secure then js "https://" else js "http://")) rest
              (if secure then 8 else 7) [])
      k.
Proof.
  destruct secure; cbn;
    match goal with
    | |- context [rmatch false r ?s k] => destruct (rmatch false r s k)
    end; reflexivity.
Qed.

Lemma opt_www_hit (bef rest : jsstring) (p : nat) :
  exists e,
    rmatch false (ROpt (RGroup 1 (RLit (js "www."))))
           (MState bef (js "www." ++ rest) p []) (fun e => Some e) = Some e
    /\ after e = rest.
Proof.
  eexists; split;
    [unfold ROpt; cbn [rmatch iter_min quant_rest iter_opt Nat.sub]|].
  - rewrite rmatch_lit, starts_with_app; cbn [pos].
    assert (H : Nat.ltb p (p + List.length (js "www.")) = true)
      by (apply Nat.ltb_lt; cbn; lia).
    rewrite H; reflexivity.
  - reflexivity.
Qed.

Lemma opt_www_miss (bef rest : jsstring) (p : nat) :
  starts_with (js "www.") rest = false ->
  rmatch false (ROpt (RGroup 1 (RLit (js "www."))))
         (MState bef rest p []) (fun e => Some e)
  = Some (MState bef rest p []).
Proof.
  intros H; unfold ROpt; cbn [rmatch iter_min quant_rest iter_opt Nat.sub].
  rewrite rmatch_lit, H; reflexivity.
Qed.

(** X23. The batch-local normalisation ignores the scheme, one leading
    [www.] and slashes at the end: for a rest [r] that does not end with a
    slash and does not itself start with [www.], the URL
    [http://r], with or without [s], [www.] and trailing slashes, is
    normalised to [r] in lower case. *)
Theorem batchNormUrl_canonical (secure www : bool) (body : jsstring) (c : N)
    (slashes : jsstring) :
  c <> 47%N ->
  starts_with (js "www.") (body ++ [c]) = false ->
  forallb (N.eqb 47) slashes = true ->
  batchNormUrl
    (VStr ((if secure then js "https://" else js "http://")
           ++ (if www then js "www." else [])
           ++ (body ++ [c]) ++ slashes))
  = Ok (toLowerCase (body ++ [c])).
Proof.
  intros Hc Hw Hs.
  assert (G : forall scheme w : jsstring,
            truthy (VStr (scheme ++ w ++ (body ++ [c]) ++ slashes)) = true ->
            replace_first false scheme_www_re (RepLit [])
              (scheme ++ w ++ body ++ [c]) = body ++ [c] ->
            batchNormUrl (VStr (scheme ++ w ++ (body ++ [c]) ++ slashes))
            = Ok (toLowerCase (body ++ [c]))).
  { intros scheme w Ht Hr; unfold batchNormUrl.
    rewrite Ht; cbn [as_string bind]; do 2 f_equal.
    rewrite replace_trailing_slashes.
    replace (scheme ++ w ++ (body ++ [c]) ++ slashes)
      with (((scheme ++ w) ++ body ++ [c]) ++ slashes) by list_assoc.
    rewrite (strip_slashes_app_slashes _ _ Hs), (strip_slashes_keeps _ _ _ Hc).
    rewrite <- app_assoc; exact Hr. }
  apply G; [destruct secure; reflexivity|].
  unfold scheme_www_re, RSeqs; rewrite replace_first_bol, rmatch_scheme.
  destruct www.
  - destruct (opt_www_hit (rev (if secure then js "https://" else js "http://"))
                (body ++ [c]) (if secure then 8 else 7)) as (e & -> & He).
    cbn [repl_text app]; exact He.
  - cbn [app]; rewrite (opt_www_miss _ _ _ Hw); reflexivity.
Qed.

(** X24. Slashes at the end of the path do not count: two URLs with the
    same host whose paths differ only in slashes at the end have the same
    normal form for the history hash, hence the same URL hash, and the same
    normal form in [deduplicateItems]. *)
Theorem url_normalisation_ignores_trailing_slashes (u u' : jsval)
    (h p slashes : jsstring) :
  URL_parse u = Some (h, p) -> URL_parse u' = Some (h, p ++ slashes) ->
  forallb (N.eqb 47) slashes = true ->
  normalizeUrlForHash u' = normalizeUrlForHash u
  /\ normalizeUrl u' = normalizeUrl u
  /\ exists n, normalizeUrlForHash u = Ok n /\ normalizeUrlForHash u' = Ok n.
Proof.
  intros Hu Hu' Hs.
  assert (E : replace_first false trailing_slashes_re (RepLit [])
                (h ++ p ++ slashes)
              = replace_first false trailing_slashes_re (RepLit []) (h ++ p)).
  { rewrite !replace_trailing_slashes, app_assoc.
    apply strip_slashes_app_slashes, Hs. }
  unfold normalizeUrlForHash, normalizeUrl; rewrite Hu, Hu', E.
  split; [reflexivity|]; split; [reflexivity|].
  eexists; split; reflexivity.
Qed.

(** ** Titles in the history *)

Lemma titleHashOf_strips (t : jsstring) :
  titleHashOf (VStr t)
  = Ok (hashStr (toLowerCase (filter (fun c => negb (is_space c)) t))).
Proof.
  unfold titleHashOf, or_empty.
  assert (E : as_string (if truthy (VStr t) then VStr t else VStr []) = Ok t)
    by (destruct t; reflexivity).
  rewrite E; cbn [bind]; rewrite replace_all_spaces, squeeze_nothing.
  reflexivity.
Qed.

Lemma record_one_title_hash (dt : jsstring) (t : Z) (rows rows' : list row)
    (item : jsval) :
  record_one dt t rows item = Ok rows' ->
  (forall r, In r rows -> titleHashOf (VStr (row_title r)) = Ok (title_hash r)) ->
  forall r, In r rows' -> titleHashOf (VStr (row_title r)) = Ok (title_hash r).
Proof.
  unfold record_one.
  destruct (get item (js "url")) as [url|]; cbn [bind]; [|discriminate].
  destruct (normalizeUrlForHash url) as [nu|]; cbn [bind]; [|discriminate].
  destruct (get item (js "title")) as [title|]; cbn [bind]; [|discriminate].
  destruct (titleHashOf title) as [th|] eqn:Hth; cbn [bind]; [|discriminate].
  destruct (as_string (or_empty title)) as [tt|] eqn:Htt; cbn [bind];
    [|discriminate].
  destruct (bind_param (or_empty url)) as [u|]; cbn [bind]; [|discriminate].
  intros H Hold r Hr; injection H as <-.
  apply insert_or_ignore_origin in Hr; destruct Hr as [->|Hr]; [|apply Hold, Hr].
  cbn [row_title title_hash].
  unfold titleHashOf in Hth; rewrite Htt in Hth; cbn [bind] in Hth.
  rewrite titleHashOf_strips, <- Hth.
  rewrite replace_all_spaces, squeeze_nothing; reflexivity.
Qed.

(** X25. Suppression by title ignores white space and the URL: the table
    keeps with every row the hash of its own title, recording preserves
    that, and an item whose title differs from the title of a row inside
    the window only in white space is reported as pushed before, whatever
    its URL. *)
Theorem recorded_title_suppresses :
  (forall rows items digestType t rows',
     recordPushedItems (DbOpen rows) items digestType t = Ok (DbOpen rows') ->
     (forall r, In r rows ->
        titleHashOf (VStr (row_title r)) = Ok (title_hash r)) ->
     forall r, In r rows' ->
       titleHashOf (VStr (row_title r)) = Ok (title_hash r))
  /\ forall (rows : list row) (r : row) (item : jsval) (u t : jsstring)
       (hours now : Z),
     In r rows -> (now - hours * 3600 <= pushed_at r)%Z ->
     titleHashOf (VStr (row_title r)) = Ok (title_hash r) ->
     get item (js "url") = Ok (VStr u) ->
     get item (js "title") = Ok (VStr t) ->
     filter (fun c => negb (is_space c)) t
     = filter (fun c => negb (is_space c)) (row_title r) ->
     exists h, loadPushedHistory (DbOpen rows) hours now = Ok h
               /\ isItemPushedBefore h item = Ok true.
Proof.
  split.
  - intros rows items digestType t rows' H.
    cbn [recordPushedItems] in H.
    destruct (record_all digestType t rows items) as [rows1|] eqn:Hall;
      cbn [bind] in H; [|discriminate].
    injection H as <-; revert rows rows1 Hall.
    induction items as [|x items IH]; intros rows rows1 Hall Hold;
      cbn [record_all] in Hall.
    + injection Hall as <-; exact Hold.
    + destruct (record_one digestType t rows x) as [rows2|] eqn:H1;
        cbn [bind] in Hall; [|discriminate].
      apply (IH rows2 rows1 Hall), (record_one_title_hash _ _ _ _ _ H1 Hold).
  - intros rows r item u t hours now Hin Hw Hr Hu Ht Hf.
    eexists; split; [reflexivity|].
    unfold isItemPushedBefore; rewrite Hu; cbn [bind].
    destruct (normalizeUrlForHash_string u) as (nu & ->); cbn [bind].
    destruct (set_has (hashStr nu) _); [reflexivity|].
    rewrite Ht; cbn [bind]; rewrite titleHashOf_strips; cbn [bind].
    rewrite titleHashOf_strips in Hr; injection Hr as Hr.
    assert (Hs : set_has (hashStr (toLowerCase
                            (filter (fun c => negb (is_space c)) t)))
                   (titleHashes
                      (snapshot (filter (fun r0 => Z.leb (now - hours * 3600)
                                                        (pushed_at r0)) rows)))
                 = true).
    { rewrite Hf, Hr; cbn [snapshot titleHashes].
      apply set_has_In, set_of_list_spec, in_map.
      apply filter_In; split; [exact Hin | apply Z.leb_le, Hw]. }
    rewrite Hs; reflexivity.
Qed.

(** ** Separators in titles *)

Lemma normalizeTitle_filters (t : jsstring) :
  normalizeTitle (VStr t)
  = Ok (toLowerCase (filter (fun c => negb (title_separator c)) t)).
Proof.
  unfold normalizeTitle, or_empty.
  assert (E : as_string (if truthy (VStr t) then VStr t else VStr []) = Ok t)
    by (destruct t; reflexivity).
  rewrite E; cbn [bind].
  rewrite (replace_all_class false normalizeTitle_re title_separator []);
    [rewrite flat_map_filter; reflexivity|].
  intros s k; reflexivity.
Qed.

(** X26. Titles are compared without their separators: two titles that
    differ only in white space and in the punctuation that
    [normalizeTitle] removes have the same normal form, and they are
    similar unless that normal form is empty. *)
Theorem titles_equal_up_to_separators (t t' : jsstring) :
  filter (fun c => negb (title_separator c)) t
  = filter (fun c => negb (title_separator c)) t' ->
  normalizeTitle (VStr t) = normalizeTitle (VStr t')
  /\ titlesAreSimilar (VStr t) (VStr t')
     = Ok (nonempty (toLowerCase
                       (filter (fun c => negb (title_separator c)) t))).
Proof.
  intros H; rewrite !normalizeTitle_filters, <- H; split; [reflexivity|].
  unfold titlesAreSimilar; rewrite !normalizeTitle_filters, <- H; cbn [bind].
  destruct (toLowerCase _) as [|c s]; [reflexivity|].
  cbn [nonempty List.length Nat.ltb Nat.leb negb orb].
  rewrite str_eqb_refl; reflexivity.
Qed.

(** ** Items that are no duplicates *)

Lemma find_similar_none (item : jsval) (t : jsval) (seen : jsmap) :
  get item (js "title") = Ok t ->
  (forall k v, In (k, v) seen ->
     exists tv, get v (js "title") = Ok tv /\ titlesAreSimilar t tv = Ok false) ->
  find_similar item seen = Ok None.
Proof.
  intros Ht; induction seen as [|[k v] seen IH]; intros H; [reflexivity|].
  cbn [find_similar]; rewrite Ht; cbn [bind].
  destruct (H k v (or_introl eq_refl)) as (tv & E1 & E2).
  rewrite E1; cbn [bind]; rewrite E2; cbn [bind].
  apply IH; intros k' v' Hin; apply (H k' v'); right; exact Hin.
Qed.

Lemma map_get_some_key (k : jsstring) (m : jsmap) (v : jsval) :
  map_get k m = Some v -> In (k, v) m.
Proof.
  induction m as [|[k' v'] m IH]; simpl; [discriminate|].
  destruct (str_eqb k k') eqn:E.
  - intros H; injection H as ->; apply str_eqb_eq in E; subst k'.
    left; reflexivity.
  - intros H; right; apply IH, H.
Qed.

Lemma ordered_pair {A : Type} (R : A -> A -> Prop) (l1 l2 : list A) (a b : A) :
  ForallOrdPairs R (l1 ++ a :: l2) -> In b l2 -> R a b.
Proof.
  induction l1 as [|x l1 IH]; cbn [app]; intros H Hb; inversion H; subst.
  - match goal with F : Forall _ l2 |- _ => rewrite Forall_forall in F;
      apply F, Hb end.
  - apply IH; assumption.
Qed.

Lemma dedup_loop_distinct (items : list jsval) :
  forall (done : list jsval) (seen : jsmap),
  List.map snd seen = done ->
  (forall k v, In (k, v) seen -> item_key v = Ok k) ->
  ForallOrdPairs
    (fun a b => exists ka kb ta tb,
       item_key a = Ok ka /\ item_key b = Ok kb /\ ka <> kb
       /\ get a (js "title") = Ok ta /\ get b (js "title") = Ok tb
       /\ titlesAreSimilar tb ta = Ok false)
    (done ++ items) ->
  (forall i, In i items -> exists k, item_key i = Ok k) ->
  exists seen', dedup_loop (seen, done) items = Ok (seen', done ++ items).
Proof.
  induction items as [|x items IH]; intros done seen Hs Hk Hp Hkeys.
  - exists seen; rewrite app_nil_r; reflexivity.
  - cbn [dedup_loop dedup_step].
    destruct (Hkeys x (or_introl eq_refl)) as (kx & Kx).
    unfold dedup_step; rewrite Kx; cbn [bind].
    assert (Hpair : forall k v, In (k, v) seen ->
              exists ka kb ta tb,
                item_key v = Ok ka /\ item_key x = Ok kb /\ ka <> kb
                /\ get v (js "title") = Ok ta /\ get x (js "title") = Ok tb
                /\ titlesAreSimilar tb ta = Ok false).
    { intros k v Hin.
      assert (Hv : In v done)
        by (rewrite <- Hs; apply in_map_iff; exists (k, v); auto).
      apply in_split in Hv; destruct Hv as (d1 & d2 & ->).
      rewrite <- app_assoc in Hp; cbn [app] in Hp.
      apply (ordered_pair _ _ _ v x) in Hp;
        [exact Hp | apply in_or_app; right; left; reflexivity]. }
    assert (Hnone : map_get kx seen = None).
    { destruct (map_get kx seen) as [v|] eqn:Hg; [|reflexivity].
      pose proof (map_get_some_key _ _ _ Hg) as Hin.
      destruct (Hpair kx v Hin) as (ka & kb & _ & _ & Ka & Kb & Hne & _).
      rewrite (Hk _ _ Hin) in Ka; rewrite Kx in Kb; congruence. }
    rewrite Hnone.
    assert (Hfs : find_similar x seen = Ok None).
    { destruct seen as [|[k0 v0] seen0]; [reflexivity|].
      destruct (Hpair k0 v0 (or_introl eq_refl))
        as (_ & _ & _ & tx & _ & _ & _ & _ & Tx & _).
      apply (find_similar_none x tx _ Tx).
      intros k v Hin.
      destruct (Hpair k v Hin) as (_ & _ & ta & tb & _ & _ & _ & Ta & Tb & Hsim).
      rewrite Tx in Tb; injection Tb as <-; exists ta; auto. }
    rewrite Hfs; cbn [bind].
    destruct (map_get_none _ _ Hnone) as [_ Hset]; rewrite Hset.
    destruct (IH (done ++ [x]) (seen ++ [(kx, x)])) as (seen' & E).
    + rewrite map_app, Hs; reflexivity.
    + intros k v Hin; apply in_app_or in Hin; destruct Hin as [Hin|[Hin|[]]];
        [apply Hk, Hin | injection Hin as <- <-; exact Kx].
    + rewrite <- app_assoc; exact Hp.
    + intros i Hi; apply Hkeys; right; exact Hi.
    + exists seen'; rewrite E, <- app_assoc; reflexivity.
Qed.

(** X27. Items that are no duplicates are all kept, in their order: when
    the normalised URLs of the items are pairwise different and no item has
    a title similar to the title of an earlier one, [deduplicateItems]
    returns the list it was given. *)
Theorem deduplicateItems_keeps_non_duplicates (items : list jsval) :
  (forall i, In i items -> exists k, item_key i = Ok k) ->
  ForallOrdPairs
    (fun a b => exists ka kb ta tb,
       item_key a = Ok ka /\ item_key b = Ok kb /\ ka <> kb
       /\ get a (js "title") = Ok ta /\ get b (js "title") = Ok tb
       /\ titlesAreSimilar tb ta = Ok false)
    items ->
  deduplicateItems items = Ok items.
Proof.
  intros Hk Hp; unfold deduplicateItems.
  destruct (dedup_loop_distinct items [] []) as (seen' & E);
    [reflexivity | intros k v [] | exact Hp | exact Hk|].
  match goal with
  | |- bind ?x _ = _ =>
      replace x with (Ok (seen', items) : result (jsmap * list jsval))
        by (symmetry; exact E)
  end.
  reflexivity.
Qed.

(** ** The quote repair on a line *)

(** X28. The quote repair on a line of a text: in a line that holds one of
    the five keys and a value in quotes, with an optional comma behind it,
    [fixLlmJsonQuotes] puts a backslash before every double quote of the
    value that has none, up to the last quote of the line, and changes
    nothing else of that line; the repaired value has no unescaped quote
    left, and a second repair leaves the line as it is. *)
Theorem fixLlmJsonQuotes_repairs_value (pre post : list jsstring)
    (key value ws1 ws2 ws3 ws4 : jsstring) (comma : bool) :
  In key repaired_keys ->
  forallb is_space ws1 = true -> forallb is_space ws2 = true ->
  forallb is_space ws3 = true -> forallb is_space ws4 = true ->
  forallb (fun c => negb (is_line_terminator c)) value = true ->
  Forall (fun l => forallb plain_char l = true)
         (pre ++ key_value_line ws1 key ws2 ws3 value comma ws4 :: post) ->
  fixLlmJsonQuotes
    (join_lines (pre ++ key_value_line ws1 key ws2 ws3 value comma ws4 :: post))
  = join_lines
      (List.map fix_line pre
       ++ key_value_line ws1 key ws2 ws3 (escape_bare false value) comma ws4
       :: List.map fix_line post)
  /\ has_bare_quote false (escape_bare false value) = false
  /\ fix_line (key_value_line ws1 key ws2 ws3 (escape_bare false value)
                              comma ws4)
     = key_value_line ws1 key ws2 ws3 (escape_bare false value) comma ws4.
Proof.
  intros Hkey H1 H2 H3 H4 Hv Hplain.
  assert (Hfix : forall v,
            forallb (fun c => negb (is_line_terminator c)) v = true ->
            fix_line (key_value_line ws1 key ws2 ws3 v comma ws4)
            = key_value_line ws1 key ws2 ws3 (escape_bare false v) comma ws4).
  { intros v Hvv.
    destruct (keyPattern_match key v ws1 ws2 ws3 ws4 comma Hkey H1 H2 H3 H4 Hvv)
      as (e & He & Hc1 & Hc2 & Hc3).
    unfold fix_line, match_first.
    assert (Es : search false keyPattern []
                   (key_value_line ws1 key ws2 ws3 v comma ws4) 0
                 = Some (MState [] (key_value_line ws1 key ws2 ws3 v comma ws4)
                                0 [], e)).
    { unfold key_value_line.
      destruct (ws1 ++ 34%N :: key ++ 34%N :: ws2 ++ 58%N :: ws3 ++ 34%N :: v
                    ++ 34%N :: (if comma then [44%N] else []) ++ ws4);
        cbn [search]; rewrite He; reflexivity. }
    rewrite Es, Hc1, Hc2, Hc3, replace_all_bare_quotes.
    destruct (str_eqb (escape_bare false v) v) eqn:E; cbn [negb].
    - apply str_eqb_eq in E; rewrite E; reflexivity.
    - unfold key_value_line; list_assoc. }
  split; [|split].
  - unfold fixLlmJsonQuotes.
    assert (Hq : forall a, In a [0x201C; 0x201D; 0x201E; 0x2033; 0xFF02]%N ->
               forallb (fun c => negb (N.eqb a c))
                 (join_lines (pre ++ key_value_line ws1 key ws2 ws3 value comma
                                       ws4 :: post)) = true).
    { intros a Ha; apply plain_join_lines.
      - cbn [In] in Ha;
          destruct Ha as [<-|[<-|[<-|[<-|[<-|[]]]]]]; reflexivity.
      - eapply Forall_impl; [|exact Hplain].
        intros l; apply forallb_weaken.
        intros c Hc; unfold plain_char in Hc.
        apply andb_true_iff in Hc as [_ Hc]; apply negb_true_iff in Hc.
        apply negb_true_iff; apply N.eqb_neq; intros <-.
        assert (existsb (N.eqb a) [0x201C; 0x201D; 0x201E; 0x2033; 0xFF02]%N
                = true)
          by (apply existsb_exists; exists a; split;
              [exact Ha | apply N.eqb_refl]).
        congruence. }
    cbn [fold_left].
    rewrite (replace_char_absent 0x201C) by (apply Hq; cbn [In]; auto 10).
    rewrite (replace_char_absent 0x201D) by (apply Hq; cbn [In]; auto 10).
    rewrite (replace_char_absent 0x201E) by (apply Hq; cbn [In]; auto 10).
    rewrite (replace_char_absent 0x2033) by (apply Hq; cbn [In]; auto 10).
    rewrite (replace_char_absent 0xFF02) by (apply Hq; cbn [In]; auto 10).
    rewrite split_join_lines.
    + rewrite map_app; cbn [List.map]; rewrite Hfix by exact Hv; reflexivity.
    + destruct pre; discriminate.
    + eapply Forall_impl; [|exact Hplain].
      intros l; apply forallb_weaken.
      intros c Hc; unfold plain_char in Hc.
      apply andb_true_iff in Hc as [Hc _]; exact Hc.
  - apply escape_bare_clean.
  - rewrite Hfix by (apply escape_bare_keeps_lines; exact Hv).
    rewrite escape_bare_fixed by apply escape_bare_clean; reflexivity.
Qed.

(** ** Elements of a feed *)

(** X29. [xmlText] reads the text of an element: for the first element of
    the tag in a block, with any attributes and with or without a CDATA
    section around its text, it returns the text with the tags stripped; for
    a text without ampersand that is the text, trimmed and with every run
    of white space turned into one space.  (The tag consists of letters and
    colons and does not open earlier in the block; the text holds no
    opening angle and no closing square bracket.) *)
Theorem xmlText_reads_element (pre tag attrs t rest : jsstring) (cdata : bool) :
  forallb tag_name_char tag = true ->
  occurs_ci (60%N :: tag) pre = false ->
  forallb (fun c => negb (N.eqb c 62)) attrs = true ->
  forallb (fun c => negb (N.eqb c 60) && negb (N.eqb c 93)) t = true ->
  xmlText (element_in pre tag attrs cdata t rest) tag = stripHtml (trim t)
  /\ (forallb (fun c => negb (N.eqb c 38)) t = true ->
      xmlText (element_in pre tag attrs cdata t rest) tag
      = trim (squeeze [32%N] false (trim t))).
Proof.
  intros Hname Hpre Ha Ht.
  assert (Htag : forallb (fun c => negb (N.eqb c 60)) tag = true).
  { revert Hname; apply forallb_weaken; intros c Hc.
    destruct (N.eqb_spec c 60) as [->|]; [discriminate Hc | reflexivity]. }
  assert (E : xmlText (element_in pre tag attrs cdata t rest) tag
              = stripHtml (trim t)).
  { destruct (xmlText_re_match tag attrs t rest (rev pre ++ [])
                (0 + List.length pre) cdata Ha Ht) as (e & He & Hcap).
    unfold xmlText, match_first, element_in.
    rewrite search_pass.
    - rewrite (search_here _ _ _ _ _ _ He), Hcap; reflexivity.
    - intros a c b E bef' p'; apply xmlText_re_miss.
      rewrite starts_with_ci_before by exact Htag.
      apply (occurs_ci_split (60%N :: tag) a); rewrite <- E; exact Hpre.
    - discriminate. }
  split; [exact E|].
  intros Hamp; rewrite E; unfold stripHtml.
  assert (Hlt : forallb (fun c => negb (N.eqb c 60)) (trim t) = true).
  { apply forallb_trim; revert Ht; apply forallb_weaken.
    intros c Hc; apply andb_true_iff in Hc as [Hc _]; exact Hc. }
  assert (Ham : forallb (fun c => negb (N.eqb c 38)) (trim t) = true)
    by (apply forallb_trim; exact Hamp).
  rewrite replace_all_tags_absent by exact Hlt.
  change (js "&amp;") with (38%N :: js "amp;").
  change (js "&lt;") with (38%N :: js "lt;").
  change (js "&gt;") with (38%N :: js "gt;").
  change (js "&quot;") with (38%N :: js "quot;").
  change (js "&#39;") with (38%N :: js "#39;").
  rewrite (replace_all_lit_absent 38 (js "amp;")) by exact Ham.
  rewrite (replace_all_lit_absent 38 (js "lt;")) by exact Ham.
  rewrite (replace_all_lit_absent 38 (js "gt;")) by exact Ham.
  rewrite (replace_all_lit_absent 38 (js "quot;")) by exact Ham.
  rewrite (replace_all_lit_absent 38 (js "#39;")) by exact Ham.
  rewrite replace_all_spaces; reflexivity.
Qed.

(** X30. An [item] element without content makes [fetchRss] throw a
    [TypeError], whatever follows it and whatever the limit, zero apart: its
    block is the empty string, which counts as missing, and the block of an
    [entry] element is [undefined].  An [entry] element without content is
    skipped.  (No [item] and no [entry] element opens before the element; in
    the second case none opens behind it.) *)
Theorem empty_item_raises (pre attrs rest : jsstring) (limit : nat) :
  occurs_ci (js "<item") pre = false ->
  occurs_ci (js "<entry") pre = false ->
  forallb (fun c => negb (N.eqb c 62)) attrs = true ->
  (0 < limit ->
   parse_feed (pre ++ js "<item" ++ attrs ++ 62%N :: js "</item>" ++ rest) limit
   = Throw TypeError)
  /\ (occurs_ci (js "<item") rest = false ->
      occurs_ci (js "<entry") rest = false ->
      parse_feed (pre ++ js "<entry" ++ attrs ++ 62%N :: js "</entry>" ++ rest)
                 limit
      = Ok []).
Proof.
  intros Hp1 Hp2 Ha.
  assert (Hskip : forall x, forall a c b, pre = a ++ c :: b -> forall bef' p',
            rmatch true feed_item_re
                   (MState bef' (c :: b ++ 60%N :: x) p' [])
                   (fun e => Some e) = None).
  { intros x a c b E bef' p'; apply feed_item_re_miss.
    - change (js "<item") with (60%N :: js "item").
      rewrite starts_with_ci_before by reflexivity.
      apply (occurs_ci_split _ a); rewrite <- E; exact Hp1.
    - change (js "<entry") with (60%N :: js "entry").
      rewrite starts_with_ci_before by reflexivity.
      apply (occurs_ci_split _ a); rewrite <- E; exact Hp2. }
  split.
  - intros Hlim.
    destruct (feed_item_re_empty_item attrs rest (rev pre ++ [])
                (0 + List.length pre) Ha) as (e & He & Hcaps & Hpos).
    unfold parse_feed, scan_all; cbn [scan].
    rewrite search_pass by (apply Hskip || discriminate).
    rewrite (search_here _ _ _ _ _ _ He); cbn [pos].
    apply Nat.ltb_lt in Hpos; rewrite Hpos.
    destruct (scan true feed_item_re _ (before e) (after e) (pos e)) as [ms tl].
    cbn [fst feed_loop List.length].
    apply Nat.ltb_lt in Hlim; rewrite Hlim.
    unfold block_of; rewrite Hcaps; reflexivity.
  - intros Hr1 Hr2.
    destruct (feed_item_re_empty_entry attrs rest (rev pre ++ [])
                (0 + List.length pre) Ha) as (e & He & Hcaps & Hpos & Haft).
    unfold parse_feed, scan_all; cbn [scan].
    rewrite search_pass by (apply Hskip || discriminate).
    rewrite (search_here _ _ _ _ _ _ He); cbn [pos].
    apply Nat.ltb_lt in Hpos; rewrite Hpos.
    pose proof (scan_none true feed_item_re
                  (List.length (pre ++ js "<entry" ++ attrs ++ 62%N
                                    :: js "</entry>" ++ rest))
                  (before e) (after e) (pos e)) as Hn.
    destruct (scan true feed_item_re _ (before e) (after e) (pos e)) as [ms tl].
    cbn [fst] in *.
    rewrite Hn.
    + cbn [fst feed_loop List.length].
      destruct (Nat.ltb 0 limit); [|reflexivity].
      unfold block_of; rewrite Hcaps; reflexivity.
    + rewrite Haft; apply search_pass_all.
      * intros a c b E bef' p'; apply feed_item_re_miss.
        -- apply (occurs_ci_split _ a); rewrite <- E; exact Hr1.
        -- apply (occurs_ci_split _ a); rewrite <- E; exact Hr2.
      * intros bef' p'; apply feed_item_re_end.
Qed.

End Properties.

(** ** The program on the sample data, over the reference runtime *)

(** C1 on a table that holds the story since time 0: a made-up item and the
    story are recorded 80 hours later; the row of the made-up item is the
    one of the call, and an hour later the item counts as pushed before. *)
Lemma suppression_after_record_witness :
  exists db' h,
    recordPushedItems story_db [story; made_up_item] (js "4h") hours80 = Ok db'
    /\ loadPushedHistory db' 72 (hours80 + 3600) = Ok h
    /\ isItemPushedBefore h made_up_item = Ok true.
Proof.
  destruct (recordPushedItems story_db [story; made_up_item] (js "4h") hours80)
    as [db'|] eqn:E; [|vm_compute in E; discriminate E].
  destruct (suppression_after_record _ _ _ _ _ made_up_item
              (VStr (js "https://fabricated.example/x")) E)
    as (rows' & r & nu & -> & _ & Hn & _ & _ & Hnew & Hs).
  - right; left; reflexivity.
  - reflexivity.
  - vm_compute in Hn; injection Hn as <-.
    assert (Ht : pushed_at r = hours80).
    { apply Hnew; intros r0 [<-|[]]; vm_compute; discriminate. }
    destruct (Hs made_up_item 72%Z (hours80 + 3600)%Z) as (h & Hl & Hp).
    + reflexivity.
    + rewrite Ht; vm_compute; discriminate.
    + exists (DbOpen rows'), h; auto.
Defined.

(** A URL given as an array of one string is recorded as that string: the
    array converts to the string for the hash, and the driver binds its
    element to the [url] column; an empty array is refused by the driver.
    And a handle whose table could not be created stays in the cache: the
    first call of [getPushDbAsync] returns [null], the second one the
    handle. *)
Lemma array_url_is_recorded :
  recordPushedItems (DbOpen []) [story_array_url] (js "4h") 0 = Ok story_db
  /\ bind_param (VArr []) = Throw RangeError
  /\ getPushDbAsync DbNull FileNoTable = (DbNull, DbFaulty)
  /\ getPushDbAsync (snd (getPushDbAsync DbNull FileNoTable)) FileNoTable
     = (DbFaulty, DbFaulty).
Proof. repeat split; vm_compute; reflexivity. Qed.

(** The row kept for a URL is the first one: the story is recorded at time 0
    and again 80 hours later; the second insert is ignored, the table still
    holds the row of time 0 only, and a 72-hour window at the time of the
    second call, which does not cover that row, does not suppress the
    story. *)
Lemma second_record_keeps_first_row :
  (db1 <- recordPushedItems (DbOpen []) [story] (js "4h") 0 ;;
   recordPushedItems (cleanOldPushedItems db1 7 hours80) [story]
     (js "4h") hours80)%js = Ok story_db
  /\ (db1 <- recordPushedItems (DbOpen []) [story] (js "4h") 0 ;;
      db2 <- recordPushedItems (cleanOldPushedItems db1 7 hours80) [story]
               (js "4h") hours80 ;;
      h <- loadPushedHistory db2 72 hours80 ;;
      isItemPushedBefore h story)%js = Ok false.
Proof. split; vm_compute; reflexivity. Qed.

(** C2 on two spellings that differ in the [www.] prefix only: the history
    normaliser keeps the prefix, so the normalised forms and the hashes
    differ, while the batch-local normaliser of [main] maps both spellings
    to the same text. *)
Lemma normalizeUrlForHash_keeps_www :
  normalizeUrlForHash (VStr (js "https://www.example.com/a"))
  = Ok (js "www.example.com/a")
  /\ normalizeUrlForHash (VStr (js "https://example.com/a"))
     = Ok (js "example.com/a")
  /\ hashStr (js "www.example.com/a") = js "2680d284a82a0108"
  /\ hashStr (js "example.com/a") = js "036cbe16b0015b0a"
  /\ batchNormUrl (VStr (js "https://www.example.com/a"))
     = Ok (js "example.com/a")
  /\ batchNormUrl (VStr (js "https://example.com/a")) = Ok (js "example.com/a").
Proof. repeat split; vm_compute; reflexivity. Qed.

(** C3, as stated, fails: the answer of the model names a URL that is not
    among the fetched items, and the item is returned all the same. *)
Lemma fabricated_url_is_kept :
  generateDigest fetched_real (js "4h") (VStr answer_fabricated)
  = Ok (Structured [made_up_item])
  /\ get made_up_item (js "url") = Ok (VStr (js "https://fabricated.example/x"))
  /\ forall f, In f fetched_real ->
       get f (js "url") <> Ok (VStr (js "https://fabricated.example/x")).
Proof.
  split; [vm_compute; reflexivity|]; split; [vm_compute; reflexivity|].
  intros f [<-|[]]; vm_compute; discriminate.
Qed.

(** The amended C3 on the answer with the fabricated URL. *)
Lemma generateDigest_items_from_answer_witness :
  (forall otherItems,
     prompt_throws otherItems = false ->
     generateDigest otherItems (js "4h") (VStr answer_fabricated)
     = Ok (Structured [made_up_item]))
  /\ exists text candidate parsed,
       VStr answer_fabricated = VStr text
       /\ In candidate (jsonCandidates (baseCandidates (trim text)))
       /\ JSON_parse candidate = Ok parsed
       /\ forall i, In i [made_up_item] ->
            In i (match parsed with VArr l => l | v => [v] end)
            /\ is_valid i = Ok true.
Proof.
  apply (generateDigest_items_from_answer fetched_real (js "4h")
           (VStr answer_fabricated) [made_up_item]).
  vm_compute; reflexivity.
Defined.

(** C4, as stated, fails: the answer of the model has five high-priority
    items with different URLs and dissimilar titles, and all five are
    returned. *)
Lemma five_hot_items_are_kept :
  generateDigest fetched_real (js "4h") (VStr answer_five_hot)
  = Ok (Structured five_hot_items)
  /\ List.length (hotItems five_hot_items) = 5.
Proof. split; vm_compute; reflexivity. Qed.

(** The amended C4 on the answer with five high-priority items. *)
Lemma generateDigest_hot_not_capped_witness :
  exists text structuredItems,
    VStr answer_five_hot = VStr text
    /\ first_valid (jsonCandidates (baseCandidates (trim text)))
       = Some structuredItems
    /\ List.length (hotItems five_hot_items)
       <= List.length (hotItems structuredItems)
    /\ List.length five_hot_items <= List.length structuredItems.
Proof.
  apply (generateDigest_hot_not_capped fetched_real (js "4h") (VStr answer_five_hot)
           five_hot_items).
  vm_compute; reflexivity.
Defined.

(** C5. The scenario of the specification is not repaired: the raw output
    is a single line that begins with a bracket, so no line starts with a
    key and the quote repair changes nothing; the text does not parse, no
    candidate of the cascade yields an item, the digest falls back to the
    raw text without items, and the rescue of the push step finds nothing
    either.  The same holds of every answer on one line: the repair leaves
    a line alone unless its first character after white space is a double
    quote. *)
Theorem scenario_one_line_is_not_repaired :
  JSON_parse scenario_one_line = Throw SyntaxError
  /\ fixLlmJsonQuotes scenario_one_line = scenario_one_line
  /\ first_valid (jsonCandidates (baseCandidates scenario_one_line)) = None
  /\ generateDigest fetched_real (js "4h") (VStr scenario_one_line)
     = Ok (RawText scenario_one_line)
  /\ tryRescueJsonItems (VStr scenario_one_line) = None
  /\ forall (ws : jsstring) (c : N) (rest : jsstring),
       forallb is_space ws = true -> is_space c = false -> c <> 34%N ->
       forallb plain_char (ws ++ c :: rest) = true ->
       fixLlmJsonQuotes (ws ++ c :: rest) = ws ++ c :: rest.
Proof.
  split; [vm_compute; reflexivity|].
  split; [vm_compute; reflexivity|].
  split; [vm_compute; reflexivity|].
  split; [vm_compute; reflexivity|].
  split; [vm_compute; reflexivity|].
  exact fixLlmJsonQuotes_one_line.
Qed.

(** Laid out with one member per line, the answer of the scenario is
    repaired: the raw output does not parse, the repair escapes the two
    quotes inside the summary, and the cascade yields exactly one valid
    item, whose summary holds the quoted word. *)
Lemma scenario_lines_is_repaired :
  JSON_parse scenario_lines = Throw SyntaxError
  /\ fixLlmJsonQuotes scenario_lines = scenario_lines_repaired
  /\ first_valid (jsonCandidates (baseCandidates scenario_lines))
     = Some [scenario_item]
  /\ generateDigest fetched_real (js "4h") (VStr scenario_lines)
     = Ok (Structured [scenario_item])
  /\ get scenario_item (js "summary") = Ok (VStr (jsq "He said 'hello'")).
Proof. repeat split; vm_compute; reflexivity. Qed.

(** C6 on four fetched items: the one dated ten months before the run is
    stale and dropped; the one whose date does not parse is not stale and
    is appended to the survivors; the one without a date, fetched a second
    time at the end, is then removed by the batch dedup, its URL having
    been seen. *)
Lemma staleness_filter_witness :
  isStale run_time_ms (Some 72%Z) old_item = true
  /\ ~ In old_item (dedupedItems sample_prededup)
  /\ isStale run_time_ms (Some 72%Z) odd_date_item = false
  /\ (exists st0 later,
        preDedup run_time_ms (Some 72%Z) DbNull empty_history
                 [old_item; undated_item] = Ok st0
        /\ dedupedItems sample_prededup
           = dedupedItems st0 ++ [odd_date_item] ++ later)
  /\ (exists st0 later,
        preDedup run_time_ms (Some 72%Z) DbNull empty_history
                 [old_item; undated_item; odd_date_item] = Ok st0
        /\ dedupedItems sample_prededup = dedupedItems st0 ++ [] ++ later
        /\ removed_by_dedup DbNull empty_history st0 undated_item).
Proof.
  destruct (staleness_filter run_time_ms (Some 72%Z) DbNull empty_history
              [old_item; undated_item; odd_date_item; undated_item]
              sample_prededup)
    as (Hold & Hkeep & Hpos & _).
  - vm_compute; reflexivity.
  - destruct (Hold old_item (VStr (js "2026-01-01T00:00:00Z"))
                1767225600000%Z 72%Z) as [H1 H2];
      try (vm_compute; reflexivity);
      [left; reflexivity | left; reflexivity|].
    assert (H3 : isStale run_time_ms (Some 72%Z) odd_date_item = false).
    { apply (Hkeep odd_date_item (VStr (js "yesterday")));
        [vm_compute; reflexivity | right; left; vm_compute; reflexivity]. }
    split; [exact H1|]; split; [exact H2|]; split; [exact H3|]; split.
    + destruct (Hpos [old_item; undated_item] odd_date_item [undated_item]
                  eq_refl H3) as (st0 & kept & later & E0 & Ed & Hk & _).
      exists st0, later; split; [exact E0|].
      destruct Hk as [[Hr _]|[_ ->]]; [exfalso | exact Ed].
      vm_compute in E0; injection E0 as <-.
      destruct Hr as [(url & n & Hu & Hn & _ & Hs)|[Hdb _]];
        [|discriminate Hdb].
      vm_compute in Hu; injection Hu as <-.
      vm_compute in Hn; injection Hn as <-.
      vm_compute in Hs; discriminate Hs.
    + destruct (Hpos [old_item; undated_item; odd_date_item] undated_item []
                  eq_refl) as (st0 & kept & later & E0 & Ed & Hk & _);
        [vm_compute; reflexivity|].
      exists st0, later; split; [exact E0|].
      destruct Hk as [[Hr ->]|[Hr _]]; [split; [exact Ed | exact Hr]|].
      exfalso; apply Hr; left.
      vm_compute in E0; injection E0 as <-.
      exists (VStr (js "https://example.com/undated")),
        (js "example.com/undated").
      repeat split; vm_compute; reflexivity.
Defined.

(** C8 on three items: the high-priority third item is similar to the first
    and replaces it; it is similar to the second as well, which stays, so
    the result holds two different items with similar titles, although the
    two general items were not similar. *)
Lemma deduplicateItems_leaves_similar_titles :
  deduplicateItems [dedup_x; dedup_y; dedup_z] = Ok [dedup_z; dedup_y]
  /\ (tz <- get dedup_z (js "title") ;; ty <- get dedup_y (js "title") ;;
      titlesAreSimilar tz ty)%js = Ok true
  /\ (tx <- get dedup_x (js "title") ;; ty <- get dedup_y (js "title") ;;
      titlesAreSimilar tx ty)%js = Ok false
  /\ dedup_z <> dedup_y.
Proof. repeat split; try (vm_compute; reflexivity); discriminate. Qed.

(** C10 on two items without a URL and with unrelated titles: after the
    first has been recorded the second counts as pushed before. *)
Lemma url_less_items_share_hash_witness :
  normalizeUrlForHash VUndef = Ok []
  /\ normalizeUrlForHash (VStr []) = Ok []
  /\ exists h, loadPushedHistory rescued_db 72 3600 = Ok h
               /\ isItemPushedBefore h rescued_two = Ok true.
Proof.
  destruct (url_less_items_share_hash (RT := reference_runtime)) as [Hn Hr].
  split; [apply Hn; reflexivity|]; split; [apply Hn; reflexivity|].
  destruct (Hr [] [rescued_one] (js "daily") 0%Z rescued_db rescued_one VUndef)
    as (rows' & r & Hdb & Hin & Hh & _ & Hs).
  - vm_compute; reflexivity.
  - left; reflexivity.
  - vm_compute; reflexivity.
  - reflexivity.
  - injection Hdb as <-; destruct Hin as [<-|[]].
    apply (Hs rescued_two (VStr []) 72%Z 3600%Z).
    + vm_compute; reflexivity.
    + reflexivity.
    + vm_compute; discriminate.
Defined.

(** ** The concrete scenarios of the specification *)

(** Two fetched items whose URLs differ in scheme, [www.] and trailing slash
    collapse to one in the batch-local stage. *)
Example scenario_batch_collapse :
  match preDedup run_time_ms (Some 72%Z) DbNull empty_history
          [obj [("url", js "http://example.com/a")]%string;
           obj [("url", js "https://www.example.com/a/")]%string] with
  | Ok st => dedupedItems st = [obj [("url", js "http://example.com/a")]%string]
  | Throw _ => False
  end.
Proof. vm_compute; reflexivity. Qed.

(** A record of the story that is 10 hours old suppresses the story within
    the 72-hour window. *)
Example scenario_history_suppression :
  (h <- loadPushedHistory story_db 72 36000 ;; isItemPushedBefore h story)%js
  = Ok true.
Proof. vm_compute; reflexivity. Qed.

(** Two synthesized items on the same funding round, one high-priority and
    one general: only the high-priority one is kept, in either order. *)
Example scenario_priority_tie_break :
  deduplicateItems
    [hot_item "OpenAI raises $500M" "https://a.example/1";
     general_item "OpenAI secures $500 million funding" "https://b.example/2"]
  = Ok [hot_item "OpenAI raises $500M" "https://a.example/1"]
  /\ deduplicateItems
       [general_item "OpenAI secures $500 million funding" "https://b.example/2";
        hot_item "OpenAI raises $500M" "https://a.example/1"]
     = Ok [hot_item "OpenAI raises $500M" "https://a.example/1"].
Proof. split; vm_compute; reflexivity. Qed.

(** ** The further properties on concrete data *)

(** X1 on a text with two items without a URL. *)
Lemma tryRescueJsonItems_sound_witness :
  [rescued_one; rescued_two] <> []
  /\ (exists s, VStr answer_without_urls = VStr s
                /\ (starts_with (js "[") (trim s) = true
                    \/ starts_with (js "{") (trim s) = true))
  /\ forall i, In i [rescued_one; rescued_two] ->
       exists t m, get i (js "title") = Ok t /\ get i (js "summary") = Ok m
                   /\ truthy t = true /\ truthy m = true.
Proof.
  apply (tryRescueJsonItems_sound (VStr answer_without_urls)).
  vm_compute; reflexivity.
Defined.

(** X2 on the same text as the answer of the model. *)
Lemma rescue_after_fallback_has_no_url_witness :
  tryRescueJsonItems (VStr answer_without_urls)
  = Some [rescued_one; rescued_two]
  /\ forall i, In i [rescued_one; rescued_two] ->
       exists u, get i (js "url") = Ok u /\ truthy u = false.
Proof.
  split; [vm_compute; reflexivity|].
  apply (rescue_after_fallback_has_no_url fetched_real (js "daily")
           (VStr answer_without_urls) answer_without_urls);
    vm_compute; reflexivity.
Defined.

(** X3: recording the two rescued items into the empty table adds one
    row. *)
Lemma rescued_push_records_one_row_witness :
  exists r, rescued_db = DbOpen ([] ++ [r]) /\ url_hash r = hashStr []
            /\ pushed_at r = 0%Z /\ digest_type r = js "daily".
Proof.
  apply (rescued_push_records_one_row fetched_real (js "daily")
           (VStr answer_without_urls) answer_without_urls
           [rescued_one; rescued_two] [] 0 rescued_db);
    vm_compute; reflexivity.
Defined.

(** X4: recording [story] again 80 hours later changes nothing. *)
Lemma recordPushedItems_idempotent_witness :
  recordPushedItems story_db [story] (js "daily") hours80 = Ok story_db.
Proof.
  apply (recordPushedItems_idempotent (DbOpen []) story_db [story] (js "4h")
           (js "daily") 0 hours80).
  vm_compute; reflexivity.
Defined.

(** X5: recording a new item after [story]. *)
Lemma recordPushedItems_appends_witness :
  exists added,
    recordPushedItems story_db [story; made_up_item] (js "4h") hours80
    = Ok (DbOpen ([Row (js "514fa6e019d348c3") (js "cb29803c0f61f6ad")
                       (js "Story one") (VStr (js "https://example.com/story-1"))
                       (js "4h") 0] ++ added))
    /\ List.length added <= 2
    /\ (forall r, In r added -> pushed_at r = hours80 /\ digest_type r = js "4h").
Proof.
  destruct (recordPushedItems story_db [story; made_up_item] (js "4h") hours80)
    as [db'|] eqn:E; [|vm_compute in E; discriminate E].
  destruct (recordPushedItems_appends _ _ _ _ _ E) as (added & -> & Hl & Hr & _).
  exists added; split; [reflexivity | split; assumption].
Defined.

(** X6: the pruning of [main] before a load of 72 hours. *)
Lemma prune_keeps_window_witness :
  loadPushedHistory (cleanOldPushedItems story_db 7 hours80) 72 hours80
  = loadPushedHistory story_db 72 hours80.
Proof. apply prune_keeps_window; vm_compute; discriminate. Defined.

(** X7 on a handle whose statements throw. *)
Lemma unreadable_history_suppresses_nothing_witness :
  empty_history = empty_history
  /\ historySkipped sample_prededup = 0
  /\ preDedup run_time_ms (Some 72%Z) DbNull empty_history
       [old_item; undated_item; odd_date_item] = Ok sample_prededup.
Proof.
  apply (unreadable_history_suppresses_nothing run_time_ms 0 (Some 72%Z)
           DbFaulty [old_item; undated_item; odd_date_item] empty_history
           sample_prededup).
  - intros rows; discriminate.
  - reflexivity.
  - vm_compute; reflexivity.
Defined.

(** X8 and X9 on the three dated and undated items. *)
Lemma preDedup_keeps_order_witness :
  subseq (dedupedItems sample_prededup) [old_item; undated_item; odd_date_item]
  /\ List.length (dedupedItems sample_prededup)
     + historySkipped sample_prededup + staleSkipped sample_prededup <= 3.
Proof.
  apply (preDedup_keeps_order run_time_ms (Some 72%Z) DbNull empty_history
           [old_item; undated_item; odd_date_item] sample_prededup).
  vm_compute; reflexivity.
Defined.

Lemma preDedup_distinct_urls_witness :
  exists urls,
    Forall2 (fun item n => exists url, get item (js "url") = Ok url
                                       /\ batchNormUrl url = Ok n)
            (dedupedItems sample_prededup) urls
    /\ NoDup (filter nonempty urls)
    /\ incl (filter nonempty urls) (seenUrls sample_prededup)
    /\ NoDup (seenUrls sample_prededup).
Proof.
  refine (proj1 (preDedup_distinct_urls run_time_ms (Some 72%Z) DbNull
                   empty_history [old_item; undated_item; odd_date_item]
                   sample_prededup _)).
  vm_compute; reflexivity.
Defined.

(** X10: a maximum age that is no number. *)
Lemma nan_max_age_disables_filter_witness :
  staleSkipped (PreDedup [js "example.com/old"] [old_item] 0 0) = 0
  /\ forall item,
       isStale run_time_ms (MAX_ARTICLE_AGE_HOURS (Some (js "three days")) None)
               item = false.
Proof.
  apply (nan_max_age_disables_filter (Some (js "three days")) None run_time_ms
           DbNull empty_history [old_item]); vm_compute; reflexivity.
Defined.

(** X11 and X12 on the three items of the C8 example. *)
Lemma deduplicateItems_no_shared_url_witness :
  incl [dedup_z; dedup_y] [dedup_x; dedup_y; dedup_z]
  /\ 2 <= 3
  /\ NoDup [dedup_z; dedup_y]
  /\ (forall x, In x [dedup_z; dedup_y] -> exists k, item_key x = Ok k)
  /\ forall x y, In x [dedup_z; dedup_y] -> In y [dedup_z; dedup_y] ->
       item_key x = item_key y -> x = y.
Proof.
  apply (deduplicateItems_no_shared_url [dedup_x; dedup_y; dedup_z]).
  vm_compute; reflexivity.
Defined.

Lemma deduplicateItems_keeps_priority_witness :
  existsb is_hot [dedup_z; dedup_y] = true.
Proof.
  apply (deduplicateItems_keeps_priority [dedup_x; dedup_y; dedup_z]);
    vm_compute; reflexivity.
Defined.

(** X13: the second, high-priority item takes the place of the first. *)
Lemma deduplicateItems_tie_break_witness :
  deduplicateItems [tie_first; tie_second]
  = Ok [if is_hot tie_second && negb (is_hot tie_first)
        then tie_second else tie_first]
  /\ is_hot tie_second && negb (is_hot tie_first) = true.
Proof.
  split; [|vm_compute; reflexivity].
  apply (deduplicateItems_tie_break tie_first tie_second
           (js "a.example/1") (js "a.example/1")
           (VStr (js "Alpha launch")) (VStr (js "Beta report")));
    try (vm_compute; reflexivity).
  left; reflexivity.
Defined.

(** X27: the two general items of the C8 example are kept as they are. *)
Lemma deduplicateItems_keeps_non_duplicates_witness :
  deduplicateItems [dedup_x; dedup_y] = Ok [dedup_x; dedup_y].
Proof.
  apply deduplicateItems_keeps_non_duplicates.
  - intros i [<-|[<-|[]]]; eexists; vm_compute; reflexivity.
  - constructor; [|constructor; constructor].
    constructor; [|constructor].
    exists (js "a.example/1"), (js "b.example/2"),
           (VStr (js "OpenAI raises funding")), (VStr (js "Google ships model")).
    repeat split; try (vm_compute; reflexivity).
    vm_compute; discriminate.
Defined.

(** X14 on a title and on a title made of punctuation only. *)
Lemma titlesAreSimilar_self_witness :
  titlesAreSimilar (VStr (js "Hello, World")) (VStr (js "Hello, World")) = Ok true
  /\ titlesAreSimilar (VStr (js "?!")) (VStr (js "?!")) = Ok false.
Proof.
  split.
  - apply (titlesAreSimilar_self (VStr (js "Hello, World")) (js "helloworld")).
    vm_compute; reflexivity.
  - apply (titlesAreSimilar_self (VStr (js "?!")) []).
    vm_compute; reflexivity.
Defined.

(** X15: the value after the first equals sign, although a [--type weekly]
    pair comes first. *)
Lemma getArg_equals_form_witness :
  getArg [js "--type"; js "weekly"; js "--type=a=b"; js "--deep"] (js "--type")
  = VStr (js "a=b").
Proof.
  apply (getArg_equals_form (js "--type") (js "a=b")
           [js "--type"; js "weekly"] [js "--deep"]).
  - intros c Hc; vm_compute in Hc.
    repeat (destruct Hc as [<-|Hc]; [discriminate|]); destruct Hc.
  - intros a [<-|[<-|[]]]; vm_compute; reflexivity.
Defined.

(** X16: a padded assignment with an equals sign in the value, over an
    earlier one. *)
Lemma env_line_assigns_witness :
  env_get (env_line [(js "API_KEY", js "old")] (js "  API_KEY = a=b  "))
          (js "API_KEY")
  = Some (js "a=b").
Proof.
  apply (env_line_assigns [(js "API_KEY", js "old")] (js "API_KEY") (js "a=b")
           (js "  ") (js " ") (js " ") (js "  "));
    try (vm_compute; reflexivity); try discriminate.
  intros c Hc; vm_compute in Hc.
  repeat (destruct Hc as [<-|Hc]; [discriminate|]); destruct Hc.
Defined.

(** X19 and X20 on a feed with one item. *)
Lemma parse_feed_items_witness :
  List.length [sample_feed_item] <= 20
  /\ forall item, In item [sample_feed_item] ->
       exists title url description pubDate author,
         item = VObj [(js "title", VStr title); (js "url", VStr url);
                      (js "description", VStr description);
                      (js "pubDate", VStr pubDate); (js "author", VStr author)]
         /\ (title <> [] \/ url <> [])
         /\ List.length description <= 400.
Proof.
  apply (parse_feed_items sample_feed 20); vm_compute; reflexivity.
Defined.

Lemma feed_items_never_raise_witness :
  (exists st,
     preDedup run_time_ms (Some 72%Z) story_db empty_history
       [tag_item (VStr (js "Example feed")) (VStr (js "rss")) sample_feed_item]
     = Ok st)
  /\ prompt_throws
       [tag_item (VStr (js "Example feed")) (VStr (js "rss")) sample_feed_item]
     = false.
Proof.
  apply feed_items_never_raise.
  intros i [<-|[]].
  exists sample_feed, 20, [sample_feed_item], sample_feed_item,
         (VStr (js "Example feed")), (VStr (js "rss")).
  split; [vm_compute; reflexivity|]; split; [left; reflexivity|].
  split; reflexivity.
Defined.

(** X22: the host with and without [www.]. *)
Lemma shouldFetchArticle_ignores_www_witness :
  shouldFetchArticle (VStr (js "https://www.reddit.com/r/x")) = false
  /\ shouldFetchArticle (VStr (js "https://reddit.com/r/x"))
     = shouldFetchArticle (VStr (js "https://www.reddit.com/r/x")).
Proof.
  destruct shouldFetchArticle_ignores_www as [_ H].
  destruct (H (VStr (js "https://www.reddit.com/r/x"))
              (VStr (js "https://reddit.com/r/x"))
              (js "reddit.com") (js "/r/x") (js "/r/x")) as [H1 H2];
    try (vm_compute; reflexivity).
  split; [rewrite H1; vm_compute; reflexivity | exact H2].
Defined.

(** X23: four spellings of one URL. *)
Lemma batchNormUrl_canonical_witness :
  batchNormUrl (VStr (js "https://www.Example.com/a//")) = Ok (js "example.com/a")
  /\ batchNormUrl (VStr (js "http://Example.com/a")) = Ok (js "example.com/a").
Proof.
  split.
  - exact (batchNormUrl_canonical true true (js "Example.com/") 97 (js "//")
             ltac:(discriminate) eq_refl eq_refl).
  - exact (batchNormUrl_canonical false false (js "Example.com/") 97 []
             ltac:(discriminate) eq_refl eq_refl).
Defined.

(** X24: a path with and without a slash at its end. *)
Lemma url_normalisation_ignores_trailing_slashes_witness :
  normalizeUrlForHash (VStr (js "https://example.com/a/"))
  = normalizeUrlForHash (VStr (js "https://example.com/a"))
  /\ normalizeUrl (VStr (js "https://example.com/a/"))
     = normalizeUrl (VStr (js "https://example.com/a"))
  /\ exists n, normalizeUrlForHash (VStr (js "https://example.com/a")) = Ok n
               /\ normalizeUrlForHash (VStr (js "https://example.com/a/")) = Ok n.
Proof.
  exact (url_normalisation_ignores_trailing_slashes
           (VStr (js "https://example.com/a")) (VStr (js "https://example.com/a/"))
           (js "example.com") (js "/a") (js "/") eq_refl eq_refl eq_refl).
Defined.

(** X25: the title of [story] with other spacing and another URL, an
    hour after [story] was recorded. *)
Lemma recorded_title_suppresses_witness :
  exists h, loadPushedHistory story_db 72 3600 = Ok h
            /\ isItemPushedBefore h
                 (obj [("title", js " Story  one");
                       ("url", js "https://other.example/2")]%string)
               = Ok true.
Proof.
  destruct recorded_title_suppresses as [_ H].
  apply (H _ (Row (js "514fa6e019d348c3") (js "cb29803c0f61f6ad")
                  (js "Story one") (VStr (js "https://example.com/story-1"))
                  (js "4h") 0)
           _ (js "https://other.example/2") (js " Story  one"));
    try (vm_compute; reflexivity).
  - left; reflexivity.
  - vm_compute; discriminate.
Defined.

(** X26: a title with and without its punctuation. *)
Lemma titles_equal_up_to_separators_witness :
  normalizeTitle (VStr (js "Hello, World!")) = normalizeTitle (VStr (js "Hello World"))
  /\ titlesAreSimilar (VStr (js "Hello, World!")) (VStr (js "Hello World"))
     = Ok (nonempty (toLowerCase
                       (filter (fun c => negb (title_separator c))
                               (js "Hello, World!")))).
Proof.
  apply titles_equal_up_to_separators; vm_compute; reflexivity.
Defined.

(** X28: an object on three lines whose summary holds two unescaped
    quotes. *)
Lemma fixLlmJsonQuotes_repairs_value_witness :
  fixLlmJsonQuotes
    (join_lines [js "{";
                 key_value_line (js "  ") (js "summary") [] (js " ")
                                (jsq "He said 'hello'") true [];
                 js "}"])
  = join_lines [js "{";
                key_value_line (js "  ") (js "summary") [] (js " ")
                               (jsq "He said \'hello\'") true [];
                js "}"].
Proof.
  refine (proj1 (fixLlmJsonQuotes_repairs_value
                   [js "{"] [js "}"] (js "summary") (jsq "He said 'hello'")
                   (js "  ") [] (js " ") [] true _ _ _ _ _ _ _)).
  - unfold repaired_keys; cbn [In]; auto 10.
  - reflexivity.
  - reflexivity.
  - reflexivity.
  - reflexivity.
  - reflexivity.
  - repeat constructor.
Defined.

(** X29: the link of a block that holds another element before it. *)
Lemma xmlText_reads_element_witness :
  xmlText (js "<guid>1</guid> <link rel=x> https://example.com/a </link>")
          (js "link")
  = js "https://example.com/a".
Proof.
  exact (proj2 (xmlText_reads_element
                  (js "<guid>1</guid> ") (js "link") (js " rel=x")
                  (js " https://example.com/a ") [] false
                  eq_refl eq_refl eq_refl eq_refl) eq_refl).
Defined.

(** X30: a feed whose first item is empty and whose second item has a
    title. *)
Lemma empty_item_raises_witness :
  parse_feed
    (js "<rss><channel><title>Feed</title><item></item><item><title>A</title></item></channel></rss>")
    20
  = Throw TypeError.
Proof.
  exact (proj1 (empty_item_raises
                  (js "<rss><channel><title>Feed</title>") []
                  (js "<item><title>A</title></item></channel></rss>") 20
                  eq_refl eq_refl eq_refl) ltac:(lia)).
Defined.
